(** * Brain9x: the Sudoku generator of [js/ui.js] (module [SudokuGenerator])

    A shallow embedding of the puzzle engine: the constraint checker
    [isValid], the backtracking [solve], the capped counter
    [countSolutions], the seeding of the diagonal boxes, the excavation
    [pokeHoles] and the two serialisation helpers.

    Conventions.
    - A JavaScript array of numbers is a [list Z]; a board is an array of
      row arrays.  Reading [board[row][col]] is [cell], which is [None]
      where JavaScript would produce [undefined].
    - A function that receives one board and touches no other object is
      written as a state transformer on the contents of that board (the
      board goes in, the board as the call leaves it comes out).
    - Functions that allocate arrays ([createEmptyBoard], the copies made
      by [pokeHoles], [generate]) run on a store of row objects, so that
      aliasing between boards is visible.
    - [Math.floor(Math.random() * n)] is a draw from a source of naturals
      reduced below [n]; every sequence of results the real source can
      give is the image of some such source. *)

From stdpp Require Import base list strings.
From Stdlib Require Import ZArith Lia.

Open Scope Z_scope.

(** ** Boards *)

Abbreviation Row := (list Z).
Abbreviation Board := (list (list Z)).

(** [board[row][col]] *)
Definition cell (board : Board) (row col : nat) : option Z :=
  match board !! row with
  | Some r => r !! col
  | None => None
  end.

(** [board[row][col] === num] *)
Definition cellIs (board : Board) (row col : nat) (num : Z) : bool :=
  match cell board row col with
  | Some v => Z.eqb v num
  | None => false
  end.

(** [board[row][col] = v], for a position inside the board. *)
Definition setCell (board : Board) (row col : nat) (v : Z) : Board :=
  alter (fun r => <[col := v]> r) row board.

(** [createEmptyBoard]'s contents: nine rows of nine zeros. *)
Definition emptyRow : Row := replicate 9 0.
Definition emptyBoard : Board := replicate 9 emptyRow.

(** A board of the game: nine rows of nine cells. *)
Definition wfBoard (board : Board) : Prop :=
  length board = 9%nat /\ Forall (fun r => length r = 9%nat) board.

(** ** ConstraintChecker: [isValid] *)

Definition isValid (board : Board) (row col : nat) (num : Z) : bool :=
  if existsb (fun x => cellIs board row x num) (seq 0 9) then false
  else if existsb (fun x => cellIs board x col num) (seq 0 9) then false
  else
    let startRow := (row / 3 * 3)%nat in
    let startCol := (col / 3 * 3)%nat in
    if existsb (fun i =>
         existsb (fun j => cellIs board (startRow + i) (startCol + j) num)
                 (seq 0 3)) (seq 0 3)
    then false
    else true.

(** ** Serializer: [toFlatArray], [fromFlatArray] *)

(** [board.flat()] *)
Definition toFlatArray (board : Board) : list Z := concat board.

(** [flat.slice(a, b)] for [0 <= a <= b]. *)
Definition slice (flat : list Z) (a b : nat) : list Z :=
  take (b - a) (drop a flat).

(** What a call leaves behind: a returned value or a thrown error. *)
Inductive outcome (A : Type) : Type :=
| Returned (a : A)
| Threw (msg : string).
Arguments Returned {A} a.
Arguments Threw {A} msg.

Definition fromFlatArray (flat : list Z) : outcome Board :=
  Returned (map (fun i => slice flat (i * 9) ((i + 1) * 9)) (seq 0 9)).

(** ** Backtracking Solver: [solve] *)

(** The coordinates in the order of the two nested loops
    [for row in 0..8; for col in 0..8]. *)
Definition positions : list (nat * nat) :=
  flat_map (fun i => map (fun j => (i, j)) (seq 0 9)) (seq 0 9).

(** The first cell, in that order, whose value is [0]: the cell at which
    the loops of [solve] and [solveCount] stop scanning. *)
Definition firstEmpty (board : Board) : option (nat * nat) :=
  find (fun p => cellIs board (fst p) (snd p) 0) positions.

(** The digits tried by [for (num = 1; num <= 9; num++)]. *)
Definition digits : list Z := [1; 2; 3; 4; 5; 6; 7; 8; 9].

(** The loop over [num] of [solve] at the empty cell [(row, col)];
    [self] is the recursive call.  A result carries the board as the call
    leaves it; [None] stands for a recursion cut short by its bound. *)
Fixpoint solveLoop (self : Board -> option (bool * Board)) (row col : nat)
    (nums : list Z) (board : Board) : option (bool * Board) :=
  match nums with
  | [] => Some (false, board)
  | num :: nums' =>
      if isValid board row col num then
        match self (setCell board row col num) with
        | None => None
        | Some (true, board') => Some (true, board')
        | Some (false, board') =>
            solveLoop self row col nums' (setCell board' row col 0)
        end
      else solveLoop self row col nums' board
  end.

(** [solve(board)].  Every recursive call is made on a board with one more
    digit placed, so the depth of the recursion is at most the number of
    empty cells plus one; [fuel] bounds it. *)
Fixpoint solveFuel (fuel : nat) (board : Board) : option (bool * Board) :=
  match fuel with
  | O => None
  | S fuel' =>
      match firstEmpty board with
      | None => Some (true, board)
      | Some (row, col) => solveLoop (solveFuel fuel') row col digits board
      end
  end.

(** The number of cells holding [0]. *)
Definition zeros (board : Board) : nat :=
  length (filter (fun v => v = 0) (concat board)).

Definition solve (board : Board) : option (bool * Board) :=
  solveFuel (S (zeros board)) board.

(** ** Solution Counter: [countSolutions] *)

(** The loop over [num] of the inner [solveCount(b)]; the closure variable
    [count] is threaded through next to the board. *)
Fixpoint countLoop (self : Board -> nat -> option (Board * nat))
    (row col : nat) (nums : list Z) (b : Board) (count : nat)
  : option (Board * nat) :=
  match nums with
  | [] => Some (b, count)
  | num :: nums' =>
      if isValid b row col num then
        match self (setCell b row col num) count with
        | None => None
        | Some (b', count') =>
            let b'' := setCell b' row col 0 in
            if (1 <? count')%nat then Some (b'', count')
            else countLoop self row col nums' b'' count'
        end
      else countLoop self row col nums' b count
  end.

Fixpoint solveCount (fuel : nat) (b : Board) (count : nat)
  : option (Board * nat) :=
  match fuel with
  | O => None
  | S fuel' =>
      match firstEmpty b with
      | None => Some (b, S count)
      | Some (row, col) => countLoop (solveCount fuel') row col digits b count
      end
  end.

(** [countSolutions(board)]: the board after the call and the count. *)
Definition countSolutions (board : Board) : option (Board * nat) :=
  solveCount (S (zeros board)) board 0.

(** ** The randomness source *)

(** The source is a sequence of naturals; [k] counts the draws made. *)
Definition Source := nat -> nat.

(** [Math.floor(Math.random() * n)] at the [k]-th draw. *)
Definition randomBelow (src : Source) (k n : nat) : nat := (src k mod n)%nat.

(** ** FullBoardGenerator: [fillBox], [isSafeInBox] *)

Definition isSafeInBox (board : Board) (rowStart colStart : nat) (num : Z)
  : bool :=
  negb (existsb (fun i =>
          existsb (fun j => cellIs board (rowStart + i) (colStart + j) num)
                  (seq 0 3)) (seq 0 3)).

(** [do { num = ... } while (!isSafeInBox(...))]: at most [fuel] draws;
    the digit kept and the number of draws made so far. *)
Fixpoint drawSafe (fuel : nat) (src : Source) (board : Board)
    (row col : nat) (k : nat) : option (Z * nat) :=
  match fuel with
  | O => None
  | S fuel' =>
      let num := Z.of_nat (randomBelow src k 9) + 1 in
      if isSafeInBox board row col num then Some (num, S k)
      else drawSafe fuel' src board row col (S k)
  end.

(** The body of the two loops of [fillBox], over the cells of the box in
    the order [(0,0), (0,1), ..., (2,2)]. *)
Fixpoint fillCells (fuel : nat) (src : Source) (row col : nat)
    (cells : list (nat * nat)) (board : Board) (k : nat)
  : option (Board * nat) :=
  match cells with
  | [] => Some (board, k)
  | (i, j) :: cells' =>
      match drawSafe fuel src board row col k with
      | None => None
      | Some (num, k') =>
          fillCells fuel src row col cells'
            (setCell board (row + i) (col + j) num) k'
      end
  end.

Definition boxCells : list (nat * nat) :=
  flat_map (fun i => map (fun j => (i, j)) (seq 0 3)) (seq 0 3).

Definition fillBox (fuel : nat) (src : Source) (board : Board)
    (row col : nat) (k : nat) : option (Board * nat) :=
  fillCells fuel src row col boxCells board k.

(** ** Excavator: the shuffle and the clue ranges *)

(** [[array[i], array[j]] = [array[j], array[i]]] *)
Definition swap {A} (array : list A) (i j : nat) : list A :=
  match array !! i, array !! j with
  | Some x, Some y => <[j := x]> (<[i := y]> array)
  | _, _ => array
  end.

(** [for (i = ...; i > 0; i--)] of [shuffleArray], entered with [i]. *)
Fixpoint shuffleFrom {A} (src : Source) (i : nat) (array : list A) (k : nat)
  : list A * nat :=
  match i with
  | O => (array, k)
  | S i' =>
      let j := randomBelow src k (i + 1) in
      shuffleFrom src i' (swap array i j) (S k)
  end.

Definition shuffleArray {A} (src : Source) (array : list A) (k : nat)
  : list A * nat :=
  shuffleFrom src (length array - 1) array k.

(** The [switch (difficulty)] of [pokeHoles]: [(minNumbers, maxNumbers)]. *)
Definition clueRange (difficulty : string) : nat * nat :=
  if String.eqb difficulty "easy" then (35, 40)%nat
  else if String.eqb difficulty "medium" then (30, 34)%nat
  else if String.eqb difficulty "hard" then (25, 29)%nat
  else (30, 34)%nat.

(** ** The store: row objects and board references *)

(** Every row array is an object of the store, named by its address; a
    board value of the program is the array of the addresses of its rows.
    Objects are never freed. *)
Abbreviation Store := (list (list Z)).
Abbreviation Ref := (list nat).

(** The state of a run: the store and the number of draws made. *)
Record World := mkWorld { store : Store; draws : nat }.

(** A computation: [None] when a loop bound of the model is reached or a
    read fails where JavaScript would raise a [TypeError]. *)
Definition M (A : Type) : Type := World -> option (A * World).

#[global] Instance M_ret : MRet M := fun A a w => Some (a, w).
#[global] Instance M_bind : MBind M := fun A B f m w =>
  match m w with
  | Some (a, w') => f a w'
  | None => None
  end.

(** The contents of the board [g] in the store [st]. *)
Definition contents (st : Store) (g : Ref) : Board :=
  map (fun a => default [] (st !! a)) g.

(** Storing the rows of [b] at the addresses of [g]. *)
Fixpoint writeBack (st : Store) (g : Ref) (b : Board) : Store :=
  match g, b with
  | a :: g', r :: b' => writeBack (<[a := r]> st) g' b'
  | _, _ => st
  end.

(** [new Array] holding [r]: the next free address. *)
Definition allocRow (r : Row) : M nat :=
  fun w => Some (length (store w), mkWorld (store w ++ [r]) (draws w)).

Fixpoint allocRows (rows : list Row) : M Ref :=
  match rows with
  | [] => mret []
  | r :: rows' => a ← allocRow r; g ← allocRows rows'; mret (a :: g)
  end.

(** [Array(9).fill(null).map(() => Array(9).fill(0))] *)
Definition createEmptyBoard : M Ref := allocRows emptyBoard.

(** [board.map(row => [...row])] *)
Definition copyBoard (board : Ref) : M Ref :=
  fun w => allocRows (contents (store w) board) w.

(** [board[row][col]] as a value that is then used. *)
Definition readCell (board : Ref) (row col : nat) : M Z :=
  fun w => match cell (contents (store w) board) row col with
           | Some v => Some (v, w)
           | None => None
           end.

(** [board[row][col] = v]: an update of the row object. *)
Definition writeCell (board : Ref) (row col : nat) (v : Z) : M unit :=
  fun w => match board !! row with
           | Some a => Some (tt, mkWorld (alter (fun r => <[col := v]> r) a (store w))
                                         (draws w))
           | None => None
           end.

(** A call [f(board)] of a function that works on the one board it is
    given: it runs on the contents and the rows are updated in place. *)
Definition call {A} (f : Board -> option (A * Board)) (board : Ref) : M A :=
  fun w => match f (contents (store w) board) with
           | Some (a, b') =>
               Some (a, mkWorld (writeBack (store w) board b') (draws w))
           | None => None
           end.

(** The same for a function that also draws random numbers. *)
Definition callRandom (f : Board -> nat -> option (Board * nat)) (board : Ref)
  : M unit :=
  fun w => match f (contents (store w) board) (draws w) with
           | Some (b', k') => Some (tt, mkWorld (writeBack (store w) board b') k')
           | None => None
           end.

(** A computation on local data that draws random numbers. *)
Definition drawing {A} (f : nat -> A * nat) : M A :=
  fun w => let '(a, k') := f (draws w) in Some (a, mkWorld (store w) k').

(** ** FullBoardGenerator: [generateFullBoard] *)

Definition generateFullBoard (fuel : nat) (src : Source) : M Ref :=
  board ← createEmptyBoard;
  callRandom (fun b => fillBox fuel src b 0 0) board;;
  callRandom (fun b => fillBox fuel src b 3 3) board;;
  callRandom (fun b => fillBox fuel src b 6 6) board;;
  call solve board;;
  mret board.

(** ** Excavator: [pokeHoles] *)

(** [countSolutions(b)] as a call: the count is the value. *)
Definition countSolutionsOf (b : Board) : option (nat * Board) :=
  match countSolutions b with
  | Some (b', n) => Some (n, b')
  | None => None
  end.

(** The loop [for (const [row, col] of positions)].  Its state is the
    part of [positions] not yet visited and [holesPoked]; both are
    returned as they are when the loop is left. *)
Fixpoint pokeLoop (holesToPoke : nat) (puzzle : Ref)
    (rest : list (nat * nat)) (holesPoked : nat)
  : M (list (nat * nat) * nat) :=
  match rest with
  | [] => mret ([], holesPoked)
  | (row, col) :: rest' =>
      if (holesToPoke <=? holesPoked)%nat then mret (rest, holesPoked)
      else
        backup ← readCell puzzle row col;
        writeCell puzzle row col 0;;
        probe ← copyBoard puzzle;
        solutions ← call countSolutionsOf probe;
        if (solutions =? 1)%nat then
          pokeLoop holesToPoke puzzle rest' (S holesPoked)
        else
          writeCell puzzle row col backup;;
          pokeLoop holesToPoke puzzle rest' holesPoked
  end.

(** The part of [pokeHoles] before the loop: the number of holes to poke
    and the shuffled positions. *)
Definition pokePlan (src : Source) (difficulty : string)
  : M (nat * list (nat * nat)) :=
  let '(minNumbers, maxNumbers) := clueRange difficulty in
  r ← drawing (fun k => (randomBelow src k (maxNumbers - minNumbers + 1), S k));
  let numbersToKeep := (r + minNumbers)%nat in
  let holesToPoke := (81 - numbersToKeep)%nat in
  shuffled ← drawing (shuffleArray src positions);
  mret (holesToPoke, shuffled).

Definition pokeHoles (src : Source) (board : Ref) (difficulty : string)
  : M Ref :=
  plan ← pokePlan src difficulty;
  puzzle ← copyBoard board;
  pokeLoop (fst plan) puzzle (snd plan) 0;;
  mret puzzle.

(** ** The entry point: [generate] *)

Record GenerationResult := mkResult {
  puzzle : Ref;
  solution : Ref;
  difficulty : string
}.

Definition generate (fuel : nat) (src : Source) (difficulty : string)
  : M GenerationResult :=
  solution ← generateFullBoard fuel src;
  puzzle ← pokeHoles src solution difficulty;
  mret (mkResult puzzle solution difficulty).

(** ** Vocabulary of the specification *)

(** The value at a position, [0] where there is no cell. *)
Definition valueAt (board : Board) (p : nat * nat) : Z :=
  default 0 (cell board (fst p) (snd p)).

(** The positions of the nine rows, nine columns and nine boxes. *)
Definition rowUnit (r : nat) : list (nat * nat) :=
  map (fun c => (r, c)) (seq 0 9).
Definition colUnit (c : nat) : list (nat * nat) :=
  map (fun r => (r, c)) (seq 0 9).
Definition boxUnit (k : nat) : list (nat * nat) :=
  flat_map (fun i => map (fun j => (k / 3 * 3 + i, k mod 3 * 3 + j)%nat)
                         (seq 0 3)) (seq 0 3).
Definition units : list (list (nat * nat)) :=
  map rowUnit (seq 0 9) ++ map colUnit (seq 0 9) ++ map boxUnit (seq 0 9).

(** A complete valid grid: every row, column and box holds each of the
    digits 1..9 exactly once. *)
Definition validComplete (g : Board) : Prop :=
  wfBoard g /\
  forall u, In u units -> Permutation (map (valueAt g) u) digits.

(** Two positions in one row, one column or one box. *)
Definition sameUnit (p q : nat * nat) : bool :=
  Nat.eqb (fst p) (fst q) || Nat.eqb (snd p) (snd q)
  || (Nat.eqb (fst p / 3) (fst q / 3) && Nat.eqb (snd p / 3) (snd q / 3)).

Definition inGrid (p : nat * nat) : Prop := (fst p < 9 /\ snd p < 9)%nat.

(** No digit placed twice in a unit. *)
Definition consistent (b : Board) : Prop :=
  forall p q, inGrid p -> inGrid q -> p <> q -> sameUnit p q = true ->
    valueAt b p <> 0 -> valueAt b p <> valueAt b q.

(** Every cell holds a digit or is empty / holds a digit. *)
Definition cellsUpTo9 (b : Board) : Prop :=
  forall p, inGrid p -> 0 <= valueAt b p <= 9.
Definition filled (b : Board) : Prop :=
  forall p, inGrid p -> 1 <= valueAt b p <= 9.

(** [g] keeps every clue of [b]. *)
Definition extends (g b : Board) : Prop :=
  forall p, inGrid p -> valueAt b p <> 0 -> valueAt g p = valueAt b p.

(** [g] is a completion of the puzzle [b]. *)
Definition completion (g b : Board) : Prop :=
  validComplete g /\ extends g b.

(** The number of clues (non-zero cells). *)
Definition clues (board : Board) : nat :=
  length (filter (fun v => v <> 0) (concat board)).

(** [value] occurs in the row, the column or the box of [(row, col)]:
    at any cell of them, and at a cell other than [(row, col)]. *)
Definition occursInUnits (board : Board) (row col : nat) (value : Z) : Prop :=
  exists r c, inGrid (r, c) /\ sameUnit (row, col) (r, c) = true /\
              cell board r c = Some value.
Definition occursElsewhere (board : Board) (row col : nat) (value : Z) : Prop :=
  exists r c, inGrid (r, c) /\ (r, c) <> (row, col) /\
              sameUnit (row, col) (r, c) = true /\
              cell board r c = Some value.

(** A malformed serialised grid: wrong length or a value outside 0..9. *)
Definition malformed (flat : list Z) : Prop :=
  length flat <> 81%nat \/ Exists (fun v => v < 0 \/ 9 < v) flat.

(** The values of the 3x3 box with origin [(row, col)], row by row. *)
Definition boxValues (b : Board) (row col : nat) : list Z :=
  map (fun c => valueAt b (row + fst c, col + snd c)%nat) boxCells.

(** A position of one of the three boxes of the main diagonal. *)
Definition onDiagonal (p : nat * nat) : bool :=
  Nat.eqb (fst p / 3) (snd p / 3).

(** The board [generateFullBoard] hands to the solver: each diagonal box
    holds the digits 1..9 once each, every other cell is empty. *)
Definition seeded (b : Board) : Prop :=
  wfBoard b /\
  (forall k, (k < 3)%nat -> Permutation (boxValues b (3 * k) (3 * k)) digits) /\
  (forall p, inGrid p -> onDiagonal p = false -> valueAt b p = 0).

(** ** Invariants used by the proofs *)

(** The units are what [sameUnit] says: checked on the 27 units. *)
Definition unitOKb (u : list (nat * nat)) : bool :=
  Nat.eqb (length u) 9
  && forallb (fun p => Nat.ltb (fst p) 9 && Nat.ltb (snd p) 9) u
  && forallb (fun p => forallb (sameUnit p) u) u
  && forallb (fun i => forallb (fun j =>
       Nat.eqb i j
       || negb (bool_decide (nth i u (0, 0)%nat = nth j u (0, 0)%nat)))
       (seq 0 9)) (seq 0 9).

(** What a call of the solver establishes: on failure the board is as it
    was and has no completion; on success the board is full, keeps the
    clues, and places no digit twice in a unit. *)
Definition solved (b : list (list Z)) (r : bool) (b' : list (list Z)) : Prop :=
  (r = false -> b' = b) /\
  (r = true ->
   wfBoard b' /\ extends b' b /\ firstEmpty b' = None /\
   (consistent b -> consistent b') /\ (cellsUpTo9 b -> cellsUpTo9 b')).

(** What one run of the loop does to the puzzle [pz]. *)
Record poked (holesToPoke : nat) (pz : list (list Z))
    (rest : list (nat * nat)) (holesPoked : nat)
    (pz' : list (list Z)) (rest' : list (nat * nat)) (holesPoked' : nat)
  : Prop := {
  poked_wf : wfBoard pz';
  poked_cells : forall p, inGrid p ->
      valueAt pz' p = valueAt pz p \/ valueAt pz' p = 0;
  poked_unique : countSolutions pz = Some (pz, 1%nat) ->
      countSolutions pz' = Some (pz', 1%nat);
  poked_exit : rest' = [] \/ (holesToPoke <= holesPoked')%nat;
  poked_bound : (holesPoked <= holesToPoke)%nat ->
      (holesPoked' <= holesToPoke)%nat;
  poked_clues : List.NoDup rest -> (forall p, In p rest -> valueAt pz p <> 0) ->
      (clues pz' + holesPoked' = clues pz + holesPoked)%nat
}.


(** ** Deciding validity, and the inputs of the scenarios *)

(** [validComplete] as a check: nine rows of nine cells, and every unit
    holds each digit. *)
Definition validGridb (g : Board) : bool :=
  Nat.eqb (length g) 9
  && forallb (fun r => Nat.eqb (length r) 9) g
  && forallb (fun u =>
       forallb (fun d => existsb (Z.eqb d) (map (valueAt g) u)) digits) units.

(** A complete grid, a source of draws, and the store that holds the grid
    as its first nine rows. *)
Definition sampleGrid : Board :=
  [[1; 2; 3; 4; 5; 6; 7; 8; 9];
   [4; 5; 6; 7; 8; 9; 1; 2; 3];
   [7; 8; 9; 1; 2; 3; 4; 5; 6];
   [2; 3; 4; 5; 6; 7; 8; 9; 1];
   [5; 6; 7; 8; 9; 1; 2; 3; 4];
   [8; 9; 1; 2; 3; 4; 5; 6; 7];
   [3; 4; 5; 6; 7; 8; 9; 1; 2];
   [6; 7; 8; 9; 1; 2; 3; 4; 5];
   [9; 1; 2; 3; 4; 5; 6; 7; 8]].
Definition sampleSource : Source := fun k => (k * 7 + 3)%nat.
Definition sampleWorld : World := mkWorld sampleGrid 0.
Definition emptyWorld : World := mkWorld [] 0.

(** ** Completing a seeded board

    [generateFullBoard] relies on [solve] finding a grid around the three
    diagonal boxes.  That one always exists is shown by a search over the
    ways the six other boxes can be arranged, carried out below on a
    description of a box by two functions from its nine symbols to
    [{0,1,2}]: the row and the column, within the box, of each symbol. *)
Module Seeding.
Local Open Scope nat_scope.

(** The nine symbols, and a function on them given by its table. *)
Definition ds : list nat := seq 0 9.
Definition sel (X : list nat) (d : nat) : nat := nth d X 0.
Definition tab (f : nat -> nat) : list nat := map f ds.

Fixpoint allLists (n : nat) : list (list nat) :=
  match n with
  | O => [[]]
  | S n' => flat_map (fun l => [0 :: l; 1 :: l; 2 :: l]) (allLists n')
  end.
Definition allTri : list (list nat) := allLists 9.

Fixpoint leqb (x y : list nat) : bool :=
  match x, y with
  | [], [] => true
  | a :: x', b :: y' => if Nat.eqb a b then leqb x' y' else false
  | _, _ => false
  end.
Definition memb (x : list nat) (l : list (list nat)) : bool := existsb (leqb x) l.
Fixpoint nodupb (l : list (list nat)) : bool :=
  match l with
  | [] => true
  | x :: l' => if memb x l' then false else nodupb l'
  end.

(** Tables of length nine with values below three; balanced ones take
    each value three times. *)
Fixpoint trib9 (n : nat) (X : list nat) : bool :=
  match n, X with
  | O, [] => true
  | S n', v :: X' => if Nat.ltb v 3 then trib9 n' X' else false
  | _, _ => false
  end.
Definition trib (X : list nat) : bool := trib9 9 X.
Definition tri (X : list nat) : Prop :=
  length X = 9 /\ forall d, d < 9 -> sel X d < 3.

Definition cnt (v : nat) (X : list nat) : nat := count_occ Nat.eq_dec X v.
Definition balb (X : list nat) : bool :=
  if Nat.eqb (cnt 0 X) 3 then
    if Nat.eqb (cnt 1 X) 3 then Nat.eqb (cnt 2 X) 3 else false
  else false.

(** Two tables that differ everywhere, and the table of the third
    value. *)
Fixpoint neqb (P A : list nat) : bool :=
  match P, A with
  | p :: P', a :: A' => if Nat.eqb p a then false else neqb P' A'
  | _, _ => true
  end.
Definition neq (P A : list nat) : Prop :=
  forall d, d < 9 -> sel P d <> sel A d.
Definition thirdv (p a : nat) : nat :=
  match p, a with
  | 0, 1 => 2 | 0, 2 => 1 | 1, 0 => 2 | 1, 2 => 0 | 2, 0 => 1 | 2, 1 => 0
  | _, _ => 0
  end.
Fixpoint third (P A : list nat) : list nat :=
  match P, A with
  | p :: P', a :: A' => thirdv p a :: third P' A'
  | _, _ => []
  end.

(** [R] and [C] place the nine symbols on nine different cells. *)
Definition boxOK (R C : list nat) : Prop :=
  forall d d', d < 9 -> d' < 9 ->
    sel R d = sel R d' -> sel C d = sel C d' -> d = d'.

(** A configuration of a band (or stack) whose diagonal box has rows
    [U]: the rows [y] of a second box; the third box has [third U y]. *)
Definition cfg (U y : list nat) : Prop := tri y /\ neq U y.
Definition link (U x y : list nat) : Prop := cfg U y /\ boxOK x (third U y).

(** The first diagonal box in its own coordinates. *)
Definition P0 : list nat := [0;0;0;1;1;1;2;2;2].
Definition Q0 : list nat := [0;1;2;0;1;2;0;1;2].

Definition path (V W a e : list nat) : Prop :=
  exists b c, link V a b /\ link W b c /\ link Q0 c e.

Definition confb (U X : list nat) : bool :=
  if trib X then if neqb U X then if balb X then balb (third U X) else false
  else false else false.
Definition cfgsP0 : list (list nat) :=
  Eval vm_compute in List.filter (confb P0) allTri.
Definition cfgsQ0 : list (list nat) :=
  Eval vm_compute in List.filter (confb Q0) allTri.

(** [reach V W]: at least 29 of the 56 configurations of the first band
    reach, each, at least 29 of the 56 configurations of the first
    stack. *)
Definition reach (V W : list nat) : Prop :=
  exists LA, List.NoDup LA /\ 29 <= length LA /\
    forall a, In a LA -> In a cfgsP0 /\
      exists LE, List.NoDup LE /\ 29 <= length LE /\
        forall e, In e LE -> In e cfgsQ0 /\ path V W a e.

(** *** Enumerating the partners of a table *)

Definition perms3 : list (list nat) :=
  [[0;1;2];[0;2;1];[1;0;2];[1;2;0];[2;0;1];[2;1;0]].

(** The values of [U] at the symbols where [x] is [k]. *)
Fixpoint blockVals (k : nat) (x U : list nat) : list nat :=
  match x, U with
  | v :: x', u :: U' =>
      if Nat.eqb v k then u :: blockVals k x' U' else blockVals k x' U'
  | _, _ => []
  end.
Definition opts (k : nat) (x U : list nat) : list (list nat) :=
  let us := blockVals k x U in List.filter (fun p => neqb us p) perms3.

(** The table that gives the symbols where [x] is [k] the values of
    [pk], in order. *)
Fixpoint assign (x p0 p1 p2 : list nat) : list nat :=
  match x with
  | [] => []
  | v :: x' =>
      match v with
      | 0 => match p0 with a :: p0' => a :: assign x' p0' p1 p2 | [] => [] end
      | 1 => match p1 with a :: p1' => a :: assign x' p0 p1' p2 | [] => [] end
      | _ => match p2 with a :: p2' => a :: assign x' p0 p1 p2' | [] => [] end
      end
  end.

(** The tables [y] with [boxOK x y] that differ from [U] everywhere. *)
Definition gen (U x : list nat) : list (list nat) :=
  let o0 := opts 0 x U in let o1 := opts 1 x U in let o2 := opts 2 x U in
  List.filter (fun y => if trib y then neqb U y else false)
    (flat_map (fun p0 =>
       flat_map (fun p1 => map (fun p2 => assign x p0 p1 p2) o2) o1) o0).

(** *** Sets of configurations as bit masks, keyed by tables *)

Definition mask := list bool.
Fixpoint orl (x y : mask) : mask :=
  match x, y with
  | a :: x', b :: y' => (if a then true else b) :: orl x' y'
  | [], _ => y
  | _, [] => x
  end.
Fixpoint countT (m : mask) : nat :=
  match m with [] => 0 | b :: m' => if b then S (countT m') else countT m' end.
Fixpoint onehot (i : nat) : mask :=
  match i with O => [true] | S i' => false :: onehot i' end.
Definition bit (i : nat) (m : mask) : Prop := nth i m false = true.
Fixpoint onesFrom (s : nat) (m : mask) : list nat :=
  match m with
  | [] => []
  | b :: m' => if b then s :: onesFrom (S s) m' else onesFrom (S s) m'
  end.

Inductive trie : Type :=
| Leaf (kv : list (list nat * mask))
| Node (t0 t1 t2 : trie).
Definition tempty : trie := Leaf [].
Fixpoint bucket (k : list nat) (kv : list (list nat * mask)) : mask :=
  match kv with
  | [] => []
  | (k', m) :: kv' => if leqb k k' then m else bucket k kv'
  end.
Fixpoint tfind (t : trie) (k q : list nat) : mask :=
  match t with
  | Leaf kv => bucket q kv
  | Node t0 t1 t2 =>
      match k with
      | [] => []
      | v :: k' =>
          match v with
          | 0 => tfind t0 k' q
          | 1 => tfind t1 k' q
          | _ => tfind t2 k' q
          end
      end
  end.
Definition tlookup (t : trie) (q : list nat) : mask := tfind t q q.
Fixpoint tadd (k : list nat) (km : list nat * mask) (t : trie) : trie :=
  match k with
  | [] => match t with
          | Leaf kv => Leaf (km :: kv)
          | Node _ _ _ => t
          end
  | v :: k' =>
      let '(t0, t1, t2) :=
        match t with
        | Node a b c => (a, b, c)
        | Leaf _ => (tempty, tempty, tempty)
        end in
      match v with
      | 0 => Node (tadd k' km t0) t1 t2
      | 1 => Node t0 (tadd k' km t1) t2
      | _ => Node t0 t1 (tadd k' km t2)
      end
  end.
Definition fromList (l : list (list nat * mask)) : trie :=
  fold_left (fun t km => tadd (fst km) km t) l tempty.
Fixpoint leaves (t : trie) : list (list nat * mask) :=
  match t with
  | Leaf kv => kv
  | Node t0 t1 t2 => leaves t0 ++ leaves t1 ++ leaves t2
  end.

Definition unionOver (t : trie) (keys : list (list nat)) : mask :=
  fold_left (fun acc k => orl acc (tlookup t k)) keys [].

Fixpoint indexed {A} (i : nat) (l : list A) : list (nat * A) :=
  match l with [] => [] | x :: l' => (i, x) :: indexed (S i) l' end.

(** Configurations of the first stack by the table of their third box,
    configurations of the first band by their own table. *)
Definition kvQ : list (list nat * mask) :=
  map (fun ie => (third Q0 (snd ie), onehot (fst ie))) (indexed 0 cfgsQ0).
Definition kvP : list (list nat * mask) :=
  map (fun ia => (snd ia, onehot (fst ia))) (indexed 0 cfgsP0).
Definition tIdxQ : trie := Eval vm_compute in fromList kvQ.
Definition tIdxP : trie := Eval vm_compute in fromList kvP.

(** *** The search *)

Fixpoint signCfgs (P : list nat) : list (list nat) :=
  match P with
  | [] => [[]]
  | p :: P' =>
      flat_map (fun l => [((p + 1) mod 3) :: l; ((p + 2) mod 3) :: l])
               (signCfgs P')
  end.
Definition cfgsFast (P : list nat) : list (list nat) :=
  List.filter balb (signCfgs P).
Definition okCfg (U y : list nat) : bool :=
  if trib y then if neqb U y then balb y else false else false.

(** For the stack with diagonal columns... the configurations [e] of the
    first stack linked to [c], under the key [third W c]. *)
Definition kvE (W : list nat) : list (list nat * mask) :=
  map (fun c => (third W c,
                 if okCfg W c then unionOver tIdxQ (gen Q0 c) else []))
      (cfgsFast W).
Definition tableE (W : list nat) : trie := fromList (kvE W).

(** The [e] reached from [b]. *)
Definition maskB (W : list nat) (tE : trie) (b : list nat) : mask :=
  unionOver tE (gen W b).

(** The [a] next to a [b] that reaches 29 [e]; stops at 29 of them. *)
Fixpoint cover (V W : list nat) (tE : trie) (bs : list (list nat))
    (cov : mask) : bool :=
  if Nat.leb 29 (countT cov) then true
  else
    match bs with
    | [] => false
    | b :: bs' =>
        if (if okCfg V b then Nat.leb 29 (countT (maskB W tE b)) else false)
        then let b' := third V b in
             if balb b'
             then cover V W tE bs' (orl cov (unionOver tIdxP (gen P0 b')))
             else cover V W tE bs' cov
        else cover V W tE bs' cov
    end.

(** The search over all [a], each with all its [b]. *)
Definition kvG (V W : list nat) (tE : trie) (cV : list (list nat))
    : list (list nat * mask) :=
  map (fun b => (third V b, if okCfg V b then maskB W tE b else [])) cV.
Definition maskA (V : list nat) (tG : trie) (a : list nat) : mask :=
  unionOver tG (gen V a).
Fixpoint countGood (need : nat) (V : list nat) (tG : trie)
    (l : list (list nat)) : bool :=
  match need with
  | O => true
  | S need' =>
      match l with
      | [] => false
      | a :: l' =>
          if (if balb a then Nat.leb 29 (countT (maskA V tG a)) else false)
          then countGood need' V tG l' else countGood need V tG l'
      end
  end.

Definition reachOK (W : list nat) (tE : trie)
    (Vc : list nat * list (list nat)) : bool :=
  if cover (fst Vc) W tE (snd Vc) [] then true
  else countGood 29 (fst Vc) (fromList (kvG (fst Vc) W tE (snd Vc))) cfgsP0.

(** *** Representatives *)

(** Renaming the values by [s] and the symbols by [t]. *)
Definition tr (s t X : list nat) : list nat :=
  tab (fun d => sel s (sel X (sel t d))).
Definition comp (X g : list nat) : list nat :=
  tab (fun k => sel X (sel g k)).

(** The values of a table renamed in the order of their first
    occurrence. *)
Fixpoint firsts (seen X : list nat) : list nat :=
  match X with
  | [] => seen
  | v :: X' =>
      if existsb (Nat.eqb v) seen then firsts seen X' else firsts (seen ++ [v]) X'
  end.
Fixpoint idx (v : nat) (l : list nat) : nat :=
  match l with
  | [] => 0
  | u :: l' => if Nat.eqb v u then 0 else S (idx v l')
  end.
Definition nf (X : list nat) : list nat :=
  let f := firsts [] X in map (fun v => idx v f) X.
Definition renOK (X Y : list nat) : bool :=
  existsb (fun s => leqb X (map (sel s) Y)) perms3.

Definition parts : list (list nat) :=
  Eval vm_compute in List.filter (fun X => if balb X then leqb X (nf X) else false) allTri.

Definition Vreps : list (list nat) :=
 [[0;0;0;1;1;1;2;2;2]; [0;0;0;1;1;2;1;2;2]; [0;0;0;1;1;2;2;2;1];
  [0;0;1;0;1;2;1;2;2]; [0;0;1;0;1;2;2;1;2]; [0;0;1;0;1;2;2;2;1];
  [0;0;1;0;2;1;2;1;2]; [0;0;1;0;2;1;2;2;1]; [0;0;1;0;2;2;1;1;2];
  [0;0;1;0;2;2;1;2;1]; [0;0;1;1;2;0;2;1;2]; [0;0;1;2;2;0;1;1;2];
  [0;1;2;0;1;2;0;1;2]; [0;1;2;0;1;2;0;2;1]; [0;1;2;0;1;2;2;0;1];
  [0;1;2;0;2;1;1;0;2]; [0;1;2;2;0;1;1;2;0]].
Definition VrepsC : list (list nat * list (list nat)) :=
  Eval vm_compute in map (fun V => (V, cfgsFast V)) Vreps.

Definition reachAllFor (W : list nat) : bool :=
  forallb (reachOK W (tableE W)) VrepsC.

(** The symmetries of the first box: a permutation of its rows with a
    permutation of its columns.  An entry holds the permutation of the
    cells, its inverse and the two permutations. *)
Definition inv3 (s : list nat) : list nat := map (fun k => idx k s) [0;1;2].
Definition cellPerm (a c : list nat) : list nat :=
  tab (fun k => 3 * sel a (k / 3) + sel c (k mod 3)).
Definition sym := (list nat * list nat * list nat * list nat)%type.
Definition symG (e : sym) : list nat := fst (fst (fst e)).
Definition symI (e : sym) : list nat := snd (fst (fst e)).
Definition symA (e : sym) : list nat := snd (fst e).
Definition symC (e : sym) : list nat := snd e.
Definition G36 : list sym :=
  Eval vm_compute in
    flat_map (fun a => map (fun c =>
      (cellPerm a c, cellPerm (inv3 a) (inv3 c), a, c)) perms3) perms3.

Definition symOK (e : sym) : bool :=
  leqb (tr (symA e) (symI e) P0) P0 &&
  leqb (tr (symC e) (symI e) Q0) Q0 &&
  leqb (comp (symG e) (symI e)) ds &&
  forallb (fun k => Nat.ltb k 9) (symG e) &&
  forallb (fun k => Nat.ltb k 9) (symI e) &&
  nodupb (map (fun k => [k]) (symG e)) &&
  nodupb (map (fun k => [k]) (symI e)) &&
  Nat.eqb (length (symG e)) 9 && Nat.eqb (length (symI e)) 9 &&
  memb (symA e) perms3 && memb (symC e) perms3 &&
  forallb (fun a => memb (tr (symA e) (symI e) a) cfgsP0) cfgsP0 &&
  nodupb (map (tr (symA e) (symI e)) cfgsP0) &&
  forallb (fun a => memb (tr (symC e) (symI e) a) cfgsQ0) cfgsQ0 &&
  nodupb (map (tr (symC e) (symI e)) cfgsQ0).

(** Every balanced table is, after a symmetry and a renaming, one of the
    representatives; every balanced table is a renaming of its normal
    form. *)
Definition normV (G : list sym) (reps : list (list nat)) (V : list nat)
    : bool :=
  existsb (fun e => let X := comp V (symG e) in
                    let Y := nf X in
                    if memb Y reps then renOK X Y else false) G.
Definition normW (ps : list (list nat)) (X : list nat) : bool :=
  let Y := nf X in if memb Y ps then renOK X Y else false.
Definition normOK (X : list nat) : bool :=
  if balb X then if normV G36 Vreps X then normW parts X else false
  else true.

(** The configurations of the first band and of the first stack. *)
Definition confOK (U : list nat) (l : list (list nat)) : bool :=
  forallb (fun a => confb U a && memb (third U a) l &&
                    leqb (third U (third U a)) a) l
  && nodupb l && Nat.eqb (length l) 56.

(** A configuration [a] of the first band that reaches 29 configurations
    of the first stack, and a mask that names only such [a]. *)
Definition goodA (V W a : list nat) : Prop :=
  exists LE, List.NoDup LE /\ 29 <= length LE /\
    forall e, In e LE -> In e cfgsQ0 /\ path V W a e.
Definition covered (V W : list nat) (cov : mask) : Prop :=
  forall j, bit j cov ->
    exists a, nth_error cfgsP0 j = Some a /\ goodA V W a.

(** What the check of a symmetry establishes. *)
Record symProp (e : sym) : Prop := {
  sym_P : tr (symA e) (symI e) P0 = P0;
  sym_Q : tr (symC e) (symI e) Q0 = Q0;
  sym_inv : forall d, d < 9 -> sel (symG e) (sel (symI e) d) = d;
  sym_Glt : forall d, d < 9 -> sel (symG e) d < 9;
  sym_Ilt : forall d, d < 9 -> sel (symI e) d < 9;
  sym_Iinj : forall d d', d < 9 -> d' < 9 ->
               sel (symI e) d = sel (symI e) d' -> d = d';
  sym_Gperm : Permutation (symG e) ds;
  sym_Glen : length (symG e) = 9;
  sym_A : In (symA e) perms3;
  sym_C : In (symC e) perms3;
  sym_cP : forall a, In a cfgsP0 -> In (tr (symA e) (symI e) a) cfgsP0;
  sym_nP : List.NoDup (map (tr (symA e) (symI e)) cfgsP0);
  sym_cQ : forall a, In a cfgsQ0 -> In (tr (symC e) (symI e) a) cfgsQ0;
  sym_nQ : List.NoDup (map (tr (symC e) (symI e)) cfgsQ0)
}.

(** The rows and columns of the six boxes off the diagonal, for a first
    box in its own coordinates, a second box [(P2, Q2)] and a third box
    [(P3, Q3)]. *)
Record arrangement (P2 Q2 P3 Q3 A1 T1 A2 T2 A3 T3 : list nat) : Prop := {
  arr_A1 : cfg P0 A1;
  arr_T1 : cfg Q0 T1;
  arr_A2 : cfg P2 A2;
  arr_T2 : cfg Q2 T2;
  arr_A3 : cfg P3 A3;
  arr_T3 : cfg Q3 T3;
  arr_12 : boxOK A1 (third Q2 T2);
  arr_13 : boxOK (third P0 A1) T3;
  arr_23 : boxOK A2 (third Q3 T3);
  arr_21 : boxOK (third P2 A2) T1;
  arr_31 : boxOK A3 (third Q0 T1);
  arr_32 : boxOK (third P3 A3) T2
}.

(** *** From the tables to a grid *)

(** The symbols number the cells of the first diagonal box, row by row.
    [pos b k s] is the cell of the diagonal box [k] that holds the digit
    of symbol [s]. *)
Fixpoint idxZ (v : Z) (l : list Z) : nat :=
  match l with
  | [] => 0
  | u :: l' => if Z.eqb v u then 0 else S (idxZ v l')
  end.
Definition boxOf (b : Board) (k : nat) : list Z :=
  boxValues b (3 * k) (3 * k).
Definition pos (b : Board) (k s : nat) : nat :=
  idxZ (nth s (boxOf b 0) 0%Z) (boxOf b k).
Definition rowsOf (b : Board) (k : nat) : list nat :=
  tab (fun s => pos b k s / 3).
Definition colsOf (b : Board) (k : nat) : list nat :=
  tab (fun s => pos b k s mod 3).

(** The grid whose box [(i, j)] has the rows [R i j] and the columns
    [C i j], the symbol [s] standing for the digit [nth s beta 0]. *)
Definition symAt (R C : nat -> nat -> list nat) (r c : nat) : option nat :=
  find (fun s => Nat.eqb (sel (R (r / 3) (c / 3)) s) (r mod 3)
                 && Nat.eqb (sel (C (r / 3) (c / 3)) s) (c mod 3)) ds.
Definition assemble (R C : nat -> nat -> list nat) (beta : list Z) : Board :=
  map (fun r => map (fun c => match symAt R C r c with
                              | Some s => nth s beta 0%Z
                              | None => 0%Z
                              end) (seq 0 9)) (seq 0 9).

(** Of the three boxes of a band (or stack), the one that holds a symbol
    in the row [x], from the rows [a] and [b] it has in the first two. *)
Definition pick (a b x : nat) : nat :=
  if Nat.eqb a x then 0 else if Nat.eqb b x then 1 else 2.

Definition rowTab (P2 P3 A1 A2 A3 : list nat) (i j : nat) : list nat :=
  match i, j with
  | 0, 0 => P0 | 0, 1 => A1 | 0, _ => third P0 A1
  | 1, 0 => third P2 A2 | 1, 1 => P2 | 1, _ => A2
  | _, 0 => A3 | _, 1 => third P3 A3 | _, _ => P3
  end.
Definition colTab (Q2 Q3 T1 T2 T3 : list nat) (i j : nat) : list nat :=
  match i, j with
  | 0, 0 => Q0 | 0, 1 => third Q2 T2 | 0, _ => T3
  | 1, 0 => T1 | 1, 1 => Q2 | 1, _ => third Q3 T3
  | _, 0 => third Q0 T1 | _, 1 => T2 | _, _ => Q3
  end.

End Seeding.

(** * The game logic of [Game]: the state of play and the moves

    The module keeps one state object.  Its three boards are separate
    arrays (the copies made by [initGame], the arrays built by
    [fromFlatArray]) that nothing else refers to, so the state holds them
    by value and every function is a transformer of the state.  Row and
    column numbers are naturals; a value that may be [undefined] is an
    [option], [None] being [undefined]. *)

Module Game.

(** ** Calls and arrays *)

(** What a call does: it returns, it throws, or it goes on in a way the
    model does not follow (an array is left with a hole, or a cell of a
    board is given [undefined]). *)
Inductive js (A : Type) : Type :=
| Value (a : A)
| Throw (msg : string)
| Unmodelled.
Arguments Value {A} a.
Arguments Throw {A} msg.
Arguments Unmodelled {A}.

#[global] Instance js_ret : MRet js := fun A a => Value a.
#[global] Instance js_bind : MBind js := fun A B f m =>
  match m with
  | Value a => f a
  | Throw msg => Throw msg
  | Unmodelled => Unmodelled
  end.

(** Reading or writing a property of [undefined]. *)
Definition TypeError {A} : js A := Throw "TypeError".

(** A call of the generator's module, as a call of this one. *)
Definition lift {A} (o : outcome A) : js A :=
  match o with
  | Returned a => Value a
  | Threw msg => Throw msg
  end.

(** [array[i] = v]: an update inside the array, one more element at its
    end, a hole beyond. *)
Definition assign {A} (array : list A) (i : nat) (v : A) : js (list A) :=
  if (i <? length array)%nat then Value (<[i := v]> array)
  else if (i =? length array)%nat then Value (array ++ [v])
  else Unmodelled.

(** [board[row][col]]: [board[row]] has to be there. *)
Definition at2 {A} (board : list (list A)) (row col : nat) : js (option A) :=
  match board !! row with
  | Some r => Value (r !! col)
  | None => TypeError
  end.

(** [board[row][col] = v] *)
Definition assign2 {A} (board : list (list A)) (row col : nat) (v : A)
  : js (list (list A)) :=
  match board !! row with
  | Some r => r' ← assign r col v; Value (<[row := r']> board)
  | None => TypeError
  end.

(** [array.indexOf(num)]; [None] is [-1]. *)
Fixpoint indexOf (num : Z) (array : list Z) : option nat :=
  match array with
  | [] => None
  | x :: array' =>
      if Z.eqb x num then Some 0%nat else S <$> indexOf num array'
  end.

(** [array.pop()]: the last element and the array that is left. *)
Definition pop {A} (array : list A) : option (A * list A) :=
  match last array with
  | Some a => Some (a, take (length array - 1) array)
  | None => None
  end.

(** [value || 0] *)
Definition orZero (value : option Z) : Z :=
  match value with
  | Some v => if Z.eqb v 0 then 0 else v
  | None => 0
  end.

(** ** The state *)

(** The entries of the undo and redo stacks:
    [{type: 'fill', row, col, oldValue, newValue}] and
    [{type: 'delete', row, col, oldValue}]. *)
Inductive Action :=
| Fill (row col : nat) (oldValue : option Z) (newValue : Z)
| Delete (row col : nat) (oldValue : option Z).

Abbreviation Notes := (list (list (list Z))).

Record GameState := mkGame {
  puzzle : Board;
  playerBoard : Board;
  solution : Board;
  difficulty : string;
  isPaused : bool;
  isCompleted : bool;
  noteMode : bool;
  selectedCell : option (nat * nat);
  notes : Notes;
  undoStack : list Action;
  redoStack : list Action
}.

(** The state the module starts with. *)
Definition gameState0 : GameState :=
  mkGame [] [] [] "easy" false false false None [] [] [].

(** [Array(9).fill(null).map(() => Array(9).fill(null).map(() => []))] *)
Definition emptyNotes : Notes := replicate 9 (replicate 9 []).

(** The state with other notes; with another player board, notes and
    stacks. *)
Definition withNotes (s : GameState) (notes' : Notes) : GameState :=
  mkGame (puzzle s) (playerBoard s) (solution s) (difficulty s) (isPaused s)
         (isCompleted s) (noteMode s) (selectedCell s) notes'
         (undoStack s) (redoStack s).

Definition withMove (s : GameState) (playerBoard' : Board) (notes' : Notes)
    (undoStack' redoStack' : list Action) : GameState :=
  mkGame (puzzle s) playerBoard' (solution s) (difficulty s) (isPaused s)
         (isCompleted s) (noteMode s) (selectedCell s) notes'
         undoStack' redoStack'.

Definition ensureNotesInitialized (notes : Notes) (row col : nat) : js Notes :=
  notes1 ← match notes !! row with
           | Some _ => Value notes
           | None => assign notes row []
           end;
  match notes1 !! row with
  | Some r =>
      match r !! col with
      | Some _ => Value notes1
      | None => r' ← assign r col []; Value (<[row := r']> notes1)
      end
  | None => TypeError
  end.

(** ** Starting and loading a game *)

(** The board behind a reference, as a value. *)
Definition held (board : Ref) : M Board :=
  fun w => Some (contents (store w) board, w).

(** [initGame(difficulty)]: the generator runs on the store; the two
    copies of the puzzle and the solution board are then the state's own. *)
Definition initGame (fuel : nat) (src : Source) (difficulty : string)
  : M GameState :=
  data ← generate fuel src difficulty;
  let 'mkResult dataPuzzle dataSolution _ := data in
  puzzleRef ← copyBoard dataPuzzle;
  playerBoardRef ← copyBoard dataPuzzle;
  puzzle ← held puzzleRef;
  playerBoard ← held playerBoardRef;
  solution ← held dataSolution;
  mret (mkGame puzzle playerBoard solution difficulty
               false false false None emptyNotes [] []).

(** The object [getGameState] builds and [loadGame] reads; [notes] is
    [None] when the saved object has no array there. *)
Module Saved.
Record t := mk {
  puzzle : list Z;
  playerBoard : list Z;
  solution : list Z;
  difficulty : string;
  notes : option Notes;
  isCompleted : bool
}.
End Saved.

(** The two loops of [loadGame] over the saved notes; every element of a
    note array is a number here, so [typeof n === 'number'] holds. *)
Definition loadNotes (savedNotes : option Notes) : Notes :=
  match savedNotes with
  | None => emptyNotes
  | Some saved =>
      foldl (fun notes p =>
               match saved !! fst p with
               | Some r =>
                   match r !! snd p with
                   | Some ns =>
                       alter (fun nr => <[snd p := filter (fun n => 1 <= n <= 9) ns]> nr)
                             (fst p) notes
                   | None => notes
                   end
               | None => notes
               end)
            emptyNotes positions
  end.

Definition loadGame (savedGame : Saved.t) : js GameState :=
  let notes := loadNotes (Saved.notes savedGame) in
  puzzle ← lift (fromFlatArray (Saved.puzzle savedGame));
  playerBoard ← lift (fromFlatArray (Saved.playerBoard savedGame));
  solution ← lift (fromFlatArray (Saved.solution savedGame));
  Value (mkGame puzzle playerBoard solution (Saved.difficulty savedGame)
                false false false None notes [] []).

Definition getGameState (s : GameState) : Saved.t :=
  Saved.mk (toFlatArray (puzzle s)) (toFlatArray (playerBoard s))
           (toFlatArray (solution s)) (difficulty s) (Some (notes s))
           (isCompleted s).

(** ** Selection and modes *)

Definition selectCell (row col : nat) (s : GameState) : GameState :=
  if isPaused s || isCompleted s then s
  else mkGame (puzzle s) (playerBoard s) (solution s) (difficulty s)
              (isPaused s) (isCompleted s) (noteMode s) (Some (row, col))
              (notes s) (undoStack s) (redoStack s).

Definition deselectCell (s : GameState) : GameState :=
  mkGame (puzzle s) (playerBoard s) (solution s) (difficulty s)
         (isPaused s) (isCompleted s) (noteMode s) None
         (notes s) (undoStack s) (redoStack s).

Definition toggleNoteMode (s : GameState) : GameState :=
  mkGame (puzzle s) (playerBoard s) (solution s) (difficulty s)
         (isPaused s) (isCompleted s) (negb (noteMode s)) (selectedCell s)
         (notes s) (undoStack s) (redoStack s).

Definition togglePause (s : GameState) : GameState :=
  mkGame (puzzle s) (playerBoard s) (solution s) (difficulty s)
         (negb (isPaused s)) (isCompleted s) (noteMode s) (selectedCell s)
         (notes s) (undoStack s) (redoStack s).

Definition markAsCompleted (s : GameState) : GameState :=
  mkGame (puzzle s) (playerBoard s) (solution s) (difficulty s)
         (isPaused s) true (noteMode s) (selectedCell s)
         (notes s) (undoStack s) (redoStack s).

(** ** The moves *)

Definition fillNumber (num : Z) (s : GameState) : js GameState :=
  match selectedCell s with
  | None => Value s
  | Some (row, col) =>
      if isPaused s || isCompleted s then Value s
      else
        given ← at2 (puzzle s) row col;
        if negb (bool_decide (given = Some 0)) then Value s
        else
          notes1 ← ensureNotesInitialized (notes s) row col;
          if noteMode s then
            cellNotes ← at2 notes1 row col;
            match cellNotes with
            | None => TypeError
            | Some ns =>
                let ns' := match indexOf num ns with
                           | None => ns ++ [num]
                           | Some noteIndex => delete noteIndex ns
                           end in
                notes2 ← assign2 notes1 row col ns';
                Value (withNotes s notes2)
            end
          else
            oldValue ← at2 (playerBoard s) row col;
            let undoStack' := undoStack s ++ [Fill row col oldValue num] in
            playerBoard' ← assign2 (playerBoard s) row col num;
            notes2 ← assign2 notes1 row col [];
            Value (withMove s playerBoard' notes2 undoStack' [])
  end.

Definition deleteNumber (s : GameState) : js GameState :=
  match selectedCell s with
  | None => Value s
  | Some (row, col) =>
      if isPaused s || isCompleted s then Value s
      else
        given ← at2 (puzzle s) row col;
        if negb (bool_decide (given = Some 0)) then Value s
        else
          notes1 ← ensureNotesInitialized (notes s) row col;
          current ← at2 (playerBoard s) row col;
          if bool_decide (current = Some 0) then Value (withNotes s notes1)
          else if noteMode s then
            notes2 ← assign2 notes1 row col [];
            Value (withNotes s notes2)
          else
            let undoStack' := undoStack s ++ [Delete row col current] in
            playerBoard' ← assign2 (playerBoard s) row col 0;
            Value (withMove s playerBoard' notes1 undoStack' [])
  end.

(** The cell an action is about, and the values [undo] and [redo] write
    there. *)
Definition target (action : Action) : nat * nat :=
  match action with
  | Fill row col _ _ => (row, col)
  | Delete row col _ => (row, col)
  end.

Definition undone (action : Action) : Z :=
  match action with
  | Fill _ _ oldValue _ => orZero oldValue
  | Delete _ _ oldValue => orZero oldValue
  end.

Definition redone (action : Action) : Z :=
  match action with
  | Fill _ _ _ newValue => newValue
  | Delete _ _ _ => 0
  end.

Definition undo (s : GameState) : js GameState :=
  match pop (undoStack s) with
  | None => Value s
  | Some (action, undoStack') =>
      let redoStack' := redoStack s ++ [action] in
      let '(row, col) := target action in
      notes1 ← ensureNotesInitialized (notes s) row col;
      playerBoard' ← assign2 (playerBoard s) row col (undone action);
      Value (withMove s playerBoard' notes1 undoStack' redoStack')
  end.

Definition redo (s : GameState) : js GameState :=
  match pop (redoStack s) with
  | None => Value s
  | Some (action, redoStack') =>
      let undoStack' := undoStack s ++ [action] in
      let '(row, col) := target action in
      notes1 ← ensureNotesInitialized (notes s) row col;
      playerBoard' ← assign2 (playerBoard s) row col (redone action);
      Value (withMove s playerBoard' notes1 undoStack' redoStack')
  end.

(** The loops of [hint] that collect the empty cells, over the cells [ps]
    still to visit. *)
Fixpoint emptyCells (board : Board) (ps : list (nat * nat))
  : js (list (nat * nat)) :=
  match ps with
  | [] => Value []
  | (row, col) :: ps' =>
      v ← at2 board row col;
      rest ← emptyCells board ps';
      Value (if bool_decide (v = Some 0) then (row, col) :: rest else rest)
  end.

(** [hint()]: the cell it filled, if any, the state, and the draws made. *)
Definition hint (src : Source) (s : GameState) (k : nat)
  : js (option (nat * nat) * GameState * nat) :=
  if isPaused s || isCompleted s then Value (None, s, k)
  else
    cells ← emptyCells (playerBoard s) positions;
    if (length cells =? 0)%nat then Value (None, s, k)
    else
      let randomIndex := randomBelow src k (length cells) in
      match cells !! randomIndex with
      | None => TypeError
      | Some (row, col) =>
          notes1 ← ensureNotesInitialized (notes s) row col;
          correct ← at2 (solution s) row col;
          match correct with
          | None => Unmodelled
          | Some correctNum =>
              let undoStack' :=
                undoStack s ++ [Fill row col (Some 0) correctNum] in
              playerBoard' ← assign2 (playerBoard s) row col correctNum;
              notes2 ← assign2 notes1 row col [];
              Value (Some (row, col),
                     withMove s playerBoard' notes2 undoStack' [], S k)
          end
      end.

(** ** Checking *)

Record CheckResult := mkCheck {
  isCorrect : bool;
  errorCells : list (nat * nat)
}.

(** The loops of [checkAnswer] over the cells [ps] still to visit. *)
Fixpoint checkCells (playerBoard solution : Board) (ps : list (nat * nat))
    (result : CheckResult) : js CheckResult :=
  match ps with
  | [] => Value result
  | (row, col) :: ps' =>
      playerNum ← at2 playerBoard row col;
      correctNum ← at2 solution row col;
      if negb (bool_decide (playerNum = Some 0))
         && negb (bool_decide (playerNum = correctNum))
      then checkCells playerBoard solution ps'
             (mkCheck false (errorCells result ++ [(row, col)]))
      else checkCells playerBoard solution ps' result
  end.

Definition checkAnswer (s : GameState) : js CheckResult :=
  checkCells (playerBoard s) (solution s) positions (mkCheck true []).

Definition checkCell (row col : nat) (s : GameState) : js bool :=
  playerNum ← at2 (playerBoard s) row col;
  correctNum ← at2 (solution s) row col;
  Value (bool_decide (playerNum = Some 0)
         || bool_decide (playerNum = correctNum)).

(** The loops of [hasEmptyCell]: left at the first cell that holds no
    digit. *)
Fixpoint someNoDigit (board : Board) (ps : list (nat * nat)) : js bool :=
  match ps with
  | [] => Value false
  | (row, col) :: ps' =>
      val ← at2 board row col;
      match val with
      | None => Value true
      | Some v => if (v <? 1) || (9 <? v) then Value true
                  else someNoDigit board ps'
      end
  end.

Definition hasEmptyCell (s : GameState) : js bool :=
  someNoDigit (playerBoard s) positions.

(** The first loops of [checkCompletion]: left at the first cell that
    holds [0]. *)
Fixpoint someZero (board : Board) (ps : list (nat * nat)) : js bool :=
  match ps with
  | [] => Value false
  | (row, col) :: ps' =>
      v ← at2 board row col;
      if bool_decide (v = Some 0) then Value true else someZero board ps'
  end.

Definition checkCompletion (s : GameState) : js (bool * GameState) :=
  hasZero ← someZero (playerBoard s) positions;
  if (hasZero : bool) then Value (false, s)
  else
    checkResult ← checkAnswer s;
    if isCorrect checkResult then Value (true, markAsCompleted s)
    else Value (false, s).

(** ** Queries *)

Definition getCellValue (row col : nat) (s : GameState) : Z :=
  match playerBoard s !! row with
  | None => 0
  | Some r =>
      match r !! col with
      | Some value => if (0 <=? value) && (value <=? 9) then value else 0
      | None => 0
      end
  end.

Definition isFixedCell (row col : nat) (s : GameState) : bool :=
  match puzzle s !! row with
  | None => false
  | Some r =>
      match r !! col with
      | Some value => (0 <? value) && (value <=? 9)
      | None => false
      end
  end.

Definition getCellNotes (row col : nat) (s : GameState) : list Z :=
  match notes s !! row with
  | None => []
  | Some r =>
      match r !! col with
      | Some ns => filter (fun n => 1 <= n <= 9) ns
      | None => []
      end
  end.

Definition getRelatedCells (row col : nat) : list (nat * nat) :=
  let sameRow :=
    map (fun c => (row, c)) (filter (fun c => c <> col) (seq 0 9)) in
  let sameCol :=
    map (fun r => (r, col)) (filter (fun r => r <> row) (seq 0 9)) in
  let startRow := (row / 3 * 3)%nat in
  let startCol := (col / 3 * 3)%nat in
  let sameBox :=
    filter (fun p => fst p <> row \/ snd p <> col)
           (flat_map (fun r => map (fun c => (r, c)) (seq startCol 3))
                     (seq startRow 3)) in
  sameRow ++ sameCol ++ sameBox.

Definition isGameInitialized (s : GameState) : bool :=
  (0 <? length (playerBoard s))%nat.

Definition canUndo (s : GameState) : bool := (0 <? length (undoStack s))%nat.
Definition canRedo (s : GameState) : bool := (0 <? length (redoStack s))%nat.

(** ** Sessions *)

(** The calls that change the state of a game in progress. *)
Inductive Call :=
| SelectCell (row col : nat)
| DeselectCell
| FillNumber (num : Z)
| DeleteNumber
| ToggleNoteMode
| Undo
| Redo
| Hint
| TogglePause
| CheckCompletion
| MarkAsCompleted.

(** One call, on the state and the number of random draws made. *)
Definition perform (src : Source) (c : Call) (st : GameState * nat)
  : js (GameState * nat) :=
  let '(s, k) := st in
  match c with
  | SelectCell row col => Value (selectCell row col s, k)
  | DeselectCell => Value (deselectCell s, k)
  | FillNumber num => s' ← fillNumber num s; Value (s', k)
  | DeleteNumber => s' ← deleteNumber s; Value (s', k)
  | ToggleNoteMode => Value (toggleNoteMode s, k)
  | Undo => s' ← undo s; Value (s', k)
  | Redo => s' ← redo s; Value (s', k)
  | Hint => r ← hint src s k; Value (snd (fst r), snd r)
  | TogglePause => Value (togglePause s, k)
  | CheckCompletion => r ← checkCompletion s; Value (snd r, k)
  | MarkAsCompleted => Value (markAsCompleted s, k)
  end.

(** A sequence of calls, one after the other. *)
Fixpoint session (src : Source) (calls : list Call) (st : GameState * nat)
  : js (GameState * nat) :=
  match calls with
  | [] => Value st
  | c :: calls' => st' ← perform src c st; session src calls' st'
  end.

(** [undo()] called [n] times. *)
Fixpoint undoTimes (n : nat) (s : GameState) : js GameState :=
  match n with
  | O => Value s
  | S n' => s' ← undo s; undoTimes n' s'
  end.

(** A call whose arguments are a cell of the grid, as the board of the
    page passes them. *)
Definition inGridCall (c : Call) : Prop :=
  match c with
  | SelectCell row col => inGrid (row, col)
  | _ => True
  end.

(** The calls other than [checkCompletion] and [markAsCompleted]. *)
Definition plainCall (c : Call) : bool :=
  match c with
  | CheckCompletion | MarkAsCompleted => false
  | _ => true
  end.

(** ** Vocabulary for the properties of a game *)

Definition wfNotes (notes : Notes) : Prop :=
  length notes = 9%nat /\ Forall (fun r => length r = 9%nat) notes.

(** The notes of a cell, [[]] where there are none. *)
Definition notesAt (notes : Notes) (p : nat * nat) : list Z :=
  match notes !! fst p with
  | Some r => default [] (r !! snd p)
  | None => []
  end.

(** A game as [initGame] and [loadGame] leave it when the boards are 9x9:
    the player board holds every given, nothing is on the stacks. *)
Record started (s : GameState) : Prop := {
  started_puzzle : wfBoard (puzzle s);
  started_board : wfBoard (playerBoard s);
  started_solution : wfBoard (solution s);
  started_notes : wfNotes (notes s);
  started_givens : forall p, inGrid p -> valueAt (puzzle s) p <> 0 ->
      valueAt (playerBoard s) p = valueAt (puzzle s) p;
  started_selected : forall p, selectedCell s = Some p -> inGrid p;
  started_undo : undoStack s = [];
  started_redo : redoStack s = []
}.

(** The parts of the state that no move touches. *)
Definition sameGame (s s' : GameState) : Prop :=
  puzzle s' = puzzle s /\ solution s' = solution s /\
  difficulty s' = difficulty s.

(** The undo stack, read from its top, is the history of the board: the
    cell of each action holds what the action wrote, and taking the
    actions back one by one leads to [origin]. *)
Fixpoint history (origin board : Board) (fromTop : list Action) : Prop :=
  match fromTop with
  | [] => board = origin
  | a :: older =>
      valueAt board (target a) = redone a /\
      history origin (setCell board (fst (target a)) (snd (target a)) (undone a))
              older
  end.

(** The redo stack, read from its top, is what was undone: the cell of
    each action holds what undoing wrote. *)
Fixpoint future (board : Board) (fromTop : list Action) : Prop :=
  match fromTop with
  | [] => True
  | a :: older =>
      valueAt board (target a) = undone a /\
      future (setCell board (fst (target a)) (snd (target a)) (redone a)) older
  end.

(** An action about an empty cell of the puzzle, inside the grid, that
    recorded a number. *)
Definition onOpenCell (puzzle : Board) (a : Action) : Prop :=
  inGrid (target a) /\ valueAt puzzle (target a) = 0 /\
  match a with
  | Fill _ _ oldValue _ => is_Some oldValue
  | Delete _ _ oldValue => is_Some oldValue
  end.

(** What every call keeps, in a game that began with the board [origin]. *)
Record inPlay (origin : Board) (s : GameState) : Prop := {
  inPlay_puzzle : wfBoard (puzzle s);
  inPlay_board : wfBoard (playerBoard s);
  inPlay_solution : wfBoard (solution s);
  inPlay_notes : wfNotes (notes s);
  inPlay_givens : forall p, inGrid p -> valueAt (puzzle s) p <> 0 ->
      valueAt (playerBoard s) p = valueAt (puzzle s) p;
  inPlay_selected : forall p, selectedCell s = Some p -> inGrid p;
  inPlay_actions : Forall (onOpenCell (puzzle s)) (undoStack s ++ redoStack s);
  inPlay_history : history origin (playerBoard s) (reverse (undoStack s));
  inPlay_future : future (playerBoard s) (reverse (redoStack s))
}.

(** The cells other than [p] that share a row, a column or a box with
    [p]; and what [getRelatedCells] is checked against at [p]: 24 entries,
    20 different ones, all in the grid, and exactly those cells. *)
Definition related (p q : nat * nat) : bool :=
  negb (bool_decide (p = q)) && sameUnit p q.

Definition relatedOK (p : nat * nat) : bool :=
  let cells := getRelatedCells (fst p) (snd p) in
  Nat.eqb (length cells) 24
  && Nat.eqb (length (remove_dups cells)) 20
  && forallb (fun q => bool_decide (q ∈ positions)) cells
  && forallb (fun q => Bool.eqb (bool_decide (q ∈ cells)) (related p q))
             positions.

(** [s'] is [s] after a move that wrote at the cell of [a] and pushed
    [a] on the undo stack. *)
Definition pushed (s s' : GameState) (a : Action) : Prop :=
  inGrid (target a) /\
  undone a = valueAt (playerBoard s) (target a) /\
  playerBoard s' = setCell (playerBoard s) (fst (target a)) (snd (target a))
                           (redone a) /\
  undoStack s' = undoStack s ++ [a] /\
  redoStack s' = [].

End Game.

(** A game for the scenarios: the sample grid with four cells taken out,
    as a puzzle that has just been started. *)
Definition samplePuzzle : Board :=
  setCell (setCell (setCell (setCell sampleGrid 0 0 0) 0 1 0) 4 4 0) 8 8 0.

Definition sampleGame : Game.GameState :=
  Game.mkGame samplePuzzle samplePuzzle sampleGrid "easy"
              false false false None Game.emptyNotes [] [].

(** A few moves in that game. *)
Definition sampleCalls : list Game.Call :=
  [Game.SelectCell 0 0; Game.FillNumber 7; Game.Hint; Game.Undo;
   Game.SelectCell 0 1; Game.FillNumber 2; Game.DeleteNumber;
   Game.CheckCompletion; Game.Undo].

(** ** The keyboard moves of [UI]: [moveSelection] *)

Module UI.

(** [Math.max(0, Math.min(8, x))] *)
Definition clamp (x : Z) : nat := Z.to_nat (Z.max 0 (Z.min 8 x)).

(** [moveSelection(rowDelta, colDelta)], as far as the state of the game
    goes: the board is then drawn again from the state. *)
Definition moveSelection (rowDelta colDelta : Z) (s : Game.GameState)
  : Game.GameState :=
  match Game.selectedCell s with
  | None => Game.selectCell 0 0 s
  | Some (row, col) =>
      Game.selectCell (clamp (Z.of_nat row + rowDelta))
                      (clamp (Z.of_nat col + colDelta)) s
  end.

End UI.

(** * Properties *)

(** ** Cells *)

Lemma cellIs_true board row col num :
  cellIs board row col num = true <-> cell board row col = Some num.
Proof.
  unfold cellIs. destruct (cell board row col) as [v|]; [|split; discriminate].
  rewrite Z.eqb_eq. split; [intros ->; reflexivity | intros [= ->]; reflexivity].
Qed.

Lemma existsb_seq_true (f : nat -> bool) (a n : nat) :
  existsb f (seq a n) = true <-> exists x, (a <= x < a + n)%nat /\ f x = true.
Proof.
  rewrite existsb_exists. split.
  - intros (x & Hin & Hf). apply in_seq in Hin. eauto.
  - intros (x & Hin & Hf). exists x. split; [apply in_seq; lia | assumption].
Qed.

Lemma isValid_false_iff board row col num :
  isValid board row col num = false <->
  (exists x, (x < 9)%nat /\ cell board row x = Some num) \/
  (exists x, (x < 9)%nat /\ cell board x col = Some num) \/
  (exists i j, (i < 3)%nat /\ (j < 3)%nat /\
               cell board (row / 3 * 3 + i) (col / 3 * 3 + j) = Some num).
Proof.
  unfold isValid.
  destruct (existsb _ (seq 0 9)) eqn:E1.
  { split; [intros _ | reflexivity]. left.
    apply existsb_seq_true in E1 as (x & Hx & Hc).
    exists x. split; [lia | by apply cellIs_true]. }
  destruct (existsb (fun x => cellIs board x col num) _) eqn:E2.
  { split; [intros _ | reflexivity]. right; left.
    apply existsb_seq_true in E2 as (x & Hx & Hc).
    exists x. split; [lia | by apply cellIs_true]. }
  destruct (existsb _ (seq 0 3)) eqn:E3.
  { split; [intros _ | reflexivity]. right; right.
    apply existsb_seq_true in E3 as (i & Hi & Hc).
    apply existsb_seq_true in Hc as (j & Hj & Hc).
    exists i, j. repeat split; [lia | lia | by apply cellIs_true]. }
  split; [discriminate |].
  intros [(x & Hx & Hc) | [(x & Hx & Hc) | (i & j & Hi & Hj & Hc)]]; exfalso.
  - apply not_true_iff_false in E1. apply E1.
    apply existsb_seq_true. exists x. split; [lia | by apply cellIs_true].
  - apply not_true_iff_false in E2. apply E2.
    apply existsb_seq_true. exists x. split; [lia | by apply cellIs_true].
  - apply not_true_iff_false in E3. apply E3.
    apply existsb_seq_true. exists i. split; [lia |].
    apply existsb_seq_true. exists j. split; [lia | by apply cellIs_true].
Qed.

(** Positions of one unit, spelled out. *)
Lemma sameUnit_cases row col r c :
  sameUnit (row, col) (r, c) = true <->
  r = row \/ c = col \/ ((r / 3 = row / 3)%nat /\ (c / 3 = col / 3)%nat).
Proof.
  unfold sameUnit; simpl.
  rewrite !orb_true_iff, andb_true_iff, !Nat.eqb_eq. intuition congruence.
Qed.

Lemma box_offset n m : (n / 3 = m / 3)%nat ->
  exists i, (i < 3)%nat /\ n = (m / 3 * 3 + i)%nat.
Proof.
  intros H. exists (n mod 3)%nat. split.
  - apply Nat.mod_upper_bound; lia.
  - rewrite <- H. pose proof (Nat.div_mod_eq n 3). lia.
Qed.

Lemma box_offset_div m i : (i < 3)%nat -> ((m / 3 * 3 + i) / 3 = m / 3)%nat.
Proof.
  intros Hi. rewrite Nat.div_add_l by lia. rewrite (Nat.div_small i 3) by lia. lia.
Qed.

Lemma isValid_false_occurs board row col num :
  (row < 9)%nat -> (col < 9)%nat ->
  isValid board row col num = false <-> occursInUnits board row col num.
Proof.
  intros Hr Hc. rewrite isValid_false_iff. unfold occursInUnits, inGrid. simpl.
  split.
  - intros [(x & Hx & H) | [(x & Hx & H) | (i & j & Hi & Hj & H)]].
    + exists row, x. rewrite sameUnit_cases. auto.
    + exists x, col. rewrite sameUnit_cases. auto.
    + exists (row / 3 * 3 + i)%nat, (col / 3 * 3 + j)%nat.
      rewrite sameUnit_cases, !box_offset_div by assumption.
      pose proof (Nat.div_mod_eq row 3). pose proof (Nat.div_mod_eq col 3).
      pose proof (Nat.mod_upper_bound row 3). pose proof (Nat.mod_upper_bound col 3).
      split; [lia|]. split; [auto | assumption].
  - intros (r & c & [Hr' Hc'] & Hu & H). apply sameUnit_cases in Hu.
    destruct Hu as [-> | [-> | [Hbr Hbc]]].
    + left. eauto.
    + right; left. eauto.
    + right; right.
      apply box_offset in Hbr as (i & Hi & ->).
      apply box_offset in Hbc as (j & Hj & ->). eauto 6.
Qed.

(** ** ConstraintChecker (C4) *)

(** The board with the single clue 5 at [(0, 0)]. *)
Lemma clue5_cells r c :
  cell (setCell emptyBoard 0 0 5) r c = Some 5 -> (r, c) = (0%nat, 0%nat).
Proof.
  revert c.
  do 9 (destruct r as [|r];
        [intros c; do 9 (destruct c as [|c];
                         [first [reflexivity | discriminate] |]);
         discriminate |]).
  discriminate.
Qed.

(** C4, as stated, fails: with 5 already at [(0, 0)] and nowhere else,
    [isValid(grid, 0, 0, 5)] is [false] although 5 does not occur in any
    other cell of the row, the column or the box. *)
Lemma isValid_elsewhere_counterexample :
  ~ (forall board row col value,
        wfBoard board -> (row < 9)%nat -> (col < 9)%nat -> 1 <= value <= 9 ->
        (isValid board row col value = false <->
         occursElsewhere board row col value)).
Proof.
  intros H.
  assert (Hwf : wfBoard (setCell emptyBoard 0 0 5)).
  { split; [reflexivity | repeat constructor]. }
  destruct (H (setCell emptyBoard 0 0 5) 0%nat 0%nat 5 Hwf) as [H1 _];
    [lia | lia | lia |].
  destruct (H1 eq_refl) as (r & c & _ & Hne & _ & Hcell).
  apply Hne. by apply clue5_cells.
Qed.

(** C4 (amended): [isValid] answers [false] exactly when the value occurs
    in some cell of the row, the column or the box of [(row, col)], the
    cell [(row, col)] itself included; when [(row, col)] does not hold the
    value (as for the empty cells the solver asks about) this is the same
    as the value occurring elsewhere in those units. *)
Theorem isValid_spec board row col value :
  (row < 9)%nat -> (col < 9)%nat ->
  (isValid board row col value = false <-> occursInUnits board row col value)
  /\ (cell board row col <> Some value ->
      (isValid board row col value = false <->
       occursElsewhere board row col value)).
Proof.
  intros Hr Hc. split; [by apply isValid_false_occurs |].
  intros Hcell. rewrite isValid_false_occurs by assumption.
  unfold occursInUnits, occursElsewhere. split.
  - intros (r & c & Hin & Hu & Hv). exists r, c.
    split; [assumption |]. split; [| split; assumption].
    intros [= -> ->]. contradiction.
  - intros (r & c & Hin & _ & Hu & Hv). eauto.
Qed.

(** Scenario: row 0 holds 5 at column 4; 5 may not go to [(0, 7)]. *)
Lemma isValid_spec_witness :
  ((0 < 9)%nat /\ (7 < 9)%nat) /\
  ((isValid (setCell emptyBoard 0 4 5) 0 7 5 = false <->
    occursInUnits (setCell emptyBoard 0 4 5) 0 7 5)
   /\ (cell (setCell emptyBoard 0 4 5) 0 7 <> Some 5 ->
       (isValid (setCell emptyBoard 0 4 5) 0 7 5 = false <->
        occursElsewhere (setCell emptyBoard 0 4 5) 0 7 5))).
Proof.
  split; [lia | apply (isValid_spec (setCell emptyBoard 0 4 5) 0 7 5); lia].
Defined.

Example isValid_scenario_row :
  isValid (setCell emptyBoard 0 4 5) 0 7 5 = false.
Proof. reflexivity. Qed.

Example isValid_scenario_column :
  isValid (setCell emptyBoard 3 2 5) 8 2 5 = false /\
  isValid (setCell emptyBoard 3 2 5) 8 3 5 = true.
Proof. split; reflexivity. Qed.

(** ** Serializer (C5, C8) *)

Lemma length_9_inv {A} (l : list A) :
  length l = 9%nat ->
  exists a b c d e f g h i, l = [a; b; c; d; e; f; g; h; i].
Proof.
  intros H. do 9 (destruct l as [|? l]; [discriminate|]).
  destruct l; [|discriminate]. eauto 10.
Qed.

Lemma wfBoard_inv board :
  wfBoard board ->
  exists r0 r1 r2 r3 r4 r5 r6 r7 r8,
    board = [r0; r1; r2; r3; r4; r5; r6; r7; r8] /\
    Forall (fun r => length r = 9%nat) [r0; r1; r2; r3; r4; r5; r6; r7; r8].
Proof.
  intros [Hl Hrows]. apply length_9_inv in Hl as (r0&r1&r2&r3&r4&r5&r6&r7&r8&->).
  eauto 12.
Qed.

Lemma slice_app_row (r rest : list Z) (n : nat) :
  length r = 9%nat ->
  slice (r ++ rest) (S n * 9) ((S n + 1) * 9) = slice rest (n * 9) ((n + 1) * 9).
Proof.
  intros Hr. unfold slice.
  replace (S n * 9)%nat with (length r + n * 9)%nat by lia.
  rewrite <- drop_drop, drop_app_length. f_equal. lia.
Qed.

Lemma slice_first_row (r rest : list Z) :
  length r = 9%nat -> slice (r ++ rest) (0 * 9) ((0 + 1) * 9) = r.
Proof.
  intros Hr. unfold slice. simpl drop.
  replace ((0 + 1) * 9 - 0 * 9)%nat with (length r) by (simpl; lia).
  apply take_app_length.
Qed.

Lemma slices_concat (rows : list (list Z)) :
  Forall (fun r => length r = 9%nat) rows ->
  map (fun i => slice (concat rows) (i * 9) ((i + 1) * 9))
      (seq 0 (length rows)) = rows.
Proof.
  induction 1 as [|r rows Hr _ IH]; [reflexivity |].
  simpl length. simpl seq. simpl concat. rewrite map_cons. f_equal.
  - by apply slice_first_row.
  - rewrite <- seq_shift, map_map. rewrite <- IH at 2.
    apply map_ext. intros i. by apply slice_app_row.
Qed.

Lemma concat_rows_length (rows : list (list Z)) :
  Forall (fun r => length r = 9%nat) rows ->
  length (concat rows) = (length rows * 9)%nat.
Proof.
  induction 1 as [|r rows Hr _ IH]; [reflexivity |].
  simpl. rewrite length_app. lia.
Qed.

Lemma concat_rows_lookup (rows : list (list Z)) (r c : nat) :
  Forall (fun row => length row = 9%nat) rows -> (c < 9)%nat ->
  concat rows !! (r * 9 + c)%nat = cell rows r c.
Proof.
  intros H. revert r. induction H as [|row rows Hrow _ IH]; intros r Hc.
  - unfold cell. destruct r; reflexivity.
  - simpl concat. destruct r as [|r].
    + unfold cell; simpl. apply lookup_app_l. lia.
    + rewrite lookup_app_r by lia.
      replace (S r * 9 + c - length row)%nat with (r * 9 + c)%nat by lia.
      by rewrite IH.
Qed.

(** C5: flattening gives the 81 cells in row-major order and
    unflattening the result gives the grid back, cell for cell. *)
Theorem flatten_roundtrip (g : Board) :
  wfBoard g ->
  Forall (Forall (fun v => 0 <= v <= 9)) g ->
  fromFlatArray (toFlatArray g) = Returned g /\
  length (toFlatArray g) = 81%nat /\
  (forall r c, (r < 9)%nat -> (c < 9)%nat ->
     toFlatArray g !! (r * 9 + c)%nat = cell g r c).
Proof.
  intros [Hlen Hrows] _. unfold fromFlatArray, toFlatArray. split; [|split].
  - f_equal. pose proof (slices_concat g Hrows) as H.
    by rewrite Hlen in H.
  - rewrite concat_rows_length by assumption. lia.
  - intros r c _ Hc. by apply concat_rows_lookup.
Qed.

Lemma flatten_roundtrip_witness :
  (wfBoard emptyBoard /\ Forall (Forall (fun v => 0 <= v <= 9)) emptyBoard) /\
  (fromFlatArray (toFlatArray emptyBoard) = Returned emptyBoard /\
   length (toFlatArray emptyBoard) = 81%nat /\
   (forall r c, (r < 9)%nat -> (c < 9)%nat ->
      toFlatArray emptyBoard !! (r * 9 + c)%nat = cell emptyBoard r c)).
Proof.
  assert (Hwf : wfBoard emptyBoard)
    by (split; [reflexivity | repeat constructor]).
  assert (Hrange : Forall (Forall (fun v => 0 <= v <= 9)) emptyBoard)
    by (repeat constructor; lia).
  split; [split; assumption | apply (flatten_roundtrip emptyBoard Hwf Hrange)].
Defined.

(** C8, as stated, fails: the empty sequence is malformed and
    [fromFlatArray] returns a board for it. *)
Lemma fromFlatArray_malformed_counterexample :
  ~ (forall flat, malformed flat -> exists msg, fromFlatArray flat = Threw msg).
Proof.
  intros H. destruct (H []) as [msg Hmsg]; [left; discriminate | discriminate].
Qed.

(** C8 (amended): [fromFlatArray] validates nothing.  For every input,
    malformed or not, it returns nine rows, the [i]-th being
    [flat.slice(9 i, 9 i + 9)]. *)
Theorem fromFlatArray_total (flat : list Z) :
  exists board,
    fromFlatArray flat = Returned board /\
    length board = 9%nat /\
    forall i, (i < 9)%nat -> board !! i = Some (slice flat (i * 9) ((i + 1) * 9)).
Proof.
  eexists. split; [reflexivity |]. split; [reflexivity |].
  intros i Hi. do 9 (destruct i as [|i]; [reflexivity |]). lia.
Qed.

Example fromFlatArray_short :
  fromFlatArray [1; 2; 3] = Returned [[1; 2; 3]; []; []; []; []; []; []; []; []].
Proof. reflexivity. Qed.

(** ** Boards as arrays *)

Lemma in_positions p : In p positions <-> inGrid p.
Proof.
  unfold positions, inGrid. rewrite in_flat_map. split.
  - intros (i & Hi & Hp). apply in_map_iff in Hp as (j & <- & Hj).
    apply in_seq in Hi, Hj. simpl. lia.
  - intros [Hr Hc]. exists (fst p). split; [apply in_seq; lia |].
    apply in_map_iff. exists (snd p). split; [by destruct p | apply in_seq; lia].
Qed.

Lemma wfBoard_cell b p : wfBoard b -> inGrid p ->
  cell b (fst p) (snd p) = Some (valueAt b p).
Proof.
  intros [Hl Hrows] [Hr Hc]. unfold valueAt, cell.
  destruct (lookup_lt_is_Some_2 b (fst p)) as [row Hrow]; [lia |].
  rewrite Hrow.
  assert (length row = 9%nat) as Hlen.
  { rewrite Forall_forall in Hrows. apply Hrows.
    by eapply list_elem_of_lookup_2. }
  destruct (lookup_lt_is_Some_2 row (snd p)) as [v Hv]; [lia |].
  by rewrite Hv.
Qed.

Lemma cell_Some_valueAt b r c v : cell b r c = Some v -> valueAt b (r, c) = v.
Proof. unfold valueAt; simpl. by intros ->. Qed.

Lemma cell_setCell_eq b r c v w :
  cell b r c = Some w -> cell (setCell b r c v) r c = Some v.
Proof.
  unfold cell, setCell. rewrite list_lookup_alter_eq.
  destruct (b !! r) as [row|]; [simpl | discriminate].
  intros H. apply list_lookup_insert_eq. by eapply lookup_lt_Some.
Qed.

Lemma cell_setCell_ne b r c v r' c' :
  (r, c) <> (r', c') -> cell (setCell b r c v) r' c' = cell b r' c'.
Proof.
  intros Hne. unfold cell, setCell.
  destruct (decide (r = r')) as [<- | Hr].
  - rewrite list_lookup_alter_eq. destruct (b !! r) as [row|]; [simpl | reflexivity].
    apply list_lookup_insert_ne. congruence.
  - by rewrite list_lookup_alter_ne.
Qed.

Lemma valueAt_setCell_eq b r c v w :
  cell b r c = Some w -> valueAt (setCell b r c v) (r, c) = v.
Proof. intros H. apply cell_Some_valueAt. by eapply cell_setCell_eq. Qed.

Lemma valueAt_setCell_ne b r c v q :
  (r, c) <> q -> valueAt (setCell b r c v) q = valueAt b q.
Proof.
  intros Hne. unfold valueAt. destruct q as [r' c']. simpl.
  by rewrite cell_setCell_ne.
Qed.

Lemma wfBoard_setCell b r c v : wfBoard b -> wfBoard (setCell b r c v).
Proof.
  intros [Hl Hrows]. unfold setCell. split; [by rewrite length_alter |].
  apply Forall_forall. intros row Hin.
  apply list_elem_of_lookup_1 in Hin as [i Hi].
  rewrite Forall_forall in Hrows.
  destruct (decide (r = i)) as [-> | Hne].
  - rewrite list_lookup_alter_eq in Hi.
    destruct (b !! i) as [row0|] eqn:E; [|discriminate].
    injection Hi as <-. rewrite length_insert. apply Hrows.
    by eapply list_elem_of_lookup_2.
  - rewrite list_lookup_alter_ne in Hi by assumption. apply Hrows.
    by eapply list_elem_of_lookup_2.
Qed.

(** Undoing a trial placement gives the board back. *)
Lemma setCell_restore b r c v :
  cell b r c = Some 0 -> setCell (setCell b r c v) r c 0 = b.
Proof.
  unfold cell, setCell. intros H. rewrite list_alter_alter_eq.
  apply list_eq. intros i. destruct (decide (r = i)) as [<- | Hne].
  - rewrite list_lookup_alter_eq. destruct (b !! r) as [row|]; [simpl | reflexivity].
    f_equal. rewrite list_insert_insert_eq. by apply list_insert_id.
  - by rewrite list_lookup_alter_ne.
Qed.

Lemma setCell_setCell b r c v w :
  setCell (setCell b r c v) r c w = setCell b r c w.
Proof.
  unfold setCell. rewrite list_alter_alter_eq. apply list_alter_ext; [|reflexivity].
  intros row _. simpl. apply list_insert_insert_eq.
Qed.

(** Boards with the same values are the same board. *)
Lemma wfBoard_ext b1 b2 : wfBoard b1 -> wfBoard b2 ->
  (forall p, inGrid p -> valueAt b1 p = valueAt b2 p) -> b1 = b2.
Proof.
  intros H1 H2 Hv.
  assert (Hc : forall r c, (r < 9)%nat -> (c < 9)%nat -> cell b1 r c = cell b2 r c).
  { intros r c Hr Hcol.
    pose proof (wfBoard_cell b1 (r, c) H1) as E1.
    pose proof (wfBoard_cell b2 (r, c) H2) as E2. simpl in E1, E2.
    rewrite E1, E2 by (split; assumption). f_equal. apply Hv. by split. }
  apply wfBoard_inv in H1 as (a0&a1&a2&a3&a4&a5&a6&a7&a8&->&Ha).
  apply wfBoard_inv in H2 as (c0&c1&c2&c3&c4&c5&c6&c7&c8&->&Hb).
  assert (forall r, (r < 9)%nat ->
            [a0;a1;a2;a3;a4;a5;a6;a7;a8] !! r = [c0;c1;c2;c3;c4;c5;c6;c7;c8] !! r)
    as Hrow.
  { intros r Hr.
    destruct (lookup_lt_is_Some_2 [a0;a1;a2;a3;a4;a5;a6;a7;a8] r) as [x Hx];
      [simpl; lia |].
    destruct (lookup_lt_is_Some_2 [c0;c1;c2;c3;c4;c5;c6;c7;c8] r) as [y Hy];
      [simpl; lia |].
    rewrite Hx, Hy. f_equal.
    assert (length x = 9%nat) as Lx.
    { rewrite Forall_forall in Ha. apply Ha. by eapply list_elem_of_lookup_2. }
    assert (length y = 9%nat) as Ly.
    { rewrite Forall_forall in Hb. apply Hb. by eapply list_elem_of_lookup_2. }
    apply list_eq. intros c. destruct (decide (c < 9)%nat) as [Hc9 | Hc9].
    - specialize (Hc r c Hr Hc9). unfold cell in Hc. by rewrite Hx, Hy in Hc.
    - rewrite !lookup_ge_None_2 by lia. reflexivity. }
  apply list_eq. intros r. destruct (decide (r < 9)%nat) as [Hr | Hr].
  - by apply Hrow.
  - rewrite !lookup_ge_None_2 by (simpl; lia). reflexivity.
Qed.

(** *** The scan for the first empty cell *)

Lemma firstEmpty_Some b r c :
  firstEmpty b = Some (r, c) -> inGrid (r, c) /\ cell b r c = Some 0.
Proof.
  unfold firstEmpty. intros H. apply find_some in H as [Hin Hc].
  split; [by apply in_positions | by apply cellIs_true].
Qed.

Lemma firstEmpty_None b p :
  firstEmpty b = None -> inGrid p -> cell b (fst p) (snd p) <> Some 0.
Proof.
  unfold firstEmpty. intros H Hin Hc.
  apply in_positions in Hin. pose proof (find_none _ _ H _ Hin) as Hf.
  apply cellIs_true in Hc. simpl in Hf. congruence.
Qed.

(** *** Counting empty cells *)

Lemma zeros_insert (row : list Z) c v :
  row !! c = Some 0 -> v <> 0 ->
  S (length (filter (fun x => x = 0) (<[c := v]> row)))
  = length (filter (fun x => x = 0) row).
Proof.
  revert c. induction row as [|x row IH]; intros c Hc Hv; [discriminate |].
  destruct c as [|c]; simpl in *.
  - injection Hc as ->. rewrite filter_cons_False by assumption.
    by rewrite filter_cons_True.
  - destruct (decide (x = 0)) as [-> | Hx].
    + rewrite !filter_cons_True by reflexivity. simpl. f_equal. by apply IH.
    + rewrite !filter_cons_False by assumption. by apply IH.
Qed.

Lemma zeros_setCell b r c v :
  cell b r c = Some 0 -> v <> 0 -> S (zeros (setCell b r c v)) = zeros b.
Proof.
  unfold zeros, cell, setCell. revert r.
  induction b as [|row b IH]; intros r Hc Hv; [destruct r; discriminate |].
  destruct r as [|r]; simpl in *.
  - rewrite !filter_app, !length_app.
    rewrite <- (zeros_insert row c v) by assumption. reflexivity.
  - rewrite !filter_app, !length_app.
    rewrite <- (IH r) by assumption. symmetry. apply Nat.add_succ_r.
Qed.

(** ** Valid grids *)

Lemma sameUnit_sym p q : sameUnit p q = sameUnit q p.
Proof.
  unfold sameUnit. rewrite (Nat.eqb_sym (fst p)), (Nat.eqb_sym (snd p)),
    (Nat.eqb_sym (fst p / 3)), (Nat.eqb_sym (snd p / 3)). reflexivity.
Qed.

Lemma units_ok : forallb unitOKb units = true.
Proof. vm_compute. reflexivity. Qed.

Lemma unit_props u : In u units ->
  length u = 9%nat /\ (forall p, In p u -> inGrid p) /\
  (forall p q, In p u -> In q u -> sameUnit p q = true) /\ List.NoDup u.
Proof.
  intros Hin. pose proof units_ok as H. rewrite forallb_forall in H.
  specialize (H u Hin). unfold unitOKb in H.
  rewrite !andb_true_iff, Nat.eqb_eq in H. destruct H as [[[Hl Hg] Hs] Hd].
  rewrite forallb_forall in Hg, Hs.
  split; [assumption |]. split; [| split].
  - intros p Hp. specialize (Hg p Hp). rewrite andb_true_iff, !Nat.ltb_lt in Hg.
    exact Hg.
  - intros p q Hp Hq. specialize (Hs p Hp). rewrite forallb_forall in Hs. by apply Hs.
  - apply (NoDup_nth u (0, 0)%nat). intros i j Hi Hj Heq.
    rewrite forallb_forall in Hd. rewrite Hl in Hi, Hj.
    assert (Hi' : In i (seq 0 9)) by (apply in_seq; lia).
    assert (Hj' : In j (seq 0 9)) by (apply in_seq; lia).
    specialize (Hd i Hi'). rewrite forallb_forall in Hd. specialize (Hd j Hj').
    rewrite orb_true_iff, Nat.eqb_eq, negb_true_iff, bool_decide_eq_false in Hd.
    destruct Hd as [Hd | Hd]; [assumption | contradiction].
Qed.

(** Two positions of one unit lie in one of the 27 lists. *)
Lemma sameUnit_in_unit p q : inGrid p -> inGrid q -> sameUnit p q = true ->
  exists u, In u units /\ In p u /\ In q u.
Proof.
  destruct p as [r c], q as [r' c']. unfold inGrid; cbn [fst snd].
  intros [Hr Hc] [Hr' Hc'] Hu.
  apply sameUnit_cases in Hu. unfold units.
  destruct Hu as [-> | [-> | [Hbr Hbc]]].
  - exists (rowUnit r). split.
    + unfold units. apply in_or_app; left. apply (in_map rowUnit), in_seq. lia.
    + unfold rowUnit. split; apply (in_map (fun c => (r, c))), in_seq; lia.
  - exists (colUnit c). split.
    + unfold units. apply in_or_app; right. apply in_or_app; left.
      apply (in_map colUnit), in_seq. lia.
    + unfold colUnit. split; apply (in_map (fun r => (r, c))), in_seq; lia.
  - exists (boxUnit (r / 3 * 3 + c / 3)). split.
    + unfold units. apply in_or_app; right. apply in_or_app; right.
      apply (in_map boxUnit), in_seq.
      pose proof (Nat.Div0.div_lt_upper_bound r 3 3). pose proof (Nat.Div0.div_lt_upper_bound c 3 3).
      lia.
    + assert (Hk1 : ((r / 3 * 3 + c / 3) / 3 = r / 3)%nat).
      { pose proof (Nat.Div0.div_lt_upper_bound c 3 3).
        rewrite Nat.div_add_l by lia. rewrite (Nat.div_small (c / 3)) by lia. lia. }
      assert (Hk2 : ((r / 3 * 3 + c / 3) mod 3 = c / 3)%nat).
      { pose proof (Nat.Div0.div_lt_upper_bound c 3 3).
        rewrite Nat.add_comm, Nat.Div0.mod_add. apply Nat.mod_small. lia. }
      unfold boxUnit. rewrite Hk1, Hk2.
      assert (Hin : forall x y, (x / 3 = r / 3)%nat -> (y / 3 = c / 3)%nat ->
                In (x, y) (flat_map (fun i => map (fun j => (r / 3 * 3 + i, c / 3 * 3 + j)%nat)
                                                  (seq 0 3)) (seq 0 3))).
      { intros x y Hx Hy. apply in_flat_map.
        apply box_offset in Hx as (i & Hi & ->). apply box_offset in Hy as (j & Hj & ->).
        exists i. split; [apply in_seq; lia |].
        apply in_map_iff. exists j. split; [reflexivity | apply in_seq; lia]. }
      split; apply Hin; congruence.
Qed.

Lemma in_own_row p : inGrid p -> In (rowUnit (fst p)) units /\ In p (rowUnit (fst p)).
Proof.
  intros [Hr Hc]. split.
  - unfold units. apply in_or_app; left. apply (in_map rowUnit), in_seq. lia.
  - unfold rowUnit. apply in_map_iff. exists (snd p).
    split; [by destruct p | apply in_seq; lia].
Qed.

Lemma NoDup_map_inv {A B} (f : A -> B) (l : list A) x y :
  List.NoDup (map f l) -> In x l -> In y l -> f x = f y -> x = y.
Proof.
  induction l as [|a l IH]; simpl; [tauto |].
  intros Hnd Hx Hy Hf. apply List.NoDup_cons_iff in Hnd as [Hna Hnd].
  destruct Hx as [-> | Hx], Hy as [-> | Hy]; try reflexivity.
  - exfalso. apply Hna. rewrite Hf. by apply in_map.
  - exfalso. apply Hna. rewrite <- Hf. by apply in_map.
  - by apply IH.
Qed.

Lemma digits_NoDup : List.NoDup digits.
Proof.
  unfold digits. repeat (apply List.NoDup_cons_iff; split;
    [simpl; intros H; repeat (destruct H as [H | H]; [discriminate |]); exact H |]).
  apply List.NoDup_nil.
Qed.

Lemma in_digits v : In v digits <-> 1 <= v <= 9.
Proof.
  unfold digits; simpl. split; [intuition lia |].
  intros H. assert (v = 1 \/ v = 2 \/ v = 3 \/ v = 4 \/ v = 5 \/ v = 6 \/
                    v = 7 \/ v = 8 \/ v = 9) by lia.
  intuition.
Qed.

Lemma validComplete_filled g : validComplete g -> filled g.
Proof.
  intros [_ Hu] p Hp. destruct (in_own_row p Hp) as [Hrow Hin].
  apply in_digits. eapply Permutation_in; [apply (Hu _ Hrow) |]. by apply in_map.
Qed.

Lemma validComplete_consistent g : validComplete g -> consistent g.
Proof.
  intros [_ Hu] p q Hp Hq Hne Hs _ Heq.
  destruct (sameUnit_in_unit p q Hp Hq Hs) as (u & Hin & Hpu & Hqu).
  apply Hne. apply (NoDup_map_inv (valueAt g) u); try assumption.
  eapply Permutation_NoDup; [symmetry; apply (Hu _ Hin) | apply digits_NoDup].
Qed.

Lemma validComplete_iff g :
  validComplete g <-> wfBoard g /\ filled g /\ consistent g.
Proof.
  split.
  - intros H. split; [apply H |]. split;
      [by apply validComplete_filled | by apply validComplete_consistent].
  - intros (Hwf & Hf & Hc). split; [assumption |]. intros u Hin.
    destruct (unit_props u Hin) as (Hl & Hg & Hs & Hnd).
    apply NoDup_Permutation_bis.
    + apply Finite.Injective_map_NoDup_in; [| assumption].
      intros p q Hp Hq Heq. destruct (decide (p = q)) as [| Hne]; [assumption |].
      exfalso. apply (Hc p q); auto.
      specialize (Hf p (Hg p Hp)). lia.
    + rewrite length_map, Hl. reflexivity.
    + intros v Hv. apply in_map_iff in Hv as (p & <- & Hp).
      apply in_digits. apply Hf. by apply Hg.
Qed.

(** ** Placing a digit in an empty cell *)

Lemma isValid_true_values b row col num :
  wfBoard b -> inGrid (row, col) ->
  (isValid b row col num = true <->
   forall q, inGrid q -> sameUnit (row, col) q = true -> valueAt b q <> num).
Proof.
  intros Hwf [Hr Hc]. simpl in Hr, Hc. rewrite <- not_false_iff_true.
  rewrite isValid_false_occurs by assumption. unfold occursInUnits. split.
  - intros Hn [r c] Hq Hs Hv. apply Hn. exists r, c.
    split; [assumption |]. split; [assumption |].
    pose proof (wfBoard_cell b (r, c) Hwf Hq) as E. simpl in E. by rewrite E, Hv.
  - intros H (r & c & Hq & Hs & Hv). apply (H (r, c) Hq Hs).
    by apply cell_Some_valueAt.
Qed.

Lemma consistent_setCell b row col num :
  wfBoard b -> inGrid (row, col) -> cell b row col = Some 0 ->
  isValid b row col num = true -> consistent b ->
  consistent (setCell b row col num).
Proof.
  intros Hwf Hin Hcell Hval Hcons p q Hp Hq Hne Hs Hnz.
  rewrite isValid_true_values in Hval by assumption.
  destruct (decide ((row, col) = p)) as [<- | Hp'].
  - rewrite (valueAt_setCell_eq _ _ _ _ _ Hcell).
    rewrite valueAt_setCell_ne by assumption.
    intros Heq. by apply (Hval q Hq Hs).
  - rewrite (valueAt_setCell_ne _ _ _ _ p) in * by assumption.
    destruct (decide ((row, col) = q)) as [<- | Hq'].
    + rewrite (valueAt_setCell_eq _ _ _ _ _ Hcell).
      apply (Hval p Hp). by rewrite sameUnit_sym.
    + rewrite valueAt_setCell_ne by assumption. by apply Hcons.
Qed.

Lemma cellsUpTo9_setCell b row col num :
  cell b row col = Some 0 -> 0 <= num <= 9 -> cellsUpTo9 b ->
  cellsUpTo9 (setCell b row col num).
Proof.
  intros Hcell Hnum H p Hp. destruct (decide ((row, col) = p)) as [<- | Hne].
  - by rewrite (valueAt_setCell_eq _ _ _ _ _ Hcell).
  - rewrite valueAt_setCell_ne by assumption. by apply H.
Qed.

(** The completions of the board with [num] placed are the completions of
    the board that hold [num] there. *)
Lemma completion_setCell g b row col num :
  cell b row col = Some 0 -> inGrid (row, col) ->
  completion g b -> valueAt g (row, col) = num ->
  completion g (setCell b row col num).
Proof.
  intros Hcell Hin [Hv He] Hnum. split; [assumption |]. intros p Hp Hnz.
  destruct (decide ((row, col) = p)) as [<- | Hne].
  - by rewrite (valueAt_setCell_eq _ _ _ _ _ Hcell).
  - rewrite valueAt_setCell_ne in * by assumption. by apply He.
Qed.

Lemma completion_of_setCell g b row col num :
  cell b row col = Some 0 ->
  completion g (setCell b row col num) -> completion g b.
Proof.
  intros Hcell [Hv He]. split; [assumption |]. intros p Hp Hnz.
  destruct (decide ((row, col) = p)) as [<- | Hne].
  - exfalso. apply Hnz. by apply cell_Some_valueAt.
  - rewrite <- (valueAt_setCell_ne b row col num p) by assumption.
    apply He; [assumption |]. by rewrite valueAt_setCell_ne.
Qed.

(** A digit the checker rejects at an empty cell is held there by no
    completion. *)
Lemma completion_rejects g b row col num :
  wfBoard b -> inGrid (row, col) -> cell b row col = Some 0 -> num <> 0 ->
  isValid b row col num = false -> completion g b ->
  valueAt g (row, col) <> num.
Proof.
  intros Hwf Hin Hcell Hnum Hval [Hg He] Heq.
  apply not_true_iff_false in Hval. apply Hval.
  apply isValid_true_values; [assumption | assumption |].
  intros q Hq Hs Hvq.
  assert (Hqne : (row, col) <> q).
  { intros <-. apply cell_Some_valueAt in Hcell. congruence. }
  apply (validComplete_consistent g Hg (row, col) q); try assumption.
  - pose proof (validComplete_filled g Hg (row, col) Hin). lia.
  - rewrite Heq, <- Hvq. symmetry. apply He; [assumption | congruence].
Qed.

(** A board without empty cells has itself as only completion. *)
Lemma completion_full g b :
  wfBoard b -> firstEmpty b = None -> completion g b -> g = b.
Proof.
  intros Hwf Hfull [[Hg _] He]. apply wfBoard_ext; try assumption.
  intros p Hp. apply He; [assumption |].
  intros Hz. apply (firstEmpty_None b p Hfull Hp).
  rewrite (wfBoard_cell b p Hwf Hp). by rewrite Hz.
Qed.

(** ** Solution Counter (C6, C9) *)

Lemma digits_nonzero : Forall (fun v => 1 <= v <= 9) digits.
Proof. unfold digits. repeat constructor; lia. Qed.

Section CountLoop.
Variable self : list (list Z) -> nat -> option (list (list Z) * nat).

(** What the recursive call is known to do. *)
Hypothesis self_restores : forall b c b' c',
  self b c = Some (b', c') -> b' = b /\ (c <= c')%nat /\ ((c <= 1)%nat -> (c' <= 2)%nat).

Lemma countLoop_restores row col nums b c b' c' :
  cell b row col = Some 0 ->
  countLoop self row col nums b c = Some (b', c') ->
  b' = b /\ (c <= c')%nat /\ ((c <= 1)%nat -> (c' <= 2)%nat).
Proof.
  intros Hcell. revert c. induction nums as [|num nums IH]; intros c; simpl.
  - intros [= <- <-]. auto with lia.
  - destruct (isValid b row col num); [| by apply IH].
    destruct (self (setCell b row col num) c) as [[b1 c1]|] eqn:E; [| discriminate].
    apply self_restores in E as (-> & Hle & Hb).
    rewrite (setCell_restore b row col num Hcell).
    destruct (1 <? c1)%nat eqn:E1.
    + intros [= <- <-]. auto.
    + apply Nat.ltb_ge in E1. intros H. apply IH in H as (-> & Hle' & Hb').
      split; [reflexivity |]. split; [lia |]. intros _. by apply Hb'.
Qed.

Variable fuel' : nat.
Hypothesis self_total : forall b c,
  (zeros b < fuel')%nat -> exists r, self b c = Some r.

Lemma countLoop_total row col nums b c :
  cell b row col = Some 0 -> (zeros b <= fuel')%nat ->
  Forall (fun v => 1 <= v <= 9) nums ->
  exists r, countLoop self row col nums b c = Some r.
Proof.
  intros Hcell Hz Hnums. revert c.
  induction Hnums as [|num nums Hnum _ IH]; intros c; simpl; [eauto |].
  destruct (isValid b row col num); [| by apply IH].
  destruct (self_total (setCell b row col num) c) as [[b1 c1] E].
  { pose proof (zeros_setCell b row col num Hcell). lia. }
  rewrite E. pose proof (self_restores _ _ _ _ E) as (-> & _ & _).
  rewrite (setCell_restore b row col num Hcell).
  destruct (1 <? c1)%nat; [eauto | apply IH].
Qed.

(** What the count says about completions. *)
Hypothesis self_sem : forall b c b' c',
  wfBoard b -> (c <= 1)%nat -> self b c = Some (b', c') ->
  (c' = c -> forall g, ~ completion g b) /\
  (c = 0%nat -> c' = 1%nat ->
   forall g1 g2, completion g1 b -> completion g2 b -> g1 = g2).

Lemma countLoop_sem row col nums b c b' c' :
  wfBoard b -> inGrid (row, col) -> cell b row col = Some 0 ->
  Forall (fun v => 1 <= v <= 9) nums -> (c <= 1)%nat ->
  countLoop self row col nums b c = Some (b', c') ->
  (c' = c -> forall g, completion g b -> ~ In (valueAt g (row, col)) nums) /\
  (c = 0%nat -> c' = 1%nat ->
   forall g1 g2, completion g1 b -> completion g2 b ->
     In (valueAt g1 (row, col)) nums -> In (valueAt g2 (row, col)) nums ->
     g1 = g2).
Proof.
  intros Hwf Hin Hcell Hnums. revert c.
  induction Hnums as [|num nums Hnum _ IH]; intros c Hc; simpl.
  - intros _. split; [intros _ g _ [] | intros _ _ g1 g2 _ _ []].
  - destruct (isValid b row col num) eqn:Hval.
    + destruct (self (setCell b row col num) c) as [[b1 c1]|] eqn:E;
        [| discriminate].
      pose proof (self_restores _ _ _ _ E) as (-> & Hle & Hb).
      pose proof (self_sem _ _ _ _ (wfBoard_setCell b row col num Hwf) Hc E)
        as [HA HB].
      rewrite (setCell_restore b row col num Hcell).
      destruct (1 <? c1)%nat eqn:E1.
      * apply Nat.ltb_lt in E1. intros [= <- <-]. split; intros; lia.
      * apply Nat.ltb_ge in E1. intros H.
        pose proof (countLoop_restores _ _ _ _ _ _ _ Hcell H) as (_ & Hle' & _).
        apply IH in H as [HA' HB']; [| assumption]. split.
        -- intros -> g Hg [Hhd | Htl].
           ++ apply (HA ltac:(lia) g). by apply completion_setCell.
           ++ apply (HA' ltac:(lia) g Hg Htl).
        -- intros -> -> g1 g2 Hg1 Hg2 [H1 | H1] [H2 | H2].
           ++ assert (c1 = 1%nat \/ c1 = 0%nat) as [-> | ->] by lia.
              ** apply HB; try reflexivity; by apply completion_setCell.
              ** exfalso. apply (HA eq_refl g1). by apply completion_setCell.
           ++ assert (c1 = 1%nat \/ c1 = 0%nat) as [-> | ->] by lia.
              ** exfalso. by apply (HA' eq_refl g2).
              ** exfalso. apply (HA eq_refl g1). by apply completion_setCell.
           ++ assert (c1 = 1%nat \/ c1 = 0%nat) as [-> | ->] by lia.
              ** exfalso. by apply (HA' eq_refl g1).
              ** exfalso. apply (HA eq_refl g2). by apply completion_setCell.
           ++ assert (c1 = 1%nat \/ c1 = 0%nat) as [-> | ->] by lia.
              ** exfalso. by apply (HA' eq_refl g1).
              ** by apply HB'.
    + intros H. apply IH in H as [HA' HB']; [| assumption].
      assert (Hrej : forall g, completion g b -> valueAt g (row, col) <> num).
      { intros g Hg. eapply completion_rejects; eauto. lia. }
      split.
      * intros Hcc g Hg [Hhd | Htl]; [by apply (Hrej g Hg) | by apply (HA' Hcc g)].
      * intros H0 H1 g1 g2 Hg1 Hg2 [Hh1 | Ht1] [Hh2 | Ht2].
        -- exfalso. by apply (Hrej g1 Hg1).
        -- exfalso. by apply (Hrej g1 Hg1).
        -- exfalso. by apply (Hrej g2 Hg2).
        -- by apply HB'.
Qed.
End CountLoop.

Lemma solveCount_S fuel b c :
  solveCount (S fuel) b c =
  match firstEmpty b with
  | None => Some (b, S c)
  | Some (row, col) => countLoop (solveCount fuel) row col digits b c
  end.
Proof. reflexivity. Qed.

Lemma solveCount_restores fuel b c b' c' :
  solveCount fuel b c = Some (b', c') ->
  b' = b /\ (c <= c')%nat /\ ((c <= 1)%nat -> (c' <= 2)%nat).
Proof.
  revert b c b' c'. induction fuel as [|fuel IH]; intros b c b' c';
    [discriminate |].
  rewrite solveCount_S.
  destruct (firstEmpty b) as [[row col]|] eqn:E.
  - apply firstEmpty_Some in E as [_ Hcell].
    by apply countLoop_restores.
  - intros [= <- <-]. auto with lia.
Qed.

Lemma solveCount_total fuel b c :
  (zeros b < fuel)%nat -> exists r, solveCount fuel b c = Some r.
Proof.
  revert b c. induction fuel as [|fuel IH]; intros b c Hz; [lia |].
  rewrite solveCount_S.
  destruct (firstEmpty b) as [[row col]|] eqn:E; [| eauto].
  apply firstEmpty_Some in E as [_ Hcell].
  apply (countLoop_total _ (solveCount_restores fuel) fuel IH);
    [assumption | lia | apply digits_nonzero].
Qed.

Lemma solveCount_sem fuel b c b' c' :
  wfBoard b -> (c <= 1)%nat -> solveCount fuel b c = Some (b', c') ->
  (c' = c -> forall g, ~ completion g b) /\
  (c = 0%nat -> c' = 1%nat ->
   forall g1 g2, completion g1 b -> completion g2 b -> g1 = g2).
Proof.
  revert b c b' c'. induction fuel as [|fuel IH]; intros b c b' c' Hwf Hc;
    [discriminate |].
  rewrite solveCount_S.
  destruct (firstEmpty b) as [[row col]|] eqn:E.
  - apply firstEmpty_Some in E as [Hin Hcell]. intros H.
    destruct (countLoop_sem _ (solveCount_restores fuel) IH
                row col digits b c b' c' Hwf Hin Hcell digits_nonzero Hc H)
      as [HA HB].
    assert (Hdig : forall g, completion g b -> In (valueAt g (row, col)) digits).
    { intros g [Hg _]. apply in_digits. by apply validComplete_filled. }
    split.
    + intros Hcc g Hg. apply (HA Hcc g Hg). by apply Hdig.
    + intros H0 H1 g1 g2 Hg1 Hg2. apply HB; auto.
  - intros [= <- <-]. split; [lia |].
    intros _ _ g1 g2 Hg1 Hg2.
    rewrite (completion_full g1 b), (completion_full g2 b); auto.
Qed.

(** [countSolutions] always answers, with at most 2, and leaves the board
    it was given. *)
Lemma countSolutions_returns (g : list (list Z)) :
  exists n, countSolutions g = Some (g, n) /\ (n <= 2)%nat.
Proof.
  unfold countSolutions.
  destruct (solveCount_total (S (zeros g)) g 0) as [[b' n] H]; [lia |].
  pose proof (solveCount_restores _ _ _ _ _ H) as (-> & _ & Hb).
  exists n. split; [assumption | apply Hb; lia].
Qed.

(** C9: whatever [countSolutions] answers, the board it leaves is the
    board it was given, cell for cell, and it always answers; the same
    holds of every call of the inner [solveCount], whatever the count it
    starts from, so also of the calls that stop early because the count
    has passed 1. *)
Theorem countSolutions_restores (g : list (list Z)) :
  (exists n, countSolutions g = Some (g, n)) /\
  (forall fuel b count b' count',
     solveCount fuel b count = Some (b', count') -> b' = b).
Proof.
  split.
  - destruct (countSolutions_returns g) as (n & H & _). eauto.
  - intros fuel b count b' count' H.
    by destruct (solveCount_restores _ _ _ _ _ H).
Qed.

(** C6: on the empty grid the count is 2, and on no grid is it more. *)
Theorem countSolutions_capped :
  countSolutions emptyBoard = Some (emptyBoard, 2%nat) /\
  forall board, exists n,
    countSolutions board = Some (board, n) /\ (n <= 2)%nat.
Proof.
  split; [vm_compute; reflexivity |].
  intros board. apply countSolutions_returns.
Qed.

(** ** Backtracking Solver *)

Lemma solveFuel_S fuel b :
  solveFuel (S fuel) b =
  match firstEmpty b with
  | None => Some (true, b)
  | Some (row, col) => solveLoop (solveFuel fuel) row col digits b
  end.
Proof. reflexivity. Qed.

Lemma extends_setCell b' b row col num :
  cell b row col = Some 0 -> extends b' (setCell b row col num) -> extends b' b.
Proof.
  intros Hcell He p Hp Hnz.
  destruct (decide ((row, col) = p)) as [<- | Hne].
  - exfalso. apply Hnz. by apply cell_Some_valueAt.
  - rewrite <- (valueAt_setCell_ne b row col num p) by assumption.
    apply He; [assumption |]. by rewrite valueAt_setCell_ne.
Qed.

Section SolveLoop.
Variable self : list (list Z) -> option (bool * list (list Z)).

Hypothesis self_solved : forall b r b',
  wfBoard b -> self b = Some (r, b') ->
  solved b r b' /\ (r = false -> forall g, ~ completion g b).

Lemma solveLoop_solved row col nums b r b' :
  wfBoard b -> inGrid (row, col) -> cell b row col = Some 0 ->
  Forall (fun v => 1 <= v <= 9) nums ->
  solveLoop self row col nums b = Some (r, b') ->
  solved b r b' /\
  (r = false ->
   forall g, completion g b -> ~ In (valueAt g (row, col)) nums).
Proof.
  intros Hwf Hin Hcell Hnums.
  induction Hnums as [|num nums Hnum _ IH]; simpl.
  - intros [= <- <-]. split; [split; [reflexivity | discriminate] |].
    intros _ g _ [].
  - destruct (isValid b row col num) eqn:Hval.
    + destruct (self (setCell b row col num)) as [[[] b1]|] eqn:E;
        [| | discriminate].
      * intros [= <- <-].
        destruct (self_solved _ _ _ (wfBoard_setCell b row col num Hwf) E)
          as [[_ Hs] _].
        destruct (Hs eq_refl) as (Hw1 & He1 & Hf1 & Hc1 & Hu1).
        split; [| discriminate]. split; [discriminate |]. intros _.
        split; [assumption |]. split; [by eapply extends_setCell |].
        split; [assumption |]. split.
        -- intros Hc. apply Hc1. by apply consistent_setCell.
        -- intros Hu. apply Hu1. apply cellsUpTo9_setCell; auto with lia.
      * destruct (self_solved _ _ _ (wfBoard_setCell b row col num Hwf) E)
          as [[Hr _] Hno].
        rewrite (Hr eq_refl), (setCell_restore b row col num Hcell).
        intros H. apply IH in H as [Hs Hno']. split; [assumption |].
        intros -> g Hg [Hhd | Htl].
        -- apply (Hno eq_refl g). by apply completion_setCell.
        -- by apply (Hno' eq_refl g).
    + intros H. apply IH in H as [Hs Hno']. split; [assumption |].
      intros -> g Hg [Hhd | Htl].
      * eapply completion_rejects; eauto. lia.
      * by apply (Hno' eq_refl g).
Qed.

Variable fuel' : nat.
Hypothesis self_total : forall b,
  wfBoard b -> (zeros b < fuel')%nat -> exists r, self b = Some r.

Lemma solveLoop_total row col nums b :
  wfBoard b -> cell b row col = Some 0 -> (zeros b <= fuel')%nat ->
  Forall (fun v => 1 <= v <= 9) nums ->
  exists r, solveLoop self row col nums b = Some r.
Proof.
  intros Hwf Hcell Hz Hnums.
  induction Hnums as [|num nums Hnum _ IH]; simpl; [eauto |].
  destruct (isValid b row col num); [| by apply IH].
  destruct (self_total (setCell b row col num)) as [[r b1] E].
  { by apply wfBoard_setCell. }
  { pose proof (zeros_setCell b row col num Hcell). lia. }
  rewrite E. destruct r; [eauto |].
  destruct (self_solved _ _ _ (wfBoard_setCell b row col num Hwf) E)
    as [[Hr _] _].
  rewrite (Hr eq_refl), (setCell_restore b row col num Hcell). apply IH.
Qed.
End SolveLoop.

Lemma solveFuel_solved fuel b r b' :
  wfBoard b -> solveFuel fuel b = Some (r, b') ->
  solved b r b' /\ (r = false -> forall g, ~ completion g b).
Proof.
  revert b r b'. induction fuel as [|fuel IH]; intros b r b' Hwf;
    [discriminate |].
  rewrite solveFuel_S. destruct (firstEmpty b) as [[row col]|] eqn:E.
  - apply firstEmpty_Some in E as [Hin Hcell]. intros H.
    destruct (solveLoop_solved _ IH row col digits b r b' Hwf Hin Hcell
                digits_nonzero H) as [Hs Hno].
    split; [assumption |]. intros Hr g Hg. apply (Hno Hr g Hg).
    apply in_digits. apply validComplete_filled; [apply Hg | assumption].
  - intros [= <- <-]. split; [| discriminate]. split; [discriminate |].
    intros _. split; [assumption |]. split; [by intros p _ _ |].
    split; [assumption |]. split; auto.
Qed.

Lemma solveFuel_total fuel b :
  wfBoard b -> (zeros b < fuel)%nat -> exists r, solveFuel fuel b = Some r.
Proof.
  revert b. induction fuel as [|fuel IH]; intros b Hwf Hz; [lia |].
  rewrite solveFuel_S. destruct (firstEmpty b) as [[row col]|] eqn:E; [| eauto].
  apply firstEmpty_Some in E as [_ Hcell].
  apply (solveLoop_total _ (solveFuel_solved fuel) fuel IH);
    [assumption | assumption | lia | apply digits_nonzero].
Qed.

Lemma full_filled b :
  wfBoard b -> cellsUpTo9 b -> firstEmpty b = None -> filled b.
Proof.
  intros Hwf Hu Hf p Hp. specialize (Hu p Hp).
  assert (valueAt b p <> 0); [| lia].
  intros Hz. apply (firstEmpty_None b p Hf Hp).
  by rewrite (wfBoard_cell b p Hwf Hp), Hz.
Qed.

(** The solver completes every consistent board that has a completion. *)
Lemma solve_completes b :
  wfBoard b -> consistent b -> cellsUpTo9 b ->
  (exists g, completion g b) ->
  exists b', solve b = Some (true, b') /\ validComplete b' /\ extends b' b.
Proof.
  intros Hwf Hc Hu [g Hg]. unfold solve.
  destruct (solveFuel_total (S (zeros b)) b Hwf) as [[r b'] H]; [lia |].
  destruct (solveFuel_solved _ _ _ _ Hwf H) as [[_ Hs] Hno].
  destruct r; [| exfalso; by apply (Hno eq_refl g)].
  destruct (Hs eq_refl) as (Hw' & He & Hf & Hc' & Hu').
  exists b'. split; [assumption |]. split; [| assumption].
  apply validComplete_iff. split; [assumption |]. split; [| by apply Hc'].
  apply full_filled; auto.
Qed.

(** ** The store *)

Lemma bind_eq {A B} (m : M A) (f : A -> M B) w :
  (m ≫= f) w = match m w with Some (a, w') => f a w' | None => None end.
Proof. reflexivity. Qed.

Lemma ret_eq {A} (a : A) w : (mret a : M A) w = Some (a, w).
Proof. reflexivity. Qed.

Lemma allocRows_eq rows w :
  allocRows rows w =
  Some (seq (length (store w)) (length rows),
        mkWorld (store w ++ rows) (draws w)).
Proof.
  revert w. induction rows as [|r rows IH]; intros w.
  - simpl. rewrite ret_eq, app_nil_r. by destruct w.
  - simpl allocRows. rewrite bind_eq. unfold allocRow at 1.
    rewrite bind_eq, IH, ret_eq. simpl store. simpl draws.
    rewrite length_app, <- app_assoc. simpl.
    by replace (length (store w) + 1)%nat with (S (length (store w))) by lia.
Qed.

Lemma length_contents st g : length (contents st g) = length g.
Proof. apply length_map. Qed.

Lemma copyBoard_eq board w :
  copyBoard board w =
  Some (seq (length (store w)) (length board),
        mkWorld (store w ++ contents (store w) board) (draws w)).
Proof. unfold copyBoard. by rewrite allocRows_eq, length_contents. Qed.

(** A board whose rows are the block of the store after [st1]. *)
Lemma contents_block st1 rows st2 :
  contents (st1 ++ rows ++ st2) (seq (length st1) (length rows)) = rows.
Proof.
  revert st1. induction rows as [|r rows IH]; intros st1; [reflexivity |].
  simpl. f_equal.
  - rewrite lookup_app_r by lia. by rewrite Nat.sub_diag.
  - specialize (IH (st1 ++ [r])). rewrite length_app, <- app_assoc in IH.
    simpl in IH. by replace (length st1 + 1)%nat with (S (length st1)) in IH by lia.
Qed.

Lemma writeBack_block st1 rows st2 rows' :
  length rows' = length rows ->
  writeBack (st1 ++ rows ++ st2) (seq (length st1) (length rows)) rows'
  = st1 ++ rows' ++ st2.
Proof.
  revert st1 rows'. induction rows as [|r rows IH]; intros st1 rows' Hl.
  - by destruct rows'.
  - destruct rows' as [|r' rows']; [discriminate |]. simpl.
    rewrite insert_app_r_alt by lia. rewrite Nat.sub_diag. simpl.
    specialize (IH (st1 ++ [r']) rows'). rewrite length_app, <- !app_assoc in IH.
    simpl in IH.
    replace (length st1 + 1)%nat with (S (length st1)) in IH by lia.
    apply IH. simpl in Hl. lia.
Qed.

Lemma lookup_block {A} (st1 rows st2 : list A) i :
  (i < length rows)%nat -> (st1 ++ rows ++ st2) !! (length st1 + i)%nat = rows !! i.
Proof.
  intros Hi. rewrite lookup_app_r by lia.
  replace (length st1 + i - length st1)%nat with i by lia.
  by apply lookup_app_l.
Qed.

Lemma lookup_block_before {A} (st1 rows st2 : list A) j :
  (j < length st1)%nat -> (st1 ++ rows ++ st2) !! j = st1 !! j.
Proof. intros Hj. by apply lookup_app_l. Qed.

Lemma lookup_block_after {A} (st1 rows st2 : list A) j :
  (length st1 + length rows <= j)%nat ->
  (st1 ++ rows ++ st2) !! j = st2 !! (j - length st1 - length rows)%nat.
Proof.
  intros Hj. rewrite lookup_app_r by lia. by rewrite lookup_app_r by lia.
Qed.

Lemma alter_block (f : list Z -> list Z) st1 (rows : list (list Z)) st2 i :
  (i < length rows)%nat ->
  alter f (length st1 + i)%nat (st1 ++ rows ++ st2)
  = st1 ++ alter f i rows ++ st2.
Proof.
  intros Hi. apply list_eq. intros j.
  destruct (decide (j = length st1 + i)%nat) as [-> | Hne].
  - rewrite list_lookup_alter_eq.
    rewrite !lookup_block by (rewrite ?length_alter; lia).
    by rewrite list_lookup_alter_eq.
  - rewrite list_lookup_alter_ne by lia.
    destruct (decide (j < length st1)%nat) as [Hj | Hj].
    + by rewrite !lookup_block_before by lia.
    + destruct (decide (j < length st1 + length rows)%nat) as [Hj' | Hj'].
      * replace j with (length st1 + (j - length st1))%nat by lia.
        rewrite !lookup_block by (rewrite ?length_alter; lia).
        rewrite list_lookup_alter_ne by lia. reflexivity.
      * rewrite !lookup_block_after by (rewrite ?length_alter; lia).
        by rewrite length_alter.
Qed.

(** ** Excavator: the primitives on the puzzle block *)

Lemma clues_insert (row : list Z) c v :
  row !! c = Some v -> v <> 0 ->
  S (length (filter (fun x => x <> 0) (<[c := 0]> row)))
  = length (filter (fun x => x <> 0) row).
Proof.
  revert c. induction row as [|x row IH]; intros c Hc Hv; [discriminate |].
  destruct c as [|c]; simpl in *.
  - injection Hc as ->. rewrite filter_cons_False by (intros H; by apply H).
    by rewrite filter_cons_True.
  - destruct (decide (x <> 0)) as [Hx | Hx].
    + rewrite !filter_cons_True by assumption. simpl. f_equal. by apply IH.
    + rewrite !filter_cons_False by assumption. by apply IH.
Qed.

Lemma clues_setCell b r c v :
  cell b r c = Some v -> v <> 0 -> S (clues (setCell b r c 0)) = clues b.
Proof.
  unfold clues, cell, setCell. revert r.
  induction b as [|row b IH]; intros r Hc Hv; [destruct r; discriminate |].
  destruct r as [|r]; simpl in *.
  - rewrite !filter_app, !length_app.
    rewrite <- (clues_insert row c v) by assumption. reflexivity.
  - rewrite !filter_app, !length_app.
    rewrite <- (IH r) by assumption. symmetry. apply Nat.add_succ_r.
Qed.

Section Block.
(** The store is [st0], then the nine rows [pz] of the puzzle, then
    [junk]; [puzzle] names the rows of [pz]. *)
Variables (st0 : list (list Z)) (pz : list (list Z)) (junk : list (list Z)).
Variable w : World.
Hypothesis layout : store w = st0 ++ pz ++ junk.
Hypothesis nine : length pz = 9%nat.

Let puzzle : list nat := seq (length st0) 9.

Lemma contents_layout : contents (store w) puzzle = pz.
Proof. rewrite layout. unfold puzzle. rewrite <- nine. apply contents_block. Qed.

Lemma readCell_layout row col v :
  cell pz row col = Some v -> readCell puzzle row col w = Some (v, w).
Proof. intros H. unfold readCell. by rewrite contents_layout, H. Qed.

Lemma writeCell_layout row col v :
  (row < 9)%nat ->
  writeCell puzzle row col v w =
  Some (tt, mkWorld (st0 ++ setCell pz row col v ++ junk) (draws w)).
Proof.
  intros Hrow. unfold writeCell, puzzle.
  rewrite lookup_seq_lt by assumption. rewrite layout.
  rewrite alter_block by lia. reflexivity.
Qed.

Lemma copyBoard_layout :
  copyBoard puzzle w =
  Some (seq (length (store w)) 9,
        mkWorld (store w ++ pz) (draws w)).
Proof.
  rewrite copyBoard_eq, contents_layout. unfold puzzle. by rewrite length_seq.
Qed.
End Block.

(** Counting on a fresh copy at the end of the store leaves the store as
    it is. *)
Lemma count_probe st (pz : list (list Z)) k n :
  length pz = 9%nat ->
  countSolutions pz = Some (pz, n) ->
  call countSolutionsOf (seq (length st) 9) (mkWorld (st ++ pz) k)
  = Some (n, mkWorld (st ++ pz) k).
Proof.
  intros <- H. unfold call, countSolutionsOf. simpl store.
  pose proof (contents_block st pz []) as Hc. rewrite app_nil_r in Hc.
  rewrite Hc, H. simpl draws.
  pose proof (writeBack_block st pz [] pz eq_refl) as Hw.
  rewrite !app_nil_r in Hw. by rewrite Hw.
Qed.

(** ** Excavator: the loop *)

Lemma pokeLoop_cons holesToPoke puzzle row col rest holesPoked :
  pokeLoop holesToPoke puzzle ((row, col) :: rest) holesPoked =
  if (holesToPoke <=? holesPoked)%nat
  then mret ((row, col) :: rest, holesPoked)
  else
    backup ← readCell puzzle row col;
    writeCell puzzle row col 0;;
    probe ← copyBoard puzzle;
    solutions ← call countSolutionsOf probe;
    if (solutions =? 1)%nat
    then pokeLoop holesToPoke puzzle rest (S holesPoked)
    else writeCell puzzle row col backup;;
         pokeLoop holesToPoke puzzle rest holesPoked.
Proof. reflexivity. Qed.

Lemma pokeLoop_poked holesToPoke st0 rest :
  Forall inGrid rest ->
  forall holesPoked pz junk w,
    wfBoard pz -> store w = st0 ++ pz ++ junk ->
    exists pz' junk' rest' holesPoked',
      pokeLoop holesToPoke (seq (length st0) 9) rest holesPoked w
      = Some ((rest', holesPoked'),
              mkWorld (st0 ++ pz' ++ junk') (draws w)) /\
      poked holesToPoke pz rest holesPoked pz' rest' holesPoked'.
Proof.
  induction 1 as [|[row col] rest Hin _ IH]; intros holesPoked pz junk w Hwf Hlay.
  - exists pz, junk, [], holesPoked. split.
    + simpl. rewrite ret_eq, <- Hlay. by destruct w.
    + split; auto.
  - rewrite pokeLoop_cons. destruct (holesToPoke <=? holesPoked)%nat eqn:Hbr.
    { apply Nat.leb_le in Hbr. exists pz, junk, ((row, col) :: rest), holesPoked.
      split; [rewrite ret_eq, <- Hlay; by destruct w |]. split; auto. }
    apply Nat.leb_gt in Hbr.
    assert (Hlen : length pz = 9%nat) by apply Hwf.
    pose proof (wfBoard_cell pz (row, col) Hwf Hin) as Hcell. simpl in Hcell.
    set (backup := valueAt pz (row, col)) in *.
    assert (Hrow : (row < 9)%nat) by apply Hin.
    rewrite bind_eq.
    rewrite (readCell_layout st0 pz junk w Hlay Hlen row col backup Hcell).
    rewrite bind_eq.
    rewrite (writeCell_layout st0 pz junk w Hlay Hlen row col 0 Hrow).
    set (pz1 := setCell pz row col 0).
    assert (Hwf1 : wfBoard pz1) by by apply wfBoard_setCell.
    assert (Hlen1 : length pz1 = 9%nat) by apply Hwf1.
    set (w1 := mkWorld (st0 ++ pz1 ++ junk) (draws w)).
    rewrite bind_eq.
    rewrite (copyBoard_layout st0 pz1 junk w1 eq_refl Hlen1).
    destruct (countSolutions_returns pz1) as (n & Hn & _).
    rewrite bind_eq. simpl store. simpl draws.
    rewrite (count_probe _ pz1 _ n Hlen1 Hn).
    destruct (n =? 1)%nat eqn:Hn1.
    + apply Nat.eqb_eq in Hn1. subst n.
      destruct (IH (S holesPoked) pz1 (junk ++ pz1)
                  (mkWorld ((st0 ++ pz1 ++ junk) ++ pz1) (draws w)) Hwf1)
        as (pz' & junk' & rest' & hp' & Hrun & Hp).
      { simpl. by rewrite <- !app_assoc. }
      exists pz', junk', rest', hp'. split; [exact Hrun |].
      destruct Hp as [Pw Pc Pu Pe Pb Pk]. split.
      * exact Pw.
      * intros p Hp. destruct (Pc p Hp) as [-> | ->]; [| by right].
        destruct (decide ((row, col) = p)) as [<- | Hne].
        -- right. by apply (valueAt_setCell_eq pz row col 0 backup).
        -- left. by apply valueAt_setCell_ne.
      * intros _. by apply Pu.
      * exact Pe.
      * intros _. apply Pb. lia.
      * intros Hnd Hnz. apply List.NoDup_cons_iff in Hnd as [Hnotin Hnd].
        rewrite Pk; [| assumption |].
        -- pose proof (clues_setCell pz row col backup Hcell) as Hk.
           fold pz1 in Hk. specialize (Hk (Hnz (row, col) (or_introl eq_refl))).
           lia.
        -- intros p Hp. unfold pz1. rewrite valueAt_setCell_ne.
           ++ apply Hnz. by right.
           ++ intros <-. contradiction.
    + rewrite bind_eq.
      set (w2 := mkWorld ((st0 ++ pz1 ++ junk) ++ pz1) (draws w)).
      assert (Hlay2 : store w2 = st0 ++ pz1 ++ (junk ++ pz1))
        by (simpl; by rewrite <- !app_assoc).
      rewrite (writeCell_layout st0 pz1 (junk ++ pz1) w2 Hlay2 Hlen1 row col
                 backup Hrow).
      assert (Hback : setCell pz1 row col backup = pz).
      { unfold pz1. rewrite setCell_setCell. unfold setCell.
        apply list_eq. intros i. destruct (decide (row = i)) as [<- | Hne].
        - rewrite list_lookup_alter_eq. unfold cell in Hcell.
          destruct (pz !! row) as [r|]; [simpl | discriminate].
          f_equal. by apply list_insert_id.
        - by rewrite list_lookup_alter_ne. }
      rewrite Hback. simpl draws.
      destruct (IH holesPoked pz (junk ++ pz1)
                  (mkWorld (st0 ++ pz ++ junk ++ pz1) (draws w)) Hwf eq_refl)
        as (pz' & junk' & rest' & hp' & Hrun & Hp).
      exists pz', junk', rest', hp'. split; [exact Hrun |].
      destruct Hp as [Pw Pc Pu Pe Pb Pk]. split; try assumption.
      intros Hnd Hnz. apply List.NoDup_cons_iff in Hnd as [Hnotin Hnd].
      apply Pk; [assumption |]. intros p Hp. apply Hnz. by right.
Qed.

(** ** Excavator: the plan and the whole of [pokeHoles] *)

Lemma swap_Permutation {A} (array : list A) i j : swap array i j ≡ₚ array.
Proof.
  unfold swap. destruct (array !! i) as [x|] eqn:Ei; [| reflexivity].
  destruct (array !! j) as [y|] eqn:Ej; [| reflexivity].
  by apply Permutation_insert_swap.
Qed.

Lemma shuffleFrom_Permutation {A} src i (array : list A) k :
  fst (shuffleFrom src i array k) ≡ₚ array.
Proof.
  revert array k. induction i as [|i IH]; intros array k; [reflexivity |].
  simpl. rewrite IH. apply swap_Permutation.
Qed.

Lemma shuffleArray_Permutation {A} src (array : list A) k :
  fst (shuffleArray src array k) ≡ₚ array.
Proof. apply shuffleFrom_Permutation. Qed.

Lemma clueRange_cases d :
  clueRange d = (35, 40)%nat \/ clueRange d = (30, 34)%nat \/
  clueRange d = (25, 29)%nat.
Proof.
  unfold clueRange.
  destruct (String.eqb d "easy"); [auto |].
  destruct (String.eqb d "medium"); [auto |].
  destruct (String.eqb d "hard"); auto.
Qed.

Lemma clueRange_tiers d :
  clueRange "easy" = (35, 40)%nat /\ clueRange "medium" = (30, 34)%nat /\
  clueRange "hard" = (25, 29)%nat /\
  (d <> "easy"%string -> d <> "medium"%string -> d <> "hard"%string ->
   clueRange d = (30, 34)%nat).
Proof.
  repeat split. intros H1 H2 H3. unfold clueRange.
  apply String.eqb_neq in H1, H2, H3. by rewrite H1, H2, H3.
Qed.

Lemma positions_NoDup : List.NoDup positions.
Proof.
  apply (NoDup_nth positions (0, 0)%nat).
  assert (H : forallb (fun i => forallb (fun j =>
              Nat.eqb i j
              || negb (bool_decide (nth i positions (0, 0)%nat
                                    = nth j positions (0, 0)%nat)))
              (seq 0 81)) (seq 0 81) = true) by (vm_compute; reflexivity).
  intros i j Hi Hj Heq. change (length positions) with 81%nat in Hi, Hj.
  rewrite forallb_forall in H.
  assert (Hi' : In i (seq 0 81)) by (apply in_seq; lia).
  assert (Hj' : In j (seq 0 81)) by (apply in_seq; lia).
  specialize (H i Hi'). rewrite forallb_forall in H. specialize (H j Hj').
  rewrite orb_true_iff, Nat.eqb_eq, negb_true_iff, bool_decide_eq_false in H.
  destruct H; [assumption | contradiction].
Qed.

(** The decomposition of a run of [pokeHoles] on a well-formed board. *)
Lemma pokeHoles_run src board d w :
  wfBoard (contents (store w) board) ->
  exists r shuffled k' pz' junk' rest' hp',
    let lo := fst (clueRange d) in
    let hi := snd (clueRange d) in
    let holesToPoke := (81 - (r + lo))%nat in
    let puzzle := seq (length (store w)) 9 in
    let w1 := mkWorld (store w) k' in
    let w2 := mkWorld (store w ++ contents (store w) board) k' in
    let w3 := mkWorld (store w ++ pz' ++ junk') k' in
    (r < hi - lo + 1)%nat /\ shuffled ≡ₚ positions /\
    pokePlan src d w = Some ((holesToPoke, shuffled), w1) /\
    copyBoard board w1 = Some (puzzle, w2) /\
    pokeLoop holesToPoke puzzle shuffled 0 w2 = Some ((rest', hp'), w3) /\
    pokeHoles src board d w = Some (puzzle, w3) /\
    contents (store w3) puzzle = pz' /\
    poked holesToPoke (contents (store w) board) shuffled 0 pz' rest' hp'.
Proof.
  intros Hwf.
  assert (Hlen : length board = 9%nat).
  { rewrite <- (length_contents (store w)). apply Hwf. }
  set (lo := fst (clueRange d)). set (hi := snd (clueRange d)).
  set (r := randomBelow src (draws w) (hi - lo + 1)).
  destruct (shuffleArray src positions (S (draws w))) as [sh k'] eqn:Esh.
  assert (Hplan : pokePlan src d w
                  = Some (((81 - (r + lo))%nat, sh), mkWorld (store w) k')).
  { unfold pokePlan. subst r lo hi. destruct (clueRange d) as [lo' hi'].
    cbn [fst snd]. rewrite bind_eq. unfold drawing at 1.
    rewrite bind_eq. unfold drawing. cbn [store draws]. by rewrite Esh. }
  assert (Hsh : sh ≡ₚ positions).
  { pose proof (shuffleArray_Permutation src positions (S (draws w))) as H.
    by rewrite Esh in H. }
  assert (Hfor : Forall inGrid sh).
  { apply Forall_forall. intros p Hp. apply in_positions.
    apply list_elem_of_In. by rewrite <- Hsh. }
  destruct (pokeLoop_poked (81 - (r + lo)) (store w) sh Hfor 0
              (contents (store w) board) []
              (mkWorld (store w ++ contents (store w) board) k') Hwf)
    as (pz' & junk' & rest' & hp' & Hrun & Hp).
  { simpl. by rewrite app_nil_r. }
  cbn [draws] in Hrun.
  exists r, sh, k', pz', junk', rest', hp'. cbv zeta.
  split.
  { unfold r. apply Nat.mod_upper_bound. lia. }
  split; [assumption |]. split; [assumption |].
  assert (Hcopy : copyBoard board (mkWorld (store w) k')
                  = Some (seq (length (store w)) 9,
                          mkWorld (store w ++ contents (store w) board) k')).
  { rewrite copyBoard_eq. cbn [store draws]. by rewrite Hlen. }
  split; [assumption |]. split; [assumption |]. split.
  { unfold pokeHoles. rewrite bind_eq, Hplan. rewrite bind_eq, Hcopy.
    rewrite bind_eq. cbn [fst snd]. by rewrite Hrun. }
  split; [| assumption].
  simpl store. pose proof (poked_wf _ _ _ _ _ _ _ Hp) as [Hl _].
  rewrite <- Hl. apply contents_block.
Qed.

(** ** FullBoardGenerator: seeding a box *)

Lemma isSafeInBox_true b row col num c :
  wfBoard b -> (row + 2 < 9)%nat -> (col + 2 < 9)%nat -> In c boxCells ->
  isSafeInBox b row col num = true ->
  valueAt b (row + fst c, col + snd c)%nat <> num.
Proof.
  intros Hwf Hr Hc Hin Hsafe Hv. unfold isSafeInBox in Hsafe.
  apply negb_true_iff, not_true_iff_false in Hsafe. apply Hsafe.
  destruct c as [i j]. unfold boxCells in Hin. apply in_flat_map in Hin as (i' & Hi & Hin).
  apply in_map_iff in Hin as (j' & [= -> ->] & Hj). apply in_seq in Hi, Hj.
  apply existsb_seq_true. exists i. split; [lia |].
  apply existsb_seq_true. exists j. split; [lia |].
  apply cellIs_true. simpl in Hv.
  pose proof (wfBoard_cell b (row + i, col + j)%nat Hwf) as E. simpl in E.
  rewrite E by (split; simpl; lia). by rewrite Hv.
Qed.

Lemma drawSafe_S fuel src b row col k :
  drawSafe (S fuel) src b row col k =
  if isSafeInBox b row col (Z.of_nat (randomBelow src k 9) + 1)
  then Some (Z.of_nat (randomBelow src k 9) + 1, S k)
  else drawSafe fuel src b row col (S k).
Proof. reflexivity. Qed.

Lemma drawSafe_spec fuel src b row col k num k' :
  drawSafe fuel src b row col k = Some (num, k') ->
  1 <= num <= 9 /\ isSafeInBox b row col num = true.
Proof.
  revert k. induction fuel as [|fuel IH]; intros k H; [discriminate |].
  rewrite drawSafe_S in H.
  destruct (isSafeInBox b row col (Z.of_nat (randomBelow src k 9) + 1)) eqn:E.
  - injection H as <- <-. split; [| assumption].
    pose proof (Nat.mod_upper_bound (src k) 9). unfold randomBelow. lia.
  - by apply IH in H.
Qed.

Lemma boxCells_bound c : In c boxCells -> (fst c < 3 /\ snd c < 3)%nat.
Proof.
  unfold boxCells. intros Hin. apply in_flat_map in Hin as (i & Hi & Hin).
  apply in_map_iff in Hin as (j & <- & Hj). apply in_seq in Hi, Hj. simpl. lia.
Qed.

Lemma boxCells_NoDup : List.NoDup boxCells.
Proof.
  unfold boxCells. simpl.
  repeat (apply List.NoDup_cons_iff; split;
    [simpl; intros H; repeat (destruct H as [H | H]; [discriminate |]); exact H |]).
  apply List.NoDup_nil.
Qed.

Section FillBox.
Variables (fuel : nat) (src : Source) (row col : nat).
Hypothesis row_ok : (row + 2 < 9)%nat.
Hypothesis col_ok : (col + 2 < 9)%nat.

Let at_ (b : list (list Z)) (c : nat * nat) : Z :=
  valueAt b (row + fst c, col + snd c)%nat.

Lemma fillCells_spec cells : forall done b k b' k',
  wfBoard b -> done ++ cells = boxCells ->
  (forall c, In c done -> 1 <= at_ b c <= 9) ->
  List.NoDup (map (at_ b) done) ->
  (forall c, In c cells -> at_ b c = 0) ->
  fillCells fuel src row col cells b k = Some (b', k') ->
  wfBoard b' /\
  (forall c, In c boxCells -> 1 <= at_ b' c <= 9) /\
  List.NoDup (map (at_ b') boxCells) /\
  (forall q, (forall c, In c boxCells -> q <> (row + fst c, col + snd c)%nat) ->
             valueAt b' q = valueAt b q).
Proof.
  induction cells as [|[i j] cells IH]; intros done b k b' k' Hwf Hsplit Hr Hnd Hz.
  - simpl. intros [= <- <-]. rewrite app_nil_r in Hsplit. subst done. auto.
  - simpl. destruct (drawSafe fuel src b row col k) as [[num k1]|] eqn:E;
      [| discriminate].
    apply drawSafe_spec in E as [Hnum Hsafe]. intros Hrun.
    assert (Hin : In (i, j) boxCells).
    { rewrite <- Hsplit. apply in_or_app. right. by left. }
    pose proof (boxCells_bound _ Hin) as [Hi Hj]. simpl in Hi, Hj.
    assert (Hcell : cell b (row + i) (col + j) = Some 0).
    { pose proof (wfBoard_cell b (row + i, col + j)%nat Hwf) as Ec. simpl in Ec.
      rewrite Ec by (split; simpl; lia). f_equal. apply (Hz (i, j)). by left. }
    assert (Hother : forall c, In c boxCells -> c <> (i, j) ->
              at_ (setCell b (row + i) (col + j) num) c = at_ b c).
    { intros [i' j'] Hc Hne. unfold at_. apply valueAt_setCell_ne.
      simpl. intros [= H1 H2]. apply Hne. f_equal; lia. }
    assert (Hnd' : List.NoDup boxCells) by apply boxCells_NoDup.
    rewrite <- Hsplit in Hnd'. apply NoDup_remove in Hnd' as [Hnd1 Hnotin].
    apply (IH (done ++ [(i, j)])) in Hrun.
    + destruct Hrun as (Hw' & Hr' & Hn' & Ho'). split; [assumption |].
      split; [assumption |]. split; [assumption |].
      intros q Hq. rewrite Ho' by assumption.
      apply valueAt_setCell_ne. intros <-. by apply (Hq (i, j)).
    + by apply wfBoard_setCell.
    + by rewrite <- app_assoc.
    + intros c Hc. apply in_app_or in Hc as [Hc | [<- | []]].
      * rewrite Hother.
        -- by apply Hr.
        -- rewrite <- Hsplit. apply in_or_app. by left.
        -- intros ->. apply Hnotin. apply in_or_app. by left.
      * unfold at_. simpl. by rewrite (valueAt_setCell_eq _ _ _ _ _ Hcell).
    + rewrite map_app. simpl.
      assert (Hmap : map (at_ (setCell b (row + i) (col + j) num)) done
                     = map (at_ b) done).
      { apply map_ext_in. intros c Hc. apply Hother.
        - rewrite <- Hsplit. apply in_or_app. by left.
        - intros ->. apply Hnotin. apply in_or_app. by left. }
      rewrite Hmap. unfold at_ at 2. simpl.
      rewrite (valueAt_setCell_eq _ _ _ _ _ Hcell).
      apply (Permutation_NoDup (l := num :: map (at_ b) done)).
      * apply Permutation_cons_append.
      * apply List.NoDup_cons; [| assumption].
        intros Hin'. apply in_map_iff in Hin' as (c & Hc & Hcin).
        apply (isSafeInBox_true b row col num c Hwf row_ok col_ok); auto.
        rewrite <- Hsplit. apply in_or_app. by left.
    + intros c Hc. rewrite Hother.
      * apply Hz. by right.
      * rewrite <- Hsplit. apply in_or_app. right. by right.
      * intros ->. apply Hnotin. apply in_or_app. by right.
Qed.

Lemma fillBox_spec b k b' k' :
  wfBoard b ->
  (forall c, In c boxCells -> at_ b c = 0) ->
  fillBox fuel src b row col k = Some (b', k') ->
  wfBoard b' /\ Permutation (boxValues b' row col) digits /\
  (forall q, (forall c, In c boxCells -> q <> (row + fst c, col + snd c)%nat) ->
             valueAt b' q = valueAt b q).
Proof.
  intros Hwf Hz Hrun. unfold fillBox in Hrun.
  apply (fillCells_spec boxCells []) in Hrun; try assumption; try reflexivity.
  - destruct Hrun as (Hw' & Hr' & Hn' & Ho'). split; [assumption |].
    split; [| assumption].
    apply NoDup_Permutation_bis; [exact Hn' | reflexivity |].
    intros v Hv. apply in_map_iff in Hv as (c & <- & Hc).
    apply in_digits. by apply Hr'.
  - intros c [].
  - apply List.NoDup_nil.
Qed.
End FillBox.

(** ** FullBoardGenerator: the three diagonal boxes *)

Lemma valueAt_emptyBoard p : valueAt emptyBoard p = 0.
Proof.
  destruct p as [r c]. unfold valueAt. simpl fst. simpl snd. revert c.
  do 9 (destruct r as [|r];
        [intros c; do 9 (destruct c as [|c]; [reflexivity |]); reflexivity |]).
  reflexivity.
Qed.

Lemma wfBoard_emptyBoard : wfBoard emptyBoard.
Proof. split; [reflexivity | repeat constructor]. Qed.

Lemma outside_box row col (q : nat * nat) :
  (fst q < row \/ row + 3 <= fst q \/ snd q < col \/ col + 3 <= snd q)%nat ->
  forall c, In c boxCells -> q <> (row + fst c, col + snd c)%nat.
Proof.
  intros H c Hc ->. apply boxCells_bound in Hc. simpl in H. lia.
Qed.

Lemma boxValues_ext b b' row col :
  (forall c, In c boxCells ->
     valueAt b' (row + fst c, col + snd c)%nat
     = valueAt b (row + fst c, col + snd c)%nat) ->
  boxValues b' row col = boxValues b row col.
Proof. intros H. unfold boxValues. by apply map_ext_in. Qed.

Lemma onDiagonal_false_outside (p : nat * nat) k :
  onDiagonal p = false ->
  (fst p < 3 * k \/ 3 * k + 3 <= fst p \/ snd p < 3 * k \/ 3 * k + 3 <= snd p)%nat.
Proof.
  unfold onDiagonal. rewrite Nat.eqb_neq. intros Hne.
  destruct (decide (fst p / 3 = k)%nat) as [Hr | Hr].
  - assert (snd p / 3 <> k)%nat as Hc by congruence.
    pose proof (Nat.div_mod_eq (snd p) 3). pose proof (Nat.mod_upper_bound (snd p) 3).
    assert (snd p / 3 < k \/ k < snd p / 3)%nat as [?|?] by lia; lia.
  - pose proof (Nat.div_mod_eq (fst p) 3). pose proof (Nat.mod_upper_bound (fst p) 3).
    assert (fst p / 3 < k \/ k < fst p / 3)%nat as [?|?] by lia; lia.
Qed.

(** Seeding the three boxes of the diagonal of the empty board. *)
Lemma fillBoxes_seeded fuel src k0 b1 k1 b2 k2 b3 k3 :
  fillBox fuel src emptyBoard 0 0 k0 = Some (b1, k1) ->
  fillBox fuel src b1 3 3 k1 = Some (b2, k2) ->
  fillBox fuel src b2 6 6 k2 = Some (b3, k3) ->
  wfBoard b1 /\ wfBoard b2 /\ seeded b3.
Proof.
  intros H1 H2 H3.
  apply fillBox_spec in H1 as (Hw1 & Hp1 & Ho1);
    [| lia | lia | apply wfBoard_emptyBoard
     | intros; apply valueAt_emptyBoard].
  apply fillBox_spec in H2 as (Hw2 & Hp2 & Ho2); [| lia | lia | assumption |].
  2:{ intros c Hc. pose proof (boxCells_bound c Hc).
      rewrite Ho1 by (apply outside_box; simpl; lia).
      apply valueAt_emptyBoard. }
  apply fillBox_spec in H3 as (Hw3 & Hp3 & Ho3); [| lia | lia | assumption |].
  2:{ intros c Hc. pose proof (boxCells_bound c Hc).
      rewrite Ho2 by (apply outside_box; simpl; lia).
      rewrite Ho1 by (apply outside_box; simpl; lia).
      apply valueAt_emptyBoard. }
  split; [assumption |]. split; [assumption |].
  split; [assumption |]. split.
  - intros k Hk. assert (k = 0 \/ k = 1 \/ k = 2)%nat as [-> | [-> | ->]] by lia.
    + change (3 * 0)%nat with 0%nat. rewrite <- Hp1.
      apply Permutation_refl'. apply boxValues_ext. intros c Hc.
      pose proof (boxCells_bound c Hc).
      rewrite Ho3 by (apply outside_box; simpl; lia).
      rewrite Ho2 by (apply outside_box; simpl; lia). reflexivity.
    + change (3 * 1)%nat with 3%nat. rewrite <- Hp2.
      apply Permutation_refl'. apply boxValues_ext. intros c Hc.
      pose proof (boxCells_bound c Hc).
      rewrite Ho3 by (apply outside_box; simpl; lia). reflexivity.
    + exact Hp3.
  - intros p Hp Hd.
    rewrite Ho3 by (apply outside_box; apply (onDiagonal_false_outside p 2 Hd)).
    rewrite Ho2 by (apply outside_box; apply (onDiagonal_false_outside p 1 Hd)).
    rewrite Ho1 by (apply outside_box; apply (onDiagonal_false_outside p 0 Hd)).
    apply valueAt_emptyBoard.
Qed.

(** ** FullBoardGenerator: the run of [generateFullBoard] *)

Lemma callRandom_block f st0 (pz : list (list Z)) k u w' :
  length pz = 9%nat ->
  callRandom f (seq (length st0) 9) (mkWorld (st0 ++ pz) k) = Some (u, w') ->
  exists b' k', f pz k = Some (b', k') /\
    (length b' = 9%nat -> w' = mkWorld (st0 ++ b') k').
Proof.
  intros Hlen. unfold callRandom. cbn [store draws].
  pose proof (contents_block st0 pz []) as Hc. rewrite app_nil_r, Hlen in Hc.
  rewrite Hc. destruct (f pz k) as [[b' k']|]; [| discriminate].
  intros H. exists b', k'. split; [reflexivity |]. intros Hl.
  pose proof (writeBack_block st0 pz [] b') as Hw.
  rewrite !app_nil_r, Hlen in Hw. rewrite (Hw Hl) in H. congruence.
Qed.

Lemma call_block {A} (f : list (list Z) -> option (A * list (list Z)))
    st0 (pz : list (list Z)) k a w' :
  length pz = 9%nat ->
  call f (seq (length st0) 9) (mkWorld (st0 ++ pz) k) = Some (a, w') ->
  exists b', f pz = Some (a, b') /\
    (length b' = 9%nat -> w' = mkWorld (st0 ++ b') k).
Proof.
  intros Hlen. unfold call. cbn [store draws].
  pose proof (contents_block st0 pz []) as Hc. rewrite app_nil_r, Hlen in Hc.
  rewrite Hc. destruct (f pz) as [[a' b']|]; [| discriminate].
  intros H. exists b'. split; [congruence |]. intros Hl.
  pose proof (writeBack_block st0 pz [] b') as Hw.
  rewrite !app_nil_r, Hlen in Hw. rewrite (Hw Hl) in H. congruence.
Qed.

(** A run of [generateFullBoard] allocates nine rows after the store it
    starts from, seeds them and leaves them as the solver leaves them. *)
Lemma generateFullBoard_run fuel src w board w' :
  generateFullBoard fuel src w = Some (board, w') ->
  exists b3 r b4,
    board = seq (length (store w)) 9 /\
    store w' = store w ++ b4 /\
    seeded b3 /\ solve b3 = Some (r, b4) /\ wfBoard b4.
Proof.
  unfold generateFullBoard, createEmptyBoard. rewrite bind_eq, allocRows_eq.
  change (length emptyBoard) with 9%nat.
  rewrite bind_eq.
  destruct (callRandom _ _ _) as [[u1 w1]|] eqn:E1; [| discriminate].
  apply callRandom_block in E1 as (b1 & k1 & F1 & W1); [| reflexivity].
  rewrite bind_eq.
  destruct (callRandom _ _ w1) as [[u2 w2]|] eqn:E2; [| discriminate].
  rewrite bind_eq.
  destruct (callRandom _ _ w2) as [[u3 w3]|] eqn:E3; [| discriminate].
  rewrite bind_eq.
  destruct (call solve _ w3) as [[r w4]|] eqn:E4; [| discriminate].
  rewrite ret_eq. intros [= <- <-].
  assert (Hw1 : wfBoard b1).
  { apply fillBox_spec in F1 as (Hw1 & _);
      [assumption | lia | lia | apply wfBoard_emptyBoard
       | intros; apply valueAt_emptyBoard]. }
  rewrite (W1 (proj1 Hw1)) in E2.
  apply callRandom_block in E2 as (b2 & k2 & F2 & W2); [| apply Hw1].
  destruct (fillBox fuel src b2 6 6 k2) as [[b3 k3]|] eqn:F3.
  - destruct (fillBoxes_seeded _ _ _ _ _ _ _ _ _ F1 F2 F3) as (_ & Hw2 & Hs3).
    rewrite (W2 (proj1 Hw2)) in E3.
    apply callRandom_block in E3 as (b3' & k3' & F3' & W3); [| apply Hw2].
    rewrite F3 in F3'. injection F3' as <- <-.
    assert (Hw3 : wfBoard b3) by apply Hs3.
    rewrite (W3 (proj1 Hw3)) in E4.
    apply call_block in E4 as (b4 & S4 & W4); [| apply Hw3].
    assert (Hw4 : wfBoard b4).
    { unfold solve in S4.
      destruct (solveFuel_solved _ _ _ _ Hw3 S4) as [[Hf Ht] _].
      destruct r; [apply (Ht eq_refl) | by rewrite (Hf eq_refl)]. }
    exists b3, r, b4. rewrite (W4 (proj1 Hw4)). auto.
  - exfalso.
    assert (Hw2 : wfBoard b2).
    { apply fillBox_spec in F2 as (Hw2 & _); [assumption | lia | lia | assumption |].
      intros c Hc. pose proof (boxCells_bound c Hc).
      apply fillBox_spec in F1 as (_ & _ & Ho1);
        [| lia | lia | apply wfBoard_emptyBoard
         | intros; apply valueAt_emptyBoard].
      rewrite Ho1 by (apply outside_box; simpl; lia). apply valueAt_emptyBoard. }
    rewrite (W2 (proj1 Hw2)) in E3.
    apply callRandom_block in E3 as (b3' & k3' & F3' & _); [| apply Hw2].
    congruence.
Qed.

(** ** Tables and boxes *)
Module SeedingBase.
Import Seeding.
Local Open Scope nat_scope.

Ltac casesN n d k :=
  match n with
  | O => try lia
  | S ?m => destruct d as [|d]; [k | casesN m d k]
  end.
Tactic Notation "cases9" ident(d) "by" tactic(k) := casesN 9 d k.
Tactic Notation "cases9" ident(d) := casesN 9 d ltac:(try reflexivity; try lia).
Tactic Notation "cases3" ident(d) "by" tactic(k) := casesN 3 d k.
Tactic Notation "cases3" ident(d) := casesN 3 d ltac:(try reflexivity; try lia).

Lemma leqb_eq x y : leqb x y = true -> x = y.
Proof.
  revert y; induction x as [|a x IH]; intros [|b y]; simpl; try discriminate;
    [reflexivity|].
  destruct (Nat.eqb_spec a b); [|discriminate].
  intros H; f_equal; auto.
Qed.

Lemma memb_In x l : memb x l = true -> In x l.
Proof.
  unfold memb; rewrite existsb_exists; intros (y & Hy & E).
  apply leqb_eq in E; subst; exact Hy.
Qed.

Lemma nodupb_NoDup l : nodupb l = true -> List.NoDup l.
Proof.
  induction l as [|x l IH]; simpl; [constructor|].
  destruct (memb x l) eqn:E; [discriminate|].
  intros H; constructor; auto.
  intros Hin. assert (memb x l = true); [|congruence].
  unfold memb; rewrite existsb_exists; exists x; split; auto.
  clear; induction x as [|a x IH]; simpl; auto. rewrite Nat.eqb_refl; auto.
Qed.

Lemma len9 (X : list nat) : length X = 9 ->
  exists x0 x1 x2 x3 x4 x5 x6 x7 x8, X = [x0;x1;x2;x3;x4;x5;x6;x7;x8].
Proof.
  intros H.
  do 9 (destruct X as [|? X]; [discriminate|]).
  destruct X; [|discriminate].
  do 9 eexists; reflexivity.
Qed.

Lemma sel_tab f d : d < 9 -> sel (tab f) d = f d.
Proof. intros H; cases9 d. Qed.

Lemma length_tab f : length (tab f) = 9.
Proof. reflexivity. Qed.

Lemma ext9 X Y : length X = 9 -> length Y = 9 ->
  (forall d, d < 9 -> sel X d = sel Y d) -> X = Y.
Proof.
  intros HX HY H.
  destruct (len9 X HX) as (x0&x1&x2&x3&x4&x5&x6&x7&x8&->).
  destruct (len9 Y HY) as (y0&y1&y2&y3&y4&y5&y6&y7&y8&->).
  pose proof (H 0 ltac:(lia)); pose proof (H 1 ltac:(lia));
  pose proof (H 2 ltac:(lia)); pose proof (H 3 ltac:(lia));
  pose proof (H 4 ltac:(lia)); pose proof (H 5 ltac:(lia));
  pose proof (H 6 ltac:(lia)); pose proof (H 7 ltac:(lia));
  pose proof (H 8 ltac:(lia)).
  unfold sel in *; simpl in *; congruence.
Qed.

Lemma tab_sel X : length X = 9 -> tab (sel X) = X.
Proof.
  intros H; apply ext9; auto using length_tab.
  intros d Hd; apply sel_tab; auto.
Qed.

Lemma trib_tri X : trib X = true -> tri X.
Proof.
  unfold trib; intros H.
  assert (L : length X = 9).
  { revert H; generalize 9; intros n; revert X.
    induction n as [|n IH]; intros [|v X]; simpl; try discriminate; auto.
    destruct (v <? 3); [|discriminate]. intros H; f_equal; auto. }
  split; auto.
  destruct (len9 X L) as (x0&x1&x2&x3&x4&x5&x6&x7&x8&->).
  simpl in H.
  repeat match type of H with
         | (if ?a <? 3 then _ else _) = true =>
             destruct (Nat.ltb_spec a 3); [|discriminate]
         end.
  intros d Hd; unfold sel; cases9 d by (simpl; assumption).
Qed.

Lemma tri_trib X : tri X -> trib X = true.
Proof.
  intros [L H].
  destruct (len9 X L) as (x0&x1&x2&x3&x4&x5&x6&x7&x8&->).
  pose proof (H 0 ltac:(lia)); pose proof (H 1 ltac:(lia));
  pose proof (H 2 ltac:(lia)); pose proof (H 3 ltac:(lia));
  pose proof (H 4 ltac:(lia)); pose proof (H 5 ltac:(lia));
  pose proof (H 6 ltac:(lia)); pose proof (H 7 ltac:(lia));
  pose proof (H 8 ltac:(lia)).
  unfold sel in *; simpl in *. unfold trib; simpl.
  repeat match goal with
         | |- (if ?a <? 3 then _ else _) = true =>
             destruct (Nat.ltb_spec a 3); [|lia]
         end.
  reflexivity.
Qed.

Lemma tri_tab f : (forall d, d < 9 -> f d < 3) -> tri (tab f).
Proof.
  intros H; split; [reflexivity|].
  intros d Hd; rewrite sel_tab; auto.
Qed.

Lemma allLists_In n X :
  length X = n -> Forall (fun v => v < 3) X -> In X (allLists n).
Proof.
  revert X; induction n as [|n IH]; intros [|v X]; simpl; try discriminate; auto.
  intros [= L] HF. apply List.Forall_cons_iff in HF as [Hv HF].
  apply in_flat_map. exists X; split; auto.
  simpl. cases3 v by (simpl; auto).
Qed.

Lemma tri_allTri X : tri X -> In X allTri.
Proof.
  intros [L H]. apply allLists_In; auto.
  destruct (len9 X L) as (x0&x1&x2&x3&x4&x5&x6&x7&x8&->).
  pose proof (H 0 ltac:(lia)); pose proof (H 1 ltac:(lia));
  pose proof (H 2 ltac:(lia)); pose proof (H 3 ltac:(lia));
  pose proof (H 4 ltac:(lia)); pose proof (H 5 ltac:(lia));
  pose proof (H 6 ltac:(lia)); pose proof (H 7 ltac:(lia));
  pose proof (H 8 ltac:(lia)).
  unfold sel in *; simpl in *.
  repeat (apply List.Forall_cons; [assumption|]); apply List.Forall_nil.
Qed.

Lemma neqb_neq U Y : length U = 9 -> length Y = 9 ->
  neqb U Y = true -> neq U Y.
Proof.
  intros HU HY H.
  destruct (len9 U HU) as (x0&x1&x2&x3&x4&x5&x6&x7&x8&->).
  destruct (len9 Y HY) as (y0&y1&y2&y3&y4&y5&y6&y7&y8&->).
  simpl in H.
  repeat match type of H with
         | (if ?a =? ?b then _ else _) = true =>
             destruct (Nat.eqb_spec a b); [discriminate|]
         end.
  intros d Hd; unfold sel; cases9 d by (simpl; assumption).
Qed.

Lemma sel_third U Y d : length U = 9 -> length Y = 9 -> d < 9 ->
  sel (third U Y) d = thirdv (sel U d) (sel Y d).
Proof.
  intros HU HY Hd.
  destruct (len9 U HU) as (x0&x1&x2&x3&x4&x5&x6&x7&x8&->).
  destruct (len9 Y HY) as (y0&y1&y2&y3&y4&y5&y6&y7&y8&->).
  cases9 d.
Qed.

Lemma length_third U Y : length U = 9 -> length Y = 9 ->
  length (third U Y) = 9.
Proof.
  intros HU HY.
  destruct (len9 U HU) as (x0&x1&x2&x3&x4&x5&x6&x7&x8&->).
  destruct (len9 Y HY) as (y0&y1&y2&y3&y4&y5&y6&y7&y8&->).
  reflexivity.
Qed.

Lemma thirdv_spec u y : u < 3 -> y < 3 -> u <> y ->
  thirdv u y < 3 /\ thirdv u y <> u /\ thirdv u y <> y /\
  thirdv u (thirdv u y) = y.
Proof.
  intros Hu Hy Hn. cases3 u by (cases3 y by (simpl; repeat split; lia)).
Qed.

(** The third table of a configuration. *)
Lemma cfg_third U y : tri U -> cfg U y ->
  cfg U (third U y) /\ neq y (third U y) /\ third U (third U y) = y.
Proof.
  intros [LU HU] [[Ly Hy] Hn].
  assert (L3 := length_third U y LU Ly).
  assert (S3 : forall d, d < 9 ->
            sel (third U y) d = thirdv (sel U d) (sel y d)).
  { intros d Hd; apply sel_third; auto. }
  repeat split; auto.
  - intros d Hd; rewrite S3 by auto.
    apply thirdv_spec; auto.
  - intros d Hd; rewrite S3 by auto.
    destruct (thirdv_spec (sel U d) (sel y d)) as (_ & H & _); auto.
  - intros d Hd; rewrite S3 by auto.
    destruct (thirdv_spec (sel U d) (sel y d)) as (_ & _ & H & _); auto.
  - apply ext9; auto using length_third.
    intros d Hd. rewrite sel_third, S3 by auto.
    apply thirdv_spec; auto.
Qed.

Lemma boxOK_sym R C : boxOK R C -> boxOK C R.
Proof. intros H d d' Hd Hd' E1 E2; apply H; auto. Qed.

(** Balance is a property of the values taken. *)
Lemma balb_Permutation X Y : Permutation X Y -> balb X = balb Y.
Proof.
  intros H. unfold balb, cnt.
  pose proof (proj1 (Permutation_count_occ Nat.eq_dec X Y) H) as E.
  rewrite !E; reflexivity.
Qed.

End SeedingBase.

(** ** The enumeration of partners *)
Module SeedingGen.
Import Seeding SeedingBase.
Local Open Scope nat_scope.

Lemma cnt_cons k v X :
  cnt k (v :: X) = if Nat.eqb v k then S (cnt k X) else cnt k X.
Proof.
  unfold cnt; simpl.
  destruct (Nat.eq_dec v k), (Nat.eqb_spec v k); congruence.
Qed.

Lemma balb_cnt X : balb X = true ->
  cnt 0 X = 3 /\ cnt 1 X = 3 /\ cnt 2 X = 3.
Proof.
  unfold balb.
  destruct (Nat.eqb_spec (cnt 0 X) 3); [|discriminate].
  destruct (Nat.eqb_spec (cnt 1 X) 3); [|discriminate].
  destruct (Nat.eqb_spec (cnt 2 X) 3); [|discriminate].
  auto.
Qed.

Lemma assign_blocks x : forall r0 r1 r2,
  Forall (fun v => v < 3) x ->
  cnt 0 x = length r0 -> cnt 1 x = length r1 -> cnt 2 x = length r2 ->
  blockVals 0 x (assign x r0 r1 r2) = r0 /\
  blockVals 1 x (assign x r0 r1 r2) = r1 /\
  blockVals 2 x (assign x r0 r1 r2) = r2.
Proof.
  induction x as [|v x IH]; intros r0 r1 r2 HF H0 H1 H2.
  - destruct r0, r1, r2; try discriminate; auto.
  - apply List.Forall_cons_iff in HF as [Hv HF].
    rewrite cnt_cons in H0, H1, H2.
    cases3 v by idtac; simpl in H0, H1, H2.
    + destruct r0 as [|a r0]; [discriminate|]. simpl.
      destruct (IH r0 r1 r2) as (E0 & E1 & E2); auto.
      rewrite E0, E1, E2; auto.
    + destruct r1 as [|a r1]; [discriminate|]. simpl.
      destruct (IH r0 r1 r2) as (E0 & E1 & E2); auto.
      rewrite E0, E1, E2; auto.
    + destruct r2 as [|a r2]; [discriminate|]. simpl.
      destruct (IH r0 r1 r2) as (E0 & E1 & E2); auto.
      rewrite E0, E1, E2; auto.
Qed.

Lemma in_block k x : forall y d,
  length x = length y -> d < length x -> nth d x 0 = k ->
  In (nth d y 0) (blockVals k x y).
Proof.
  induction x as [|v x IH]; intros [|u y] d L Hd E; simpl in *;
    try lia; try discriminate.
  destruct d as [|d].
  - subst v. rewrite Nat.eqb_refl. left; auto.
  - assert (In (nth d y 0) (blockVals k x y)) by (apply IH; auto; lia).
    destruct (v =? k); [right|]; auto.
Qed.

Lemma block_dup k x : forall y d d',
  length x = length y -> d < d' -> d' < length x ->
  nth d x 0 = k -> nth d' x 0 = k -> nth d y 0 = nth d' y 0 ->
  ~ List.NoDup (blockVals k x y).
Proof.
  induction x as [|v x IH]; intros [|u y] d d' L Hlt Hd' E E' Ey;
    simpl in *; try lia; try discriminate.
  destruct d' as [|d']; [lia|].
  destruct d as [|d].
  - subst v. rewrite Nat.eqb_refl. intros ND.
    apply List.NoDup_cons_iff in ND as [ND _]. apply ND.
    rewrite Ey. apply in_block; auto; lia.
  - assert (N : ~ List.NoDup (blockVals k x y)).
    { apply (IH y d d'); auto; lia. }
    destruct (v =? k); auto.
    intros ND; apply List.NoDup_cons_iff in ND as [_ ND]; auto.
Qed.

Lemma blocks_boxOK x y : tri x -> length y = 9 ->
  (forall k, k < 3 -> List.NoDup (blockVals k x y)) -> boxOK x y.
Proof.
  intros [Lx Hx] Ly ND d d' Hd Hd' Ex Ey.
  destruct (Nat.lt_trichotomy d d') as [H|[H|H]]; auto; exfalso.
  - apply (block_dup (sel x d) x y d d'); auto; lia.
  - apply (block_dup (sel x d) x y d' d); auto; lia.
Qed.

Lemma perms3_spec p : In p perms3 -> length p = 3 /\ List.NoDup p.
Proof.
  assert (D : forall a b c : nat, a <> b -> a <> c -> b <> c ->
            List.NoDup [a; b; c]).
  { intros a b c ? ? ?.
    repeat (apply List.NoDup_cons; [simpl; intuition congruence|]).
    apply List.NoDup_nil. }
  simpl; intros [<-|[<-|[<-|[<-|[<-|[<-|[]]]]]]]; split; auto.
Qed.

Lemma tri_Forall X : tri X -> Forall (fun v => v < 3) X.
Proof.
  intros HX. apply tri_allTri in HX. unfold allTri in HX.
  revert X HX; generalize 9; intros n; induction n as [|n IH]; simpl.
  - intros X [<-|[]]; constructor.
  - intros X HX. apply in_flat_map in HX as (l & Hl & HX).
    simpl in HX; destruct HX as [<-|[<-|[<-|[]]]];
      (apply List.Forall_cons; [lia | auto]).
Qed.

(** Every table of [gen U x] is a partner of [x] away from [U]. *)
Lemma gen_sound U x y : tri x -> balb x = true -> length U = 9 ->
  In y (gen U x) -> tri y /\ neq U y /\ boxOK x y.
Proof.
  intros Hx Hb LU Hy. unfold gen in Hy.
  apply filter_In in Hy as [Hy Hc].
  destruct (trib y) eqn:Ht; [|discriminate].
  apply trib_tri in Ht.
  split; auto. split; [apply neqb_neq; auto; apply Ht|].
  apply in_flat_map in Hy as (p0 & H0 & Hy).
  apply in_flat_map in Hy as (p1 & H1 & Hy).
  apply in_map_iff in Hy as (p2 & <- & H2).
  apply filter_In in H0 as [H0 _]; apply perms3_spec in H0 as [L0 N0].
  apply filter_In in H1 as [H1 _]; apply perms3_spec in H1 as [L1 N1].
  apply filter_In in H2 as [H2 _]; apply perms3_spec in H2 as [L2 N2].
  apply balb_cnt in Hb as (C0 & C1 & C2).
  destruct (assign_blocks x p0 p1 p2) as (E0 & E1 & E2);
    auto using tri_Forall; try congruence.
  apply blocks_boxOK; auto; [apply Ht|].
  intros k Hk; cases3 k by congruence.
Qed.

End SeedingGen.

(** ** Masks and tables *)
Module SeedingMask.
Import Seeding SeedingBase.
Local Open Scope nat_scope.

Lemma bit_nil i : ~ bit i [].
Proof. unfold bit; destruct i; discriminate. Qed.

Lemma bit_orl x : forall y i, bit i (orl x y) -> bit i x \/ bit i y.
Proof.
  unfold bit; induction x as [|a x IH]; intros [|b y] i; simpl; auto.
  destruct i as [|i]; simpl; [destruct a; auto | apply IH].
Qed.

Lemma bit_onehot j : forall i, bit i (onehot j) -> i = j.
Proof.
  unfold bit; induction j as [|j IH]; intros [|i]; simpl; auto;
    try discriminate.
  destruct i; discriminate.
Qed.

Lemma onesFrom_In m : forall s i,
  In i (onesFrom s m) -> s <= i /\ bit (i - s) m.
Proof.
  unfold bit; induction m as [|b m IH]; intros s i; simpl; [tauto|].
  assert (R : In i (onesFrom (S s) m) -> s <= i /\ nth (i - s) (b :: m) false = true).
  { intros H; apply IH in H as [H1 H2]. split; [lia|].
    replace (i - s) with (S (i - S s)) by lia. exact H2. }
  destruct b; simpl; auto.
  intros [<-|H]; auto. rewrite Nat.sub_diag; auto.
Qed.

Lemma onesFrom_NoDup m : forall s, List.NoDup (onesFrom s m).
Proof.
  induction m as [|b m IH]; intros s; simpl; [constructor|].
  destruct b; auto. constructor; auto.
  intros H; apply onesFrom_In in H; lia.
Qed.

Lemma onesFrom_length m : forall s, length (onesFrom s m) = countT m.
Proof.
  induction m as [|b m IH]; intros s; simpl; auto.
  destruct b; simpl; auto.
Qed.

(** A mask with [n] bits names [n] different indices. *)
Lemma mask_indices m :
  exists l, List.NoDup l /\ length l = countT m /\ forall i, In i l -> bit i m.
Proof.
  exists (onesFrom 0 m); split; [apply onesFrom_NoDup|].
  split; [apply onesFrom_length|].
  intros i H; apply onesFrom_In in H as [_ H].
  rewrite Nat.sub_0_r in H; exact H.
Qed.

Lemma bucket_In q kv i : bit i (bucket q kv) -> exists m, In (q, m) kv /\ bit i m.
Proof.
  induction kv as [|[k m] kv IH]; simpl; [intros H; destruct (bit_nil _ H)|].
  destruct (leqb q k) eqn:E.
  - apply leqb_eq in E; subst. intros H; exists m; auto.
  - intros H; destruct (IH H) as (m' & ? & ?); exists m'; auto.
Qed.

Lemma tfind_leaves t : forall k q i,
  bit i (tfind t k q) -> exists m, In (q, m) (leaves t) /\ bit i m.
Proof.
  induction t as [kv|t0 IH0 t1 IH1 t2 IH2]; intros k q i; simpl.
  - apply bucket_In.
  - destruct k as [|v k]; [intros H; destruct (bit_nil _ H)|].
    destruct v as [|[|v]]; intros H;
      [apply IH0 in H | apply IH1 in H | apply IH2 in H];
      destruct H as (m & ? & ?); exists m; rewrite !in_app_iff; auto.
Qed.

Lemma leaves_tadd k : forall km t x,
  In x (leaves (tadd k km t)) -> x = km \/ In x (leaves t).
Proof.
  induction k as [|v k IH]; intros km t x; simpl.
  - destruct t; simpl; auto. intros [H|H]; auto.
  - destruct t as [kv|a b c]; destruct v as [|[|v]]; simpl;
      rewrite ?in_app_iff; intros H;
      repeat match goal with
             | H : _ \/ _ |- _ => destruct H as [H|H]
             | H : In _ (leaves (tadd _ _ _)) |- _ => apply IH in H
             | H : In _ (leaves tempty) |- _ => destruct H
             | H : In _ [] |- _ => destruct H
             | H : False |- _ => destruct H
             end; auto.
  all: try (simpl in *; tauto).
Qed.

Lemma leaves_fromList l x : In x (leaves (fromList l)) -> In x l.
Proof.
  unfold fromList.
  assert (G : forall t, In x (leaves (fold_left
                (fun t km => tadd (fst km) km t) l t)) ->
              In x l \/ In x (leaves t)).
  { induction l as [|km l IH]; intros t; simpl; auto.
    intros H; apply IH in H as [H|H]; auto.
    apply leaves_tadd in H as [H|H]; auto. }
  intros H; apply G in H as [H|[]]; auto.
Qed.

Lemma tlookup_fromList l q i :
  bit i (tlookup (fromList l) q) -> exists m, In (q, m) l /\ bit i m.
Proof.
  intros H; apply tfind_leaves in H as (m & H & Hb).
  exists m; split; auto. apply leaves_fromList; auto.
Qed.

Lemma unionOver_bit t keys i :
  bit i (unionOver t keys) -> exists k, In k keys /\ bit i (tlookup t k).
Proof.
  unfold unionOver.
  assert (G : forall acc, bit i (fold_left
                (fun acc k => orl acc (tlookup t k)) keys acc) ->
              bit i acc \/ exists k, In k keys /\ bit i (tlookup t k)).
  { induction keys as [|k keys IH]; intros acc; simpl; auto.
    intros H; apply IH in H as [H|(k' & ? & ?)]; [|right; exists k'; auto].
    apply bit_orl in H as [H|H]; auto. right; exists k; auto. }
  intros H; apply G in H as [H|H]; auto. destruct (bit_nil _ H).
Qed.

Lemma indexed_In {A} (l : list A) : forall s i x,
  In (i, x) (indexed s l) -> s <= i /\ nth_error l (i - s) = Some x.
Proof.
  induction l as [|y l IH]; intros s i x; simpl; [tauto|].
  intros [[= <- <-]|H].
  - rewrite Nat.sub_diag; auto.
  - apply IH in H as [H1 H2]. split; [lia|].
    replace (i - s) with (S (i - S s)) by lia. exact H2.
Qed.

Lemma tIdxQ_eq : tIdxQ = fromList kvQ.
Proof. vm_compute; reflexivity. Qed.
Lemma tIdxP_eq : tIdxP = fromList kvP.
Proof. vm_compute; reflexivity. Qed.

Lemma tIdxQ_bit q i : bit i (tlookup tIdxQ q) ->
  exists e, nth_error cfgsQ0 i = Some e /\ q = third Q0 e.
Proof.
  rewrite tIdxQ_eq; intros H.
  apply tlookup_fromList in H as (m & H & Hb).
  apply in_map_iff in H as ([j e] & [= <- <-] & H).
  apply indexed_In in H as [_ H]. rewrite Nat.sub_0_r in H.
  apply bit_onehot in Hb; subst. exists e; auto.
Qed.

Lemma tIdxP_bit q i : bit i (tlookup tIdxP q) -> nth_error cfgsP0 i = Some q.
Proof.
  rewrite tIdxP_eq; intros H.
  apply tlookup_fromList in H as (m & H & Hb).
  apply in_map_iff in H as ([j e] & [= <- <-] & H).
  apply indexed_In in H as [_ H]. rewrite Nat.sub_0_r in H.
  apply bit_onehot in Hb; subst. auto.
Qed.

End SeedingMask.

(** ** Soundness of the search *)
Module SeedingSearch.
Import Seeding SeedingBase SeedingGen SeedingMask.
Local Open Scope nat_scope.

Lemma okCfg_spec U y : length U = 9 -> okCfg U y = true ->
  tri y /\ neq U y /\ balb y = true.
Proof.
  intros LU; unfold okCfg.
  destruct (trib y) eqn:Ht; [|discriminate].
  destruct (neqb U y) eqn:Hn; [|discriminate].
  apply trib_tri in Ht. intros Hb; repeat split; auto; try apply Ht.
  apply neqb_neq; auto; apply Ht.
Qed.

Lemma confb_spec U y : length U = 9 -> confb U y = true ->
  tri y /\ neq U y /\ balb y = true /\ balb (third U y) = true.
Proof.
  intros LU; unfold confb.
  destruct (trib y) eqn:Ht; [|discriminate].
  destruct (neqb U y) eqn:Hn; [|discriminate].
  destruct (balb y) eqn:Hb; [|discriminate].
  apply trib_tri in Ht. intros Hb'; repeat split; auto; try apply Ht.
  apply neqb_neq; auto; apply Ht.
Qed.

Lemma confOK_spec U l : length U = 9 -> confOK U l = true ->
  (forall a, In a l ->
     tri a /\ neq U a /\ balb a = true /\ balb (third U a) = true /\
     In (third U a) l /\ third U (third U a) = a) /\
  List.NoDup l /\ length l = 56.
Proof.
  intros LU H. unfold confOK in H.
  apply andb_prop in H as [H H3]. apply andb_prop in H as [H1 H2].
  split; [|split; [apply nodupb_NoDup; auto | apply Nat.eqb_eq; auto]].
  intros a Ha. rewrite forallb_forall in H1. specialize (H1 a Ha).
  apply andb_prop in H1 as [H1 E]. apply andb_prop in H1 as [H1 M].
  apply confb_spec in H1 as (? & ? & ? & ?); auto.
  apply memb_In in M. apply leqb_eq in E. auto 10.
Qed.

Lemma cfgsP0_spec :
  (forall a, In a cfgsP0 ->
     tri a /\ neq P0 a /\ balb a = true /\ balb (third P0 a) = true /\
     In (third P0 a) cfgsP0 /\ third P0 (third P0 a) = a) /\
  List.NoDup cfgsP0 /\ length cfgsP0 = 56.
Proof. apply confOK_spec; [reflexivity | vm_compute; reflexivity]. Qed.

Lemma cfgsQ0_spec :
  (forall a, In a cfgsQ0 ->
     tri a /\ neq Q0 a /\ balb a = true /\ balb (third Q0 a) = true /\
     In (third Q0 a) cfgsQ0 /\ third Q0 (third Q0 a) = a) /\
  List.NoDup cfgsQ0 /\ length cfgsQ0 = 56.
Proof. apply confOK_spec; [reflexivity | vm_compute; reflexivity]. Qed.

(** The members of a list without repetition named by a list of
    indices without repetition. *)
Lemma indices_list (L : list (list nat)) (P : list nat -> Prop) l :
  List.NoDup L -> List.NoDup l ->
  (forall i, In i l -> exists e, nth_error L i = Some e /\ P e) ->
  exists LE, List.NoDup LE /\ length LE = length l /\
             forall e, In e LE -> In e L /\ P e.
Proof.
  intros NL Nl H.
  exists (map (fun i => nth i L []) l).
  assert (E : forall i, In i l -> i < length L /\
            nth_error L i = Some (nth i L []) /\ P (nth i L [])).
  { intros i Hi. destruct (H i Hi) as (e & He & HP).
    assert (i < length L) by (apply nth_error_Some; congruence).
    rewrite (nth_error_nth' L [] ) in He by auto.
    injection He as <-. rewrite (nth_error_nth' L []) by auto. auto. }
  split; [|split; [apply length_map|]].
  - apply Finite.Injective_map_NoDup_in; auto.
    intros i j Hi Hj Eq.
    destruct (E i Hi) as (Li & Ei & _), (E j Hj) as (Lj & Ej & _).
    rewrite List.NoDup_nth_error in NL. apply NL; auto. congruence.
  - intros e He. apply in_map_iff in He as (i & <- & Hi).
    destruct (E i Hi) as (Li & Ei & HP). split; auto.
    eapply nth_error_In; eauto.
Qed.

Section Search.
Variables V W : list nat.
Hypothesis HV : tri V.
Hypothesis HW : tri W.

Let LV : length V = 9 := proj1 HV.
Let LW : length W = 9 := proj1 HW.

Lemma semE c' i : bit i (tlookup (tableE W) c') ->
  exists c e, c' = third W c /\ cfg W c /\
              nth_error cfgsQ0 i = Some e /\ link Q0 c e.
Proof.
  intros H. apply tlookup_fromList in H as (m & H & Hb).
  apply in_map_iff in H as (c & [= <- <-] & _).
  destruct (okCfg W c) eqn:Hc; [|destruct (bit_nil _ Hb)].
  apply okCfg_spec in Hc as (Tc & Nc & Bc); auto.
  apply unionOver_bit in Hb as (e' & He' & Hb).
  apply tIdxQ_bit in Hb as (e & He & ->).
  apply gen_sound in He' as (_ & _ & Hbox); auto.
  exists c, e. repeat split; auto; try apply Tc.
  - apply cfgsQ0_spec. eapply nth_error_In; eauto.
  - apply cfgsQ0_spec. eapply nth_error_In; eauto.
  - apply cfgsQ0_spec. eapply nth_error_In; eauto.
Qed.

Lemma semB b i : okCfg V b = true -> bit i (maskB W (tableE W) b) ->
  exists c e, link W b c /\ link Q0 c e /\ nth_error cfgsQ0 i = Some e.
Proof.
  intros Hb H. apply okCfg_spec in Hb as (Tb & Nb & Bb); auto.
  apply unionOver_bit in H as (c' & Hc' & H).
  apply gen_sound in Hc' as (_ & _ & Hbox); auto.
  apply semE in H as (c & e & -> & Hc & He & Hl).
  exists c, e.
  split; [split; [exact Hc | exact Hbox] | split; [exact Hl | exact He]].
Qed.

Lemma goodB b : okCfg V b = true -> 29 <= countT (maskB W (tableE W) b) ->
  exists LE, List.NoDup LE /\ 29 <= length LE /\
    forall e, In e LE -> In e cfgsQ0 /\
      exists c, link W b c /\ link Q0 c e.
Proof.
  intros Hb Hc.
  destruct (mask_indices (maskB W (tableE W) b)) as (l & Nl & Ll & Hl).
  destruct (indices_list cfgsQ0
              (fun e => exists c, link W b c /\ link Q0 c e) l)
    as (LE & N & L & H); auto.
  - apply cfgsQ0_spec.
  - intros i Hi. apply Hl, semB in Hi as (c & e & ? & ? & ?); auto.
    exists e; split; auto. exists c; auto.
  - exists LE; split; auto. split; [lia | auto].
Qed.

Lemma covered_reach cov : covered V W cov -> 29 <= countT cov -> reach V W.
Proof.
  intros Hc Hn.
  destruct (mask_indices cov) as (l & Nl & Ll & Hl).
  destruct (indices_list cfgsP0 (goodA V W) l) as (LA & N & L & H); auto.
  - apply cfgsP0_spec.
  - exists LA; split; auto. split; [lia|]. exact H.
Qed.

Lemma cover_sound bs : forall cov,
  covered V W cov -> cover V W (tableE W) bs cov = true -> reach V W.
Proof.
  induction bs as [|b bs IH]; intros cov Hcov; cbn [cover].
  - destruct (Nat.leb_spec 29 (countT cov)); [|discriminate].
    intros _; eapply covered_reach; eauto.
  - destruct (Nat.leb_spec 29 (countT cov)).
    { intros _; eapply covered_reach; eauto. }
    destruct (okCfg V b) eqn:Hb; [|apply IH; auto].
    destruct (Nat.leb_spec 29 (countT (maskB W (tableE W) b)));
      [|apply IH; auto].
    destruct (balb (third V b)) eqn:Hb'; [|apply IH; auto].
    apply IH. intros j Hj.
    apply bit_orl in Hj as [Hj|Hj]; [apply Hcov; auto|].
    apply unionOver_bit in Hj as (a & Ha & Hj).
    apply tIdxP_bit in Hj. exists a; split; auto.
    destruct (okCfg_spec V b LV Hb) as (Tb & Nb & Bb).
    destruct (cfg_third V b HV (conj Tb Nb)) as ((T3 & _) & _).
    apply gen_sound in Ha as (_ & _ & Hbox); auto.
    destruct (goodB b Hb) as (LE & N & L & HE); auto.
    exists LE; split; auto. split; auto.
    intros e He. destruct (HE e He) as (? & c & ? & ?). split; auto.
    exists b, c.
    split; [split; [split; auto | apply boxOK_sym; auto] | split; auto].
Qed.

Variable cV : list (list nat).

Lemma semA a i : tri a -> balb a = true ->
  bit i (maskA V (fromList (kvG V W (tableE W) cV)) a) ->
  exists e, nth_error cfgsQ0 i = Some e /\ path V W a e.
Proof.
  intros Ta Ba H.
  apply unionOver_bit in H as (b' & Hb' & H).
  apply gen_sound in Hb' as (_ & _ & Hbox); auto.
  apply tlookup_fromList in H as (m & H & Hm).
  apply in_map_iff in H as (b & [= <- <-] & _).
  destruct (okCfg V b) eqn:Hb; [|destruct (bit_nil _ Hm)].
  destruct (semB b i Hb Hm) as (c & e & ? & ? & ?).
  apply okCfg_spec in Hb as (Tb & Nb & Bb); auto.
  exists e; split; auto. exists b, c.
  split; [split; [split; auto | auto] | split; auto].
Qed.

Lemma countGood_sound l : forall need,
  List.NoDup l -> (forall a, In a l -> In a cfgsP0) ->
  countGood need V (fromList (kvG V W (tableE W) cV)) l = true ->
  exists LA, List.NoDup LA /\ length LA = need /\
    forall a, In a LA -> In a l /\ goodA V W a.
Proof.
  assert (Z : exists LA : list (list nat), List.NoDup LA /\ length LA = 0 /\
            forall a, In a LA -> In a [] /\ goodA V W a).
  { exists []; split; [constructor|]. split; auto. intros ? []. }
  induction l as [|a l IH]; intros need Nl Hl.
  - destruct need; cbn [countGood]; [auto | discriminate].
  - destruct need as [|need].
    { intros _; exists []; split; [constructor|]. split; auto. intros ? []. }
    apply List.NoDup_cons_iff in Nl as [Na Nl].
    assert (Hl' : forall x, In x l -> In x cfgsP0)
      by (intros; apply Hl; right; auto).
    assert (Skip : countGood (S need) V
                     (fromList (kvG V W (tableE W) cV)) l = true ->
             exists LA, List.NoDup LA /\ length LA = S need /\
               forall x, In x LA -> In x (a :: l) /\ goodA V W x).
    { intros H; apply IH in H as (LA & ? & ? & H); auto.
      exists LA; split; auto. split; auto.
      intros x Hx; destruct (H x Hx); split; auto. right; auto. }
    cbn [countGood]. destruct (balb a) eqn:Ba; auto.
    destruct (Nat.leb_spec 29
      (countT (maskA V (fromList (kvG V W (tableE W) cV)) a))) as [Hn|];
      auto.
    intros H. apply IH in H as (LA & N & L & H); auto.
    exists (a :: LA). split; [|split; [simpl; congruence|]].
    + constructor; auto. intros Hin; apply Na, H; auto.
    + assert (Ta : tri a) by (apply cfgsP0_spec, Hl; left; auto).
      intros x [<-|Hx]; [|destruct (H x Hx); split; auto; right; auto].
      split; [left; auto|].
      destruct (mask_indices
                  (maskA V (fromList (kvG V W (tableE W) cV)) a))
        as (li & Nli & Lli & Hli).
      destruct (indices_list cfgsQ0 (path V W a) li)
        as (LE & NE & LEn & HE); auto.
      * apply cfgsQ0_spec.
      * intros i Hi; apply (semA a i); auto.
      * exists LE; split; auto. split; [lia | auto].
Qed.

Lemma reachOK_sound : reachOK W (tableE W) (V, cV) = true -> reach V W.
Proof.
  unfold reachOK; cbn [fst snd].
  destruct (cover V W (tableE W) cV []) eqn:E.
  - intros _. apply (cover_sound cV []); auto.
    intros j Hj; destruct (bit_nil _ Hj).
  - intros H. apply countGood_sound in H as (LA & N & L & H).
    + exists LA; split; auto. split; [lia|].
      intros a Ha; destruct (H a Ha); auto.
    + apply cfgsP0_spec.
    + auto.
Qed.

End Search.

Lemma VrepsC_eq : VrepsC = map (fun V => (V, cfgsFast V)) Vreps.
Proof. vm_compute; reflexivity. Qed.

Lemma reps_tri :
  forallb trib Vreps = true /\ forallb trib parts = true.
Proof. split; vm_compute; reflexivity. Qed.

Lemma reachAllFor_spec W Vc :
  reachAllFor W = true -> In Vc VrepsC -> reachOK W (tableE W) Vc = true.
Proof.
  unfold reachAllFor; rewrite forallb_forall; auto.
Qed.

(** The search succeeds for every representative. *)
Lemma reachAll_true : forallb reachAllFor parts = true.
Proof. vm_compute; reflexivity. Qed.

Lemma reach_reps V W : In V Vreps -> In W parts -> reach V W.
Proof.
  intros HV HW.
  assert (TV : tri V).
  { apply trib_tri. destruct reps_tri as [H _].
    rewrite forallb_forall in H; auto. }
  assert (TW : tri W).
  { apply trib_tri. destruct reps_tri as [_ H].
    rewrite forallb_forall in H; auto. }
  apply (reachOK_sound V W TV TW (cfgsFast V)).
  apply reachAllFor_spec.
  - exact (proj1 (forallb_forall reachAllFor parts) reachAll_true W HW).
  - rewrite VrepsC_eq. apply (in_map (fun V => (V, cfgsFast V))); auto.
Qed.

End SeedingSearch.

(** ** From the representatives to all boxes *)
Module SeedingSym.
Import Seeding SeedingBase SeedingGen SeedingMask SeedingSearch.
Local Open Scope nat_scope.

Lemma perm3_spec s : In s perms3 ->
  (forall u, u < 3 -> sel s u < 3) /\
  (forall u v, u < 3 -> v < 3 -> sel s u = sel s v -> u = v) /\
  (forall u y, u < 3 -> y < 3 -> u <> y ->
     thirdv (sel s u) (sel s y) = sel s (thirdv u y)).
Proof.
  intros H; simpl in H. split; [|split].
  - intros u Hu.
    destruct H as [<-|[<-|[<-|[<-|[<-|[<-|[]]]]]]];
      cases3 u by (unfold sel; simpl; lia).
  - intros u v Hu Hv.
    destruct H as [<-|[<-|[<-|[<-|[<-|[<-|[]]]]]]];
      cases3 u by (cases3 v by (unfold sel; simpl; lia)).
  - intros u y Hu Hy Hn.
    destruct H as [<-|[<-|[<-|[<-|[<-|[<-|[]]]]]]];
      cases3 u by (cases3 y by (unfold sel; simpl; lia)).
Qed.

Lemma map_tab f Y : length Y = 9 -> map f Y = tab (fun k => f (sel Y k)).
Proof.
  intros L. destruct (len9 Y L) as (y0&y1&y2&y3&y4&y5&y6&y7&y8&->).
  reflexivity.
Qed.

Section Transport.
Variables t : list nat.
Hypothesis t_lt : forall d, d < 9 -> sel t d < 9.
Hypothesis t_inj : forall d d', d < 9 -> d' < 9 -> sel t d = sel t d' -> d = d'.

Lemma sel_tr s X d : d < 9 -> sel (tr s t X) d = sel s (sel X (sel t d)).
Proof. intros H; unfold tr; rewrite sel_tab; auto. Qed.

Lemma tr_tri s X : In s perms3 -> tri X -> tri (tr s t X).
Proof.
  intros Hs [_ HX]. apply tri_tab. intros d Hd.
  destruct (perm3_spec s Hs) as (S1 & _). auto.
Qed.

Lemma tr_neq s U y : In s perms3 -> tri U -> tri y -> neq U y ->
  neq (tr s t U) (tr s t y).
Proof.
  intros Hs [_ HU] [_ Hy] Hn d Hd. rewrite !sel_tr by auto.
  destruct (perm3_spec s Hs) as (_ & S2 & _).
  intros E. apply S2 in E; auto. exact (Hn (sel t d) (t_lt d Hd) E).
Qed.

Lemma tr_third s U y : In s perms3 -> tri U -> tri y -> neq U y ->
  third (tr s t U) (tr s t y) = tr s t (third U y).
Proof.
  intros Hs [LU HU] [Ly Hy] Hn.
  apply ext9; [apply length_third; reflexivity | reflexivity |].
  intros d Hd.
  rewrite sel_third, !sel_tr, sel_third by auto using length_tab.
  destruct (perm3_spec s Hs) as (_ & _ & S3). apply S3; auto.
Qed.

Lemma tr_boxOK s1 s2 X Y : In s1 perms3 -> In s2 perms3 ->
  tri X -> tri Y -> boxOK X Y -> boxOK (tr s1 t X) (tr s2 t Y).
Proof.
  intros H1 H2 [_ HX] [_ HY] Hb d d' Hd Hd'.
  rewrite !sel_tr by auto. intros E1 E2.
  destruct (perm3_spec s1 H1) as (_ & S1 & _).
  destruct (perm3_spec s2 H2) as (_ & S2 & _).
  apply S1 in E1; auto. apply S2 in E2; auto.
Qed.

Lemma tr_link sU sx U x y : In sU perms3 -> In sx perms3 ->
  tri U -> tri x -> link U x y ->
  link (tr sU t U) (tr sx t x) (tr sU t y).
Proof.
  intros HU Hx TU Tx [[Ty Hn] Hb].
  split; [split; [apply tr_tri | apply tr_neq]; auto|].
  rewrite tr_third by auto.
  apply tr_boxOK; auto.
  apply (cfg_third U y); auto. split; auto.
Qed.

Lemma tr_path sP sQ sV sW V W a e :
  In sP perms3 -> In sQ perms3 -> In sV perms3 -> In sW perms3 ->
  tr sQ t Q0 = Q0 -> tri V -> tri W -> tri a -> path V W a e ->
  path (tr sV t V) (tr sW t W) (tr sP t a) (tr sQ t e).
Proof.
  intros HP HQ HV HW EQ TV TW Ta (b & c & L1 & L2 & L3).
  assert (TQ : tri Q0) by (apply trib_tri; reflexivity).
  exists (tr sV t b), (tr sW t c).
  split; [apply tr_link; auto|].
  split; [apply tr_link; auto; apply L1|].
  rewrite <- EQ at 1. apply tr_link; auto. apply L2.
Qed.

End Transport.

Lemma map_inj_on {A B} (f : A -> B) l x y :
  List.NoDup (map f l) -> In x l -> In y l -> f x = f y -> x = y.
Proof.
  induction l as [|z l IH]; simpl; [tauto|].
  intros N. apply List.NoDup_cons_iff in N as [Nz N].
  intros [<-|Hx] [<-|Hy] E; auto.
  - exfalso; apply Nz. rewrite E. apply in_map; auto.
  - exfalso; apply Nz. rewrite <- E. apply in_map; auto.
Qed.

Lemma ltb9_sel g : length g = 9 -> forallb (fun k => k <? 9) g = true ->
  forall d, d < 9 -> sel g d < 9.
Proof.
  intros L H d Hd. rewrite forallb_forall in H.
  apply Nat.ltb_lt, H. apply nth_In; lia.
Qed.

Lemma symOK_spec e : symOK e = true -> symProp e.
Proof.
  unfold symOK; intros H. rewrite !andb_true_iff in H.
  destruct H as ((((((((((((((C1 & C2) & C3) & C4) & C5) & C6) & C7) & C8)
                  & C9) & C10) & C11) & C12) & C13) & C14) & C15).
  apply leqb_eq in C1, C2, C3.
  apply Nat.eqb_eq in C8, C9.
  apply nodupb_NoDup, List.NoDup_map_inv in C6, C7.
  apply nodupb_NoDup in C13, C15.
  apply memb_In in C10, C11.
  pose proof (ltb9_sel _ C8 C4) as G1. pose proof (ltb9_sel _ C9 C5) as G2.
  rewrite forallb_forall in C12, C14.
  split; auto.
  - intros d Hd.
    assert (E : sel (comp (symG e) (symI e)) d = sel ds d) by congruence.
    unfold comp in E; rewrite sel_tab in E by auto. rewrite E.
    clear - Hd; cases9 d.
  - intros d d' Hd Hd' E.
    apply (proj1 (List.NoDup_nth (symI e) 0) C7 d d'); [lia | lia | exact E].
  - apply Permutation.NoDup_Permutation_bis; auto.
    + rewrite C8; reflexivity.
    + intros k Hk. destruct (In_nth _ _ 0 Hk) as (i & Hi & <-).
      apply in_seq. specialize (G1 i). unfold sel in G1. lia.
  - intros a Ha; apply memb_In; auto.
  - intros a Ha; apply memb_In; auto.
Qed.

Lemma G36_ok e : In e G36 -> symProp e.
Proof.
  assert (H : forallb symOK G36 = true) by (vm_compute; reflexivity).
  rewrite forallb_forall in H. intros He; apply symOK_spec; auto.
Qed.

(** [reach] is invariant under the symmetries. *)
Lemma tr_reach e sV sW V W : In e G36 ->
  In sV perms3 -> In sW perms3 -> tri V -> tri W ->
  reach V W -> reach (tr sV (symI e) V) (tr sW (symI e) W).
Proof.
  intros He HV HW TV TW (LA & NA & LnA & HA).
  destruct (G36_ok e He).
  exists (map (tr (symA e) (symI e)) LA).
  split; [|split; [rewrite length_map; auto|]].
  { apply Finite.Injective_map_NoDup_in; auto.
    intros x y Hx Hy. apply (map_inj_on _ cfgsP0); auto; apply HA; auto. }
  intros a' Ha'. apply in_map_iff in Ha' as (a & <- & Ha).
  destruct (HA a Ha) as (Hc & LE & NE & LnE & HE).
  split; auto.
  exists (map (tr (symC e) (symI e)) LE).
  split; [|split; [rewrite length_map; auto|]].
  { apply Finite.Injective_map_NoDup_in; auto.
    intros x y Hx Hy. apply (map_inj_on _ cfgsQ0); auto; apply HE; auto. }
  intros e' He'. apply in_map_iff in He' as (e0 & <- & He0).
  destruct (HE e0 He0) as (Hq & Hp).
  split; auto.
  apply tr_path; auto. apply cfgsP0_spec; auto.
Qed.

Lemma renOK_spec X Y : length Y = 9 -> renOK X Y = true ->
  exists s, In s perms3 /\ X = tab (fun k => sel s (sel Y k)).
Proof.
  intros L H. unfold renOK in H. apply existsb_exists in H as (s & Hs & E).
  apply leqb_eq in E. exists s; split; auto.
  rewrite E. apply map_tab; auto.
Qed.

Lemma norm_true : forallb normOK allTri = true.
Proof. vm_compute; reflexivity. Qed.

Lemma normOK_spec X : normOK X = true -> balb X = true ->
  normV G36 Vreps X = true /\ normW parts X = true.
Proof.
  unfold normOK. intros H B. rewrite B in H.
  destruct (normV G36 Vreps X); [auto | discriminate].
Qed.

Lemma norm_spec X : tri X -> balb X = true ->
  normV G36 Vreps X = true /\ normW parts X = true.
Proof.
  intros T B. apply normOK_spec; auto.
  exact (proj1 (forallb_forall normOK allTri) norm_true X (tri_allTri X T)).
Qed.

Lemma normV_spec G reps V : normV G reps V = true ->
  exists e, In e G /\ In (nf (comp V (symG e))) reps /\
            renOK (comp V (symG e)) (nf (comp V (symG e))) = true.
Proof.
  unfold normV. intros H. apply existsb_exists in H as (e & He & H).
  cbv zeta in H.
  destruct (memb (nf (comp V (symG e))) reps) eqn:M; [|discriminate].
  apply memb_In in M. exists e; auto.
Qed.

Lemma normW_spec ps X : normW ps X = true ->
  In (nf X) ps /\ renOK X (nf X) = true.
Proof.
  unfold normW. cbv zeta.
  destruct (memb (nf X) ps) eqn:M; [|discriminate].
  apply memb_In in M. auto.
Qed.

Lemma rep_tri V : In V Vreps -> tri V.
Proof.
  intros H. apply trib_tri. destruct reps_tri as [K _].
  rewrite forallb_forall in K; auto.
Qed.
Lemma part_tri W : In W parts -> tri W.
Proof.
  intros H. apply trib_tri. destruct reps_tri as [_ K].
  rewrite forallb_forall in K; auto.
Qed.

Lemma comp_tri X g : tri X -> (forall d, d < 9 -> sel g d < 9) ->
  tri (comp X g).
Proof.
  intros [_ HX] Hg. apply tri_tab. intros d Hd. apply HX, Hg; auto.
Qed.

Lemma comp_balb X g : length X = 9 -> length g = 9 -> Permutation g ds ->
  balb (comp X g) = balb X.
Proof.
  intros LX Lg Hp.
  assert (E : comp X g = map (sel X) g).
  { rewrite (map_tab _ g Lg). reflexivity. }
  rewrite E. rewrite <- (tab_sel X LX) at 2.
  apply balb_Permutation. apply Permutation_map; auto.
Qed.

(** Every pair of balanced tables reaches. *)
Theorem reach_all V W : tri V -> balb V = true -> tri W -> balb W = true ->
  reach V W.
Proof.
  intros TV BV TW BW.
  destruct (norm_spec V TV BV) as [NV _].
  apply normV_spec in NV as (e & He & MV & NV).
  destruct (G36_ok e He) as [].
  apply renOK_spec in NV as (sV & HsV & EV); [|apply rep_tri; auto].
  assert (TX : tri (comp W (symG e))) by (apply comp_tri; auto).
  assert (BX : balb (comp W (symG e)) = true).
  { rewrite comp_balb; auto. apply TW. }
  destruct (norm_spec _ TX BX) as [_ NW].
  apply normW_spec in NW as (MW & NW).
  apply renOK_spec in NW as (sW & HsW & EW); [|apply part_tri; auto].
  pose proof (reach_reps _ _ MV MW) as R.
  apply (tr_reach e sV sW) in R; auto using rep_tri, part_tri.
  assert (back : forall Z Y s, tri Z ->
            comp Z (symG e) = tab (fun k => sel s (sel Y k)) ->
            tr s (symI e) Y = Z).
  { intros Z Y s TZ E. apply ext9; [reflexivity | apply TZ |].
    intros d Hd. rewrite sel_tr by auto.
    assert (E' : sel (comp Z (symG e)) (sel (symI e) d)
                 = sel (tab (fun k => sel s (sel Y k))) (sel (symI e) d))
      by congruence.
    unfold comp in E'. rewrite !sel_tab in E' by auto.
    rewrite <- E'. f_equal; auto. }
  rewrite (back V _ sV TV EV), (back W _ sW TW EW) in R. exact R.
Qed.

End SeedingSym.

(** ** Choosing the six boxes *)
Module SeedingCore.
Import Seeding SeedingBase SeedingGen SeedingMask SeedingSearch SeedingSym.
Local Open Scope nat_scope.

(** Two lists without repetition inside a third, too long to be
    disjoint. *)
Lemma pigeon (U L1 L2 : list (list nat)) :
  List.NoDup L1 -> List.NoDup L2 ->
  (forall x, In x L1 -> In x U) -> (forall x, In x L2 -> In x U) ->
  length U < length L1 + length L2 ->
  exists x, In x L1 /\ In x L2.
Proof.
  intros N1 N2 I1 I2 Hlen.
  destruct (List.Exists_dec (fun x => In x L2) L1
              (fun x => List.in_dec (List.list_eq_dec Nat.eq_dec) x L2))
    as [E|E].
  - apply List.Exists_exists in E as (x & ? & ?). exists x; auto.
  - exfalso.
    assert (N : List.NoDup (L1 ++ L2)).
    { clear - N1 N2 E. induction L1 as [|x L1 IH]; simpl; auto.
      apply List.NoDup_cons_iff in N1 as [Nx N1].
      constructor.
      - rewrite in_app_iff. intros [H|H]; auto.
      - apply IH; auto. }
    apply List.NoDup_incl_length with (l' := U) in N.
    + rewrite length_app in N. lia.
    + intros x Hx. apply in_app_iff in Hx as [Hx|Hx]; auto.
Qed.

Lemma third_inj U l x y :
  (forall a, In a l -> third U (third U a) = a) ->
  In x l -> In y l -> third U x = third U y -> x = y.
Proof.
  intros H Hx Hy E. rewrite <- (H x Hx), <- (H y Hy), E. reflexivity.
Qed.

Theorem arrangement_exists P2 Q2 P3 Q3 :
  tri P2 -> balb P2 = true -> tri Q2 -> balb Q2 = true ->
  tri P3 -> balb P3 = true -> tri Q3 -> balb Q3 = true ->
  exists A1 T1 A2 T2 A3 T3, arrangement P2 Q2 P3 Q3 A1 T1 A2 T2 A3 T3.
Proof.
  intros TP2 BP2 TQ2 BQ2 TP3 BP3 TQ3 BQ3.
  destruct (reach_all Q2 P3) as (LA & NA & LnA & HA); auto.
  destruct (reach_all Q3 P2) as (LA' & NA' & LnA' & HA'); auto.
  destruct cfgsP0_spec as (SP & NP & LP).
  destruct cfgsQ0_spec as (SQ & NQ & LQ).
  destruct (pigeon cfgsP0 LA (map (third P0) LA')) as (a & Ha & Ha').
  { auto. }
  { apply Finite.Injective_map_NoDup_in; auto.
    intros x y Hx Hy. apply (third_inj P0 cfgsP0).
    - intros; apply SP; auto.
    - apply HA'; auto.
    - apply HA'; auto. }
  { intros x Hx; apply HA; auto. }
  { intros x Hx. apply in_map_iff in Hx as (x' & <- & Hx').
    apply SP, HA'; auto. }
  { rewrite length_map. lia. }
  apply in_map_iff in Ha' as (a' & Ea & Ha').
  destruct (HA a Ha) as (Ca & LE & NE & LnE & HE).
  destruct (HA' a' Ha') as (Ca' & LE' & NE' & LnE' & HE').
  destruct (pigeon cfgsQ0 LE (map (third Q0) LE')) as (e & He & He').
  { auto. }
  { apply Finite.Injective_map_NoDup_in; auto.
    intros x y Hx Hy. apply (third_inj Q0 cfgsQ0).
    - intros; apply SQ; auto.
    - apply HE'; auto.
    - apply HE'; auto. }
  { intros x Hx; apply HE; auto. }
  { intros x Hx. apply in_map_iff in Hx as (x' & <- & Hx').
    apply SQ, HE'; auto. }
  { rewrite length_map. lia. }
  apply in_map_iff in He' as (e' & Ee & He').
  destruct (HE e He) as (Ce & b & c & L1 & L2 & L3).
  destruct (HE' e' He') as (Ce' & b' & c' & L1' & L2' & L3').
  assert (Ea' : third P0 a = a').
  { rewrite <- Ea. apply SP; auto. }
  destruct L1 as [Cb Bb], L2 as [Cc Bc], L3 as [Ce0 Be].
  destruct L1' as [Cb' Bb'], L2' as [Cc' Bc'], L3' as [Ce0' Be'].
  destruct (cfg_third Q3 b' TQ3 Cb') as (C3b & _ & E3b).
  destruct (cfg_third P2 c' TP2 Cc') as (C3c & _ & E3c).
  exists a, e, (third P2 c'), b, c, (third Q3 b').
  split; auto.
  - split; apply SP; auto.
  - rewrite Ea'; auto.
  - rewrite E3b. apply boxOK_sym; auto.
  - rewrite E3c, <- Ee. auto.
  - apply boxOK_sym; auto.
Qed.

End SeedingCore.

(** ** The grid of an arrangement *)
Module SeedingGrid.
Import Seeding SeedingBase SeedingGen SeedingSearch SeedingSym SeedingCore.
Local Open Scope nat_scope.

Lemma divmod3 i x : x < 3 -> (3 * i + x) / 3 = i /\ (3 * i + x) mod 3 = x.
Proof.
  intros H. split; symmetry.
  - apply (Nat.div_unique (3 * i + x) 3 i x); lia.
  - apply (Nat.mod_unique (3 * i + x) 3 i x); lia.
Qed.

Lemma in_ds s : In s ds <-> s < 9.
Proof. unfold ds; rewrite in_seq; lia. Qed.

Lemma ds_NoDup : List.NoDup ds.
Proof. apply List.seq_NoDup. Qed.

Lemma units_cases u : In u units ->
  exists k, k < 9 /\ (u = rowUnit k \/ u = colUnit k \/ u = boxUnit k).
Proof.
  unfold units. rewrite !in_app_iff, !in_map_iff.
  intros [(k & <- & H)|[(k & <- & H)|(k & <- & H)]];
    apply in_seq in H; exists k; split; auto; lia.
Qed.

Lemma nth_tab (l : list Z) : length l = 9 ->
  map (fun s => nth s l 0%Z) ds = l.
Proof.
  intros L. do 9 (destruct l as [|? l]; [discriminate|]).
  destruct l; [reflexivity | discriminate].
Qed.

Section Assemble.
Variables R C : nat -> nat -> list nat.
Variable beta : list Z.
Hypothesis HR : forall i j, i < 3 -> j < 3 ->
  tri (R i j) /\ tri (C i j) /\ boxOK (R i j) (C i j).
Hypothesis Hrow : forall i s, i < 3 -> s < 9 ->
  sel (R i 0) s <> sel (R i 1) s /\ sel (R i 0) s <> sel (R i 2) s /\
  sel (R i 1) s <> sel (R i 2) s.
Hypothesis Hcol : forall j s, j < 3 -> s < 9 ->
  sel (C 0 j) s <> sel (C 1 j) s /\ sel (C 0 j) s <> sel (C 2 j) s /\
  sel (C 1 j) s <> sel (C 2 j) s.
Hypothesis Hbeta : Permutation beta digits.

Lemma valueAt_assemble r c : r < 9 -> c < 9 ->
  valueAt (assemble R C beta) (r, c) =
  match symAt R C r c with Some s => nth s beta 0%Z | None => 0%Z end.
Proof.
  intros Hr Hc. cases9 r by (cases9 c by reflexivity).
Qed.

Lemma Rlt i j s : i < 3 -> j < 3 -> s < 9 -> sel (R i j) s < 3.
Proof. intros Hi Hj Hs. destruct (HR i j Hi Hj) as ((_ & H) & _). auto. Qed.
Lemma Clt i j s : i < 3 -> j < 3 -> s < 9 -> sel (C i j) s < 3.
Proof. intros Hi Hj Hs. destruct (HR i j Hi Hj) as (_ & (_ & H) & _). auto. Qed.

(** The symbol [s] sits in box [(i, j)] where its tables say. *)
Lemma cellAt i j s : i < 3 -> j < 3 -> s < 9 ->
  valueAt (assemble R C beta)
          (3 * i + sel (R i j) s, 3 * j + sel (C i j) s) = nth s beta 0%Z.
Proof.
  intros Hi Hj Hs.
  pose proof (Rlt i j s Hi Hj Hs) as Hx.
  pose proof (Clt i j s Hi Hj Hs) as Hy.
  rewrite valueAt_assemble by lia. unfold symAt.
  destruct (divmod3 i _ Hx) as [-> ->], (divmod3 j _ Hy) as [-> ->].
  destruct (find _ ds) as [s'|] eqn:F.
  - apply find_some in F as [Hin F]. apply in_ds in Hin.
    apply andb_prop in F as [F1 F2].
    apply Nat.eqb_eq in F1, F2.
    destruct (HR i j Hi Hj) as (_ & _ & Hb).
    rewrite (Hb s' s); auto.
  - pose proof (find_none _ _ F s (proj2 (in_ds s) Hs)) as F'.
    cbv beta in F'. rewrite !Nat.eqb_refl in F'. discriminate.
Qed.

Lemma beta_length : length beta = 9.
Proof. apply Permutation_length in Hbeta. exact Hbeta. Qed.

(** A unit that holds every symbol holds every digit once. *)
Lemma unit_perm (u : list (nat * nat)) (f : nat -> nat * nat) :
  length u = 9 ->
  (forall s, s < 9 -> In (f s) u) ->
  (forall s s', s < 9 -> s' < 9 -> f s = f s' -> s = s') ->
  (forall s, s < 9 -> valueAt (assemble R C beta) (f s) = nth s beta 0%Z) ->
  Permutation (map (valueAt (assemble R C beta)) u) digits.
Proof.
  intros Lu Hin Hinj Hval.
  assert (P : Permutation (map f ds) u).
  { apply Permutation.NoDup_Permutation_bis.
    - apply Finite.Injective_map_NoDup_in; [|apply ds_NoDup].
      intros s s' Hs Hs'. apply Hinj; apply in_ds; auto.
    - rewrite length_map, Lu. reflexivity.
    - intros p Hp. apply in_map_iff in Hp as (s & <- & Hs).
      apply Hin, in_ds; auto. }
  assert (E : map (fun s => valueAt (assemble R C beta) (f s)) ds
              = map (fun s => nth s beta 0%Z) ds).
  { apply map_ext_in. intros s Hs. apply Hval, in_ds; auto. }
  eapply Permutation_trans;
    [apply Permutation_map, Permutation_sym, P|].
  rewrite map_map, E, (nth_tab beta beta_length). exact Hbeta.
Qed.

Lemma pick_row i s x : i < 3 -> s < 9 -> x < 3 ->
  pick (sel (R i 0) s) (sel (R i 1) s) x < 3 /\
  sel (R i (pick (sel (R i 0) s) (sel (R i 1) s) x)) s = x.
Proof.
  intros Hi Hs Hx. unfold pick.
  destruct (Hrow i s Hi Hs) as (N1 & N2 & N3).
  pose proof (Rlt i 0 s Hi ltac:(lia) Hs).
  pose proof (Rlt i 1 s Hi ltac:(lia) Hs).
  pose proof (Rlt i 2 s Hi ltac:(lia) Hs).
  destruct (Nat.eqb_spec (sel (R i 0) s) x); [split; [lia | auto]|].
  destruct (Nat.eqb_spec (sel (R i 1) s) x); [split; [lia | auto]|].
  split; lia.
Qed.

Lemma pick_col j s y : j < 3 -> s < 9 -> y < 3 ->
  pick (sel (C 0 j) s) (sel (C 1 j) s) y < 3 /\
  sel (C (pick (sel (C 0 j) s) (sel (C 1 j) s) y) j) s = y.
Proof.
  intros Hj Hs Hy. unfold pick.
  destruct (Hcol j s Hj Hs) as (N1 & N2 & N3).
  pose proof (Clt 0 j s ltac:(lia) Hj Hs).
  pose proof (Clt 1 j s ltac:(lia) Hj Hs).
  pose proof (Clt 2 j s ltac:(lia) Hj Hs).
  destruct (Nat.eqb_spec (sel (C 0 j) s) y); [split; [lia | auto]|].
  destruct (Nat.eqb_spec (sel (C 1 j) s) y); [split; [lia | auto]|].
  split; lia.
Qed.

Lemma rows_ok r : r < 9 ->
  Permutation (map (valueAt (assemble R C beta)) (rowUnit r)) digits.
Proof.
  intros Hr.
  assert (Hi : r / 3 < 3) by (apply Nat.Div0.div_lt_upper_bound; lia).
  assert (Hx : r mod 3 < 3) by (apply Nat.mod_upper_bound; lia).
  assert (Er : r = 3 * (r / 3) + r mod 3) by (apply Nat.div_mod_eq).
  set (i := r / 3) in *. set (x := r mod 3) in *.
  set (jj := fun s => pick (sel (R i 0) s) (sel (R i 1) s) x).
  apply (unit_perm _ (fun s => (r, 3 * jj s + sel (C i (jj s)) s))).
  - reflexivity.
  - intros s Hs. destruct (pick_row i s x Hi Hs Hx) as [Hj _].
    pose proof (Clt i (jj s) s Hi Hj Hs).
    apply in_map_iff. eexists; split; [reflexivity|]. apply in_seq.
    unfold jj in *; lia.
  - intros s s' Hs Hs' [= E].
    destruct (pick_row i s x Hi Hs Hx) as [Hj Ej].
    destruct (pick_row i s' x Hi Hs' Hx) as [Hj' Ej'].
    fold (jj s) in Hj, Ej. fold (jj s') in Hj', Ej'.
    pose proof (Clt i (jj s) s Hi Hj Hs).
    pose proof (Clt i (jj s') s' Hi Hj' Hs').
    assert (J : jj s = jj s') by lia. rewrite <- J in *.
    destruct (HR i (jj s) Hi Hj) as (_ & _ & Hb).
    apply Hb; auto; [congruence | lia].
  - intros s Hs. destruct (pick_row i s x Hi Hs Hx) as [Hj Ej].
    fold (jj s) in Hj, Ej.
    rewrite Er, <- Ej. apply cellAt; auto.
Qed.

Lemma cols_ok c : c < 9 ->
  Permutation (map (valueAt (assemble R C beta)) (colUnit c)) digits.
Proof.
  intros Hc.
  assert (Hj : c / 3 < 3) by (apply Nat.Div0.div_lt_upper_bound; lia).
  assert (Hy : c mod 3 < 3) by (apply Nat.mod_upper_bound; lia).
  assert (Ec : c = 3 * (c / 3) + c mod 3) by (apply Nat.div_mod_eq).
  set (j := c / 3) in *. set (y := c mod 3) in *.
  set (ii := fun s => pick (sel (C 0 j) s) (sel (C 1 j) s) y).
  apply (unit_perm _ (fun s => (3 * ii s + sel (R (ii s) j) s, c))).
  - reflexivity.
  - intros s Hs. destruct (pick_col j s y Hj Hs Hy) as [Hi _].
    pose proof (Rlt (ii s) j s Hi Hj Hs).
    apply in_map_iff. eexists; split; [reflexivity|]. apply in_seq.
    unfold ii in *; lia.
  - intros s s' Hs Hs' [= E].
    destruct (pick_col j s y Hj Hs Hy) as [Hi Ei].
    destruct (pick_col j s' y Hj Hs' Hy) as [Hi' Ei'].
    fold (ii s) in Hi, Ei. fold (ii s') in Hi', Ei'.
    pose proof (Rlt (ii s) j s Hi Hj Hs).
    pose proof (Rlt (ii s') j s' Hi' Hj Hs').
    assert (J : ii s = ii s') by lia. rewrite <- J in *.
    destruct (HR (ii s) j Hi Hj) as (_ & _ & Hb).
    apply Hb; auto; [lia | congruence].
  - intros s Hs. destruct (pick_col j s y Hj Hs Hy) as [Hi Ei].
    fold (ii s) in Hi, Ei.
    rewrite Ec, <- Ei. apply cellAt; auto.
Qed.

Lemma boxes_ok k : k < 9 ->
  Permutation (map (valueAt (assemble R C beta)) (boxUnit k)) digits.
Proof.
  intros Hk.
  assert (Hi : k / 3 < 3) by (apply Nat.Div0.div_lt_upper_bound; lia).
  assert (Hj : k mod 3 < 3) by (apply Nat.mod_upper_bound; lia).
  set (i := k / 3) in *. set (j := k mod 3) in *.
  apply (unit_perm _
    (fun s => (3 * i + sel (R i j) s, 3 * j + sel (C i j) s))).
  - reflexivity.
  - intros s Hs.
    pose proof (Rlt i j s Hi Hj Hs). pose proof (Clt i j s Hi Hj Hs).
    unfold boxUnit. apply in_flat_map. exists (sel (R i j) s).
    split; [apply in_seq; lia|].
    apply in_map_iff. exists (sel (C i j) s).
    split; [f_equal; lia | apply in_seq; lia].
  - intros s s' Hs Hs' [= E1 E2].
    destruct (HR i j Hi Hj) as (_ & _ & Hb).
    apply Hb; auto; lia.
  - intros s Hs. apply cellAt; auto.
Qed.

Lemma assemble_wf : wfBoard (assemble R C beta).
Proof.
  split; [reflexivity|].
  repeat (apply List.Forall_cons; [reflexivity|]). apply List.Forall_nil.
Qed.

Lemma assemble_valid : validComplete (assemble R C beta).
Proof.
  split; [apply assemble_wf|].
  intros u Hu. apply units_cases in Hu as (k & Hk & [->|[->| ->]]).
  - apply rows_ok; auto.
  - apply cols_ok; auto.
  - apply boxes_ok; auto.
Qed.

End Assemble.
End SeedingGrid.

(** ** Every seeded board has a completion *)
Module SeedingBoard.
Import Seeding SeedingBase SeedingGen SeedingSearch SeedingSym SeedingCore
       SeedingGrid.
Local Open Scope nat_scope.

Lemma idxZ_In v l : In v l -> idxZ v l < length l /\ nth (idxZ v l) l 0%Z = v.
Proof.
  induction l as [|u l IH]; simpl; [tauto|].
  destruct (Z.eqb_spec v u); [subst; split; [lia | auto]|].
  intros [H|H]; [congruence|]. destruct (IH H); split; [lia | auto].
Qed.

Lemma idxZ_nth l : forall i, List.NoDup l -> i < length l ->
  idxZ (nth i l 0%Z) l = i.
Proof.
  induction l as [|u l IH]; intros i N Hi; simpl in *; [lia|].
  apply List.NoDup_cons_iff in N as [Nu N].
  destruct i as [|i]; [rewrite Z.eqb_refl; auto|].
  destruct (Z.eqb_spec (nth i l 0%Z) u) as [E|E].
  - exfalso; apply Nu. rewrite <- E. apply nth_In; lia.
  - f_equal; apply IH; auto; lia.
Qed.

Lemma boxOf_nth b k x y : x < 3 -> y < 3 ->
  nth (3 * x + y) (boxOf b k) 0%Z = valueAt b (3 * k + x, 3 * k + y).
Proof.
  intros Hx Hy. cases3 x by (cases3 y by reflexivity).
Qed.

Lemma P0_tab : tab (fun s => s / 3) = P0.
Proof. reflexivity. Qed.
Lemma Q0_tab : tab (fun s => s mod 3) = Q0.
Proof. reflexivity. Qed.

Lemma tab_ext f g : (forall s, s < 9 -> f s = g s) -> tab f = tab g.
Proof.
  intros H. apply map_ext_in. intros s Hs. apply H, in_ds; auto.
Qed.

Section Seeded.
Variable b : Board.
Hypothesis Hs : seeded b.

Lemma box_perm k : k < 3 -> Permutation (boxOf b k) digits.
Proof. intros Hk. apply Hs; auto. Qed.

Lemma box_length k : k < 3 -> length (boxOf b k) = 9.
Proof. intros Hk. apply (Permutation_length (box_perm k Hk)). Qed.

Lemma box_NoDup k : k < 3 -> List.NoDup (boxOf b k).
Proof.
  intros Hk. eapply Permutation_NoDup;
    [apply Permutation_sym, box_perm; auto | apply digits_NoDup].
Qed.

Lemma box_In k s : k < 3 -> s < 9 -> In (nth s (boxOf b 0) 0%Z) (boxOf b k).
Proof.
  intros Hk Hs'.
  eapply Permutation_in; [apply Permutation_sym, box_perm; auto|].
  eapply Permutation_in; [apply (box_perm 0); lia|].
  apply nth_In. rewrite box_length; lia.
Qed.

Lemma pos_lt k s : k < 3 -> s < 9 -> pos b k s < 9.
Proof.
  intros Hk Hs'. unfold pos.
  destruct (idxZ_In _ _ (box_In k s Hk Hs')) as [H _].
  rewrite box_length in H; auto.
Qed.

Lemma pos_val k s : k < 3 -> s < 9 ->
  nth (pos b k s) (boxOf b k) 0%Z = nth s (boxOf b 0) 0%Z.
Proof.
  intros Hk Hs'. unfold pos.
  destruct (idxZ_In _ _ (box_In k s Hk Hs')) as [_ H]. exact H.
Qed.

Lemma pos_inj k s s' : k < 3 -> s < 9 -> s' < 9 ->
  pos b k s = pos b k s' -> s = s'.
Proof.
  intros Hk H1 H2 E.
  assert (E' : nth s (boxOf b 0) 0%Z = nth s' (boxOf b 0) 0%Z).
  { rewrite <- (pos_val k s), <- (pos_val k s'), E; auto. }
  apply (proj1 (List.NoDup_nth (boxOf b 0) 0%Z) (box_NoDup 0 ltac:(lia)));
    auto; rewrite box_length; lia.
Qed.

Lemma pos_0 s : s < 9 -> pos b 0 s = s.
Proof.
  intros H. unfold pos. apply idxZ_nth.
  - apply box_NoDup; lia.
  - rewrite box_length; lia.
Qed.

Lemma rowsOf_0 : rowsOf b 0 = P0.
Proof.
  rewrite <- P0_tab. apply tab_ext. intros s Hs'. rewrite pos_0; auto.
Qed.
Lemma colsOf_0 : colsOf b 0 = Q0.
Proof.
  rewrite <- Q0_tab. apply tab_ext. intros s Hs'. rewrite pos_0; auto.
Qed.

Lemma rowsOf_tri k : k < 3 -> tri (rowsOf b k).
Proof.
  intros Hk. apply tri_tab. intros s Hs'.
  apply Nat.Div0.div_lt_upper_bound. pose proof (pos_lt k s Hk Hs'). lia.
Qed.
Lemma colsOf_tri k : k < 3 -> tri (colsOf b k).
Proof.
  intros Hk. apply tri_tab. intros s Hs'. apply Nat.mod_upper_bound. lia.
Qed.

Lemma box_boxOK k : k < 3 -> boxOK (rowsOf b k) (colsOf b k).
Proof.
  intros Hk s s' H1 H2. unfold rowsOf, colsOf. rewrite !sel_tab by auto.
  intros E1 E2. apply (pos_inj k); auto.
  rewrite (Nat.div_mod_eq (pos b k s) 3), (Nat.div_mod_eq (pos b k s') 3).
  congruence.
Qed.

Lemma pos_perm k : k < 3 -> Permutation (map (pos b k) ds) ds.
Proof.
  intros Hk. apply Permutation.NoDup_Permutation_bis.
  - apply Finite.Injective_map_NoDup_in; [|apply ds_NoDup].
    intros s s' H1 H2. apply pos_inj; auto; apply in_ds; auto.
  - rewrite length_map; reflexivity.
  - intros p Hp. apply in_map_iff in Hp as (s & <- & H).
    apply in_ds, pos_lt; auto. apply in_ds; auto.
Qed.

Lemma rowsOf_balb k : k < 3 -> balb (rowsOf b k) = true.
Proof.
  intros Hk.
  assert (E : rowsOf b k = map (fun p => p / 3) (map (pos b k) ds)).
  { rewrite map_map. reflexivity. }
  rewrite E.
  rewrite (balb_Permutation _ (map (fun p => p / 3) ds)); [reflexivity|].
  apply Permutation_map, pos_perm; auto.
Qed.
Lemma colsOf_balb k : k < 3 -> balb (colsOf b k) = true.
Proof.
  intros Hk.
  assert (E : colsOf b k = map (fun p => p mod 3) (map (pos b k) ds)).
  { rewrite map_map. reflexivity. }
  rewrite E.
  rewrite (balb_Permutation _ (map (fun p => p mod 3) ds)); [reflexivity|].
  apply Permutation_map, pos_perm; auto.
Qed.

(** The cell of a diagonal box, seen from its symbol. *)
Lemma diag_cell k x y : k < 3 -> x < 3 -> y < 3 ->
  exists s, s < 9 /\ sel (rowsOf b k) s = x /\ sel (colsOf b k) s = y /\
            nth s (boxOf b 0) 0%Z = valueAt b (3 * k + x, 3 * k + y).
Proof.
  intros Hk Hx Hy.
  set (v := nth (3 * x + y) (boxOf b k) 0%Z).
  assert (Hv : In v (boxOf b 0)).
  { eapply Permutation_in; [apply Permutation_sym, (box_perm 0); lia|].
    eapply Permutation_in; [apply (box_perm k); auto|].
    apply nth_In. rewrite box_length; auto; lia. }
  destruct (idxZ_In _ _ Hv) as [Hlt Hnth].
  rewrite box_length in Hlt by lia.
  exists (idxZ v (boxOf b 0)).
  assert (Epos : pos b k (idxZ v (boxOf b 0)) = 3 * x + y).
  { unfold pos. rewrite Hnth. apply idxZ_nth.
    - apply box_NoDup; auto.
    - rewrite box_length; auto; lia. }
  split; auto. unfold rowsOf, colsOf. rewrite !sel_tab, Epos by auto.
  destruct (divmod3 x y Hy) as [-> ->].
  split; auto. split; auto.
  rewrite Hnth. apply boxOf_nth; auto.
Qed.

Theorem seeded_completable : exists g, completion g b.
Proof.
  destruct (arrangement_exists (rowsOf b 1) (colsOf b 1)
              (rowsOf b 2) (colsOf b 2))
    as (A1 & T1 & A2 & T2 & A3 & T3 & [HA1 HT1 HA2 HT2 HA3 HT3
                                        B12 B13 B23 B21 B31 B32]);
    auto using rowsOf_tri, colsOf_tri, rowsOf_balb, colsOf_balb.
  set (R := rowTab (rowsOf b 1) (rowsOf b 2) A1 A2 A3).
  set (C := colTab (colsOf b 1) (colsOf b 2) T1 T2 T3).
  assert (TP0 : tri P0) by (apply trib_tri; reflexivity).
  assert (TQ0 : tri Q0) by (apply trib_tri; reflexivity).
  assert (TP2 := rowsOf_tri 1 ltac:(lia)).
  assert (TQ2 := colsOf_tri 1 ltac:(lia)).
  assert (TP3 := rowsOf_tri 2 ltac:(lia)).
  assert (TQ3 := colsOf_tri 2 ltac:(lia)).
  destruct (cfg_third P0 A1 TP0 HA1) as ((TA1' & NA1') & NA1'' & _).
  destruct (cfg_third Q0 T1 TQ0 HT1) as ((TT1' & NT1') & NT1'' & _).
  destruct (cfg_third _ A2 TP2 HA2) as ((TA2' & NA2') & NA2'' & _).
  destruct (cfg_third _ T2 TQ2 HT2) as ((TT2' & NT2') & NT2'' & _).
  destruct (cfg_third _ A3 TP3 HA3) as ((TA3' & NA3') & NA3'' & _).
  destruct (cfg_third _ T3 TQ3 HT3) as ((TT3' & NT3') & NT3'' & _).
  destruct HA1 as [TA1 NA1], HT1 as [TT1 NT1], HA2 as [TA2 NA2],
           HT2 as [TT2 NT2], HA3 as [TA3 NA3], HT3 as [TT3 NT3].
  assert (B11 : boxOK P0 Q0).
  { rewrite <- rowsOf_0, <- colsOf_0. apply box_boxOK; lia. }
  assert (B22 := box_boxOK 1 ltac:(lia)).
  assert (B33 := box_boxOK 2 ltac:(lia)).
  assert (HR : forall i j, i < 3 -> j < 3 ->
            tri (R i j) /\ tri (C i j) /\ boxOK (R i j) (C i j)).
  { intros i j Hi Hj.
    cases3 i by (cases3 j by (unfold R, C; simpl; auto)). }
  assert (Hrow : forall i s, i < 3 -> s < 9 ->
            sel (R i 0) s <> sel (R i 1) s /\ sel (R i 0) s <> sel (R i 2) s /\
            sel (R i 1) s <> sel (R i 2) s).
  { intros i s Hi Hs'.
    cases3 i by (unfold R; simpl; repeat split; auto;
                 apply not_eq_sym; auto). }
  assert (Hcol : forall j s, j < 3 -> s < 9 ->
            sel (C 0 j) s <> sel (C 1 j) s /\ sel (C 0 j) s <> sel (C 2 j) s /\
            sel (C 1 j) s <> sel (C 2 j) s).
  { intros j s Hj Hs'.
    cases3 j by (unfold C; simpl; repeat split; auto;
                 apply not_eq_sym; auto). }
  exists (assemble R C (boxOf b 0)). split.
  - apply assemble_valid; auto. apply box_perm; lia.
  - intros [r c] [Hr Hc] Hv. cbn [fst snd] in Hr, Hc.
    destruct Hs as (_ & _ & Hoff).
    destruct (onDiagonal (r, c)) eqn:D;
      [|exfalso; apply Hv, Hoff; [split|]; auto].
    unfold onDiagonal in D; cbn [fst snd] in D. apply Nat.eqb_eq in D.
    assert (Hk : r / 3 < 3) by (apply Nat.Div0.div_lt_upper_bound; lia).
    assert (Hx : r mod 3 < 3) by (apply Nat.mod_upper_bound; lia).
    assert (Hy : c mod 3 < 3) by (apply Nat.mod_upper_bound; lia).
    rewrite (Nat.div_mod_eq r 3), (Nat.div_mod_eq c 3), <- D.
    destruct (diag_cell (r / 3) (r mod 3) (c mod 3) Hk Hx Hy)
      as (s & Hs' & E1 & E2 & E3).
    rewrite <- E3.
    assert (ER : R (r / 3) (r / 3) = rowsOf b (r / 3)).
    { generalize dependent (r / 3). intros k.
      cases3 k by (intros; unfold R; simpl; auto using rowsOf_0). }
    assert (EC : C (r / 3) (r / 3) = colsOf b (r / 3)).
    { generalize dependent (r / 3). intros k.
      cases3 k by (intros; unfold C; simpl; auto using colsOf_0). }
    rewrite <- E1, <- E2, <- ER, <- EC.
    apply cellAt; auto.
Qed.

End Seeded.
End SeedingBoard.

(** ** The generator: [generateFullBoard], [pokeHoles], [generate] *)

Lemma validGridb_sound g : validGridb g = true -> validComplete g.
Proof.
  unfold validGridb. rewrite !andb_true_iff, !forallb_forall.
  intros [[Hl Hr] Hu]. apply Nat.eqb_eq in Hl.
  split.
  - split; [assumption |]. apply Forall_forall. intros r Hin.
    apply Nat.eqb_eq, Hr. by apply list_elem_of_In.
  - intros u Hin. specialize (Hu u Hin). rewrite forallb_forall in Hu.
    destruct (unit_props u Hin) as (Hlen & _).
    apply Permutation_sym, Permutation.NoDup_Permutation_bis.
    + apply digits_NoDup.
    + rewrite length_map, Hlen. reflexivity.
    + intros d Hd. specialize (Hu d Hd).
      apply existsb_exists in Hu as (v & Hv & E).
      apply Z.eqb_eq in E. by subst.
Qed.

(** A board with a completion places no digit twice and holds only
    digits. *)
Lemma completion_bounds g b :
  completion g b -> consistent b /\ cellsUpTo9 b.
Proof.
  intros [Hg He]. split.
  - intros p q Hp Hq Hne Hs Hnz Heq.
    apply (validComplete_consistent g Hg p q Hp Hq Hne Hs).
    + rewrite (He p Hp Hnz). assumption.
    + rewrite (He p Hp Hnz), (He q Hq); congruence.
  - intros p Hp. destruct (Z.eq_dec (valueAt b p) 0) as [E|E]; [lia |].
    rewrite <- (He p Hp E).
    pose proof (validComplete_filled g Hg p Hp). lia.
Qed.

(** [generateFullBoard] returns a complete valid grid: the solver always
    finds a grid around the three seeded boxes. *)
Lemma generateFullBoard_valid fuel src w board w' :
  generateFullBoard fuel src w = Some (board, w') ->
  exists s, board = seq (length (store w)) 9 /\
            store w' = store w ++ s /\ validComplete s /\
            contents (store w') board = s.
Proof.
  intros H.
  apply generateFullBoard_run in H as (b3 & r & b4 & -> & Hst & Hseed & Hsol & Hwf).
  destruct (SeedingBoard.seeded_completable b3 Hseed) as [g Hg].
  destruct (completion_bounds g b3 Hg) as [Hc Hu].
  destruct (solve_completes b3 (proj1 Hseed) Hc Hu (ex_intro _ g Hg))
    as (b' & Hsol' & Hv & _).
  assert (b4 = b') by congruence. subst b'.
  exists b4. split; [reflexivity |]. split; [assumption |].
  split; [assumption |].
  rewrite Hst. pose proof (contents_block (store w) b4 []) as E.
  rewrite app_nil_r in E. destruct Hwf as [Hl _]. by rewrite Hl in E.
Qed.

(** A complete grid has one solution for the counter, and 81 clues. *)
Lemma full_count g : validComplete g -> countSolutions g = Some (g, 1%nat).
Proof.
  intros Hg. unfold countSolutions. rewrite solveCount_S.
  destruct (firstEmpty g) as [[r c]|] eqn:E; [| reflexivity].
  apply firstEmpty_Some in E as [Hin Hc].
  apply cell_Some_valueAt in Hc.
  pose proof (validComplete_filled g Hg (r, c) Hin). lia.
Qed.

Lemma filter_nonzero_all (l : list Z) :
  Forall (fun v => v <> 0) l -> filter (fun v => v <> 0) l = l.
Proof.
  induction 1 as [|v l Hv _ IH]; [reflexivity |].
  rewrite filter_cons_True by assumption. by rewrite IH.
Qed.

Lemma full_clues g : validComplete g -> clues g = 81%nat.
Proof.
  intros Hg. pose proof (validComplete_filled g Hg) as Hf.
  destruct Hg as [[Hl Hr] _]. unfold clues.
  rewrite filter_nonzero_all.
  - rewrite concat_rows_length by assumption. lia.
  - apply Forall_lookup. intros i v Hi.
    assert (Hlt : (i < 81)%nat).
    { apply lookup_lt_Some in Hi.
      rewrite concat_rows_length in Hi by assumption. lia. }
    assert (Hc : (i mod 9 < 9)%nat) by (apply Nat.mod_upper_bound; lia).
    assert (Hd : (i / 9 < 9)%nat) by (apply Nat.Div0.div_lt_upper_bound; lia).
    rewrite (Nat.div_mod_eq i 9), (Nat.mul_comm 9) in Hi.
    rewrite concat_rows_lookup in Hi by assumption.
    apply cell_Some_valueAt in Hi.
    specialize (Hf (i / 9, i mod 9)%nat (conj Hd Hc)). lia.
Qed.

(** The rows of a well-formed board are objects of the store. *)
Lemma wf_contents_addresses st board :
  wfBoard (contents st board) -> Forall (fun a => (a < length st)%nat) board.
Proof.
  intros [_ Hr]. apply Forall_forall. intros a Ha.
  rewrite Forall_forall in Hr.
  assert (Hin : default [] (st !! a) ∈ contents st board).
  { unfold contents. apply list_elem_of_In.
    apply (in_map (fun a => default [] (st !! a))). by apply list_elem_of_In. }
  specialize (Hr _ Hin).
  destruct (st !! a) eqn:E; [| discriminate].
  by apply lookup_lt_Some in E.
Qed.

Lemma contents_prefix st ext board :
  Forall (fun a => (a < length st)%nat) board ->
  contents (st ++ ext) board = contents st board.
Proof.
  intros H. unfold contents. apply map_ext_in. intros a Ha.
  rewrite Forall_forall in H. rewrite lookup_app_l; [reflexivity |].
  apply H. by apply list_elem_of_In.
Qed.

(** A run of [pokeHoles] on a complete grid [s] held by [board]. *)
Lemma pokeHoles_full src board d w s :
  contents (store w) board = s -> validComplete s ->
  exists r shuffled k pz junk rest hp,
    let lo := fst (clueRange d) in
    let hi := snd (clueRange d) in
    let holesToPoke := (81 - (r + lo))%nat in
    let puzzle := seq (length (store w)) 9 in
    (r < hi - lo + 1)%nat /\ shuffled ≡ₚ positions /\
    pokePlan src d w = Some ((holesToPoke, shuffled), mkWorld (store w) k) /\
    copyBoard board (mkWorld (store w) k)
    = Some (puzzle, mkWorld (store w ++ s) k) /\
    pokeLoop holesToPoke puzzle shuffled 0 (mkWorld (store w ++ s) k)
    = Some ((rest, hp), mkWorld (store w ++ pz ++ junk) k) /\
    pokeHoles src board d w
    = Some (puzzle, mkWorld (store w ++ pz ++ junk) k) /\
    contents (store w ++ pz ++ junk) puzzle = pz /\
    contents (store w ++ pz ++ junk) board = s /\
    poked holesToPoke s shuffled 0 pz rest hp /\
    (clues pz + hp = 81)%nat /\ (hp <= holesToPoke)%nat.
Proof.
  intros Hc Hs.
  assert (Hwf : wfBoard (contents (store w) board)) by (rewrite Hc; apply Hs).
  destruct (pokeHoles_run src board d w Hwf)
    as (r & sh & k & pz & junk & rest & hp & H).
  cbv zeta in H. rewrite Hc in H.
  destruct H as (Hr & Hsh & Hplan & Hcopy & Hloop & Hpoke & Hpz & Hpk).
  exists r, sh, k, pz, junk, rest, hp. cbv zeta.
  repeat (split; [assumption |]).
  split; [| split; [assumption |]].
  - rewrite contents_prefix; [assumption | by apply wf_contents_addresses].
  - split.
    + rewrite <- (full_clues s Hs), <- (Nat.add_0_r (clues s)).
      apply (poked_clues _ _ _ _ _ _ _ Hpk).
      * eapply Permutation_NoDup; [symmetry; exact Hsh | apply positions_NoDup].
      * intros p Hp.
        assert (Hin : inGrid p).
        { apply in_positions. eapply Permutation_in; eassumption. }
        pose proof (validComplete_filled s Hs p Hin). lia.
    + apply (poked_bound _ _ _ _ _ _ _ Hpk). lia.
Qed.

(** The decomposition of a run of [generate]. *)
Lemma generate_run fuel src d w res w' :
  generate fuel src d w = Some (res, w') ->
  exists s w1 r shuffled pz rest hp,
    let holesToPoke := (81 - (r + fst (clueRange d)))%nat in
    generateFullBoard fuel src w = Some (solution res, w1) /\
    pokeHoles src (solution res) d w1 = Some (puzzle res, w') /\
    solution res = seq (length (store w)) 9 /\
    puzzle res = seq (length (store w) + 9) 9 /\
    difficulty res = d /\
    contents (store w1) (solution res) = s /\
    contents (store w') (solution res) = s /\
    contents (store w') (puzzle res) = pz /\
    validComplete s /\
    shuffled ≡ₚ positions /\
    poked holesToPoke s shuffled 0 pz rest hp.
Proof.
  unfold generate. rewrite bind_eq.
  destruct (generateFullBoard fuel src w) as [[sol w1]|] eqn:Hfull;
    [| discriminate].
  rewrite bind_eq.
  destruct (pokeHoles src sol d w1) as [[pzr w2]|] eqn:Hpoke; [| discriminate].
  rewrite ret_eq. intros [= <- <-]. cbn [solution puzzle difficulty].
  destruct (generateFullBoard_valid _ _ _ _ _ Hfull) as (s & Esol & Hst & Hs & Hc).
  destruct (pokeHoles_full src sol d w1 s Hc Hs)
    as (r & sh & k & pz & junk & rest & hp & H).
  cbv zeta in H.
  destruct H as (_ & Hsh & _ & _ & _ & Hp & Hpz & Hb & Hpk & _).
  rewrite Hpoke in Hp. injection Hp as -> ->. cbn [store].
  exists s, w1, r, sh, pz, rest, hp. cbv zeta.
  assert (Hlen : length (store w1) = (length (store w) + 9)%nat).
  { rewrite Hst, length_app. destruct Hs as [[Hl _] _]. by rewrite Hl. }
  split; [reflexivity |]. split; [exact Hpoke |].
  split; [exact Esol |]. split; [by rewrite Hlen |].
  split; [reflexivity |]. split; [exact Hc |].
  split; [exact Hb |]. split; [exact Hpz |].
  split; [exact Hs |]. split; [exact Hsh | exact Hpk].
Qed.

(** ** The generated pair (C1, C2, C3) *)

(** C2: the grid in the [solution] field of the record [generate]
    returns is the grid [generateFullBoard] returned, and it is a complete
    valid grid, when [generateFullBoard] returns it and still when
    [generate] returns: every row, every column and every 3x3 box holds
    each digit 1..9 once. *)
Theorem generate_solution_valid fuel src d w res w' :
  generate fuel src d w = Some (res, w') ->
  exists w1,
    generateFullBoard fuel src w = Some (solution res, w1) /\
    validComplete (contents (store w1) (solution res)) /\
    validComplete (contents (store w') (solution res)).
Proof.
  intros H. apply generate_run in H
    as (s & w1 & r & sh & pz & rest & hp & Hfull & _ & _ & _ & _
        & Hc1 & Hc & _ & Hs & _).
  exists w1. rewrite Hc1, Hc. auto.
Qed.

(** Scenario: a run of [generate] from the empty store. *)
Lemma generate_solution_valid_witness :
  exists res w',
    generate 100 sampleSource "easy" emptyWorld = Some (res, w') /\
    exists w1,
      generateFullBoard 100 sampleSource emptyWorld
      = Some (solution res, w1) /\
      validComplete (contents (store w1) (solution res)) /\
      validComplete (contents (store w') (solution res)).
Proof.
  eexists. eexists. split; [vm_compute; reflexivity |].
  apply (generate_solution_valid 100 sampleSource "easy" emptyWorld).
  vm_compute; reflexivity.
Defined.

(** C3: every cell of the returned puzzle holds the digit of the
    solution at that cell, or 0; so a cell of the puzzle that is not 0
    equals the cell of the solution. *)
Theorem generate_keeps_clues fuel src d w res w' :
  generate fuel src d w = Some (res, w') ->
  let p := contents (store w') (puzzle res) in
  let s := contents (store w') (solution res) in
  (forall r c, (r < 9)%nat -> (c < 9)%nat ->
     exists v, cell s r c = Some v /\
               (cell p r c = Some v \/ cell p r c = Some 0)) /\
  (forall r c v, (r < 9)%nat -> (c < 9)%nat ->
     cell p r c = Some v -> v <> 0 -> cell s r c = Some v).
Proof.
  intros H. apply generate_run in H
    as (s & w1 & r & sh & pz & rest & hp & _ & _ & _ & _ & _
        & _ & Hc & Hp & Hs & _ & Hpk).
  cbv zeta. rewrite Hc, Hp.
  assert (Hcell : forall r c, (r < 9)%nat -> (c < 9)%nat ->
            cell s r c = Some (valueAt s (r, c)) /\
            cell pz r c = Some (valueAt pz (r, c)) /\
            (valueAt pz (r, c) = valueAt s (r, c) \/ valueAt pz (r, c) = 0)).
  { intros r0 c0 Hr Hcol.
    split; [apply (wfBoard_cell s (r0, c0)); [apply Hs | by split] |].
    split; [apply (wfBoard_cell pz (r0, c0));
            [apply (poked_wf _ _ _ _ _ _ _ Hpk) | by split] |].
    apply (poked_cells _ _ _ _ _ _ _ Hpk). by split. }
  split.
  - intros r0 c0 Hr Hcol. destruct (Hcell r0 c0 Hr Hcol) as (Es & Ep & [E|E]).
    + exists (valueAt s (r0, c0)). split; [assumption |]. left. congruence.
    + exists (valueAt s (r0, c0)). split; [assumption |]. right. congruence.
  - intros r0 c0 v Hr Hcol Hv Hnz.
    destruct (Hcell r0 c0 Hr Hcol) as (Es & Ep & [E|E]); congruence.
Qed.

Lemma generate_keeps_clues_witness :
  exists res w',
    generate 100 sampleSource "medium" emptyWorld = Some (res, w') /\
    ((forall r c, (r < 9)%nat -> (c < 9)%nat ->
        exists v, cell (contents (store w') (solution res)) r c = Some v /\
                  (cell (contents (store w') (puzzle res)) r c = Some v \/
                   cell (contents (store w') (puzzle res)) r c = Some 0)) /\
     (forall r c v, (r < 9)%nat -> (c < 9)%nat ->
        cell (contents (store w') (puzzle res)) r c = Some v -> v <> 0 ->
        cell (contents (store w') (solution res)) r c = Some v)).
Proof.
  eexists. eexists. split; [vm_compute; reflexivity |].
  apply (generate_keeps_clues 100 sampleSource "medium" emptyWorld).
  vm_compute; reflexivity.
Defined.

(** C1: the counter finds exactly one solution of the returned puzzle;
    the returned solution is a completion of the puzzle, and every
    completion of the puzzle is the returned solution. *)
Theorem generate_unique_solution fuel src d w res w' :
  generate fuel src d w = Some (res, w') ->
  let p := contents (store w') (puzzle res) in
  let s := contents (store w') (solution res) in
  countSolutions p = Some (p, 1%nat) /\
  completion s p /\
  (forall g, completion g p -> g = s).
Proof.
  intros H. apply generate_run in H
    as (s & w1 & r & sh & pz & rest & hp & _ & _ & _ & _ & _
        & _ & Hc & Hp & Hs & _ & Hpk).
  cbv zeta. rewrite Hc, Hp.
  pose proof (poked_unique _ _ _ _ _ _ _ Hpk (full_count s Hs)) as Hone.
  assert (Hcomp : completion s pz).
  { split; [assumption |]. intros p Hin Hnz.
    destruct (poked_cells _ _ _ _ _ _ _ Hpk p Hin); congruence. }
  split; [assumption |]. split; [assumption |].
  intros g Hg.
  destruct (solveCount_sem (S (zeros pz)) pz 0 pz 1
              (poked_wf _ _ _ _ _ _ _ Hpk) ltac:(lia) Hone) as [_ Huniq].
  by apply Huniq.
Qed.

Lemma generate_unique_solution_witness :
  exists res w',
    generate 100 sampleSource "hard" emptyWorld = Some (res, w') /\
    (countSolutions (contents (store w') (puzzle res))
     = Some (contents (store w') (puzzle res), 1%nat) /\
     completion (contents (store w') (solution res))
                (contents (store w') (puzzle res)) /\
     (forall g, completion g (contents (store w') (puzzle res)) ->
                g = contents (store w') (solution res))).
Proof.
  eexists. eexists. split; [vm_compute; reflexivity |].
  apply (generate_unique_solution 100 sampleSource "hard" emptyWorld).
  vm_compute; reflexivity.
Defined.

(** ** Excavation (C7, C10) *)

(** C7: [pokeHoles] on a complete grid returns; the clues it leaves and
    the holes it poked make 81; the number of clues is in the range of the
    tier, or above it, and then the loop has run through all 81 shuffled
    positions with fewer holes poked than it was to poke.  The ranges are
    35..40, 30..34 and 25..29, and 30..34 for any other tag. *)
Theorem pokeHoles_clue_count src board d w :
  validComplete (contents (store w) board) ->
  exists r shuffled k w2 rest hp pz w',
    let lo := fst (clueRange d) in
    let hi := snd (clueRange d) in
    let holesToPoke := (81 - (r + lo))%nat in
    let n := clues (contents (store w') pz) in
    (lo <= r + lo <= hi)%nat /\ length shuffled = 81%nat /\
    pokePlan src d w = Some ((holesToPoke, shuffled), mkWorld (store w) k) /\
    copyBoard board (mkWorld (store w) k) = Some (pz, w2) /\
    pokeLoop holesToPoke pz shuffled 0 w2 = Some ((rest, hp), w') /\
    pokeHoles src board d w = Some (pz, w') /\
    (n + hp = 81)%nat /\
    ((lo <= n <= hi)%nat \/
     ((hi < n)%nat /\ rest = [] /\ (hp < holesToPoke)%nat)) /\
    clueRange "easy" = (35, 40)%nat /\ clueRange "medium" = (30, 34)%nat /\
    clueRange "hard" = (25, 29)%nat /\
    (d <> "easy"%string -> d <> "medium"%string -> d <> "hard"%string ->
     clueRange d = (30, 34)%nat).
Proof.
  intros Hs.
  destruct (pokeHoles_full src board d w _ eq_refl Hs)
    as (r & sh & k & pz & junk & rest & hp & H).
  cbv zeta in H.
  destruct H as (Hr & Hsh & Hplan & Hcopy & Hloop & Hpoke & Hpz & _ & Hpk
                 & Hsum & Hle).
  exists r, sh, k, (mkWorld (store w ++ contents (store w) board) k),
    rest, hp, (seq (length (store w)) 9),
    (mkWorld (store w ++ pz ++ junk) k).
  cbv zeta. cbn [store]. rewrite Hpz.
  pose proof (poked_exit _ _ _ _ _ _ _ Hpk) as Hexit.
  destruct (clueRange_tiers d) as (Te & Tm & Th & Td).
  assert (Hlen : length sh = 81%nat).
  { rewrite (Permutation_length Hsh). reflexivity. }
  repeat (split; [first [assumption | reflexivity
                        | destruct (clueRange_cases d) as [E|[E|E]];
                          rewrite E in *; cbn [fst snd] in *; lia] |]).
  split; [| auto].
  assert (Hn : (hp = 81 - (r + fst (clueRange d)) \/
               (rest = [] /\ hp < 81 - (r + fst (clueRange d))))%nat).
  { destruct Hexit as [-> | Hge]; [| left; lia].
    destruct (Nat.eq_dec hp (81 - (r + fst (clueRange d)))); [by left |].
    right. split; [reflexivity | lia]. }
  destruct (clueRange_cases d) as [E|[E|E]]; rewrite E in *;
    cbn [fst snd] in *;
    (destruct Hn as [Hn | [-> Hn]]; [left; lia |]);
    (destruct (le_lt_dec (clues pz) (snd (clueRange d))) as [Hcmp|Hcmp];
     rewrite E in Hcmp; cbn [snd] in Hcmp;
     [left; lia | right; split; [lia | split; [reflexivity | lia]]]).
Qed.

Lemma pokeHoles_clue_count_witness :
  validComplete (contents (store sampleWorld) (seq 0 9)) /\
  exists r shuffled k w2 rest hp pz w',
    (fst (clueRange "easy") <= r + fst (clueRange "easy")
     <= snd (clueRange "easy"))%nat /\
    length shuffled = 81%nat /\
    pokePlan sampleSource "easy" sampleWorld
    = Some (((81 - (r + fst (clueRange "easy")))%nat, shuffled),
            mkWorld (store sampleWorld) k) /\
    copyBoard (seq 0 9) (mkWorld (store sampleWorld) k) = Some (pz, w2) /\
    pokeLoop (81 - (r + fst (clueRange "easy"))) pz shuffled 0 w2
    = Some ((rest, hp), w') /\
    pokeHoles sampleSource (seq 0 9) "easy" sampleWorld = Some (pz, w') /\
    (clues (contents (store w') pz) + hp = 81)%nat /\
    ((fst (clueRange "easy") <= clues (contents (store w') pz)
      <= snd (clueRange "easy"))%nat \/
     ((snd (clueRange "easy") < clues (contents (store w') pz))%nat /\
      rest = [] /\ (hp < 81 - (r + fst (clueRange "easy")))%nat)) /\
    clueRange "easy" = (35, 40)%nat /\ clueRange "medium" = (30, 34)%nat /\
    clueRange "hard" = (25, 29)%nat /\
    ("easy"%string <> "easy"%string -> "easy"%string <> "medium"%string ->
     "easy"%string <> "hard"%string -> clueRange "easy" = (30, 34)%nat).
Proof.
  assert (H : validComplete (contents (store sampleWorld) (seq 0 9)))
    by (apply validGridb_sound; vm_compute; reflexivity).
  split; [exact H |].
  exact (pokeHoles_clue_count sampleSource (seq 0 9) "easy" sampleWorld H).
Defined.

(** C10: [pokeHoles] returns; no row object that existed before the call
    is changed by it, so the board it was given holds what it held; the
    rows of the puzzle it returns are new objects, none of them a row of
    the board.  So when the board is what [generateFullBoard] returned,
    [generate] returns that board as [solution], with the contents
    [generateFullBoard] gave it.  This holds for every board of nine rows
    of nine cells, complete or not. *)
Theorem pokeHoles_leaves_board src board d w :
  wfBoard (contents (store w) board) ->
  exists pz w',
    pokeHoles src board d w = Some (pz, w') /\
    (forall a, (a < length (store w))%nat -> store w' !! a = store w !! a) /\
    contents (store w') board = contents (store w) board /\
    (forall a, In a pz -> (length (store w) <= a)%nat /\ ~ In a board) /\
    (forall fuel w0,
       generateFullBoard fuel src w0 = Some (board, w) ->
       generate fuel src d w0 = Some (mkResult pz board d, w')).
Proof.
  intros Hwf.
  destruct (pokeHoles_run src board d w Hwf)
    as (r & sh & k & pz & junk & rest & hp & H).
  cbv zeta in H. destruct H as (_ & _ & _ & _ & _ & Hpoke & _ & _).
  pose proof (wf_contents_addresses _ _ Hwf) as Haddr.
  exists (seq (length (store w)) 9), (mkWorld (store w ++ pz ++ junk) k).
  cbn [store].
  split; [assumption |]. split; [| split; [| split]].
  - intros a Ha. by apply lookup_app_l.
  - by apply contents_prefix.
  - intros a Ha. apply in_seq in Ha. split; [lia |].
    intros Hin. rewrite Forall_forall in Haddr.
    apply list_elem_of_In, Haddr in Hin. lia.
  - intros fuel w0 Hfull. unfold generate.
    by rewrite bind_eq, Hfull, bind_eq, Hpoke, ret_eq.
Qed.

Lemma pokeHoles_leaves_board_witness :
  wfBoard (contents (store sampleWorld) (seq 0 9)) /\
  exists pz w',
    pokeHoles sampleSource (seq 0 9) "hard" sampleWorld = Some (pz, w') /\
    (forall a, (a < length (store sampleWorld))%nat ->
               store w' !! a = store sampleWorld !! a) /\
    contents (store w') (seq 0 9) = contents (store sampleWorld) (seq 0 9) /\
    (forall a, In a pz ->
               (length (store sampleWorld) <= a)%nat /\ ~ In a (seq 0 9)) /\
    (forall fuel w0,
       generateFullBoard fuel sampleSource w0 = Some (seq 0 9, sampleWorld) ->
       generate fuel sampleSource "hard" w0
       = Some (mkResult pz (seq 0 9) "hard", w')).
Proof.
  assert (H : wfBoard (contents (store sampleWorld) (seq 0 9)))
    by (split; [reflexivity | repeat constructor]).
  split; [exact H |].
  exact (pokeHoles_leaves_board sampleSource (seq 0 9) "hard" sampleWorld H).
Defined.

(** * More of the generator: the solver, the counter, the seeding, the store *)

(** ** [solve] *)

(** X1: on a 9x9 board [solve] always returns.  When it returns [true] the
    board is 9x9 with no empty cell and keeps every clue of the input, and
    it is a valid complete grid if the input placed no digit twice in a
    unit and held only values 0..9.  When it returns [false] the board is
    as it was before the call and no valid complete grid keeps its
    clues. *)
Theorem solve_contract b :
  wfBoard b ->
  exists r b', solve b = Some (r, b') /\
    (r = true ->
       wfBoard b' /\ extends b' b /\
       (forall p, inGrid p -> valueAt b' p <> 0) /\
       (consistent b -> cellsUpTo9 b -> validComplete b')) /\
    (r = false -> b' = b /\ forall g, ~ completion g b).
Proof.
  intros Hwf. unfold solve.
  destruct (solveFuel_total (S (zeros b)) b Hwf) as [[r b'] H]; [lia |].
  exists r, b'. split; [assumption |].
  destruct (solveFuel_solved _ _ _ _ Hwf H) as [[Hf Ht] Hno]. split.
  - intros Hr. destruct (Ht Hr) as (Hw' & He & Hfull & Hc' & Hu').
    split; [assumption |]. split; [assumption |]. split.
    + intros p Hp Hz. apply (firstEmpty_None b' p Hfull Hp).
      by rewrite (wfBoard_cell b' p Hw' Hp), Hz.
    + intros Hc Hu. apply validComplete_iff. split; [assumption |]. split.
      * apply full_filled; auto.
      * auto.
  - intros Hr. split; [by apply Hf | by apply Hno].
Qed.

Lemma solve_contract_witness :
  wfBoard emptyBoard /\
  exists r b', solve emptyBoard = Some (r, b') /\
    (r = true ->
       wfBoard b' /\ extends b' emptyBoard /\
       (forall p, inGrid p -> valueAt b' p <> 0) /\
       (consistent emptyBoard -> cellsUpTo9 emptyBoard -> validComplete b')) /\
    (r = false -> b' = emptyBoard /\ forall g, ~ completion g emptyBoard).
Proof.
  split; [apply wfBoard_emptyBoard |].
  apply (solve_contract emptyBoard). apply wfBoard_emptyBoard.
Defined.

(** ** [countSolutions]: what the count means *)

Section CountFound.
Variable self : list (list Z) -> nat -> option (list (list Z) * nat).

Hypothesis self_restores : forall b c b' c',
  self b c = Some (b', c') -> b' = b /\ (c <= c')%nat /\ ((c <= 1)%nat -> (c' <= 2)%nat).

(** Every unit the recursive call adds to the count is a completion of
    its board, and they are different grids. *)
Hypothesis self_found : forall b c b' c',
  wfBoard b -> consistent b -> cellsUpTo9 b ->
  self b c = Some (b', c') ->
  exists L, List.NoDup L /\ length L = (c' - c)%nat /\
            forall g, In g L -> completion g b.

Lemma countLoop_found row col nums b c b' c' :
  wfBoard b -> inGrid (row, col) -> cell b row col = Some 0 ->
  consistent b -> cellsUpTo9 b ->
  Forall (fun v => 1 <= v <= 9) nums -> List.NoDup nums ->
  countLoop self row col nums b c = Some (b', c') ->
  exists L, List.NoDup L /\ length L = (c' - c)%nat /\
            forall g, In g L ->
              completion g b /\ In (valueAt g (row, col)) nums.
Proof.
  intros Hwf Hin Hcell Hcons Hu Hnums. revert c.
  induction Hnums as [|num nums Hnum _ IH]; intros c Hnd; simpl.
  - intros [= <- <-]. exists []. split; [constructor |].
    split; [simpl; lia | intros g []].
  - apply List.NoDup_cons_iff in Hnd as [Hnotin Hnd].
    destruct (isValid b row col num) eqn:Ev.
    + destruct (self (setCell b row col num) c) as [[b1 c1]|] eqn:E;
        [| discriminate].
      pose proof (self_restores _ _ _ _ E) as (-> & Hle & _).
      destruct (self_found _ _ _ _ (wfBoard_setCell b row col num Hwf)
                  (consistent_setCell b row col num Hwf Hin Hcell Ev Hcons)
                  (cellsUpTo9_setCell b row col num Hcell ltac:(lia) Hu) E)
        as (L1 & Hnd1 & Hlen1 & Hall1).
      assert (H1 : forall g, In g L1 ->
                completion g b /\ valueAt g (row, col) = num).
      { intros g Hg. specialize (Hall1 g Hg). split.
        - by apply (completion_of_setCell g b row col num).
        - destruct Hall1 as [_ He]. rewrite (He (row, col) Hin).
          + by apply (valueAt_setCell_eq b row col num 0).
          + rewrite (valueAt_setCell_eq b row col num 0) by assumption. lia. }
      rewrite (setCell_restore b row col num Hcell).
      destruct (1 <? c1)%nat eqn:E1.
      * intros [= <- <-]. exists L1. split; [assumption |].
        split; [assumption |]. intros g Hg. destruct (H1 g Hg) as [Hc Hv].
        split; [assumption | left; by symmetry].
      * intros Hrun.
        assert (Hle2 : (c1 <= c')%nat).
        { pose proof (countLoop_restores self self_restores row col nums b c1 b' c'
                        Hcell Hrun) as (_ & ? & _). assumption. }
        destruct (IH c1 Hnd Hrun) as (L2 & Hnd2 & Hlen2 & Hall2).
        exists (L1 ++ L2). split; [| split].
        -- apply List.NoDup_app; [assumption | assumption |].
           intros g Hg1 Hg2. destruct (H1 g Hg1) as [_ Hv].
           destruct (Hall2 g Hg2) as [_ Hv2]. rewrite Hv in Hv2. contradiction.
        -- rewrite length_app. lia.
        -- intros g Hg. apply in_app_iff in Hg as [Hg | Hg].
           ++ destruct (H1 g Hg) as [Hc Hv]. split; [assumption | left; by symmetry].
           ++ destruct (Hall2 g Hg) as [Hc Hv]. split; [assumption | by right].
    + intros Hrun. destruct (IH c Hnd Hrun) as (L & HndL & Hlen & Hall).
      exists L. split; [assumption |]. split; [assumption |].
      intros g Hg. destruct (Hall g Hg) as [Hc Hv]. split; [assumption | by right].
Qed.

End CountFound.

Lemma solveCount_found fuel : forall b c b' c',
  wfBoard b -> consistent b -> cellsUpTo9 b ->
  solveCount fuel b c = Some (b', c') ->
  exists L, List.NoDup L /\ length L = (c' - c)%nat /\
            forall g, In g L -> completion g b.
Proof.
  induction fuel as [|fuel IH]; intros b c b' c' Hwf Hcons Hu;
    [discriminate |].
  rewrite solveCount_S. destruct (firstEmpty b) as [[row col]|] eqn:E.
  - apply firstEmpty_Some in E as [Hin Hcell]. intros Hrun.
    destruct (countLoop_found (solveCount fuel) (solveCount_restores fuel) IH
                row col digits b c b' c' Hwf Hin Hcell Hcons Hu
                digits_nonzero digits_NoDup Hrun) as (L & Hnd & Hlen & Hall).
    exists L. split; [assumption |]. split; [assumption |].
    intros g Hg. by destruct (Hall g Hg).
  - intros [= <- <-]. exists [b]. split.
    { apply List.NoDup_cons; [intros [] | apply List.NoDup_nil]. }
    split; [simpl; lia |].
    intros g [<- | []]. split.
    + apply validComplete_iff. split; [assumption |]. split; [| assumption].
      by apply full_filled.
    + intros p _ _. reflexivity.
Qed.

(** The count is the number of completions, capped at 2. *)
Lemma countSolutions_counts b :
  wfBoard b -> consistent b -> cellsUpTo9 b ->
  exists n, countSolutions b = Some (b, n) /\
    (n = 0%nat -> forall g, ~ completion g b) /\
    (n = 1%nat ->
       exists g, completion g b /\ forall g', completion g' b -> g' = g) /\
    (n = 2%nat ->
       exists g1 g2, g1 <> g2 /\ completion g1 b /\ completion g2 b) /\
    (n <= 2)%nat.
Proof.
  intros Hwf Hcons Hu.
  destruct (countSolutions_returns b) as (n & Hrun & Hn).
  exists n. split; [assumption |]. unfold countSolutions in Hrun.
  destruct (solveCount_sem _ b 0%nat b n Hwf (Nat.le_0_l 1) Hrun)
    as [Hnone Hone].
  destruct (solveCount_found _ _ _ _ _ Hwf Hcons Hu Hrun)
    as (L & Hnd & Hlen & Hall).
  split; [intros ->; by apply Hnone |]. split; [| split; [| assumption]].
  - intros ->. destruct L as [|g [|? ?]]; try discriminate.
    exists g. split; [apply Hall; by left |].
    intros g' Hg'. apply (Hone eq_refl eq_refl); [assumption |].
    apply Hall. by left.
  - intros ->. destruct L as [|g1 [|g2 [|? ?]]]; try discriminate.
    exists g1, g2. split; [| split].
    + intros ->. apply List.NoDup_cons_iff in Hnd as [Hnot _]. apply Hnot. by left.
    + apply Hall. by left.
    + apply Hall. right. by left.
Qed.

(** X2: on a 9x9 board with values 0..9 and no digit twice in a unit,
    [countSolutions] returns the number of valid complete grids that keep
    the clues, capped at 2: 0 when there is none, 1 when there is exactly
    one, 2 when there are at least two. *)
Theorem countSolutions_exact b :
  wfBoard b -> consistent b -> cellsUpTo9 b ->
  exists n, countSolutions b = Some (b, n) /\
    (n = 0%nat -> forall g, ~ completion g b) /\
    (n = 1%nat ->
       exists g, completion g b /\ forall g', completion g' b -> g' = g) /\
    (n = 2%nat ->
       exists g1 g2, g1 <> g2 /\ completion g1 b /\ completion g2 b) /\
    (n <= 2)%nat.
Proof. apply countSolutions_counts. Qed.

Lemma countSolutions_exact_witness :
  (wfBoard sampleGrid /\ consistent sampleGrid /\ cellsUpTo9 sampleGrid) /\
  exists n, countSolutions sampleGrid = Some (sampleGrid, n) /\
    (n = 0%nat -> forall g, ~ completion g sampleGrid) /\
    (n = 1%nat ->
       exists g, completion g sampleGrid /\
                 forall g', completion g' sampleGrid -> g' = g) /\
    (n = 2%nat ->
       exists g1 g2, g1 <> g2 /\ completion g1 sampleGrid /\
                     completion g2 sampleGrid) /\
    (n <= 2)%nat.
Proof.
  assert (Hv : validComplete sampleGrid) by (apply validGridb_sound; reflexivity).
  apply validComplete_iff in Hv as (Hwf & Hf & Hc).
  assert (Hu : cellsUpTo9 sampleGrid).
  { intros p Hp. specialize (Hf p Hp). lia. }
  split; [auto |].
  apply (countSolutions_exact sampleGrid Hwf Hc Hu).
Defined.

(** ** [shuffleArray] *)

Lemma shuffleFrom_draws {A} src i (array : list A) k :
  snd (shuffleFrom src i array k) = (k + i)%nat.
Proof.
  revert array k. induction i as [|i IH]; intros array k; simpl; [lia |].
  rewrite IH. lia.
Qed.

(** ** [fillBox] *)

Lemma drawSafe_draws fuel src b row col k num k' :
  drawSafe fuel src b row col k = Some (num, k') -> (k < k')%nat.
Proof.
  revert k. induction fuel as [|fuel IH]; intros k H; [discriminate |].
  rewrite drawSafe_S in H.
  destruct (isSafeInBox b row col (Z.of_nat (randomBelow src k 9) + 1)).
  - injection H as _ <-. lia.
  - apply IH in H. lia.
Qed.

Lemma fillCells_draws fuel src row col cells : forall b k b' k',
  fillCells fuel src row col cells b k = Some (b', k') ->
  (k + length cells <= k')%nat.
Proof.
  induction cells as [|[i j] cells IH]; intros b k b' k'; simpl.
  - intros [= _ <-]. lia.
  - destruct (drawSafe fuel src b row col k) as [[num k1]|] eqn:E;
      [| discriminate].
    apply drawSafe_draws in E. intros H. apply IH in H. lia.
Qed.

(** X3: when [fillBox] returns on a box inside a 9x9 board whose nine
    cells were empty, the box holds each of the digits 1..9 once, every
    cell outside the box is as before, and at least nine random numbers
    were drawn. *)
Theorem fillBox_contract fuel src b row col k b' k' :
  wfBoard b -> (row + 2 < 9)%nat -> (col + 2 < 9)%nat ->
  (forall c, In c boxCells -> valueAt b (row + fst c, col + snd c)%nat = 0) ->
  fillBox fuel src b row col k = Some (b', k') ->
  wfBoard b' /\ Permutation (boxValues b' row col) digits /\
  (forall q, (forall c, In c boxCells -> q <> (row + fst c, col + snd c)%nat) ->
             valueAt b' q = valueAt b q) /\
  (k + 9 <= k')%nat.
Proof.
  intros Hwf Hr Hc Hz Hrun.
  destruct (fillBox_spec fuel src row col Hr Hc b k b' k' Hwf Hz Hrun)
    as (Hw' & Hp & Ho).
  repeat split; try assumption; try apply Hw'.
  apply (fillCells_draws _ _ _ _ _ _ _ _ _ Hrun).
Qed.

Lemma fillBox_contract_witness :
  exists b' k',
    fillBox 100 sampleSource emptyBoard 3 3 0 = Some (b', k') /\
    wfBoard b' /\ Permutation (boxValues b' 3 3) digits /\
    (forall q, (forall c, In c boxCells -> q <> (3 + fst c, 3 + snd c)%nat) ->
               valueAt b' q = valueAt emptyBoard q) /\
    (0 + 9 <= k')%nat.
Proof.
  destruct (fillBox 100 sampleSource emptyBoard 3 3 0) as [[b' k']|] eqn:E;
    [| vm_compute in E; discriminate].
  exists b', k'. split; [reflexivity |].
  apply (fillBox_contract 100 sampleSource emptyBoard 3 3 0 b' k');
    [apply wfBoard_emptyBoard | lia | lia | | exact E].
  intros c _. apply valueAt_emptyBoard.
Defined.

Lemma isSafeInBox_false b row col num c :
  wfBoard b -> (row + 2 < 9)%nat -> (col + 2 < 9)%nat -> In c boxCells ->
  valueAt b (row + fst c, col + snd c)%nat = num ->
  isSafeInBox b row col num = false.
Proof.
  intros Hwf Hr Hc Hin Hv.
  destruct (isSafeInBox b row col num) eqn:E; [| reflexivity].
  exfalso. by apply (isSafeInBox_true b row col num c Hwf Hr Hc Hin E).
Qed.

Lemma drawSafe_none fuel src b row col :
  (forall num, 1 <= num <= 9 -> isSafeInBox b row col num = false) ->
  forall k, drawSafe fuel src b row col k = None.
Proof.
  intros Hno. induction fuel as [|fuel IH]; intros k; [reflexivity |].
  rewrite drawSafe_S. rewrite Hno; [apply IH |].
  pose proof (Nat.mod_upper_bound (src k) 9). unfold randomBelow. lia.
Qed.

(** X4: on a box that already holds the nine digits the loop that draws
    a digit not yet in the box never ends: [fillBox] returns for no
    number of draws, whatever the random numbers are. *)
Theorem fillBox_full_box_never_returns b row col :
  wfBoard b -> (row + 2 < 9)%nat -> (col + 2 < 9)%nat ->
  Permutation (boxValues b row col) digits ->
  forall fuel src k, fillBox fuel src b row col k = None.
Proof.
  intros Hwf Hr Hc Hp fuel src k. unfold fillBox.
  assert (Hd : drawSafe fuel src b row col k = None).
  { apply drawSafe_none. intros num Hnum.
    assert (Hin : In num (boxValues b row col)).
    { apply (Permutation_in _ (Permutation_sym Hp)). by apply in_digits. }
    unfold boxValues in Hin. apply in_map_iff in Hin as (c & Hv & Hc').
    by apply (isSafeInBox_false b row col num c). }
  unfold boxCells. cbn [seq flat_map map app fillCells]. by rewrite Hd.
Qed.

Lemma fillBox_full_box_never_returns_witness :
  (wfBoard sampleGrid /\ Permutation (boxValues sampleGrid 0 0) digits) /\
  forall fuel src k, fillBox fuel src sampleGrid 0 0 k = None.
Proof.
  assert (Hv : validComplete sampleGrid) by (apply validGridb_sound; reflexivity).
  assert (Hp : Permutation (boxValues sampleGrid 0 0) digits).
  { destruct Hv as [_ Hu]. apply (Hu (boxUnit 0)). unfold units.
    apply in_or_app. right. apply in_or_app. right. by left. }
  split; [split; [apply Hv | exact Hp] |].
  apply (fillBox_full_box_never_returns sampleGrid 0 0);
    [apply Hv | lia | lia | exact Hp].
Defined.

(** ** The store: [createEmptyBoard] and the copies *)

Lemma contents_alter_notin (f : list Z -> list Z) a st g :
  ~ In a g -> contents (alter f a st) g = contents st g.
Proof.
  intros Hn. unfold contents. apply map_ext_in. intros a' Ha'.
  rewrite list_lookup_alter_ne; [reflexivity |]. by intros ->.
Qed.

(** X5: [createEmptyBoard] returns nine new row objects, each of nine
    zeros, and leaves every object that was there and the random draws as
    they were.  The rows are nine different objects: a write through the
    board changes the one cell written and no other. *)
Theorem createEmptyBoard_fresh w :
  exists board w',
    createEmptyBoard w = Some (board, w') /\
    board = seq (length (store w)) 9 /\
    contents (store w') board = emptyBoard /\
    take (length (store w)) (store w') = store w /\
    draws w' = draws w /\
    forall row col v, (row < 9)%nat ->
      exists w'', writeCell board row col v w' = Some (tt, w'') /\
        contents (store w'') board = setCell emptyBoard row col v /\
        take (length (store w)) (store w'') = store w.
Proof.
  unfold createEmptyBoard. rewrite allocRows_eq.
  exists (seq (length (store w)) 9), (mkWorld (store w ++ emptyBoard) (draws w)).
  split; [reflexivity |]. split; [reflexivity |]. cbn [store draws].
  split.
  { pose proof (contents_block (store w) emptyBoard []) as H.
    by rewrite app_nil_r in H. }
  split; [by rewrite take_app_length |]. split; [reflexivity |].
  intros row col v Hrow.
  rewrite (writeCell_layout (store w) emptyBoard []
             (mkWorld (store w ++ emptyBoard) (draws w)))
    by (cbn [store]; rewrite ?app_nil_r; auto).
  eexists. split; [reflexivity |]. cbn [store]. split.
  - pose proof (contents_block (store w) (setCell emptyBoard row col v) []) as H.
    unfold setCell in H at 2. rewrite length_alter in H. exact H.
  - by rewrite take_app_length.
Qed.

(** X6: the copy made by [board.map(row => [...row])] shares no row with
    the board it copies: it holds the same values, and a later write
    through either of the two leaves the other as it was. *)
Theorem copyBoard_independent board w :
  Forall (fun a => (a < length (store w))%nat) board ->
  exists copy w',
    copyBoard board w = Some (copy, w') /\
    contents (store w') copy = contents (store w) board /\
    contents (store w') board = contents (store w) board /\
    (forall row col v w'',
        writeCell copy row col v w' = Some (tt, w'') ->
        contents (store w'') board = contents (store w) board) /\
    (forall row col v w'',
        writeCell board row col v w' = Some (tt, w'') ->
        contents (store w'') copy = contents (store w) board).
Proof.
  intros Hb. rewrite copyBoard_eq.
  set (rows := contents (store w) board).
  assert (Hl : length rows = length board) by apply length_contents.
  exists (seq (length (store w)) (length board)),
         (mkWorld (store w ++ rows) (draws w)).
  split; [reflexivity |]. cbn [store].
  assert (Hcopy : contents (store w ++ rows) (seq (length (store w)) (length board))
                  = rows).
  { pose proof (contents_block (store w) rows []) as H.
    rewrite app_nil_r, Hl in H. exact H. }
  assert (Hboard : contents (store w ++ rows) board = rows).
  { by apply contents_prefix. }
  split; [exact Hcopy |]. split; [exact Hboard |]. split.
  - intros row col v w''. unfold writeCell.
    destruct (seq (length (store w)) (length board) !! row) as [a|] eqn:Ea;
      [| discriminate].
    intros [= <-]. cbn [store]. rewrite contents_alter_notin; [exact Hboard |].
    apply lookup_seq in Ea as [-> _]. intros Hin.
    rewrite Forall_forall in Hb. apply list_elem_of_In in Hin.
    specialize (Hb _ Hin). lia.
  - intros row col v w''. unfold writeCell.
    destruct (board !! row) as [a|] eqn:Ea; [| discriminate].
    intros [= <-]. cbn [store]. rewrite contents_alter_notin; [exact Hcopy |].
    intros Hin. apply in_seq in Hin.
    rewrite Forall_forall in Hb. apply list_elem_of_lookup_2 in Ea.
    specialize (Hb _ Ea). lia.
Qed.

Lemma copyBoard_independent_witness :
  exists copy w',
    copyBoard (seq 0 9) sampleWorld = Some (copy, w') /\
    contents (store w') copy = contents (store sampleWorld) (seq 0 9) /\
    contents (store w') (seq 0 9) = contents (store sampleWorld) (seq 0 9) /\
    (forall row col v w'',
        writeCell copy row col v w' = Some (tt, w'') ->
        contents (store w'') (seq 0 9) = contents (store sampleWorld) (seq 0 9)) /\
    (forall row col v w'',
        writeCell (seq 0 9) row col v w' = Some (tt, w'') ->
        contents (store w'') copy = contents (store sampleWorld) (seq 0 9)).
Proof.
  apply (copyBoard_independent (seq 0 9) sampleWorld).
  apply Forall_forall. intros a Ha. apply list_elem_of_In, in_seq in Ha.
  change (length (store sampleWorld)) with 9%nat. lia.
Defined.

(** ** [toFlatArray] after [fromFlatArray] *)

Lemma concat_slices (flat : list Z) n :
  concat (map (fun i => slice flat (i * 9) ((i + 1) * 9)) (seq 0 n))
  = take (n * 9) flat.
Proof.
  induction n as [|n IH]; [reflexivity |].
  rewrite seq_S, map_app, concat_app, IH. simpl map. simpl concat.
  rewrite app_nil_r. unfold slice.
  replace ((0 + n + 1) * 9 - (0 + n) * 9)%nat with 9%nat by lia.
  replace ((0 + n) * 9)%nat with (n * 9)%nat by lia.
  rewrite take_take_drop. f_equal. lia.
Qed.

(** X7: [fromFlatArray] followed by [toFlatArray] gives back the first 81
    elements of the sequence: a sequence of at most 81 elements comes back
    as it was, whatever its length, and what lies beyond the 81st element
    is dropped. *)
Theorem toFlatArray_fromFlatArray (flat : list Z) :
  exists board,
    fromFlatArray flat = Returned board /\
    length board = 9%nat /\
    toFlatArray board = take 81 flat /\
    ((length flat <= 81)%nat -> toFlatArray board = flat).
Proof.
  eexists. split; [reflexivity |]. split; [reflexivity |].
  unfold toFlatArray. rewrite (concat_slices flat 9).
  split; [reflexivity |]. intros Hl. by apply take_ge.
Qed.

(** ** [shuffleArray]: every order can come out *)

Lemma shuffleFrom_ext {A} src src' i : forall (array : list A) k,
  (forall t, (k <= t < k + i)%nat -> src t = src' t) ->
  shuffleFrom src i array k = shuffleFrom src' i array k.
Proof.
  induction i as [|i IH]; intros array k H; [reflexivity |].
  simpl. unfold randomBelow. rewrite (H k) by lia.
  apply IH. intros t Ht. apply H. lia.
Qed.

Lemma take_swap {A} (array : list A) n i j :
  (i < n)%nat -> (j < n)%nat ->
  take n (swap array i j) = swap (take n array) i j.
Proof.
  intros Hi Hj. unfold swap.
  rewrite !lookup_take_lt by assumption.
  destruct (array !! i) as [x|]; [| reflexivity].
  destruct (array !! j) as [y|]; [| reflexivity].
  rewrite take_insert_lt by assumption. by rewrite take_insert_lt by assumption.
Qed.

Lemma swap_lookup_ne {A} (array : list A) i j t :
  t <> i -> t <> j -> swap array i j !! t = array !! t.
Proof.
  intros Hi Hj. unfold swap.
  destruct (array !! i) as [x|]; [| reflexivity].
  destruct (array !! j) as [y|]; [| reflexivity].
  rewrite list_lookup_insert_ne by auto. by rewrite list_lookup_insert_ne by auto.
Qed.

Lemma swap_lookup_left {A} (array : list A) i j y :
  (i < length array)%nat -> array !! j = Some y ->
  swap array i j !! i = Some y.
Proof.
  intros Hi Hj. unfold swap.
  destruct (lookup_lt_is_Some_2 array i Hi) as [x Hx]. rewrite Hx, Hj.
  destruct (decide (i = j)) as [-> | Hne].
  - rewrite list_lookup_insert_eq; [congruence |].
    rewrite length_insert. by apply lookup_lt_Some in Hj.
  - rewrite list_lookup_insert_ne by auto.
    by rewrite list_lookup_insert_eq.
Qed.

Lemma length_swap {A} (array : list A) i j : length (swap array i j) = length array.
Proof.
  unfold swap. destruct (array !! i); [| reflexivity].
  destruct (array !! j); [| reflexivity]. by rewrite !length_insert.
Qed.

Lemma shuffleFrom_reach {A} i : forall (array l : list A) k,
  length l = length array -> (i < length array)%nat ->
  (forall t, (i < t)%nat -> l !! t = array !! t) ->
  take (S i) l ≡ₚ take (S i) array ->
  exists src, fst (shuffleFrom src i array k) = l.
Proof.
  induction i as [|i IH]; intros array l k Hlen Hi Hrest Hperm.
  - exists (fun _ => 0%nat). simpl. symmetry. apply list_eq. intros t.
    destruct t as [|t]; [| apply Hrest; lia].
    destruct l as [|x l], array as [|y array]; try discriminate; try reflexivity.
    simpl in Hperm. rewrite !take_0 in Hperm.
    apply Permutation_singleton_l in Hperm. simpl. congruence.
  - destruct (lookup_lt_is_Some_2 l (S i)) as [x Hx]; [lia |].
    assert (Hin : x ∈ take (S (S i)) array).
    { rewrite <- Hperm. apply list_elem_of_lookup. exists (S i).
      by rewrite lookup_take_lt by lia. }
    apply list_elem_of_lookup in Hin as [j Hj].
    assert (Hjlt : (j < S (S i))%nat).
    { apply lookup_lt_Some in Hj. rewrite length_take in Hj. lia. }
    rewrite lookup_take_lt in Hj by assumption.
    set (array' := swap array (S i) j).
    assert (Htop : array' !! S i = Some x) by (by apply swap_lookup_left).
    destruct (IH array' l (S k)) as [src' Hsrc'].
    + unfold array'. by rewrite length_swap.
    + unfold array'. rewrite length_swap. lia.
    + intros t Ht. destruct (decide (t = S i)) as [-> | Hne]; [congruence |].
      unfold array'. rewrite swap_lookup_ne by lia. apply Hrest. lia.
    + assert (H2 : take (S (S i)) l ≡ₚ take (S (S i)) array').
      { rewrite Hperm. unfold array'. rewrite take_swap by lia.
        symmetry. apply swap_Permutation. }
      rewrite (take_S_r l (S i) x Hx) in H2.
      rewrite (take_S_r array' (S i) x Htop) in H2.
      by apply Permutation_app_inv_r in H2.
    + exists (fun t => if (t =? k)%nat then j else src' t).
      cbn [shuffleFrom]. unfold randomBelow at 1. rewrite Nat.eqb_refl.
      rewrite Nat.mod_small by lia. fold array'. rewrite <- Hsrc'. f_equal.
      apply shuffleFrom_ext. intros t Ht.
      destruct (t =? k)%nat eqn:E; [apply Nat.eqb_eq in E; lia | reflexivity].
Qed.

(** X8: [shuffleArray] returns a rearrangement of the array it is given
    and draws one random number less than the array has elements; and
    every rearrangement of the array is what it returns for some values
    of the random numbers. *)
Theorem shuffleArray_contract {A} (array : list A) :
  (forall src k,
      fst (shuffleArray src array k) ≡ₚ array /\
      snd (shuffleArray src array k) = (k + (length array - 1))%nat) /\
  (forall l k, l ≡ₚ array -> exists src, fst (shuffleArray src array k) = l).
Proof.
  split.
  - intros src k. split; [apply shuffleArray_Permutation |].
    apply shuffleFrom_draws.
  - intros l k Hp. unfold shuffleArray.
    pose proof (Permutation_length Hp) as Hlen.
    destruct array as [|a array].
    + apply Permutation_nil_r in Hp as ->. by exists (fun _ => 0%nat).
    + apply shuffleFrom_reach.
      * assumption.
      * simpl. lia.
      * intros t Ht. simpl in Ht.
        rewrite !lookup_ge_None_2; [reflexivity | simpl; lia | rewrite Hlen; simpl; lia].
      * rewrite !take_ge; [assumption | simpl; lia | rewrite Hlen; simpl; lia].
Qed.

(** ** [pokeHoles]: the clues that stay *)

(** A completion of a board is a completion of a board with fewer clues. *)
Lemma completion_fewer g b b' :
  completion g b ->
  (forall q, inGrid q -> valueAt b' q = valueAt b q \/ valueAt b' q = 0) ->
  completion g b'.
Proof.
  intros [Hv He] Hle. split; [assumption |]. intros q Hq Hnz.
  destruct (Hle q Hq) as [E | E]; [| contradiction].
  rewrite E in *. by apply He.
Qed.

Lemma extends_fewer s b b' :
  extends s b ->
  (forall q, inGrid q -> valueAt b' q = valueAt b q \/ valueAt b' q = 0) ->
  extends s b'.
Proof.
  intros He Hle q Hq Hnz.
  destruct (Hle q Hq) as [E | E]; [| contradiction].
  rewrite E in *. by apply He.
Qed.

Lemma setCell_zero_fewer b row col q :
  wfBoard b -> inGrid (row, col) ->
  valueAt (setCell b row col 0) q = valueAt b q \/
  valueAt (setCell b row col 0) q = 0.
Proof.
  intros Hwf Hin. destruct (decide ((row, col) = q)) as [<- | Hne].
  - right. apply (valueAt_setCell_eq b row col 0 (valueAt b (row, col))).
    apply (wfBoard_cell b (row, col) Hwf Hin).
  - left. by apply valueAt_setCell_ne.
Qed.

(** The loop of [pokeHoles] on a puzzle whose clues come from the complete
    grid [s]: a visited cell that still holds its clue at the end is one
    whose removal from the final puzzle leaves two completions. *)
Lemma pokeLoop_kept holesToPoke st0 s rest :
  validComplete s -> Forall inGrid rest ->
  forall holesPoked pz junk w rest' hp' w',
    wfBoard pz -> extends s pz -> store w = st0 ++ pz ++ junk ->
    pokeLoop holesToPoke (seq (length st0) 9) rest holesPoked w
    = Some ((rest', hp'), w') ->
    exists visited pz' junk',
      rest = visited ++ rest' /\ store w' = st0 ++ pz' ++ junk' /\
      wfBoard pz' /\
      (forall q, inGrid q -> valueAt pz' q = valueAt pz q \/ valueAt pz' q = 0) /\
      forall p, In p visited -> valueAt pz' p <> 0 ->
        exists g1 g2, g1 <> g2 /\
          completion g1 (setCell pz' (fst p) (snd p) 0) /\
          completion g2 (setCell pz' (fst p) (snd p) 0).
Proof.
  intros Hs. induction 1 as [|[row col] rest Hin _ IH];
    intros holesPoked pz junk w rest' hp' w' Hwf Hext Hlay.
  - simpl. rewrite ret_eq. intros [= <- <- <-].
    exists [], pz, junk. split; [reflexivity |]. split; [assumption |].
    split; [assumption |]. split; [auto | intros p []].
  - rewrite pokeLoop_cons. destruct (holesToPoke <=? holesPoked)%nat eqn:Hbr.
    { rewrite ret_eq. intros [= <- <- <-].
      exists [], pz, junk. split; [reflexivity |]. split; [assumption |].
      split; [assumption |]. split; [auto | intros p []]. }
    assert (Hlen : length pz = 9%nat) by apply Hwf.
    pose proof (wfBoard_cell pz (row, col) Hwf Hin) as Hcell. simpl in Hcell.
    set (backup := valueAt pz (row, col)) in *.
    assert (Hrow : (row < 9)%nat) by apply Hin.
    rewrite bind_eq.
    rewrite (readCell_layout st0 pz junk w Hlay Hlen row col backup Hcell).
    rewrite bind_eq.
    rewrite (writeCell_layout st0 pz junk w Hlay Hlen row col 0 Hrow).
    set (pz1 := setCell pz row col 0).
    assert (Hwf1 : wfBoard pz1) by by apply wfBoard_setCell.
    assert (Hlen1 : length pz1 = 9%nat) by apply Hwf1.
    assert (Hle1 : forall q, inGrid q ->
              valueAt pz1 q = valueAt pz q \/ valueAt pz1 q = 0).
    { intros q _. by apply setCell_zero_fewer. }
    assert (Hext1 : extends s pz1) by (by apply (extends_fewer s pz)).
    set (w1 := mkWorld (st0 ++ pz1 ++ junk) (draws w)).
    rewrite bind_eq.
    rewrite (copyBoard_layout st0 pz1 junk w1 eq_refl Hlen1).
    destruct (completion_bounds s pz1 (conj Hs Hext1)) as [Hc1 Hu1].
    destruct (countSolutions_counts pz1 Hwf1 Hc1 Hu1)
      as (n & Hn & Hn0 & _ & Hn2 & Hnle).
    rewrite bind_eq. simpl store. simpl draws.
    rewrite (count_probe _ pz1 _ n Hlen1 Hn).
    destruct (n =? 1)%nat eqn:Hn1.
    + intros Hrun.
      destruct (IH (S holesPoked) pz1 (junk ++ pz1)
                  (mkWorld ((st0 ++ pz1 ++ junk) ++ pz1) (draws w)) rest' hp' w'
                  Hwf1 Hext1)
        as (visited & pz' & junk' & Hv & Hst & Hwf' & Hle & Hk);
        [simpl; by rewrite <- !app_assoc | exact Hrun |].
      exists ((row, col) :: visited), pz', junk'.
      split; [by rewrite Hv |]. split; [assumption |]. split; [assumption |].
      split.
      * intros q Hq. destruct (Hle q Hq) as [E | E]; [| by right].
        rewrite E. by apply Hle1.
      * intros p [<- | Hp] Hnz; [| by apply Hk].
        exfalso. apply Hnz. destruct (Hle (row, col) Hin) as [E | E]; [| exact E].
        rewrite E. apply (valueAt_setCell_eq pz row col 0 backup Hcell).
    + rewrite bind_eq.
      set (w2 := mkWorld ((st0 ++ pz1 ++ junk) ++ pz1) (draws w)).
      assert (Hlay2 : store w2 = st0 ++ pz1 ++ (junk ++ pz1))
        by (simpl; by rewrite <- !app_assoc).
      rewrite (writeCell_layout st0 pz1 (junk ++ pz1) w2 Hlay2 Hlen1 row col
                 backup Hrow).
      assert (Hback : setCell pz1 row col backup = pz).
      { unfold pz1. rewrite setCell_setCell. unfold setCell.
        apply list_eq. intros i. destruct (decide (row = i)) as [<- | Hne].
        - rewrite list_lookup_alter_eq. unfold cell in Hcell.
          destruct (pz !! row) as [r|]; [simpl | discriminate].
          f_equal. by apply list_insert_id.
        - by rewrite list_lookup_alter_ne. }
      rewrite Hback. simpl draws. intros Hrun.
      destruct (IH holesPoked pz (junk ++ pz1)
                  (mkWorld (st0 ++ pz ++ junk ++ pz1) (draws w)) rest' hp' w'
                  Hwf Hext eq_refl Hrun)
        as (visited & pz' & junk' & Hv & Hst & Hwf' & Hle & Hk).
      exists ((row, col) :: visited), pz', junk'.
      split; [by rewrite Hv |]. split; [assumption |]. split; [assumption |].
      split; [assumption |].
      intros p [<- | Hp] Hnz; [| by apply Hk]. cbn [fst snd].
      assert (n = 2)%nat as ->.
      { apply Nat.eqb_neq in Hn1.
        destruct (decide (n = 0%nat)) as [-> | ?]; [| lia].
        exfalso. apply (Hn0 eq_refl s). by split. }
      destruct (Hn2 eq_refl) as (g1 & g2 & Hne & Hg1 & Hg2).
      assert (Hfew : forall q, inGrid q ->
                valueAt (setCell pz' row col 0) q = valueAt pz1 q \/
                valueAt (setCell pz' row col 0) q = 0).
      { intros q Hq. destruct (decide ((row, col) = q)) as [<- | Hneq].
        - right. apply (valueAt_setCell_eq pz' row col 0 (valueAt pz' (row, col))).
          apply (wfBoard_cell pz' (row, col) Hwf' Hin).
        - unfold pz1. rewrite !valueAt_setCell_ne by assumption. by apply Hle. }
      exists g1, g2. split; [assumption |].
      split; by apply (completion_fewer _ pz1).
Qed.

(** X9: [pokeHoles] on a complete valid grid returns a puzzle in which no
    clue that the loop tried to remove and put back can be spared: with
    [visited] the shuffled positions the loop went through and [rest]
    those it left, taking the clue at a visited position out of the
    puzzle leaves a puzzle with two different valid completions.  When
    the puzzle has more clues than the maximum of its tier, the loop went
    through all 81 positions, so this holds for every clue. *)
Theorem pokeHoles_irreducible src board d w :
  validComplete (contents (store w) board) ->
  exists puzzle w' holesToPoke visited rest hp w1 w2,
    pokePlan src d w = Some ((holesToPoke, visited ++ rest), w1) /\
    copyBoard board w1 = Some (puzzle, w2) /\
    pokeLoop holesToPoke puzzle (visited ++ rest) 0 w2 = Some ((rest, hp), w') /\
    pokeHoles src board d w = Some (puzzle, w') /\
    visited ++ rest ≡ₚ positions /\
    ((snd (clueRange d) < clues (contents (store w') puzzle))%nat -> rest = []) /\
    forall p, In p visited -> valueAt (contents (store w') puzzle) p <> 0 ->
      exists g1 g2, g1 <> g2 /\
        completion g1 (setCell (contents (store w') puzzle) (fst p) (snd p) 0) /\
        completion g2 (setCell (contents (store w') puzzle) (fst p) (snd p) 0).
Proof.
  intros Hs.
  destruct (pokeHoles_full src board d w _ eq_refl Hs)
    as (r & sh & k & pz & junk & rest & hp & H).
  cbv zeta in H.
  destruct H as (Hr & Hsh & Hplan & Hcopy & Hloop & Hpoke & Hpz & _ & Hpk
                 & Hsum & Hle).
  assert (Hfor : Forall inGrid sh).
  { apply Forall_forall. intros q Hq. apply in_positions.
    apply list_elem_of_In. by rewrite <- Hsh. }
  destruct (pokeLoop_kept (81 - (r + fst (clueRange d))) (store w) _ sh Hs Hfor 0
              (contents (store w) board) []
              (mkWorld (store w ++ contents (store w) board) k) rest hp
              (mkWorld (store w ++ pz ++ junk) k))
    as (visited & pz' & junk' & Hv & Hst & Hwf' & _ & Hk).
  { apply Hs. }
  { intros q _ _. reflexivity. }
  { simpl. by rewrite app_nil_r. }
  { exact Hloop. }
  cbn [store] in Hst. apply app_inv_head in Hst.
  assert (pz' = pz) as ->.
  { pose proof (poked_wf _ _ _ _ _ _ _ Hpk) as [Hl _].
    destruct Hwf' as [Hl' _].
    apply (f_equal (take 9)) in Hst.
    rewrite <- Hl in Hst at 1. rewrite take_app_length in Hst.
    rewrite <- Hl' in Hst. by rewrite take_app_length in Hst. }
  subst sh.
  exists (seq (length (store w)) 9), (mkWorld (store w ++ pz ++ junk) k),
    (81 - (r + fst (clueRange d)))%nat, visited, rest, hp,
    (mkWorld (store w) k), (mkWorld (store w ++ contents (store w) board) k).
  cbn [store]. rewrite Hpz.
  split; [exact Hplan |]. split; [exact Hcopy |]. split; [exact Hloop |].
  split; [exact Hpoke |]. split; [exact Hsh |]. split; [| exact Hk].
  intros Hmany.
  destruct (poked_exit _ _ _ _ _ _ _ Hpk) as [E | E]; [assumption |].
  exfalso. destruct (clueRange_cases d) as [E'|[E'|E']];
    rewrite E' in *; cbn [fst snd] in *; lia.
Qed.

Lemma pokeHoles_irreducible_witness :
  validComplete (contents (store sampleWorld) (seq 0 9)) /\
  exists puzzle w' holesToPoke visited rest hp w1 w2,
    pokePlan sampleSource "hard" sampleWorld
    = Some ((holesToPoke, visited ++ rest), w1) /\
    copyBoard (seq 0 9) w1 = Some (puzzle, w2) /\
    pokeLoop holesToPoke puzzle (visited ++ rest) 0 w2 = Some ((rest, hp), w') /\
    pokeHoles sampleSource (seq 0 9) "hard" sampleWorld = Some (puzzle, w') /\
    visited ++ rest ≡ₚ positions /\
    ((snd (clueRange "hard") < clues (contents (store w') puzzle))%nat ->
     rest = []) /\
    forall p, In p visited -> valueAt (contents (store w') puzzle) p <> 0 ->
      exists g1 g2, g1 <> g2 /\
        completion g1 (setCell (contents (store w') puzzle) (fst p) (snd p) 0) /\
        completion g2 (setCell (contents (store w') puzzle) (fst p) (snd p) 0).
Proof.
  assert (H : validComplete (contents (store sampleWorld) (seq 0 9)))
    by (apply validGridb_sound; vm_compute; reflexivity).
  split; [exact H |].
  exact (pokeHoles_irreducible sampleSource (seq 0 9) "hard" sampleWorld H).
Defined.

(** * The game: what the moves keep *)

(** ** Arrays of nine rows of nine *)

Lemma setCell_same b r c v : cell b r c = Some v -> setCell b r c v = b.
Proof.
  unfold cell, setCell. intros H. apply list_eq. intros i.
  destruct (decide (r = i)) as [<- | Hne].
  - rewrite list_lookup_alter_eq. destruct (b !! r) as [row|]; [simpl | discriminate].
    f_equal. by apply list_insert_id.
  - by rewrite list_lookup_alter_ne.
Qed.

Lemma setCell_back b p v :
  wfBoard b -> inGrid p ->
  setCell (setCell b (fst p) (snd p) v) (fst p) (snd p) (valueAt b p) = b.
Proof.
  intros Hwf Hp. rewrite setCell_setCell. apply setCell_same.
  by apply wfBoard_cell.
Qed.

Lemma at2_wf b p :
  wfBoard b -> inGrid p ->
  Game.at2 b (fst p) (snd p) = Game.Value (Some (valueAt b p)).
Proof.
  intros Hwf Hp. pose proof (wfBoard_cell b p Hwf Hp) as H.
  unfold cell in H. unfold Game.at2.
  destruct (b !! fst p) as [r|]; [by rewrite H | discriminate].
Qed.

Lemma assign_in {A} (array : list A) i v :
  (i < length array)%nat -> Game.assign array i v = Game.Value (<[i := v]> array).
Proof.
  intros Hi. unfold Game.assign. apply Nat.ltb_lt in Hi. by rewrite Hi.
Qed.

Lemma assign2_in {A} (m : list (list A)) row col v r :
  m !! row = Some r -> (col < length r)%nat ->
  Game.assign2 m row col v
  = Game.Value (alter (fun r => <[col := v]> r) row m).
Proof.
  intros Hr Hc. unfold Game.assign2. rewrite Hr, (assign_in r col v Hc).
  simpl. f_equal. apply list_eq. intros i.
  destruct (decide (row = i)) as [<- | Hne].
  - rewrite list_lookup_alter_eq, Hr. simpl.
    apply list_lookup_insert_eq. by apply lookup_lt_Some in Hr.
  - rewrite list_lookup_alter_ne by assumption.
    by rewrite list_lookup_insert_ne.
Qed.

Lemma assign2_wf b p v :
  wfBoard b -> inGrid p ->
  Game.assign2 b (fst p) (snd p) v = Game.Value (setCell b (fst p) (snd p) v).
Proof.
  intros [Hl Hrows] [Hr Hc].
  destruct (lookup_lt_is_Some_2 b (fst p)) as [r Er]; [lia |].
  apply (assign2_in b (fst p) (snd p) v r Er).
  rewrite Forall_forall in Hrows.
  rewrite (Hrows r); [assumption |]. by apply list_elem_of_lookup_2 in Er.
Qed.

(** ** The notes *)

Lemma wfNotes_row notes row :
  Game.wfNotes notes -> (row < 9)%nat ->
  exists r, notes !! row = Some r /\ length r = 9%nat.
Proof.
  intros [Hl Hrows] Hr.
  destruct (lookup_lt_is_Some_2 notes row) as [r Er]; [lia |].
  exists r. split; [assumption |]. rewrite Forall_forall in Hrows.
  apply Hrows. by apply list_elem_of_lookup_2 in Er.
Qed.

Lemma ensureNotesInitialized_wf notes p :
  Game.wfNotes notes -> inGrid p ->
  Game.ensureNotesInitialized notes (fst p) (snd p) = Game.Value notes.
Proof.
  intros Hn [Hr Hc]. destruct (wfNotes_row notes (fst p) Hn Hr) as (r & Er & Hl).
  unfold Game.ensureNotesInitialized. rewrite Er. simpl. rewrite Er.
  destruct (lookup_lt_is_Some_2 r (snd p)) as [ns Ens]; [lia |].
  by rewrite Ens.
Qed.

Lemma assign2_notes notes p ns :
  Game.wfNotes notes -> inGrid p ->
  Game.assign2 notes (fst p) (snd p) ns
  = Game.Value (alter (fun r => <[snd p := ns]> r) (fst p) notes).
Proof.
  intros Hn [Hr Hc]. destruct (wfNotes_row notes (fst p) Hn Hr) as (r & Er & Hl).
  apply (assign2_in notes (fst p) (snd p) ns r Er). lia.
Qed.

Lemma wfNotes_alter notes row col ns :
  Game.wfNotes notes ->
  Game.wfNotes (alter (fun r => <[col := ns]> r) row notes).
Proof.
  intros [Hl Hrows]. split; [by rewrite length_alter |].
  apply Forall_forall. intros r Hin.
  apply list_elem_of_lookup_1 in Hin as [i Hi].
  rewrite Forall_forall in Hrows.
  destruct (decide (row = i)) as [-> | Hne].
  - rewrite list_lookup_alter_eq in Hi.
    destruct (notes !! i) as [r0|] eqn:E; [| discriminate].
    injection Hi as <-. rewrite length_insert.
    apply Hrows. by apply list_elem_of_lookup_2 in E.
  - rewrite list_lookup_alter_ne in Hi by assumption.
    apply Hrows. by apply list_elem_of_lookup_2 in Hi.
Qed.

Lemma notesAt_alter_eq notes p ns :
  Game.wfNotes notes -> inGrid p ->
  Game.notesAt (alter (fun r => <[snd p := ns]> r) (fst p) notes) p = ns.
Proof.
  intros Hn [Hr Hc]. destruct (wfNotes_row notes (fst p) Hn Hr) as (r & Er & Hl).
  unfold Game.notesAt. rewrite list_lookup_alter_eq, Er. simpl.
  rewrite list_lookup_insert_eq by lia. reflexivity.
Qed.

Lemma notesAt_alter_ne notes p q ns :
  p <> q ->
  Game.notesAt (alter (fun r => <[snd p := ns]> r) (fst p) notes) q
  = Game.notesAt notes q.
Proof.
  intros Hne. unfold Game.notesAt.
  destruct (decide (fst p = fst q)) as [E | E].
  - rewrite E, list_lookup_alter_eq. destruct (notes !! fst q) as [r|]; [simpl | reflexivity].
    rewrite list_lookup_insert_ne; [reflexivity |].
    intros E'. apply Hne. destruct p, q; simpl in *; congruence.
  - by rewrite list_lookup_alter_ne.
Qed.

(** ** The stacks *)

Lemma pop_nil {A} : Game.pop (@nil A) = None.
Proof. reflexivity. Qed.

Lemma pop_snoc {A} (l : list A) a : Game.pop (l ++ [a]) = Some (a, l).
Proof.
  unfold Game.pop. rewrite last_snoc, length_app. simpl.
  replace (length l + 1 - 1)%nat with (length l) by lia.
  by rewrite take_app_length.
Qed.

Lemma stack_cases {A} (l : list A) : l = [] \/ exists l' a, l = l' ++ [a].
Proof.
  destruct (last l) as [a|] eqn:E.
  - right. apply last_Some in E as [l' ->]. eauto.
  - left. by apply last_None in E.
Qed.

Lemma orZero_Some v : Game.orZero (Some v) = v.
Proof. simpl. destruct (Z.eqb_spec v 0); congruence. Qed.

(** ** The invariant of a game in play *)

Lemma started_inPlay s : Game.started s -> Game.inPlay (Game.playerBoard s) s.
Proof.
  intros [Hp Hb Hs Hn Hg Hsel Hu Hr]. split; try assumption.
  - rewrite Hu, Hr. constructor.
  - rewrite Hu. reflexivity.
  - rewrite Hr. exact I.
Qed.

Lemma inPlay_withNotes o s notes' :
  Game.inPlay o s -> Game.wfNotes notes' -> Game.inPlay o (Game.withNotes s notes').
Proof. intros [Hp Hb Hs Hn Hg Hsel Ha Hh Hf] Hn'. by split. Qed.

Lemma inPlay_withMove o s b' notes' u' r' :
  Game.inPlay o s -> wfBoard b' -> Game.wfNotes notes' ->
  (forall p, inGrid p -> valueAt (Game.puzzle s) p <> 0 ->
             valueAt b' p = valueAt (Game.puzzle s) p) ->
  Forall (Game.onOpenCell (Game.puzzle s)) (u' ++ r') ->
  Game.history o b' (reverse u') -> Game.future b' (reverse r') ->
  Game.inPlay o (Game.withMove s b' notes' u' r').
Proof. intros [Hp Hb Hs Hn Hg Hsel Ha Hh Hf] ? ? ? ? ? ?. by split. Qed.

Lemma sameGame_refl s : Game.sameGame s s.
Proof. by repeat split. Qed.

Lemma sameGame_trans s1 s2 s3 :
  Game.sameGame s1 s2 -> Game.sameGame s2 s3 -> Game.sameGame s1 s3.
Proof. intros (? & ? & ?) (? & ? & ?). repeat split; congruence. Qed.

(** Writing at an open cell keeps the givens. *)
Lemma givens_setCell pz b p v :
  (forall q, inGrid q -> valueAt pz q <> 0 -> valueAt b q = valueAt pz q) ->
  valueAt pz p = 0 ->
  forall q, inGrid q -> valueAt pz q <> 0 ->
    valueAt (setCell b (fst p) (snd p) v) q = valueAt pz q.
Proof.
  intros Hg Hz q Hq Hnz. rewrite valueAt_setCell_ne; [by apply Hg |].
  destruct p. simpl. intros <-. contradiction.
Qed.

Lemma valueAt_setCell_at b p v :
  wfBoard b -> inGrid p -> valueAt (setCell b (fst p) (snd p) v) p = v.
Proof.
  intros Hwf Hp. destruct p as [r c].
  apply (valueAt_setCell_eq b r c v (valueAt b (r, c))).
  apply (wfBoard_cell b (r, c) Hwf Hp).
Qed.

(** A move that writes [redone a] over the value [undone a] at an open
    cell and pushes [a]. *)
Lemma inPlay_push o s a notes' :
  Game.inPlay o s -> Game.wfNotes notes' ->
  Game.onOpenCell (Game.puzzle s) a ->
  Game.undone a = valueAt (Game.playerBoard s) (Game.target a) ->
  Game.inPlay o
    (Game.withMove s
       (setCell (Game.playerBoard s) (fst (Game.target a)) (snd (Game.target a))
                (Game.redone a))
       notes' (Game.undoStack s ++ [a]) []).
Proof.
  intros Hin Hn' Ha Hold. pose proof Hin as [Hp Hb Hs Hn Hg Hsel Hact Hh Hf].
  destruct Ha as (Hat & Hz & Hsome).
  apply inPlay_withMove; try assumption.
  - by apply wfBoard_setCell.
  - by apply givens_setCell.
  - rewrite app_nil_r. apply Forall_app. split.
    + apply Forall_app in Hact. apply Hact.
    + constructor; [| constructor]. split; [assumption |]. by split.
  - rewrite reverse_snoc. cbn [Game.history]. split.
    + by apply valueAt_setCell_at.
    + rewrite Hold, setCell_back by assumption. exact Hh.
  - exact I.
Qed.

Lemma fillNumber_inPlay o s num :
  Game.inPlay o s ->
  exists s', Game.fillNumber num s = Game.Value s' /\
             Game.inPlay o s' /\ Game.sameGame s s' /\
             Game.isCompleted s' = Game.isCompleted s.
Proof.
  intros Hin. pose proof Hin as [Hp Hb Hs Hn Hg Hsel Hact Hh Hf].
  unfold Game.fillNumber.
  destruct (Game.selectedCell s) as [[row col]|] eqn:Esel;
    [| exists s; auto using sameGame_refl].
  specialize (Hsel _ eq_refl).
  destruct (Game.isPaused s || Game.isCompleted s);
    [exists s; auto using sameGame_refl |].
  pose proof (at2_wf (Game.puzzle s) (row, col) Hp Hsel) as E1.
  cbn [fst snd] in E1. rewrite E1. cbn [mbind Game.js_bind].
  case_bool_decide as Hgiven; cbn [negb];
    [| exists s; auto using sameGame_refl].
  injection Hgiven as Hgiven.
  pose proof (ensureNotesInitialized_wf (Game.notes s) (row, col) Hn Hsel) as E2.
  cbn [fst snd] in E2. rewrite E2. cbn [mbind Game.js_bind].
  destruct (Game.noteMode s).
  - destruct (wfNotes_row (Game.notes s) row Hn (proj1 Hsel)) as (r & Er & Hl).
    unfold Game.at2 at 1. rewrite Er. cbn [mbind Game.js_bind].
    destruct (lookup_lt_is_Some_2 r col) as [ns Ens]; [destruct Hsel; simpl in *; lia |].
    rewrite Ens.
    pose proof (assign2_notes (Game.notes s) (row, col)) as E3.
    cbn [fst snd] in E3. rewrite E3 by assumption. cbn [mbind Game.js_bind].
    eexists. split; [reflexivity |]. split; [| split; [by repeat split | reflexivity]].
    apply inPlay_withNotes; [assumption | by apply wfNotes_alter].
  - pose proof (at2_wf (Game.playerBoard s) (row, col) Hb Hsel) as E3.
    cbn [fst snd] in E3. rewrite E3. cbn [mbind Game.js_bind].
    pose proof (assign2_wf (Game.playerBoard s) (row, col) num Hb Hsel) as E4.
    cbn [fst snd] in E4. rewrite E4. cbn [mbind Game.js_bind].
    pose proof (assign2_notes (Game.notes s) (row, col) [] Hn Hsel) as E5.
    cbn [fst snd] in E5. rewrite E5. cbn [mbind Game.js_bind].
    eexists. split; [reflexivity |]. split; [| split; [by repeat split | reflexivity]].
    apply (inPlay_push o s
             (Game.Fill row col (Some (valueAt (Game.playerBoard s) (row, col))) num)).
    + assumption.
    + by apply wfNotes_alter.
    + split; [assumption |]. split; [assumption | by eexists].
    + cbn [Game.undone Game.target]. apply orZero_Some.
Qed.

Lemma deleteNumber_inPlay o s :
  Game.inPlay o s ->
  exists s', Game.deleteNumber s = Game.Value s' /\
             Game.inPlay o s' /\ Game.sameGame s s' /\
             Game.isCompleted s' = Game.isCompleted s.
Proof.
  intros Hin. pose proof Hin as [Hp Hb Hs Hn Hg Hsel Hact Hh Hf].
  unfold Game.deleteNumber.
  destruct (Game.selectedCell s) as [[row col]|] eqn:Esel;
    [| exists s; auto using sameGame_refl].
  specialize (Hsel _ eq_refl).
  destruct (Game.isPaused s || Game.isCompleted s);
    [exists s; auto using sameGame_refl |].
  pose proof (at2_wf (Game.puzzle s) (row, col) Hp Hsel) as E1.
  cbn [fst snd] in E1. rewrite E1. cbn [mbind Game.js_bind].
  case_bool_decide as Hgiven; cbn [negb];
    [| exists s; auto using sameGame_refl].
  injection Hgiven as Hgiven.
  pose proof (ensureNotesInitialized_wf (Game.notes s) (row, col) Hn Hsel) as E2.
  cbn [fst snd] in E2. rewrite E2. cbn [mbind Game.js_bind].
  pose proof (at2_wf (Game.playerBoard s) (row, col) Hb Hsel) as E3.
  cbn [fst snd] in E3. rewrite E3. cbn [mbind Game.js_bind].
  case_bool_decide as Hcur.
  { eexists. split; [reflexivity |]. split; [| split; [by repeat split | reflexivity]].
    by apply inPlay_withNotes. }
  destruct (Game.noteMode s).
  - pose proof (assign2_notes (Game.notes s) (row, col) [] Hn Hsel) as E5.
    cbn [fst snd] in E5. rewrite E5. cbn [mbind Game.js_bind].
    eexists. split; [reflexivity |]. split; [| split; [by repeat split | reflexivity]].
    apply inPlay_withNotes; [assumption | by apply wfNotes_alter].
  - pose proof (assign2_wf (Game.playerBoard s) (row, col) 0 Hb Hsel) as E4.
    cbn [fst snd] in E4. rewrite E4. cbn [mbind Game.js_bind].
    eexists. split; [reflexivity |]. split; [| split; [by repeat split | reflexivity]].
    apply (inPlay_push o s
             (Game.Delete row col (Some (valueAt (Game.playerBoard s) (row, col))))).
    + assumption.
    + assumption.
    + split; [assumption |]. split; [assumption | by eexists].
    + cbn [Game.undone Game.target]. apply orZero_Some.
Qed.

Lemma undo_inPlay o s :
  Game.inPlay o s ->
  exists s', Game.undo s = Game.Value s' /\
             Game.inPlay o s' /\ Game.sameGame s s' /\
             Game.isCompleted s' = Game.isCompleted s.
Proof.
  intros Hin. pose proof Hin as [Hp Hb Hs Hn Hg Hsel Hact Hh Hf].
  unfold Game.undo.
  destruct (stack_cases (Game.undoStack s)) as [E | (older & a & E)]; rewrite E.
  { rewrite pop_nil. exists s. auto using sameGame_refl. }
  rewrite pop_snoc. rewrite E in Hact, Hh.
  assert (Ha : Game.onOpenCell (Game.puzzle s) a).
  { rewrite Forall_app, Forall_app in Hact.
    destruct Hact as [[_ Ha] _]. by apply Forall_inv in Ha. }
  destruct Ha as (Hat & Hz & Hsome).
  destruct (Game.target a) as [row col] eqn:Et.
  pose proof (ensureNotesInitialized_wf (Game.notes s) (row, col) Hn Hat) as E2.
  cbn [fst snd] in E2. rewrite E2. cbn [mbind Game.js_bind].
  pose proof (assign2_wf (Game.playerBoard s) (row, col) (Game.undone a) Hb Hat) as E4.
  cbn [fst snd] in E4. rewrite E4. cbn [mbind Game.js_bind].
  eexists. split; [reflexivity |]. split; [| split; [by repeat split | reflexivity]].
  rewrite reverse_snoc in Hh. cbn [Game.history] in Hh. rewrite Et in Hh.
  destruct Hh as [Hval Hh]. cbn [fst snd] in Hh.
  apply inPlay_withMove; try assumption.
  - by apply wfBoard_setCell.
  - by apply (givens_setCell (Game.puzzle s) (Game.playerBoard s) (row, col)).
  - rewrite Forall_app, Forall_app in Hact. destruct Hact as [[Ho Ha] Hr].
    rewrite Forall_app, Forall_app. auto.
  - rewrite reverse_snoc. cbn [Game.future]. rewrite Et. cbn [fst snd]. split.
    + by apply (valueAt_setCell_at (Game.playerBoard s) (row, col)).
    + rewrite setCell_setCell, setCell_same; [assumption |].
      rewrite <- Hval. by apply (wfBoard_cell (Game.playerBoard s) (row, col)).
Qed.

Lemma redo_inPlay o s :
  Game.inPlay o s ->
  exists s', Game.redo s = Game.Value s' /\
             Game.inPlay o s' /\ Game.sameGame s s' /\
             Game.isCompleted s' = Game.isCompleted s.
Proof.
  intros Hin. pose proof Hin as [Hp Hb Hs Hn Hg Hsel Hact Hh Hf].
  unfold Game.redo.
  destruct (stack_cases (Game.redoStack s)) as [E | (older & a & E)]; rewrite E.
  { rewrite pop_nil. exists s. auto using sameGame_refl. }
  rewrite pop_snoc. rewrite E in Hact, Hf.
  assert (Ha : Game.onOpenCell (Game.puzzle s) a).
  { rewrite Forall_app, Forall_app in Hact.
    destruct Hact as [_ [_ Ha]]. by apply Forall_inv in Ha. }
  pose proof Ha as (Hat & Hz & Hsome).
  destruct (Game.target a) as [row col] eqn:Et.
  pose proof (ensureNotesInitialized_wf (Game.notes s) (row, col) Hn Hat) as E2.
  cbn [fst snd] in E2. rewrite E2. cbn [mbind Game.js_bind].
  pose proof (assign2_wf (Game.playerBoard s) (row, col) (Game.redone a) Hb Hat) as E4.
  cbn [fst snd] in E4. rewrite E4. cbn [mbind Game.js_bind].
  eexists. split; [reflexivity |]. split; [| split; [by repeat split | reflexivity]].
  rewrite reverse_snoc in Hf. cbn [Game.future] in Hf. rewrite Et in Hf.
  destruct Hf as [Hval Hf]. cbn [fst snd] in Hf.
  apply inPlay_withMove; try assumption.
  - by apply wfBoard_setCell.
  - by apply (givens_setCell (Game.puzzle s) (Game.playerBoard s) (row, col)).
  - rewrite Forall_app, Forall_app in Hact. destruct Hact as [Hu [Ho _]].
    rewrite Forall_app, Forall_app. repeat split; try assumption.
    by constructor.
  - rewrite reverse_snoc. cbn [Game.history]. rewrite Et. cbn [fst snd]. split.
    + by apply (valueAt_setCell_at (Game.playerBoard s) (row, col)).
    + rewrite setCell_setCell, setCell_same; [assumption |].
      rewrite <- Hval. by apply (wfBoard_cell (Game.playerBoard s) (row, col)).
Qed.

Lemma Forall_inGrid_positions : Forall inGrid positions.
Proof. apply Forall_forall. intros p Hp. apply in_positions. by apply list_elem_of_In. Qed.

Lemma emptyCells_wf b ps :
  wfBoard b -> Forall inGrid ps ->
  Game.emptyCells b ps = Game.Value (filter (fun p => valueAt b p = 0) ps).
Proof.
  intros Hwf. induction 1 as [|[row col] ps Hp _ IH]; [reflexivity |].
  cbn [Game.emptyCells].
  pose proof (at2_wf b (row, col) Hwf Hp) as E. cbn [fst snd] in E.
  rewrite E, IH. cbn [mbind Game.js_bind]. f_equal.
  rewrite filter_cons. case_bool_decide as Hd.
  - injection Hd as Hd. by rewrite decide_True.
  - rewrite decide_False; [reflexivity |]. intros Hz. apply Hd. by rewrite Hz.
Qed.

Lemma hint_inPlay src o s k :
  Game.inPlay o s ->
  exists r s' k', Game.hint src s k = Game.Value (r, s', k') /\
                  Game.inPlay o s' /\ Game.sameGame s s' /\
                  Game.isCompleted s' = Game.isCompleted s /\
                  (k <= k' <= k + 1)%nat.
Proof.
  intros Hin. pose proof Hin as [Hp Hb Hs Hn Hg Hsel Hact Hh Hf].
  unfold Game.hint.
  destruct (Game.isPaused s || Game.isCompleted s);
    [exists None, s, k; split; [reflexivity |]; split; [assumption |];
     split; [apply sameGame_refl |]; split; [reflexivity | lia] |].
  rewrite (emptyCells_wf _ _ Hb Forall_inGrid_positions).
  cbn [mbind Game.js_bind].
  set (cells := filter (fun p => valueAt (Game.playerBoard s) p = 0) positions).
  destruct (length cells =? 0)%nat eqn:El;
    [exists None, s, k; split; [reflexivity |]; split; [assumption |];
     split; [apply sameGame_refl |]; split; [reflexivity | lia] |].
  apply Nat.eqb_neq in El.
  destruct (lookup_lt_is_Some_2 cells (randomBelow src k (length cells)))
    as [[row col] Ec].
  { unfold randomBelow. by apply Nat.mod_upper_bound. }
  rewrite Ec.
  assert (Hcell : (row, col) ∈ cells) by (by apply list_elem_of_lookup_2 in Ec).
  apply list_elem_of_filter in Hcell as [Hz Hpos].
  assert (Hat : inGrid (row, col)).
  { apply in_positions. by apply list_elem_of_In. }
  pose proof (ensureNotesInitialized_wf (Game.notes s) (row, col) Hn Hat) as E2.
  cbn [fst snd] in E2. rewrite E2. cbn [mbind Game.js_bind].
  pose proof (at2_wf (Game.solution s) (row, col) Hs Hat) as E3.
  cbn [fst snd] in E3. rewrite E3. cbn [mbind Game.js_bind].
  pose proof (assign2_wf (Game.playerBoard s) (row, col)
                (valueAt (Game.solution s) (row, col)) Hb Hat) as E4.
  cbn [fst snd] in E4. rewrite E4. cbn [mbind Game.js_bind].
  pose proof (assign2_notes (Game.notes s) (row, col) [] Hn Hat) as E5.
  cbn [fst snd] in E5. rewrite E5. cbn [mbind Game.js_bind].
  eexists _, _, _. split; [reflexivity |].
  split; [| split; [by repeat split | split; [reflexivity | lia]]].
  apply (inPlay_push o s
           (Game.Fill row col (Some 0) (valueAt (Game.solution s) (row, col)))).
  - assumption.
  - by apply wfNotes_alter.
  - split; [assumption |]. split; [| by eexists].
    cbn [Game.target].
    destruct (Z.eq_dec (valueAt (Game.puzzle s) (row, col)) 0) as [E | E];
      [assumption |].
    rewrite <- (Hg (row, col) Hat E). assumption.
  - cbn [Game.undone Game.target]. by rewrite Hz.
Qed.

Lemma someZero_wf b ps :
  wfBoard b -> Forall inGrid ps ->
  Game.someZero b ps
  = Game.Value (bool_decide (Exists (fun p => valueAt b p = 0) ps)).
Proof.
  intros Hwf. induction 1 as [|[row col] ps Hp _ IH].
  - cbn [Game.someZero].
    rewrite bool_decide_eq_false_2; [reflexivity | by intros H%Exists_nil].
  - cbn [Game.someZero].
    pose proof (at2_wf b (row, col) Hwf Hp) as E. cbn [fst snd] in E.
    rewrite E. cbn [mbind Game.js_bind].
    destruct (decide (valueAt b (row, col) = 0)) as [Hz | Hz].
    + rewrite (bool_decide_eq_true_2 (Some (valueAt b (row, col)) = Some 0))
        by (by rewrite Hz).
      f_equal. symmetry. apply bool_decide_eq_true. by left.
    + rewrite (bool_decide_eq_false_2 (Some (valueAt b (row, col)) = Some 0))
        by congruence.
      rewrite IH. f_equal. apply bool_decide_ext. rewrite Exists_cons.
      split; [auto |]. intros [Hz' | ?]; [contradiction | assumption].
Qed.

(** [checkAnswer] on 9x9 boards: the cells that hold a number other than
    the solution's, in the order of the rows. *)
Lemma checkCells_wf b sol ps :
  wfBoard b -> wfBoard sol -> Forall inGrid ps ->
  forall result,
    Game.checkCells b sol ps result
    = Game.Value
        (let wrong := filter (fun p => valueAt b p <> 0 /\
                                       valueAt b p <> valueAt sol p) ps in
         Game.mkCheck (Game.isCorrect result && bool_decide (wrong = []))
                      (Game.errorCells result ++ wrong)).
Proof.
  intros Hb Hs. induction 1 as [|[row col] ps Hp _ IH]; intros result.
  - cbn [Game.checkCells]. cbv zeta. rewrite filter_nil, app_nil_r.
    rewrite bool_decide_eq_true_2 by reflexivity. rewrite andb_true_r.
    by destruct result.
  - cbn [Game.checkCells].
    pose proof (at2_wf b (row, col) Hb Hp) as E1. cbn [fst snd] in E1.
    pose proof (at2_wf sol (row, col) Hs Hp) as E2. cbn [fst snd] in E2.
    rewrite E1, E2. cbn [mbind Game.js_bind]. cbv zeta. rewrite filter_cons.
    destruct (decide (valueAt b (row, col) <> 0 /\
                      valueAt b (row, col) <> valueAt sol (row, col)))
      as [[H1 H2] | Hno].
    + rewrite (bool_decide_eq_false_2 (Some (valueAt b (row, col)) = Some 0))
        by congruence.
      rewrite (bool_decide_eq_false_2 (Some (valueAt b (row, col))
                                       = Some (valueAt sol (row, col))))
        by congruence.
      cbn [negb andb]. rewrite IH. cbv zeta. cbn [Game.isCorrect Game.errorCells].
      f_equal. rewrite andb_false_r. rewrite <- app_assoc. reflexivity.
    + assert (Hb' : negb (bool_decide (Some (valueAt b (row, col)) = Some 0))
                    && negb (bool_decide (Some (valueAt b (row, col))
                                          = Some (valueAt sol (row, col))))
                    = false).
      { apply andb_false_iff.
        destruct (Z.eq_dec (valueAt b (row, col)) 0) as [Ez | Ez].
        - left. apply negb_false_iff, bool_decide_eq_true. by rewrite Ez.
        - right. apply negb_false_iff, bool_decide_eq_true. f_equal.
          destruct (Z.eq_dec (valueAt b (row, col)) (valueAt sol (row, col)));
            [assumption | exfalso; by apply Hno]. }
      rewrite Hb'. apply IH.
Qed.

Lemma checkCompletion_inPlay o s :
  Game.inPlay o s ->
  exists r s', Game.checkCompletion s = Game.Value (r, s') /\
               Game.inPlay o s' /\ Game.sameGame s s'.
Proof.
  intros Hin. pose proof Hin as [Hp Hb Hs Hn Hg Hsel Hact Hh Hf].
  unfold Game.checkCompletion, Game.checkAnswer.
  rewrite (someZero_wf _ _ Hb Forall_inGrid_positions).
  cbn [mbind Game.js_bind].
  destruct (bool_decide _);
    [exists false, s; auto using sameGame_refl |].
  rewrite (checkCells_wf _ _ _ Hb Hs Forall_inGrid_positions).
  cbn [mbind Game.js_bind]. cbv zeta.
  destruct (Game.isCorrect _);
    [| exists false, s; auto using sameGame_refl].
  exists true, (Game.markAsCompleted s). split; [reflexivity |].
  split; [by split | by repeat split].
Qed.

(** Every call keeps the invariant. *)
Lemma perform_inPlay src o c s k :
  Game.inPlay o s -> Game.inGridCall c ->
  exists s' k', Game.perform src c (s, k) = Game.Value (s', k') /\
                Game.inPlay o s' /\ Game.sameGame s s' /\
                (k <= k' <= k + 1)%nat /\
                (Game.plainCall c = true ->
                 Game.isCompleted s' = Game.isCompleted s).
Proof.
  intros Hin Hc. pose proof Hin as [Hp Hb Hs Hn Hg Hsel Hact Hh Hf].
  destruct c; cbn [Game.perform Game.inGridCall] in *.
  - exists (Game.selectCell row col s), k. split; [reflexivity |].
    unfold Game.selectCell.
    destruct (Game.isPaused s || Game.isCompleted s);
      (split; [| split; [by repeat split | split; [lia | reflexivity]]]);
      [assumption |].
    split; try assumption. cbn [Game.selectedCell]. by intros p [= <-].
  - exists (Game.deselectCell s), k. split; [reflexivity |].
    split; [| split; [by repeat split | split; [lia | reflexivity]]].
    by split.
  - destruct (fillNumber_inPlay o s num Hin) as (s' & E & ? & ? & ?).
    exists s', k. rewrite E. split; [reflexivity |].
    split; [assumption |]. split; [assumption |]. split; [lia | auto].
  - destruct (deleteNumber_inPlay o s Hin) as (s' & E & ? & ? & ?).
    exists s', k. rewrite E. split; [reflexivity |].
    split; [assumption |]. split; [assumption |]. split; [lia | auto].
  - exists (Game.toggleNoteMode s), k. split; [reflexivity |].
    split; [| split; [by repeat split | split; [lia | reflexivity]]].
    by split.
  - destruct (undo_inPlay o s Hin) as (s' & E & ? & ? & ?).
    exists s', k. rewrite E. split; [reflexivity |].
    split; [assumption |]. split; [assumption |]. split; [lia | auto].
  - destruct (redo_inPlay o s Hin) as (s' & E & ? & ? & ?).
    exists s', k. rewrite E. split; [reflexivity |].
    split; [assumption |]. split; [assumption |]. split; [lia | auto].
  - destruct (hint_inPlay src o s k Hin) as (r & s' & k' & E & ? & ? & ? & ?).
    exists s', k'. rewrite E. split; [reflexivity |].
    split; [assumption |]. split; [assumption |]. split; [lia | auto].
  - exists (Game.togglePause s), k. split; [reflexivity |].
    split; [| split; [by repeat split | split; [lia | reflexivity]]].
    by split.
  - destruct (checkCompletion_inPlay o s Hin) as (r & s' & E & ? & ?).
    exists s', k. rewrite E. split; [reflexivity |].
    split; [assumption |]. split; [assumption |]. split; [lia | discriminate].
  - exists (Game.markAsCompleted s), k. split; [reflexivity |].
    split; [| split; [by repeat split | split; [lia | discriminate]]].
    by split.
Qed.

Lemma session_inPlay src o calls : forall s k,
  Game.inPlay o s -> Forall Game.inGridCall calls ->
  exists s' k', Game.session src calls (s, k) = Game.Value (s', k') /\
                Game.inPlay o s' /\ Game.sameGame s s' /\
                (k <= k' <= k + length calls)%nat /\
                (forallb Game.plainCall calls = true ->
                 Game.isCompleted s' = Game.isCompleted s).
Proof.
  induction calls as [|c calls IH]; intros s k Hin Hcalls.
  - exists s, k. split; [reflexivity |]. split; [assumption |].
    split; [apply sameGame_refl |]. split; [simpl; lia | reflexivity].
  - apply Forall_cons in Hcalls as [Hc Hcalls].
    destruct (perform_inPlay src o c s k Hin Hc)
      as (s1 & k1 & E1 & Hin1 & Hsame1 & Hk1 & Hcompl1).
    destruct (IH s1 k1 Hin1 Hcalls) as (s' & k' & E & Hin' & Hsame & Hk & Hcompl).
    exists s', k'. cbn [Game.session]. rewrite E1. cbn [mbind Game.js_bind].
    split; [exact E |]. split; [assumption |].
    split; [by apply (sameGame_trans s s1 s') |].
    split; [simpl; lia |].
    cbn [forallb]. intros [H1 H2]%andb_true_iff.
    rewrite (Hcompl H2). by apply Hcompl1.
Qed.

(** * The game: the moves and their inverses *)

Lemma wfBoard_sampleGrid : wfBoard sampleGrid.
Proof. split; [reflexivity |]. repeat constructor. Qed.

Lemma wfBoard_samplePuzzle : wfBoard samplePuzzle.
Proof. unfold samplePuzzle. repeat apply wfBoard_setCell. apply wfBoard_sampleGrid. Qed.

Lemma wfNotes_emptyNotes : Game.wfNotes Game.emptyNotes.
Proof. split; [reflexivity |]. repeat constructor. Qed.

Lemma started_sampleGame : Game.started sampleGame.
Proof.
  split; cbn [sampleGame Game.puzzle Game.playerBoard Game.solution Game.notes
              Game.selectedCell Game.undoStack Game.redoStack].
  - apply wfBoard_samplePuzzle.
  - apply wfBoard_samplePuzzle.
  - apply wfBoard_sampleGrid.
  - apply wfNotes_emptyNotes.
  - reflexivity.
  - discriminate.
  - reflexivity.
  - reflexivity.
Qed.

(** X10: in a game that starts with 9x9 boards, the player board holding
    every given of the puzzle, and empty stacks, no sequence of calls on
    cells of the grid throws.  The calls leave the puzzle, the solution
    and the difficulty as they are, keep the player board 9x9 and never
    change a given; the state stays in play; each call draws at most one
    random number. *)
Theorem session_safe src calls s k :
  Game.started s -> Forall Game.inGridCall calls ->
  exists s' k',
    Game.session src calls (s, k) = Game.Value (s', k') /\
    Game.puzzle s' = Game.puzzle s /\ Game.solution s' = Game.solution s /\
    Game.difficulty s' = Game.difficulty s /\
    wfBoard (Game.playerBoard s') /\
    (forall p, inGrid p -> valueAt (Game.puzzle s) p <> 0 ->
               valueAt (Game.playerBoard s') p = valueAt (Game.puzzle s) p) /\
    Game.inPlay (Game.playerBoard s) s' /\
    (k <= k' <= k + length calls)%nat.
Proof.
  intros Hs Hcalls.
  destruct (session_inPlay src (Game.playerBoard s) calls s k
              (started_inPlay s Hs) Hcalls)
    as (s' & k' & E & Hin & (Ep & Es & Ed) & Hk & _).
  exists s', k'. split; [assumption |].
  split; [assumption |]. split; [assumption |]. split; [assumption |].
  split; [apply Hin |]. split; [| auto].
  intros p Hp Hnz. rewrite <- Ep in *. by apply (Game.inPlay_givens _ _ Hin).
Qed.

Lemma session_safe_witness :
  exists s' k',
    Game.session sampleSource
      [Game.SelectCell 0 0; Game.FillNumber 7; Game.Hint; Game.Undo;
       Game.SelectCell 0 2; Game.FillNumber 1; Game.DeleteNumber;
       Game.CheckCompletion; Game.Redo]
      (sampleGame, 0%nat) = Game.Value (s', k') /\
    Game.puzzle s' = Game.puzzle sampleGame /\
    Game.solution s' = Game.solution sampleGame /\
    Game.difficulty s' = Game.difficulty sampleGame /\
    wfBoard (Game.playerBoard s') /\
    (forall p, inGrid p -> valueAt (Game.puzzle sampleGame) p <> 0 ->
               valueAt (Game.playerBoard s') p
               = valueAt (Game.puzzle sampleGame) p) /\
    Game.inPlay (Game.playerBoard sampleGame) s' /\
    (0 <= k' <= 0 + 9)%nat.
Proof.
  apply (session_safe sampleSource
           [Game.SelectCell 0 0; Game.FillNumber 7; Game.Hint; Game.Undo;
            Game.SelectCell 0 2; Game.FillNumber 1; Game.DeleteNumber;
            Game.CheckCompletion; Game.Redo] sampleGame 0 started_sampleGame).
  repeat (apply List.Forall_cons; [first [exact I | split; simpl; lia] |]).
  apply List.Forall_nil.
Defined.

(** ** Undo and redo *)

Lemma undo_exact o s older a :
  Game.inPlay o s -> Game.undoStack s = older ++ [a] ->
  Game.undo s
  = Game.Value
      (Game.withMove s
         (setCell (Game.playerBoard s) (fst (Game.target a)) (snd (Game.target a))
                  (Game.undone a))
         (Game.notes s) older (Game.redoStack s ++ [a])).
Proof.
  intros [Hp Hb Hs Hn Hg Hsel Hact Hh Hf] E. unfold Game.undo.
  rewrite E, pop_snoc. rewrite E in Hact.
  assert (Ha : Game.onOpenCell (Game.puzzle s) a).
  { rewrite Forall_app, Forall_app in Hact.
    destruct Hact as [[_ Ha] _]. by apply Forall_inv in Ha. }
  destruct Ha as (Hat & _ & _).
  destruct (Game.target a) as [row col] eqn:Et.
  pose proof (ensureNotesInitialized_wf (Game.notes s) (row, col) Hn Hat) as E2.
  cbn [fst snd] in E2. rewrite E2. cbn [mbind Game.js_bind].
  pose proof (assign2_wf (Game.playerBoard s) (row, col) (Game.undone a) Hb Hat) as E4.
  cbn [fst snd] in E4. rewrite E4. reflexivity.
Qed.

Lemma redo_exact o s older a :
  Game.inPlay o s -> Game.redoStack s = older ++ [a] ->
  Game.redo s
  = Game.Value
      (Game.withMove s
         (setCell (Game.playerBoard s) (fst (Game.target a)) (snd (Game.target a))
                  (Game.redone a))
         (Game.notes s) (Game.undoStack s ++ [a]) older).
Proof.
  intros [Hp Hb Hs Hn Hg Hsel Hact Hh Hf] E. unfold Game.redo.
  rewrite E, pop_snoc. rewrite E in Hact.
  assert (Ha : Game.onOpenCell (Game.puzzle s) a).
  { rewrite Forall_app, Forall_app in Hact.
    destruct Hact as [_ [_ Ha]]. by apply Forall_inv in Ha. }
  destruct Ha as (Hat & _ & _).
  destruct (Game.target a) as [row col] eqn:Et.
  pose proof (ensureNotesInitialized_wf (Game.notes s) (row, col) Hn Hat) as E2.
  cbn [fst snd] in E2. rewrite E2. cbn [mbind Game.js_bind].
  pose proof (assign2_wf (Game.playerBoard s) (row, col) (Game.redone a) Hb Hat) as E4.
  cbn [fst snd] in E4. rewrite E4. reflexivity.
Qed.

Lemma withMove_id s b notes' u r :
  b = Game.playerBoard s -> notes' = Game.notes s ->
  u = Game.undoStack s -> r = Game.redoStack s ->
  Game.withMove s b notes' u r = s.
Proof. intros -> -> -> ->. by destruct s. Qed.

(** X11: in a game in play, when the undo stack is not empty, [undo]
    followed by [redo] gives back the very state (board, notes, stacks and
    flags); and when the redo stack is not empty, so does [redo] followed
    by [undo]. *)
Theorem undo_redo_inverse o s :
  Game.inPlay o s ->
  (Game.undoStack s <> [] ->
   exists s', Game.undo s = Game.Value s' /\ Game.redo s' = Game.Value s) /\
  (Game.redoStack s <> [] ->
   exists s', Game.redo s = Game.Value s' /\ Game.undo s' = Game.Value s).
Proof.
  intros Hin. pose proof Hin as [Hp Hb Hs Hn Hg Hsel Hact Hh Hf]. split.
  - intros Hne.
    destruct (stack_cases (Game.undoStack s)) as [E | (older & a & E)];
      [contradiction |].
    destruct (undo_inPlay o s Hin) as (s' & E1 & Hin' & _).
    pose proof (undo_exact o s older a Hin E) as E2.
    rewrite E1 in E2. injection E2 as E2.
    exists s'. split; [assumption |].
    rewrite (redo_exact o s' (Game.redoStack s) a Hin') by (rewrite E2; reflexivity).
    f_equal. rewrite E2. unfold Game.withMove.
    cbn [Game.playerBoard Game.notes Game.undoStack Game.redoStack Game.puzzle
         Game.solution Game.difficulty Game.isPaused Game.isCompleted
         Game.noteMode Game.selectedCell].
    rewrite E in Hh. rewrite reverse_snoc in Hh. destruct Hh as [Hval _].
    rewrite setCell_setCell.
    rewrite (setCell_same (Game.playerBoard s) _ _ (Game.redone a)).
    + rewrite <- E. by destruct s.
    + rewrite <- Hval. apply (wfBoard_cell _ (Game.target a) Hb).
      rewrite E in Hact. rewrite Forall_app, Forall_app in Hact.
      destruct Hact as [[_ Ha] _]. apply Forall_inv in Ha. apply Ha.
  - intros Hne.
    destruct (stack_cases (Game.redoStack s)) as [E | (older & a & E)];
      [contradiction |].
    destruct (redo_inPlay o s Hin) as (s' & E1 & Hin' & _).
    pose proof (redo_exact o s older a Hin E) as E2.
    rewrite E1 in E2. injection E2 as E2.
    exists s'. split; [assumption |].
    rewrite (undo_exact o s' (Game.undoStack s) a Hin') by (rewrite E2; reflexivity).
    f_equal. rewrite E2. unfold Game.withMove.
    cbn [Game.playerBoard Game.notes Game.undoStack Game.redoStack Game.puzzle
         Game.solution Game.difficulty Game.isPaused Game.isCompleted
         Game.noteMode Game.selectedCell].
    rewrite E in Hf. rewrite reverse_snoc in Hf. destruct Hf as [Hval _].
    rewrite setCell_setCell.
    rewrite (setCell_same (Game.playerBoard s) _ _ (Game.undone a)).
    + rewrite <- E. by destruct s.
    + rewrite <- Hval. apply (wfBoard_cell _ (Game.target a) Hb).
      rewrite E in Hact. rewrite Forall_app, Forall_app in Hact.
      destruct Hact as [_ [_ Ha]]. apply Forall_inv in Ha. apply Ha.
Qed.

(** The state after the sample moves is in play. *)
Lemma inGridCall_sampleCalls : Forall Game.inGridCall sampleCalls.
Proof.
  unfold sampleCalls.
  repeat (apply List.Forall_cons; [first [exact I | split; simpl; lia] |]).
  apply List.Forall_nil.
Qed.

Lemma sampleSession_inPlay :
  exists s k,
    Game.session sampleSource sampleCalls (sampleGame, 0%nat) = Game.Value (s, k) /\
    Game.inPlay samplePuzzle s.
Proof.
  destruct (session_inPlay sampleSource samplePuzzle sampleCalls sampleGame 0
              (started_inPlay _ started_sampleGame) inGridCall_sampleCalls)
    as (s & k & E & Hin & _).
  exists s, k. split; assumption.
Qed.

Lemma undo_redo_inverse_witness :
  exists s k,
    Game.session sampleSource sampleCalls (sampleGame, 0%nat) = Game.Value (s, k) /\
    Game.inPlay samplePuzzle s /\
    (Game.undoStack s <> [] ->
     exists s', Game.undo s = Game.Value s' /\ Game.redo s' = Game.Value s) /\
    (Game.redoStack s <> [] ->
     exists s', Game.redo s = Game.Value s' /\ Game.undo s' = Game.Value s).
Proof.
  destruct sampleSession_inPlay as (s & k & E & Hin).
  exists s, k. split; [exact E |]. split; [exact Hin |].
  exact (undo_redo_inverse samplePuzzle s Hin).
Defined.

Lemma undoTimes_inPlay o n : forall s,
  Game.inPlay o s -> length (Game.undoStack s) = n ->
  exists s', Game.undoTimes n s = Game.Value s' /\ Game.inPlay o s' /\
             Game.undoStack s' = [] /\ Game.sameGame s s' /\
             length (Game.redoStack s') = (length (Game.redoStack s) + n)%nat.
Proof.
  induction n as [|n IH]; intros s Hin Hl.
  - exists s. split; [reflexivity |]. split; [assumption |].
    split; [by apply nil_length_inv |]. split; [apply sameGame_refl | lia].
  - destruct (stack_cases (Game.undoStack s)) as [E | (older & a & E)];
      [rewrite E in Hl; discriminate |].
    destruct (undo_inPlay o s Hin) as (s1 & E1 & Hin1 & Hsame1 & _).
    pose proof (undo_exact o s older a Hin E) as E2.
    rewrite E1 in E2. injection E2 as E2.
    destruct (IH s1 Hin1) as (s' & Er & Hin' & Hu & Hsame & Hlen).
    { rewrite E2. cbn [Game.withMove Game.undoStack].
      rewrite E, length_app in Hl. simpl in Hl. lia. }
    exists s'. cbn [Game.undoTimes]. rewrite E1. cbn [mbind Game.js_bind].
    split; [assumption |]. split; [assumption |]. split; [assumption |].
    split; [by apply (sameGame_trans s s1 s') |].
    rewrite Hlen, E2. cbn [Game.withMove Game.redoStack].
    rewrite length_app. simpl. lia.
Qed.

(** X12: in a game in play that began with the player board [origin],
    calling [undo] as many times as the undo stack is long gives back
    [origin] and empties the undo stack; every action taken back is then
    on the redo stack. *)
Theorem undoTimes_restores origin s :
  Game.inPlay origin s ->
  exists s',
    Game.undoTimes (length (Game.undoStack s)) s = Game.Value s' /\
    Game.playerBoard s' = origin /\ Game.undoStack s' = [] /\
    length (Game.redoStack s')
    = (length (Game.redoStack s) + length (Game.undoStack s))%nat /\
    Game.puzzle s' = Game.puzzle s /\ Game.solution s' = Game.solution s.
Proof.
  intros Hin.
  destruct (undoTimes_inPlay origin _ s Hin eq_refl)
    as (s' & E & Hin' & Hu & (Ep & Es & _) & Hl).
  exists s'. split; [assumption |].
  pose proof (Game.inPlay_history _ _ Hin') as Hh. rewrite Hu in Hh.
  split; [exact Hh |]. auto.
Qed.

Lemma undoTimes_restores_witness :
  exists s k,
    Game.session sampleSource sampleCalls (sampleGame, 0%nat) = Game.Value (s, k) /\
    Game.inPlay samplePuzzle s /\
    exists s',
      Game.undoTimes (length (Game.undoStack s)) s = Game.Value s' /\
      Game.playerBoard s' = samplePuzzle /\ Game.undoStack s' = [] /\
      length (Game.redoStack s')
      = (length (Game.redoStack s) + length (Game.undoStack s))%nat /\
      Game.puzzle s' = Game.puzzle s /\ Game.solution s' = Game.solution s.
Proof.
  destruct sampleSession_inPlay as (s & k & E & Hin).
  exists s, k. split; [exact E |]. split; [exact Hin |].
  exact (undoTimes_restores samplePuzzle s Hin).
Defined.

(** ** Filling a cell *)

Lemma fillNumber_plain o s p num :
  Game.inPlay o s -> Game.selectedCell s = Some p ->
  Game.isPaused s = false -> Game.isCompleted s = false ->
  valueAt (Game.puzzle s) p = 0 -> Game.noteMode s = false ->
  Game.fillNumber num s
  = Game.Value
      (Game.withMove s
         (setCell (Game.playerBoard s) (fst p) (snd p) num)
         (alter (fun r => <[snd p := []]> r) (fst p) (Game.notes s))
         (Game.undoStack s
          ++ [Game.Fill (fst p) (snd p) (Some (valueAt (Game.playerBoard s) p)) num])
         []).
Proof.
  intros [Hp Hb Hs Hn Hg Hsel Hact Hh Hf] Esel Epause Ecompl Hz Enote.
  unfold Game.fillNumber. rewrite Esel, Epause, Ecompl, Enote.
  specialize (Hsel _ Esel). destruct p as [row col]. cbn [orb fst snd].
  pose proof (at2_wf (Game.puzzle s) (row, col) Hp Hsel) as E1.
  cbn [fst snd] in E1. rewrite E1, Hz. cbn [mbind Game.js_bind].
  rewrite bool_decide_eq_true_2 by reflexivity. cbn [negb].
  pose proof (ensureNotesInitialized_wf (Game.notes s) (row, col) Hn Hsel) as E2.
  cbn [fst snd] in E2. rewrite E2. cbn [mbind Game.js_bind].
  pose proof (at2_wf (Game.playerBoard s) (row, col) Hb Hsel) as E3.
  cbn [fst snd] in E3. rewrite E3. cbn [mbind Game.js_bind].
  pose proof (assign2_wf (Game.playerBoard s) (row, col) num Hb Hsel) as E4.
  cbn [fst snd] in E4. rewrite E4. cbn [mbind Game.js_bind].
  pose proof (assign2_notes (Game.notes s) (row, col) [] Hn Hsel) as E5.
  cbn [fst snd] in E5. rewrite E5. reflexivity.
Qed.

(** X13: in a game in play, with a cell selected that the puzzle leaves
    open, not paused, not completed and not in note mode, [fillNumber(num)]
    writes [num] at that cell and nowhere else, empties the notes of the
    cell and the redo stack, and pushes one action.  [undo] right after
    gives back the board and the undo stack as they were; the notes of the
    cell stay empty and the redo stack holds that one action. *)
Theorem fillNumber_undo origin s p num :
  Game.inPlay origin s -> Game.selectedCell s = Some p ->
  Game.isPaused s = false -> Game.isCompleted s = false ->
  Game.noteMode s = false -> valueAt (Game.puzzle s) p = 0 ->
  exists s1 s2,
    Game.fillNumber num s = Game.Value s1 /\
    Game.playerBoard s1 = setCell (Game.playerBoard s) (fst p) (snd p) num /\
    valueAt (Game.playerBoard s1) p = num /\
    (forall q, q <> p ->
       valueAt (Game.playerBoard s1) q = valueAt (Game.playerBoard s) q) /\
    Game.notesAt (Game.notes s1) p = [] /\
    length (Game.undoStack s1) = S (length (Game.undoStack s)) /\
    Game.redoStack s1 = [] /\
    Game.undo s1 = Game.Value s2 /\
    Game.playerBoard s2 = Game.playerBoard s /\
    Game.undoStack s2 = Game.undoStack s /\
    Game.notesAt (Game.notes s2) p = [] /\
    length (Game.redoStack s2) = 1%nat.
Proof.
  intros Hin Esel Epause Ecompl Enote Hz.
  pose proof Hin as [Hp Hb Hs Hn Hg Hsel Hact Hh Hf].
  pose proof (Hsel _ Esel) as Hat.
  pose proof (fillNumber_plain origin s p num Hin Esel Epause Ecompl Hz Enote) as E1.
  destruct (fillNumber_inPlay origin s num Hin) as (s1 & E1' & Hin1 & _).
  rewrite E1 in E1'. injection E1' as E1'.
  set (a := Game.Fill (fst p) (snd p) (Some (valueAt (Game.playerBoard s) p)) num) in *.
  subst s1.
  pose proof (undo_exact origin _ (Game.undoStack s) a Hin1 eq_refl) as E2.
  eexists _, _. split; [exact E1 |].
  cbn [Game.withMove Game.playerBoard Game.undoStack Game.redoStack Game.notes].
  split; [reflexivity |]. split; [by apply valueAt_setCell_at |].
  split.
  { intros q Hq. apply valueAt_setCell_ne. destruct p. simpl. congruence. }
  split; [by apply notesAt_alter_eq |].
  split; [rewrite length_app; simpl; lia |].
  split; [reflexivity |].
  split; [exact E2 |].
  cbn [Game.withMove Game.playerBoard Game.undoStack Game.redoStack Game.notes].
  split.
  { cbn [a Game.target Game.undone fst snd].
    rewrite orZero_Some. by apply setCell_back. }
  split; [reflexivity |].
  split; [by apply notesAt_alter_eq |].
  reflexivity.
Qed.

Lemma fillNumber_undo_witness :
  exists s1 s2,
    Game.fillNumber 7 (Game.selectCell 4 4 sampleGame) = Game.Value s1 /\
    Game.playerBoard s1 = setCell samplePuzzle 4 4 7 /\
    valueAt (Game.playerBoard s1) (4, 4)%nat = 7 /\
    (forall q, q <> (4, 4)%nat ->
       valueAt (Game.playerBoard s1) q = valueAt samplePuzzle q) /\
    Game.notesAt (Game.notes s1) (4, 4)%nat = [] /\
    length (Game.undoStack s1) = 1%nat /\
    Game.redoStack s1 = [] /\
    Game.undo s1 = Game.Value s2 /\
    Game.playerBoard s2 = samplePuzzle /\
    Game.undoStack s2 = [] /\
    Game.notesAt (Game.notes s2) (4, 4)%nat = [] /\
    length (Game.redoStack s2) = 1%nat.
Proof.
  apply (fillNumber_undo samplePuzzle (Game.selectCell 4 4 sampleGame) (4, 4)%nat 7);
    try reflexivity.
  destruct (perform_inPlay sampleSource samplePuzzle (Game.SelectCell 4 4)
              sampleGame 0 (started_inPlay _ started_sampleGame))
    as (s' & k' & E & Hin & _).
  - split; simpl; lia.
  - injection E as <- _. exact Hin.
Defined.

(** ** The hint *)

Lemma checkCell_wf s p :
  wfBoard (Game.playerBoard s) -> wfBoard (Game.solution s) -> inGrid p ->
  Game.checkCell (fst p) (snd p) s
  = Game.Value (bool_decide (valueAt (Game.playerBoard s) p = 0)
                || bool_decide (valueAt (Game.playerBoard s) p
                                = valueAt (Game.solution s) p)).
Proof.
  intros Hb Hs Hp. unfold Game.checkCell.
  rewrite (at2_wf _ p Hb Hp), (at2_wf _ p Hs Hp). cbn [mbind Game.js_bind].
  f_equal. f_equal; apply bool_decide_ext; split; congruence.
Qed.

(** X14: in a game in play that is neither paused nor completed, [hint]
    returns nothing and changes nothing when the board has no empty cell.
    Otherwise it draws one random number [r], takes the cell number [r]
    modulo their count among the empty cells in row order, and writes the
    solution's digit there and nowhere else; the cell was open in the
    puzzle, [checkCell] accepts it afterwards, its notes and the redo
    stack are emptied and one fill action (from 0) is pushed. *)
Theorem hint_fills_solution src origin s k :
  Game.inPlay origin s ->
  Game.isPaused s = false -> Game.isCompleted s = false ->
  let cells := filter (fun p => valueAt (Game.playerBoard s) p = 0) positions in
  exists r s' k',
    Game.hint src s k = Game.Value (r, s', k') /\
    match r with
    | None => cells = [] /\ s' = s /\ k' = k
    | Some p =>
        cells !! (src k mod length cells)%nat = Some p /\
        inGrid p /\ valueAt (Game.playerBoard s) p = 0 /\
        valueAt (Game.puzzle s) p = 0 /\
        Game.playerBoard s'
        = setCell (Game.playerBoard s) (fst p) (snd p)
                  (valueAt (Game.solution s) p) /\
        Game.checkCell (fst p) (snd p) s' = Game.Value true /\
        Game.undoStack s'
        = Game.undoStack s
          ++ [Game.Fill (fst p) (snd p) (Some 0) (valueAt (Game.solution s) p)] /\
        Game.redoStack s' = [] /\
        Game.notesAt (Game.notes s') p = [] /\
        k' = S k
    end.
Proof.
  intros Hin Epause Ecompl cells.
  pose proof Hin as [Hp Hb Hs Hn Hg Hsel Hact Hh Hf].
  unfold Game.hint. rewrite Epause, Ecompl. cbn [orb].
  rewrite (emptyCells_wf _ _ Hb Forall_inGrid_positions).
  cbn [mbind Game.js_bind]. fold cells.
  destruct (length cells =? 0)%nat eqn:El.
  { apply Nat.eqb_eq in El. exists None, s, k. split; [reflexivity |].
    split; [by apply nil_length_inv | auto]. }
  apply Nat.eqb_neq in El.
  destruct (lookup_lt_is_Some_2 cells (randomBelow src k (length cells)))
    as [[row col] Ec].
  { unfold randomBelow. by apply Nat.mod_upper_bound. }
  rewrite Ec.
  assert (Hcell : (row, col) ∈ cells) by (by apply list_elem_of_lookup_2 in Ec).
  apply list_elem_of_filter in Hcell as [Hz Hpos].
  assert (Hat : inGrid (row, col)).
  { apply in_positions. by apply list_elem_of_In. }
  pose proof (ensureNotesInitialized_wf (Game.notes s) (row, col) Hn Hat) as E2.
  cbn [fst snd] in E2. rewrite E2. cbn [mbind Game.js_bind].
  pose proof (at2_wf (Game.solution s) (row, col) Hs Hat) as E3.
  cbn [fst snd] in E3. rewrite E3. cbn [mbind Game.js_bind].
  pose proof (assign2_wf (Game.playerBoard s) (row, col)
                (valueAt (Game.solution s) (row, col)) Hb Hat) as E4.
  cbn [fst snd] in E4. rewrite E4. cbn [mbind Game.js_bind].
  pose proof (assign2_notes (Game.notes s) (row, col) [] Hn Hat) as E5.
  cbn [fst snd] in E5. rewrite E5. cbn [mbind Game.js_bind].
  eexists (Some (row, col)), _, _. split; [reflexivity |].
  cbn [Game.withMove Game.playerBoard Game.undoStack Game.redoStack Game.notes
       fst snd].
  split; [exact Ec |]. split; [assumption |]. split; [assumption |].
  split.
  { destruct (Z.eq_dec (valueAt (Game.puzzle s) (row, col)) 0) as [E | E];
      [assumption |].
    rewrite <- (Hg (row, col) Hat E). assumption. }
  split; [reflexivity |]. split.
  { pose proof (checkCell_wf
                  (Game.withMove s
                     (setCell (Game.playerBoard s) row col
                              (valueAt (Game.solution s) (row, col)))
                     (alter (fun r => <[col := []]> r) row (Game.notes s))
                     (Game.undoStack s
                      ++ [Game.Fill row col (Some 0)
                                    (valueAt (Game.solution s) (row, col))])
                     []) (row, col)) as Ec'.
    cbn [Game.withMove Game.playerBoard Game.solution fst snd] in Ec'.
    rewrite Ec'; [| by apply wfBoard_setCell | assumption | assumption].
    f_equal. apply orb_true_iff. right. apply bool_decide_eq_true.
    by apply (valueAt_setCell_at (Game.playerBoard s) (row, col)). }
  split; [reflexivity |]. split; [reflexivity |].
  split; [by apply (notesAt_alter_eq (Game.notes s) (row, col)) | reflexivity].
Qed.

Lemma hint_fills_solution_witness :
  let cells :=
    filter (fun p => valueAt (Game.playerBoard sampleGame) p = 0) positions in
  exists r s' k',
    Game.hint sampleSource sampleGame 0 = Game.Value (r, s', k') /\
    match r with
    | None => cells = [] /\ s' = sampleGame /\ k' = 0%nat
    | Some p =>
        cells !! (sampleSource 0%nat mod length cells)%nat = Some p /\
        inGrid p /\ valueAt (Game.playerBoard sampleGame) p = 0 /\
        valueAt (Game.puzzle sampleGame) p = 0 /\
        Game.playerBoard s'
        = setCell (Game.playerBoard sampleGame) (fst p) (snd p)
                  (valueAt (Game.solution sampleGame) p) /\
        Game.checkCell (fst p) (snd p) s' = Game.Value true /\
        Game.undoStack s'
        = Game.undoStack sampleGame
          ++ [Game.Fill (fst p) (snd p) (Some 0)
                        (valueAt (Game.solution sampleGame) p)] /\
        Game.redoStack s' = [] /\
        Game.notesAt (Game.notes s') p = [] /\
        k' = 1%nat
    end.
Proof.
  exact (hint_fills_solution sampleSource samplePuzzle sampleGame 0
           (started_inPlay _ started_sampleGame) eq_refl eq_refl).
Defined.

(** ** Checking the board *)

(** X15: on 9x9 boards [checkAnswer] lists, in row order, the cells that
    hold a number other than 0 and other than the solution's; [isCorrect]
    says that there is none.  Empty cells are no errors: a board with
    empty cells counts as correct when what is filled in is right. *)
Theorem checkAnswer_spec s :
  wfBoard (Game.playerBoard s) -> wfBoard (Game.solution s) ->
  exists result,
    Game.checkAnswer s = Game.Value result /\
    Game.errorCells result
    = filter (fun p => valueAt (Game.playerBoard s) p <> 0 /\
                       valueAt (Game.playerBoard s) p
                       <> valueAt (Game.solution s) p) positions /\
    (Game.isCorrect result = true <-> Game.errorCells result = []) /\
    (Game.isCorrect result = true <->
     forall p, inGrid p ->
       valueAt (Game.playerBoard s) p = 0 \/
       valueAt (Game.playerBoard s) p = valueAt (Game.solution s) p).
Proof.
  intros Hb Hs. unfold Game.checkAnswer.
  rewrite (checkCells_wf _ _ _ Hb Hs Forall_inGrid_positions). cbv zeta.
  eexists. split; [reflexivity |]. cbn [Game.isCorrect Game.errorCells andb app].
  match goal with
  | |- context [filter ?P positions] => set (wrong := filter P positions)
  end.
  split; [reflexivity |]. split; [apply bool_decide_eq_true |].
  rewrite bool_decide_eq_true. split.
  - intros Hw p Hp.
    destruct (Z.eq_dec (valueAt (Game.playerBoard s) p) 0) as [? | Hnz]; [by left |].
    destruct (Z.eq_dec (valueAt (Game.playerBoard s) p)
                       (valueAt (Game.solution s) p)) as [? | Hne]; [by right |].
    exfalso. assert (Hin : p ∈ wrong).
    { apply list_elem_of_filter. split; [by split |].
      apply list_elem_of_In. by apply in_positions. }
    rewrite Hw in Hin. by apply not_elem_of_nil in Hin.
  - intros Hall. destruct wrong as [|p wrong'] eqn:Ew; [reflexivity |].
    exfalso. assert (Hin : p ∈ wrong) by (rewrite Ew; left).
    apply list_elem_of_filter in Hin as [[H1 H2] Hpos].
    destruct (Hall p); [| contradiction | contradiction].
    apply in_positions. by apply list_elem_of_In.
Qed.

Lemma checkAnswer_spec_witness :
  exists result,
    Game.checkAnswer sampleGame = Game.Value result /\
    Game.errorCells result
    = filter (fun p => valueAt (Game.playerBoard sampleGame) p <> 0 /\
                       valueAt (Game.playerBoard sampleGame) p
                       <> valueAt (Game.solution sampleGame) p) positions /\
    (Game.isCorrect result = true <-> Game.errorCells result = []) /\
    (Game.isCorrect result = true <->
     forall p, inGrid p ->
       valueAt (Game.playerBoard sampleGame) p = 0 \/
       valueAt (Game.playerBoard sampleGame) p
       = valueAt (Game.solution sampleGame) p).
Proof.
  exact (checkAnswer_spec sampleGame wfBoard_samplePuzzle wfBoard_sampleGrid).
Defined.

Lemma checkCompletion_wf s :
  wfBoard (Game.playerBoard s) -> wfBoard (Game.solution s) ->
  exists r : bool,
    Game.checkCompletion s
    = Game.Value (r, if r then Game.markAsCompleted s else s) /\
    (r = true <->
     (forall p, inGrid p -> valueAt (Game.playerBoard s) p <> 0) /\
     Game.playerBoard s = Game.solution s).
Proof.
  intros Hb Hs. unfold Game.checkCompletion, Game.checkAnswer.
  rewrite (someZero_wf _ _ Hb Forall_inGrid_positions).
  cbn [mbind Game.js_bind].
  destruct (bool_decide (Exists _ positions)) eqn:Ez.
  { exists false. split; [reflexivity |]. split; [discriminate |].
    intros [Hnz _]. exfalso. apply bool_decide_eq_true in Ez.
    apply Exists_exists in Ez as (p & Hp & Hz).
    apply (Hnz p); [| assumption]. apply in_positions. by apply list_elem_of_In. }
  apply bool_decide_eq_false in Ez.
  assert (Hnz : forall p, inGrid p -> valueAt (Game.playerBoard s) p <> 0).
  { intros p Hp Hz. apply Ez. apply Exists_exists. exists p.
    split; [| assumption]. apply list_elem_of_In. by apply in_positions. }
  rewrite (checkCells_wf _ _ _ Hb Hs Forall_inGrid_positions).
  cbn [mbind Game.js_bind]. cbv zeta. cbn [Game.isCorrect andb].
  match goal with
  | |- context [filter ?P positions] => set (wrong := filter P positions)
  end.
  destruct (bool_decide (wrong = [])) eqn:Ew.
  - exists true. split; [reflexivity |]. split; [| reflexivity]. intros _.
    split; [assumption |]. apply bool_decide_eq_true in Ew.
    apply wfBoard_ext; [assumption | assumption |]. intros p Hp.
    destruct (Z.eq_dec (valueAt (Game.playerBoard s) p)
                       (valueAt (Game.solution s) p)) as [? | Hne];
      [assumption |].
    exfalso. assert (Hin : p ∈ wrong).
    { apply list_elem_of_filter. split; [split; [by apply Hnz | assumption] |].
      apply list_elem_of_In. by apply in_positions. }
    rewrite Ew in Hin. by apply not_elem_of_nil in Hin.
  - exists false. split; [reflexivity |]. split; [discriminate |].
    intros [_ Heq]. exfalso. apply bool_decide_eq_false in Ew. apply Ew.
    destruct wrong as [|p wrong'] eqn:Ewr; [reflexivity |].
    assert (Hin : p ∈ wrong) by (rewrite Ewr; left).
    apply list_elem_of_filter in Hin as [[_ H2] _]. by rewrite Heq in H2.
Qed.

(** X16: on 9x9 boards [checkCompletion] returns [true] exactly when the
    player board has no cell holding 0 and equals the solution cell for
    cell; it then marks the game completed, and otherwise leaves the
    state as it is. *)
Theorem checkCompletion_spec s :
  wfBoard (Game.playerBoard s) -> wfBoard (Game.solution s) ->
  exists r s',
    Game.checkCompletion s = Game.Value (r, s') /\
    (r = true <->
     (forall p, inGrid p -> valueAt (Game.playerBoard s) p <> 0) /\
     Game.playerBoard s = Game.solution s) /\
    (r = true -> s' = Game.markAsCompleted s /\ Game.isCompleted s' = true) /\
    (r = false -> s' = s).
Proof.
  intros Hb Hs. destruct (checkCompletion_wf s Hb Hs) as (r & E & Hr).
  exists r, (if r then Game.markAsCompleted s else s).
  split; [assumption |]. split; [assumption |].
  split; intros ->; auto.
Qed.

Lemma checkCompletion_spec_witness :
  exists r s',
    Game.checkCompletion sampleGame = Game.Value (r, s') /\
    (r = true <->
     (forall p, inGrid p -> valueAt (Game.playerBoard sampleGame) p <> 0) /\
     Game.playerBoard sampleGame = Game.solution sampleGame) /\
    (r = true -> s' = Game.markAsCompleted sampleGame /\
                 Game.isCompleted s' = true) /\
    (r = false -> s' = sampleGame).
Proof.
  exact (checkCompletion_spec sampleGame wfBoard_samplePuzzle wfBoard_sampleGrid).
Defined.

(** ** A generated game *)

Lemma held_eq board w : Game.held board w = Some (contents (store w) board, w).
Proof. reflexivity. Qed.

(** A run of [initGame]: the puzzle, twice, and the solution of the
    generator, which is the one completion of the puzzle. *)
Lemma initGame_run fuel src d w s w' :
  Game.initGame fuel src d w = Some (s, w') ->
  exists pz sol,
    s = Game.mkGame pz pz sol d false false false None Game.emptyNotes [] [] /\
    wfBoard pz /\ validComplete sol /\ completion sol pz /\
    (forall g, completion g pz -> g = sol).
Proof.
  unfold Game.initGame. rewrite bind_eq.
  destruct (generate fuel src d w) as [[res w1]|] eqn:Hgen; [| discriminate].
  pose proof (generate_run _ _ _ _ _ _ Hgen)
    as (sol & w0 & r & sh & pz & rest & hp & _ & _ & Esol & Epz & _
        & _ & Hc & Hp & Hs & _ & Hpk).
  destruct res as [dataPuzzle dataSolution dd]. cbn [puzzle solution] in *.
  pose proof (poked_wf _ _ _ _ _ _ _ Hpk) as Hwf.
  assert (Hlen : length pz = 9%nat) by apply Hwf.
  assert (Hap : Forall (fun a => (a < length (store w1))%nat) dataPuzzle).
  { apply wf_contents_addresses. by rewrite Hp. }
  assert (Has : Forall (fun a => (a < length (store w1))%nat) dataSolution).
  { apply wf_contents_addresses. rewrite Hc. apply Hs. }
  assert (Hlp : length dataPuzzle = 9%nat) by (rewrite Epz; apply length_seq).
  rewrite bind_eq, copyBoard_eq, Hp, Hlp.
  rewrite bind_eq, copyBoard_eq. cbn [store draws].
  rewrite (contents_prefix (store w1) pz dataPuzzle Hap), Hp, Hlp.
  rewrite bind_eq, held_eq. cbn [store].
  rewrite bind_eq, held_eq. cbn [store].
  rewrite bind_eq, held_eq. cbn [store]. rewrite ret_eq.
  assert (E1 : contents ((store w1 ++ pz) ++ pz) (seq (length (store w1)) 9) = pz).
  { rewrite <- app_assoc. rewrite <- Hlen. apply contents_block. }
  assert (E2 : contents ((store w1 ++ pz) ++ pz) (seq (length (store w1 ++ pz)) 9)
               = pz).
  { pose proof (contents_block (store w1 ++ pz) pz []) as H.
    rewrite app_nil_r, Hlen in H. exact H. }
  assert (E3 : contents ((store w1 ++ pz) ++ pz) dataSolution = sol).
  { rewrite <- app_assoc.
    by rewrite (contents_prefix (store w1) (pz ++ pz) dataSolution Has). }
  rewrite E1, E2, E3.
  intros H. injection H as <- <-. exists pz, sol. split; [reflexivity |].
  split; [assumption |]. split; [assumption |].
  assert (Hcomp : completion sol pz).
  { split; [assumption |]. intros p Hin Hnz.
    destruct (poked_cells _ _ _ _ _ _ _ Hpk p Hin); congruence. }
  split; [assumption |]. intros g Hg.
  pose proof (poked_unique _ _ _ _ _ _ _ Hpk (full_count sol Hs)) as Hone.
  destruct (solveCount_sem (S (zeros pz)) pz 0 pz 1 Hwf (Nat.le_0_l 1) Hone)
    as [_ Huniq].
  by apply Huniq.
Qed.

(** X17: a game made by [initGame] starts with the player board equal to
    the puzzle, empty notes and stacks, and a solution that is a valid
    complete grid.  Whatever calls follow on cells of the grid,
    [checkCompletion] then returns [true] exactly when the player board
    is a valid complete grid: the only such grid that holds the givens is
    the solution. *)
Theorem initGame_checkCompletion fuel src d w s w' :
  Game.initGame fuel src d w = Some (s, w') ->
  Game.started s /\ Game.playerBoard s = Game.puzzle s /\
  Game.difficulty s = d /\ Game.notes s = Game.emptyNotes /\
  validComplete (Game.solution s) /\
  forall src' calls k s1 k1,
    Forall Game.inGridCall calls ->
    Game.session src' calls (s, k) = Game.Value (s1, k1) ->
    exists r s2,
      Game.checkCompletion s1 = Game.Value (r, s2) /\
      (r = true <-> validComplete (Game.playerBoard s1)).
Proof.
  intros Hrun.
  destruct (initGame_run _ _ _ _ _ _ Hrun) as (pz & sol & -> & Hwf & Hs & Hcomp & Huniq).
  cbn [Game.playerBoard Game.puzzle Game.difficulty Game.solution Game.notes].
  assert (Hst : Game.started
            (Game.mkGame pz pz sol d false false false None Game.emptyNotes [] [])).
  { split; cbn [Game.puzzle Game.playerBoard Game.solution Game.notes
                Game.selectedCell Game.undoStack Game.redoStack];
      try assumption; try reflexivity.
    - apply Hs.
    - apply wfNotes_emptyNotes.
    - discriminate. }
  split; [exact Hst |]. split; [reflexivity |]. split; [reflexivity |].
  split; [reflexivity |]. split; [assumption |].
  intros src' calls k s1 k1 Hcalls Hsess.
  destruct (session_inPlay src' _ calls _ k (started_inPlay _ Hst) Hcalls)
    as (s1' & k1' & E & Hin & (Ep & Es & _) & _).
  rewrite Hsess in E. injection E as <- <-.
  cbn [Game.puzzle Game.solution Game.playerBoard] in Ep, Es.
  pose proof Hin as [Hp1 Hb1 Hs1 _ Hg1 _ _ _ _].
  destruct (checkCompletion_wf s1 Hb1 Hs1) as (r & E & Hr).
  exists r, (if r then Game.markAsCompleted s1 else s1).
  split; [assumption |]. rewrite Hr, Es. split.
  - intros [_ ->]. assumption.
  - intros Hv. assert (Heq : Game.playerBoard s1 = sol).
    { apply Huniq. split; [assumption |]. intros p Hp Hnz.
      rewrite <- Ep in Hnz |- *. by apply Hg1. }
    split; [| assumption]. intros p Hp.
    pose proof (validComplete_filled _ Hv p Hp). lia.
Qed.

Lemma initGame_checkCompletion_witness :
  exists s w',
    Game.initGame 100 sampleSource "easy" emptyWorld = Some (s, w') /\
    Game.started s /\ Game.playerBoard s = Game.puzzle s /\
    Game.difficulty s = "easy"%string /\ Game.notes s = Game.emptyNotes /\
    validComplete (Game.solution s) /\
    forall src' calls k s1 k1,
      Forall Game.inGridCall calls ->
      Game.session src' calls (s, k) = Game.Value (s1, k1) ->
      exists r s2,
        Game.checkCompletion s1 = Game.Value (r, s2) /\
        (r = true <-> validComplete (Game.playerBoard s1)).
Proof.
  eexists. eexists. split; [vm_compute; reflexivity |].
  eapply (initGame_checkCompletion 100 sampleSource "easy" emptyWorld).
  vm_compute; reflexivity.
Defined.

(** ** The cells of the same row, column and box *)

Lemma relatedOK_all : forallb Game.relatedOK positions = true.
Proof. vm_compute. reflexivity. Qed.

(** X18: for a cell of the grid [getRelatedCells] returns 24 entries, all
    in the grid: the cells other than the given one that share its row,
    its column or its box, and no other cell.  The four cells that share
    the box and also the row or the column come twice, so 20 different
    cells are listed. *)
Theorem getRelatedCells_spec row col :
  (row < 9)%nat -> (col < 9)%nat ->
  length (Game.getRelatedCells row col) = 24%nat /\
  length (remove_dups (Game.getRelatedCells row col)) = 20%nat /\
  forall q, In q (Game.getRelatedCells row col) <->
            inGrid q /\ q <> (row, col) /\ sameUnit (row, col) q = true.
Proof.
  intros Hr Hc.
  assert (Hin : In (row, col) positions) by (apply in_positions; by split).
  pose proof (proj1 (forallb_forall _ _) relatedOK_all _ Hin) as H.
  unfold Game.relatedOK in H. cbn [fst snd] in H. cbv zeta in H.
  apply andb_true_iff in H as [H H4]. apply andb_true_iff in H as [H H3].
  apply andb_true_iff in H as [H1 H2].
  apply Nat.eqb_eq in H1, H2.
  split; [assumption |]. split; [assumption |]. intros q.
  rewrite forallb_forall in H3, H4. split.
  - intros Hq. specialize (H3 q Hq). apply bool_decide_eq_true in H3.
    apply list_elem_of_In in H3. specialize (H4 q H3).
    apply Bool.eqb_prop in H4.
    rewrite bool_decide_eq_true_2 in H4 by (by apply list_elem_of_In).
    symmetry in H4. unfold Game.related in H4.
    apply andb_true_iff in H4 as [Hne Hs].
    apply negb_true_iff in Hne. apply bool_decide_eq_false in Hne.
    split; [by apply in_positions |]. split; [| assumption].
    intros ->. by apply Hne.
  - intros (Hq & Hne & Hs). apply in_positions in Hq.
    specialize (H4 q Hq). apply Bool.eqb_prop in H4.
    unfold Game.related in H4. rewrite Hs in H4.
    rewrite (bool_decide_eq_false_2 ((row, col) = q)) in H4 by congruence.
    cbn [negb andb] in H4.
    apply bool_decide_eq_true in H4. by apply list_elem_of_In.
Qed.

Lemma getRelatedCells_spec_witness :
  ((4 < 9)%nat /\ (7 < 9)%nat) /\
  length (Game.getRelatedCells 4 7) = 24%nat /\
  length (remove_dups (Game.getRelatedCells 4 7)) = 20%nat /\
  forall q, In q (Game.getRelatedCells 4 7) <->
            inGrid q /\ q <> (4, 7)%nat /\ sameUnit (4, 7)%nat q = true.
Proof.
  split; [lia |]. apply (getRelatedCells_spec 4 7); lia.
Defined.

(** ** Saving and loading *)

Lemma fromFlatArray_toFlatArray b :
  wfBoard b -> fromFlatArray (toFlatArray b) = Returned b.
Proof.
  intros [Hl Hrows]. unfold fromFlatArray, toFlatArray. f_equal.
  pose proof (slices_concat b Hrows) as H. by rewrite Hl in H.
Qed.

Lemma notesAt_inGrid notes p r ns :
  notes !! fst p = Some r -> r !! snd p = Some ns -> Game.notesAt notes p = ns.
Proof. intros H1 H2. unfold Game.notesAt. by rewrite H1, H2. Qed.

Lemma loadNotes_fold saved ps : forall acc,
  Game.wfNotes saved -> Game.wfNotes acc -> Forall inGrid ps ->
  let res :=
    foldl (fun notes p =>
             match saved !! fst p with
             | Some r =>
                 match r !! snd p with
                 | Some ns =>
                     alter (fun nr => <[snd p := filter (fun n => 1 <= n <= 9) ns]> nr)
                           (fst p) notes
                 | None => notes
                 end
             | None => notes
             end) acc ps in
  Game.wfNotes res /\
  forall q, inGrid q ->
    Game.notesAt res q
    = if decide (q ∈ ps)
      then filter (fun n => 1 <= n <= 9) (Game.notesAt saved q)
      else Game.notesAt acc q.
Proof.
  induction ps as [|p ps IH]; intros acc Hs Ha Hps; cbv zeta.
  - split; [assumption |]. intros q _. rewrite decide_False; [reflexivity |].
    apply not_elem_of_nil.
  - apply Forall_cons in Hps as [Hp Hps]. cbn [foldl].
    destruct (wfNotes_row saved (fst p) Hs (proj1 Hp)) as (r & Er & Hl).
    destruct (lookup_lt_is_Some_2 r (snd p)) as [ns Ens]; [destruct Hp; lia |].
    rewrite Er, Ens.
    destruct (IH (alter (fun nr => <[snd p := filter (fun n => 1 <= n <= 9) ns]> nr)
                        (fst p) acc) Hs (wfNotes_alter _ _ _ _ Ha) Hps)
      as [Hw Hq].
    split; [exact Hw |]. intros q Hin. rewrite (Hq q Hin).
    destruct (decide (q ∈ ps)) as [Hps' | Hps'].
    + rewrite decide_True; [reflexivity | by right].
    + destruct (decide (p = q)) as [<- | Hne].
      * rewrite decide_True by left.
        rewrite notesAt_alter_eq by assumption.
        by rewrite (notesAt_inGrid saved p r ns Er Ens).
      * rewrite decide_False.
        -- by apply notesAt_alter_ne.
        -- intros [? | ?]%elem_of_cons; [congruence | contradiction].
Qed.

(** X19: on a state with 9x9 boards and notes, loading what
    [getGameState] returns gives back the three boards and the
    difficulty, and the notes of every cell without the numbers outside
    1..9.  Nothing else is restored: the game is not paused, not
    completed (whatever the saved flag says), not in note mode, has no
    cell selected and both stacks are empty. *)
Theorem loadGame_getGameState s :
  wfBoard (Game.puzzle s) -> wfBoard (Game.playerBoard s) ->
  wfBoard (Game.solution s) -> Game.wfNotes (Game.notes s) ->
  exists s',
    Game.loadGame (Game.getGameState s) = Game.Value s' /\
    Game.puzzle s' = Game.puzzle s /\
    Game.playerBoard s' = Game.playerBoard s /\
    Game.solution s' = Game.solution s /\
    Game.difficulty s' = Game.difficulty s /\
    Game.wfNotes (Game.notes s') /\
    (forall p, inGrid p ->
       Game.notesAt (Game.notes s') p
       = filter (fun n => 1 <= n <= 9) (Game.notesAt (Game.notes s) p)) /\
    Game.isPaused s' = false /\ Game.isCompleted s' = false /\
    Game.noteMode s' = false /\ Game.selectedCell s' = None /\
    Game.undoStack s' = [] /\ Game.redoStack s' = [].
Proof.
  intros Hp Hb Hs Hn. unfold Game.loadGame, Game.getGameState.
  cbn [Game.Saved.puzzle Game.Saved.playerBoard Game.Saved.solution
       Game.Saved.difficulty Game.Saved.notes].
  rewrite !fromFlatArray_toFlatArray by assumption.
  cbn [Game.lift mbind Game.js_bind].
  eexists. split; [reflexivity |].
  cbn [Game.puzzle Game.playerBoard Game.solution Game.difficulty Game.notes
       Game.isPaused Game.isCompleted Game.noteMode Game.selectedCell
       Game.undoStack Game.redoStack].
  repeat (split; [reflexivity |]).
  destruct (loadNotes_fold (Game.notes s) positions Game.emptyNotes Hn
              wfNotes_emptyNotes Forall_inGrid_positions) as [Hw Hq].
  split; [exact Hw |]. split; [| by repeat split].
  intros p Hin. unfold Game.loadNotes. rewrite (Hq p Hin).
  rewrite decide_True; [reflexivity |].
  apply list_elem_of_In. by apply in_positions.
Qed.

Lemma loadGame_getGameState_witness :
  exists s',
    Game.loadGame (Game.getGameState sampleGame) = Game.Value s' /\
    Game.puzzle s' = Game.puzzle sampleGame /\
    Game.playerBoard s' = Game.playerBoard sampleGame /\
    Game.solution s' = Game.solution sampleGame /\
    Game.difficulty s' = Game.difficulty sampleGame /\
    Game.wfNotes (Game.notes s') /\
    (forall p, inGrid p ->
       Game.notesAt (Game.notes s') p
       = filter (fun n => 1 <= n <= 9) (Game.notesAt (Game.notes sampleGame) p)) /\
    Game.isPaused s' = false /\ Game.isCompleted s' = false /\
    Game.noteMode s' = false /\ Game.selectedCell s' = None /\
    Game.undoStack s' = [] /\ Game.redoStack s' = [].
Proof.
  exact (loadGame_getGameState sampleGame wfBoard_samplePuzzle
           wfBoard_samplePuzzle wfBoard_sampleGrid wfNotes_emptyNotes).
Defined.

(** ** Notes *)

Lemma indexOf_None num l : Game.indexOf num l = None <-> ~ In num l.
Proof.
  induction l as [|x l IH]; simpl; [tauto |].
  destruct (Z.eqb_spec x num) as [-> | Hne].
  - split; [discriminate | intros H; exfalso; apply H; by left].
  - destruct (Game.indexOf num l); simpl.
    + split; [discriminate |]. intros H. exfalso. apply H. right.
      destruct IH as [_ IH]. destruct (List.in_dec Z.eq_dec num l); [assumption |].
      by specialize (IH n0).
    + split; [| reflexivity]. intros _ [? | ?]; [contradiction |].
      by apply (proj1 IH).
Qed.

Lemma indexOf_Some num l i :
  Game.indexOf num l = Some i ->
  exists l1 l2, l = l1 ++ num :: l2 /\ ~ In num l1 /\ delete i l = l1 ++ l2.
Proof.
  revert i. induction l as [|x l IH]; intros i; simpl; [discriminate |].
  destruct (Z.eqb_spec x num) as [-> | Hne].
  - intros [= <-]. exists [], l. auto.
  - destruct (Game.indexOf num l) as [j|] eqn:E; [| discriminate].
    simpl. intros [= <-]. destruct (IH j eq_refl) as (l1 & l2 & -> & Hn & Hd).
    exists (x :: l1), l2. split; [reflexivity |]. split.
    + intros [? | ?]; [contradiction | by apply Hn].
    + simpl. by rewrite Hd.
Qed.

(** X20: in note mode, in a game in play with an open cell selected,
    [fillNumber(num)] leaves the board and both stacks as they are and
    changes the notes of the selected cell only: a number that is not
    among them is put at their end, a number that is among them has its
    first occurrence taken out.  Any number is taken as a note, also one
    outside 1..9. *)
Theorem fillNumber_note_toggle origin s p num :
  Game.inPlay origin s -> Game.selectedCell s = Some p ->
  Game.isPaused s = false -> Game.isCompleted s = false ->
  Game.noteMode s = true -> valueAt (Game.puzzle s) p = 0 ->
  exists s',
    Game.fillNumber num s = Game.Value s' /\
    Game.playerBoard s' = Game.playerBoard s /\
    Game.undoStack s' = Game.undoStack s /\
    Game.redoStack s' = Game.redoStack s /\
    (forall q, q <> p ->
       Game.notesAt (Game.notes s') q = Game.notesAt (Game.notes s) q) /\
    (~ In num (Game.notesAt (Game.notes s) p) ->
     Game.notesAt (Game.notes s') p = Game.notesAt (Game.notes s) p ++ [num]) /\
    (In num (Game.notesAt (Game.notes s) p) ->
     exists l1 l2,
       Game.notesAt (Game.notes s) p = l1 ++ num :: l2 /\ ~ In num l1 /\
       Game.notesAt (Game.notes s') p = l1 ++ l2).
Proof.
  intros [Hp Hb Hs Hn Hg Hsel Hact Hh Hf] Esel Epause Ecompl Enote Hz.
  unfold Game.fillNumber. rewrite Esel, Epause, Ecompl, Enote.
  specialize (Hsel _ Esel). destruct p as [row col]. cbn [orb].
  pose proof (at2_wf (Game.puzzle s) (row, col) Hp Hsel) as E1.
  cbn [fst snd] in E1. rewrite E1, Hz. cbn [mbind Game.js_bind].
  rewrite bool_decide_eq_true_2 by reflexivity. cbn [negb].
  pose proof (ensureNotesInitialized_wf (Game.notes s) (row, col) Hn Hsel) as E2.
  cbn [fst snd] in E2. rewrite E2. cbn [mbind Game.js_bind].
  destruct (wfNotes_row (Game.notes s) row Hn (proj1 Hsel)) as (r & Er & Hl).
  destruct (lookup_lt_is_Some_2 r col) as [ns Ens]; [destruct Hsel; simpl in *; lia |].
  unfold Game.at2 at 1. rewrite Er. cbn [mbind Game.js_bind]. rewrite Ens.
  pose proof (assign2_notes (Game.notes s) (row, col)) as E3.
  cbn [fst snd] in E3. rewrite E3 by assumption. cbn [mbind Game.js_bind].
  eexists. split; [reflexivity |].
  cbn [Game.withNotes Game.playerBoard Game.undoStack Game.redoStack Game.notes].
  split; [reflexivity |]. split; [reflexivity |]. split; [reflexivity |].
  assert (Ens' : Game.notesAt (Game.notes s) (row, col) = ns)
    by (by apply (notesAt_inGrid _ (row, col) r ns)).
  rewrite Ens'. split.
  { intros q Hq. by apply (notesAt_alter_ne (Game.notes s) (row, col)). }
  pose proof (notesAt_alter_eq (Game.notes s) (row, col)) as Ea.
  cbn [fst snd] in Ea. split.
  - intros Hnot. apply indexOf_None in Hnot. rewrite Hnot. by apply Ea.
  - intros Hin. destruct (Game.indexOf num ns) as [i|] eqn:Ei.
    + destruct (indexOf_Some num ns i Ei) as (l1 & l2 & E & Hn1 & Hd).
      exists l1, l2. split; [assumption |]. split; [assumption |].
      rewrite Ea by assumption. exact Hd.
    + exfalso. by apply (proj1 (indexOf_None num ns) Ei).
Qed.

Lemma fillNumber_note_toggle_witness :
  exists s',
    Game.fillNumber 12 (Game.toggleNoteMode (Game.selectCell 4 4 sampleGame))
    = Game.Value s' /\
    Game.playerBoard s' = samplePuzzle /\
    Game.undoStack s' = [] /\ Game.redoStack s' = [] /\
    (forall q, q <> (4, 4)%nat ->
       Game.notesAt (Game.notes s') q = Game.notesAt Game.emptyNotes q) /\
    (~ In 12 (Game.notesAt Game.emptyNotes (4, 4)%nat) ->
     Game.notesAt (Game.notes s') (4, 4)%nat
     = Game.notesAt Game.emptyNotes (4, 4)%nat ++ [12]) /\
    (In 12 (Game.notesAt Game.emptyNotes (4, 4)%nat) ->
     exists l1 l2,
       Game.notesAt Game.emptyNotes (4, 4)%nat = l1 ++ 12 :: l2 /\ ~ In 12 l1 /\
       Game.notesAt (Game.notes s') (4, 4)%nat = l1 ++ l2).
Proof.
  apply (fillNumber_note_toggle samplePuzzle
           (Game.toggleNoteMode (Game.selectCell 4 4 sampleGame)) (4, 4)%nat 12);
    try reflexivity.
  destruct (session_inPlay sampleSource samplePuzzle
              [Game.SelectCell 4 4; Game.ToggleNoteMode] sampleGame 0
              (started_inPlay _ started_sampleGame))
    as (s' & k' & E & Hin & _).
  - repeat (apply List.Forall_cons; [first [exact I | split; simpl; lia] |]).
    apply List.Forall_nil.
  - injection E as <- _. exact Hin.
Defined.

(** ** What the calls never touch *)

Lemma bind_Value {A B} (m : Game.js A) (f : A -> Game.js B) b :
  m ≫= f = Game.Value b -> exists a, m = Game.Value a /\ f a = Game.Value b.
Proof. destruct m as [a| |]; try discriminate. intros H. by exists a. Qed.

(** The fields a call does not write. *)
Lemma fillNumber_frame num s s' :
  Game.fillNumber num s = Game.Value s' ->
  Game.sameGame s s' /\ Game.isCompleted s' = Game.isCompleted s.
Proof.
  unfold Game.fillNumber. intros H.
  destruct (Game.selectedCell s) as [[row col]|];
    [| injection H as <-; split; [apply sameGame_refl | reflexivity]].
  destruct (Game.isPaused s || Game.isCompleted s);
    [injection H as <-; split; [apply sameGame_refl | reflexivity] |].
  apply bind_Value in H as (given & _ & H).
  destruct (negb (bool_decide (given = Some 0)));
    [injection H as <-; split; [apply sameGame_refl | reflexivity] |].
  apply bind_Value in H as (notes1 & _ & H).
  destruct (Game.noteMode s).
  - apply bind_Value in H as ([ns|] & _ & H); [| discriminate].
    apply bind_Value in H as (notes2 & _ & H). injection H as <-.
    by repeat split.
  - apply bind_Value in H as (oldValue & _ & H).
    apply bind_Value in H as (b' & _ & H).
    apply bind_Value in H as (notes2 & _ & H). injection H as <-.
    by repeat split.
Qed.

Lemma deleteNumber_frame s s' :
  Game.deleteNumber s = Game.Value s' ->
  Game.sameGame s s' /\ Game.isCompleted s' = Game.isCompleted s.
Proof.
  unfold Game.deleteNumber. intros H.
  destruct (Game.selectedCell s) as [[row col]|];
    [| injection H as <-; split; [apply sameGame_refl | reflexivity]].
  destruct (Game.isPaused s || Game.isCompleted s);
    [injection H as <-; split; [apply sameGame_refl | reflexivity] |].
  apply bind_Value in H as (given & _ & H).
  destruct (negb (bool_decide (given = Some 0)));
    [injection H as <-; split; [apply sameGame_refl | reflexivity] |].
  apply bind_Value in H as (notes1 & _ & H).
  apply bind_Value in H as (current & _ & H).
  destruct (bool_decide (current = Some 0));
    [injection H as <-; by repeat split |].
  destruct (Game.noteMode s).
  - apply bind_Value in H as (notes2 & _ & H). injection H as <-.
    by repeat split.
  - apply bind_Value in H as (b' & _ & H). injection H as <-.
    by repeat split.
Qed.

Lemma undo_frame s s' :
  Game.undo s = Game.Value s' ->
  Game.sameGame s s' /\ Game.isCompleted s' = Game.isCompleted s.
Proof.
  unfold Game.undo. intros H.
  destruct (Game.pop (Game.undoStack s)) as [[a older]|];
    [| injection H as <-; split; [apply sameGame_refl | reflexivity]].
  destruct (Game.target a) as [row col].
  apply bind_Value in H as (notes1 & _ & H).
  apply bind_Value in H as (b' & _ & H). injection H as <-.
  by repeat split.
Qed.

Lemma redo_frame s s' :
  Game.redo s = Game.Value s' ->
  Game.sameGame s s' /\ Game.isCompleted s' = Game.isCompleted s.
Proof.
  unfold Game.redo. intros H.
  destruct (Game.pop (Game.redoStack s)) as [[a older]|];
    [| injection H as <-; split; [apply sameGame_refl | reflexivity]].
  destruct (Game.target a) as [row col].
  apply bind_Value in H as (notes1 & _ & H).
  apply bind_Value in H as (b' & _ & H). injection H as <-.
  by repeat split.
Qed.

Lemma hint_frame src s k r s' k' :
  Game.hint src s k = Game.Value (r, s', k') ->
  Game.sameGame s s' /\ Game.isCompleted s' = Game.isCompleted s.
Proof.
  unfold Game.hint. intros H.
  destruct (Game.isPaused s || Game.isCompleted s);
    [injection H as _ <- _; split; [apply sameGame_refl | reflexivity] |].
  apply bind_Value in H as (cells & _ & H).
  destruct (length cells =? 0)%nat;
    [injection H as _ <- _; split; [apply sameGame_refl | reflexivity] |].
  destruct (cells !! randomBelow src k (length cells)) as [[row col]|];
    [| discriminate].
  apply bind_Value in H as (notes1 & _ & H).
  apply bind_Value in H as ([correctNum|] & _ & H); [| discriminate].
  apply bind_Value in H as (b' & _ & H).
  apply bind_Value in H as (notes2 & _ & H). injection H as _ <- _.
  by repeat split.
Qed.

Lemma checkCompletion_frame s r s' :
  Game.checkCompletion s = Game.Value (r, s') -> Game.sameGame s s'.
Proof.
  unfold Game.checkCompletion. intros H.
  apply bind_Value in H as (hasZero & _ & H).
  destruct hasZero; [injection H as _ <-; apply sameGame_refl |].
  apply bind_Value in H as (result & _ & H).
  destruct (Game.isCorrect result); injection H as _ <-; by repeat split.
Qed.

Lemma perform_frame src c s k s' k' :
  Game.perform src c (s, k) = Game.Value (s', k') ->
  Game.sameGame s s' /\
  (Game.plainCall c = true -> Game.isCompleted s' = Game.isCompleted s).
Proof.
  destruct c; cbn [Game.perform Game.plainCall]; intros H.
  - injection H as <- _. unfold Game.selectCell.
    destruct (Game.isPaused s || Game.isCompleted s); by repeat split.
  - injection H as <- _. by repeat split.
  - apply bind_Value in H as (s1 & H1 & H). injection H as <- _.
    destruct (fillNumber_frame _ _ _ H1). auto.
  - apply bind_Value in H as (s1 & H1 & H). injection H as <- _.
    destruct (deleteNumber_frame _ _ H1). auto.
  - injection H as <- _. by repeat split.
  - apply bind_Value in H as (s1 & H1 & H). injection H as <- _.
    destruct (undo_frame _ _ H1). auto.
  - apply bind_Value in H as (s1 & H1 & H). injection H as <- _.
    destruct (redo_frame _ _ H1). auto.
  - apply bind_Value in H as ([[r s1] k1] & H1 & H). injection H as <- _.
    destruct (hint_frame _ _ _ _ _ _ H1). auto.
  - injection H as <- _. by repeat split.
  - apply bind_Value in H as ([r s1] & H1 & H). injection H as <- _.
    split; [by apply (checkCompletion_frame _ _ _ H1) | discriminate].
  - injection H as <- _. split; [by repeat split | discriminate].
Qed.

(** X21: whatever the state is, a sequence of calls that returns leaves
    the puzzle, the solution and the difficulty as they are; and if
    neither [checkCompletion] nor [markAsCompleted] is among the calls, it
    leaves the completed flag as it is: filling the last cell correctly
    does not complete the game. *)
Theorem session_frame src calls : forall s k s' k',
  Game.session src calls (s, k) = Game.Value (s', k') ->
  Game.puzzle s' = Game.puzzle s /\ Game.solution s' = Game.solution s /\
  Game.difficulty s' = Game.difficulty s /\
  (forallb Game.plainCall calls = true ->
   Game.isCompleted s' = Game.isCompleted s).
Proof.
  induction calls as [|c calls IH]; intros s k s' k' H.
  - injection H as <- _. auto.
  - cbn [Game.session] in H. apply bind_Value in H as ([s1 k1] & H1 & H).
    destruct (perform_frame _ _ _ _ _ _ H1) as [(Ep & Es & Ed) Hc].
    destruct (IH _ _ _ _ H) as (Ep' & Es' & Ed' & Hc').
    split; [congruence |]. split; [congruence |]. split; [congruence |].
    cbn [forallb]. intros [H1' H2']%andb_true_iff.
    rewrite (Hc' H2'). by apply Hc.
Qed.

Lemma session_frame_witness :
  exists s' k',
    Game.session sampleSource
      [Game.SelectCell 0 0; Game.FillNumber 1; Game.SelectCell 0 1;
       Game.FillNumber 2; Game.SelectCell 4 4; Game.FillNumber 9;
       Game.SelectCell 8 8; Game.FillNumber 8]
      (sampleGame, 0%nat) = Game.Value (s', k') /\
    Game.playerBoard s' = Game.solution s' /\
    Game.puzzle s' = Game.puzzle sampleGame /\
    Game.solution s' = Game.solution sampleGame /\
    Game.difficulty s' = Game.difficulty sampleGame /\
    (forallb Game.plainCall
       [Game.SelectCell 0 0; Game.FillNumber 1; Game.SelectCell 0 1;
        Game.FillNumber 2; Game.SelectCell 4 4; Game.FillNumber 9;
        Game.SelectCell 8 8; Game.FillNumber 8] = true ->
     Game.isCompleted s' = Game.isCompleted sampleGame).
Proof.
  eexists. eexists. split; [vm_compute; reflexivity |].
  split; [vm_compute; reflexivity |].
  eapply (session_frame sampleSource _ sampleGame 0%nat).
  vm_compute; reflexivity.
Defined.

(** ** Deleting *)

Lemma withNotes_id s : Game.withNotes s (Game.notes s) = s.
Proof. by destruct s. Qed.

(** X22: in a game in play with an open cell selected, [deleteNumber]
    changes nothing when the cell is empty, in note mode too, so the notes
    of an empty cell are not cleared by it.  On a cell that holds a
    number it empties the notes of the cell in note mode and leaves the
    number; otherwise it writes 0, keeps the notes, empties the redo
    stack and pushes an action that [undo] takes back. *)
Theorem deleteNumber_spec origin s p :
  Game.inPlay origin s -> Game.selectedCell s = Some p ->
  Game.isPaused s = false -> Game.isCompleted s = false ->
  valueAt (Game.puzzle s) p = 0 ->
  (valueAt (Game.playerBoard s) p = 0 -> Game.deleteNumber s = Game.Value s) /\
  (valueAt (Game.playerBoard s) p <> 0 -> Game.noteMode s = true ->
   exists s',
     Game.deleteNumber s = Game.Value s' /\
     Game.playerBoard s' = Game.playerBoard s /\
     Game.undoStack s' = Game.undoStack s /\
     Game.redoStack s' = Game.redoStack s /\
     Game.notesAt (Game.notes s') p = [] /\
     (forall q, q <> p ->
        Game.notesAt (Game.notes s') q = Game.notesAt (Game.notes s) q)) /\
  (valueAt (Game.playerBoard s) p <> 0 -> Game.noteMode s = false ->
   exists s' s'',
     Game.deleteNumber s = Game.Value s' /\
     Game.playerBoard s' = setCell (Game.playerBoard s) (fst p) (snd p) 0 /\
     Game.notes s' = Game.notes s /\
     Game.undoStack s'
     = Game.undoStack s
       ++ [Game.Delete (fst p) (snd p) (Some (valueAt (Game.playerBoard s) p))] /\
     Game.redoStack s' = [] /\
     Game.undo s' = Game.Value s'' /\
     Game.playerBoard s'' = Game.playerBoard s /\
     Game.undoStack s'' = Game.undoStack s).
Proof.
  intros Hin Esel Epause Ecompl Hz.
  pose proof Hin as [Hp Hb Hs Hn Hg Hsel Hact Hh Hf].
  pose proof (Hsel _ Esel) as Hat. destruct p as [row col].
  assert (E : Game.deleteNumber s
              = if bool_decide (Some (valueAt (Game.playerBoard s) (row, col)) = Some 0)
                then Game.Value (Game.withNotes s (Game.notes s))
                else if Game.noteMode s
                then Game.Value
                       (Game.withNotes s
                          (alter (fun r => <[col := []]> r) row (Game.notes s)))
                else Game.Value
                       (Game.withMove s
                          (setCell (Game.playerBoard s) row col 0) (Game.notes s)
                          (Game.undoStack s
                           ++ [Game.Delete row col
                                 (Some (valueAt (Game.playerBoard s) (row, col)))])
                          [])).
  { unfold Game.deleteNumber. rewrite Esel, Epause, Ecompl. cbn [orb].
    pose proof (at2_wf (Game.puzzle s) (row, col) Hp Hat) as E1.
    cbn [fst snd] in E1. rewrite E1, Hz. cbn [mbind Game.js_bind].
    rewrite (bool_decide_eq_true_2 (Some 0 = Some 0)) by reflexivity. cbn [negb].
    pose proof (ensureNotesInitialized_wf (Game.notes s) (row, col) Hn Hat) as E2.
    cbn [fst snd] in E2. rewrite E2. cbn [mbind Game.js_bind].
    pose proof (at2_wf (Game.playerBoard s) (row, col) Hb Hat) as E3.
    cbn [fst snd] in E3. rewrite E3. cbn [mbind Game.js_bind].
    destruct (bool_decide _); [reflexivity |].
    destruct (Game.noteMode s).
    - pose proof (assign2_notes (Game.notes s) (row, col) [] Hn Hat) as E5.
      cbn [fst snd] in E5. by rewrite E5.
    - pose proof (assign2_wf (Game.playerBoard s) (row, col) 0 Hb Hat) as E4.
      cbn [fst snd] in E4. by rewrite E4. }
  rewrite E. cbn [fst snd]. split; [| split].
  - intros Hv. rewrite bool_decide_eq_true_2 by (by rewrite Hv).
    by rewrite withNotes_id.
  - intros Hv Enote. rewrite bool_decide_eq_false_2 by congruence.
    rewrite Enote. eexists. split; [reflexivity |].
    cbn [Game.withNotes Game.playerBoard Game.undoStack Game.redoStack Game.notes].
    split; [reflexivity |]. split; [reflexivity |]. split; [reflexivity |].
    split; [by apply (notesAt_alter_eq (Game.notes s) (row, col)) |].
    intros q Hq. by apply (notesAt_alter_ne (Game.notes s) (row, col)).
  - intros Hv Enote. rewrite bool_decide_eq_false_2 by congruence.
    rewrite Enote.
    set (a := Game.Delete row col (Some (valueAt (Game.playerBoard s) (row, col)))).
    assert (Hin' : Game.inPlay origin
              (Game.withMove s (setCell (Game.playerBoard s) row col 0)
                             (Game.notes s) (Game.undoStack s ++ [a]) [])).
    { apply (inPlay_push origin s a); try assumption.
      - split; [assumption |]. split; [assumption | by eexists].
      - cbn [a Game.undone Game.target]. apply orZero_Some. }
    pose proof (undo_exact origin _ (Game.undoStack s) a Hin' eq_refl) as E2.
    eexists _, _. split; [reflexivity |].
    cbn [Game.withMove Game.playerBoard Game.undoStack Game.redoStack Game.notes].
    split; [reflexivity |]. split; [reflexivity |]. split; [reflexivity |].
    split; [reflexivity |]. split; [exact E2 |].
    cbn [Game.withMove Game.playerBoard Game.undoStack Game.redoStack Game.notes].
    split; [| reflexivity].
    cbn [a Game.target Game.undone fst snd]. rewrite orZero_Some.
    by apply (setCell_back (Game.playerBoard s) (row, col)).
Qed.

Lemma deleteNumber_spec_witness :
  exists s k,
    Game.session sampleSource
      [Game.SelectCell 4 4; Game.FillNumber 3] (sampleGame, 0%nat)
    = Game.Value (s, k) /\
    (valueAt (Game.playerBoard s) (4, 4)%nat = 0 ->
     Game.deleteNumber s = Game.Value s) /\
    (valueAt (Game.playerBoard s) (4, 4)%nat <> 0 -> Game.noteMode s = true ->
     exists s',
       Game.deleteNumber s = Game.Value s' /\
       Game.playerBoard s' = Game.playerBoard s /\
       Game.undoStack s' = Game.undoStack s /\
       Game.redoStack s' = Game.redoStack s /\
       Game.notesAt (Game.notes s') (4, 4)%nat = [] /\
       (forall q, q <> (4, 4)%nat ->
          Game.notesAt (Game.notes s') q = Game.notesAt (Game.notes s) q)) /\
    (valueAt (Game.playerBoard s) (4, 4)%nat <> 0 -> Game.noteMode s = false ->
     exists s' s'',
       Game.deleteNumber s = Game.Value s' /\
       Game.playerBoard s' = setCell (Game.playerBoard s) 4 4 0 /\
       Game.notes s' = Game.notes s /\
       Game.undoStack s'
       = Game.undoStack s
         ++ [Game.Delete 4 4 (Some (valueAt (Game.playerBoard s) (4, 4)%nat))] /\
       Game.redoStack s' = [] /\
       Game.undo s' = Game.Value s'' /\
       Game.playerBoard s'' = Game.playerBoard s /\
       Game.undoStack s'' = Game.undoStack s).
Proof.
  destruct (session_inPlay sampleSource samplePuzzle
              [Game.SelectCell 4 4; Game.FillNumber 3] sampleGame 0
              (started_inPlay _ started_sampleGame))
    as (s & k & E & Hin & _).
  { repeat (apply List.Forall_cons; [first [exact I | split; simpl; lia] |]).
    apply List.Forall_nil. }
  exists s, k. split; [exact E |].
  assert (Es : s = Game.withMove (Game.selectCell 4 4 sampleGame)
                     (setCell samplePuzzle 4 4 3)
                     (alter (fun r => <[4%nat := []]> r) 4%nat Game.emptyNotes)
                     [Game.Fill 4 4 (Some 0) 3] []).
  { vm_compute in E. injection E as <- _. reflexivity. }
  apply (deleteNumber_spec samplePuzzle s (4, 4)%nat Hin);
    rewrite Es; reflexivity.
Defined.

(** ** Outside the board *)

(** X23: with a cell selected in a game that is neither paused nor
    completed, [fillNumber] and [deleteNumber] throw a [TypeError] when
    the puzzle has no row of that number (before any game is started, or
    for a row number past the last row); when the row is there and the
    cell holds anything but 0 (a given, or nothing because the column is
    past the end of the row) they return and change nothing. *)
Theorem fillNumber_off_board s row col num :
  Game.selectedCell s = Some (row, col) ->
  Game.isPaused s = false -> Game.isCompleted s = false ->
  (Game.puzzle s !! row = None ->
   Game.fillNumber num s = Game.TypeError /\
   Game.deleteNumber s = Game.TypeError) /\
  (forall r, Game.puzzle s !! row = Some r -> r !! col <> Some 0 ->
   Game.fillNumber num s = Game.Value s /\ Game.deleteNumber s = Game.Value s).
Proof.
  intros Esel Epause Ecompl.
  unfold Game.fillNumber, Game.deleteNumber, Game.at2.
  rewrite Esel, Epause, Ecompl. cbn [orb]. split.
  - intros ->. split; reflexivity.
  - intros r -> Hne. cbn [mbind Game.js_bind].
    rewrite bool_decide_eq_false_2 by assumption. split; reflexivity.
Qed.

Lemma fillNumber_off_board_witness :
  (Game.puzzle (Game.selectCell 3 3 Game.gameState0) !! 3%nat = None ->
   Game.fillNumber 5 (Game.selectCell 3 3 Game.gameState0) = Game.TypeError /\
   Game.deleteNumber (Game.selectCell 3 3 Game.gameState0) = Game.TypeError) /\
  (forall r, Game.puzzle (Game.selectCell 3 3 Game.gameState0) !! 3%nat = Some r ->
             r !! 3%nat <> Some 0 ->
   Game.fillNumber 5 (Game.selectCell 3 3 Game.gameState0)
   = Game.Value (Game.selectCell 3 3 Game.gameState0) /\
   Game.deleteNumber (Game.selectCell 3 3 Game.gameState0)
   = Game.Value (Game.selectCell 3 3 Game.gameState0)).
Proof.
  apply (fillNumber_off_board (Game.selectCell 3 3 Game.gameState0) 3 3 5);
    reflexivity.
Defined.

(** ** Moving the selection with the keys *)

Lemma clamp_bound x : (UI.clamp x < 9)%nat.
Proof. unfold UI.clamp. lia. Qed.

(** X24: [moveSelection] changes nothing in a paused or completed game.
    Otherwise it leaves a cell of the grid selected, wherever the
    selection was and whatever the deltas are: cell (0, 0) when no cell
    was selected, else the old row and column plus the deltas, brought
    back into 0..8; the boards, the notes and the stacks are not
    touched. *)
Theorem moveSelection_in_grid rowDelta colDelta s :
  (Game.isPaused s || Game.isCompleted s = true ->
   UI.moveSelection rowDelta colDelta s = s) /\
  (Game.isPaused s || Game.isCompleted s = false ->
   exists p,
     Game.selectedCell (UI.moveSelection rowDelta colDelta s) = Some p /\
     inGrid p /\
     (Game.selectedCell s = None -> p = (0, 0)%nat) /\
     (forall row col, Game.selectedCell s = Some (row, col) ->
        Z.of_nat (fst p) = Z.max 0 (Z.min 8 (Z.of_nat row + rowDelta)) /\
        Z.of_nat (snd p) = Z.max 0 (Z.min 8 (Z.of_nat col + colDelta))) /\
     Game.playerBoard (UI.moveSelection rowDelta colDelta s) = Game.playerBoard s /\
     Game.notes (UI.moveSelection rowDelta colDelta s) = Game.notes s /\
     Game.undoStack (UI.moveSelection rowDelta colDelta s) = Game.undoStack s /\
     Game.redoStack (UI.moveSelection rowDelta colDelta s) = Game.redoStack s).
Proof.
  unfold UI.moveSelection, Game.selectCell. split; intros E.
  - destruct (Game.selectedCell s) as [[row col]|]; by rewrite E.
  - destruct (Game.selectedCell s) as [[row col]|] eqn:Esel; rewrite E;
      cbn [Game.selectedCell Game.playerBoard Game.notes Game.undoStack
           Game.redoStack].
    + eexists. split; [reflexivity |]. split.
      { split; apply clamp_bound. }
      split; [discriminate |]. split; [| auto].
      intros row' col' [= <- <-]. cbn [fst snd]. unfold UI.clamp. lia.
    + exists (0, 0)%nat. split; [reflexivity |]. split; [split; simpl; lia |].
      split; [reflexivity |]. split; [discriminate | auto].
Qed.

(** ** Numbers that are no digits *)

Lemma someNoDigit_wf b ps :
  wfBoard b -> Forall inGrid ps ->
  Game.someNoDigit b ps
  = Game.Value (bool_decide (Exists (fun p => valueAt b p < 1 \/ 9 < valueAt b p) ps)).
Proof.
  intros Hwf. induction 1 as [|[row col] ps Hp _ IH].
  - cbn [Game.someNoDigit].
    rewrite bool_decide_eq_false_2; [reflexivity | by intros H%Exists_nil].
  - cbn [Game.someNoDigit].
    pose proof (at2_wf b (row, col) Hwf Hp) as E. cbn [fst snd] in E.
    rewrite E. cbn [mbind Game.js_bind].
    destruct ((valueAt b (row, col) <? 1) || (9 <? valueAt b (row, col))) eqn:Ev.
    + f_equal. symmetry. apply bool_decide_eq_true. left.
      apply orb_true_iff in Ev as [Ev | Ev]; [left | right]; lia.
    + apply orb_false_iff in Ev as [E1 E2].
      rewrite IH. f_equal. apply bool_decide_ext. rewrite Exists_cons.
      split; [auto |]. intros [Hz | ?]; [lia | assumption].
Qed.

(** X25: [fillNumber] does not check its argument.  In a game in play,
    with an open cell selected, not paused, not completed and not in note
    mode, a number below 0 or above 9 is written to the board like any
    other.  The cell is then shown as empty ([getCellValue] gives 0) and
    [hasEmptyCell] says there is an empty cell, yet [hint] does not count
    the cell as empty and, the solution holding 0..9 there, [checkAnswer]
    lists it as an error. *)
Theorem fillNumber_unvalidated origin s p num :
  Game.inPlay origin s -> Game.selectedCell s = Some p ->
  Game.isPaused s = false -> Game.isCompleted s = false ->
  Game.noteMode s = false -> valueAt (Game.puzzle s) p = 0 ->
  num < 0 \/ 9 < num ->
  exists s',
    Game.fillNumber num s = Game.Value s' /\
    valueAt (Game.playerBoard s') p = num /\
    Game.getCellValue (fst p) (snd p) s' = 0 /\
    Game.hasEmptyCell s' = Game.Value true /\
    (exists cells,
       Game.emptyCells (Game.playerBoard s') positions = Game.Value cells /\
       ~ In p cells) /\
    (0 <= valueAt (Game.solution s) p <= 9 ->
     exists result,
       Game.checkAnswer s' = Game.Value result /\
       In p (Game.errorCells result) /\ Game.isCorrect result = false).
Proof.
  intros Hin Esel Epause Ecompl Enote Hz Hnum.
  pose proof Hin as [Hp Hb Hs Hn Hg Hsel Hact Hh Hf].
  pose proof (Hsel _ Esel) as Hat.
  rewrite (fillNumber_plain origin s p num Hin Esel Epause Ecompl Hz Enote).
  eexists. split; [reflexivity |].
  set (b' := setCell (Game.playerBoard s) (fst p) (snd p) num).
  assert (Hb' : wfBoard b') by (by apply wfBoard_setCell).
  assert (Hv : valueAt b' p = num) by (by apply valueAt_setCell_at).
  assert (Hpos : In p positions) by (by apply in_positions).
  unfold Game.hasEmptyCell, Game.checkAnswer, Game.getCellValue.
  cbn [Game.withMove Game.playerBoard Game.solution]. fold b'.
  split; [exact Hv |]. split; [| split; [| split]].
  - pose proof (wfBoard_cell b' p Hb' Hat) as Hc. unfold cell in Hc.
    destruct (b' !! fst p) as [r|]; [| discriminate]. rewrite Hc, Hv.
    destruct (Z.leb_spec 0 num); destruct (Z.leb_spec num 9); simpl; lia.
  - rewrite (someNoDigit_wf _ _ Hb' Forall_inGrid_positions). f_equal.
    apply bool_decide_eq_true. apply Exists_exists. exists p.
    split; [by apply list_elem_of_In | lia].
  - rewrite (emptyCells_wf _ _ Hb' Forall_inGrid_positions).
    eexists. split; [reflexivity |]. intros Hc.
    apply list_elem_of_In, list_elem_of_filter in Hc as [Hc _]. lia.
  - intros Hsol.
    rewrite (checkCells_wf _ _ _ Hb' Hs Forall_inGrid_positions). cbv zeta.
    eexists. split; [reflexivity |]. cbn [Game.errorCells Game.isCorrect app andb].
    assert (Hw : p ∈ filter (fun q => valueAt b' q <> 0 /\
                                      valueAt b' q <> valueAt (Game.solution s) q)
                            positions).
    { apply list_elem_of_filter. split; [lia | by apply list_elem_of_In]. }
    split; [by apply list_elem_of_In |].
    apply bool_decide_eq_false. intros E. rewrite E in Hw.
    by apply not_elem_of_nil in Hw.
Qed.

Lemma fillNumber_unvalidated_witness :
  exists s',
    Game.fillNumber 12 (Game.selectCell 4 4 sampleGame) = Game.Value s' /\
    valueAt (Game.playerBoard s') (4, 4)%nat = 12 /\
    Game.getCellValue 4 4 s' = 0 /\
    Game.hasEmptyCell s' = Game.Value true /\
    (exists cells,
       Game.emptyCells (Game.playerBoard s') positions = Game.Value cells /\
       ~ In (4, 4)%nat cells) /\
    (0 <= valueAt sampleGrid (4, 4)%nat <= 9 ->
     exists result,
       Game.checkAnswer s' = Game.Value result /\
       In (4, 4)%nat (Game.errorCells result) /\ Game.isCorrect result = false).
Proof.
  apply (fillNumber_unvalidated samplePuzzle (Game.selectCell 4 4 sampleGame)
           (4, 4)%nat 12); try reflexivity; [| lia].
  destruct (perform_inPlay sampleSource samplePuzzle (Game.SelectCell 4 4)
              sampleGame 0 (started_inPlay _ started_sampleGame))
    as (s' & k' & E & Hin & _).
  - split; simpl; lia.
  - injection E as <- _. exact Hin.
Defined.
